(** * Kitty graphics subsystem of ghostty-web: shallow embedding and properties

    The development follows the TypeScript sources:
    - [src/lib/graphics/kitty-parser.ts]   (module [KittyParser])
    - [src/lib/graphics/image-decoder.ts]  (module [ImageDecoder])
    - [src/lib/graphics/graphics-storage.ts] (module [GraphicsStorage])
    - [src/lib/graphics/graphics-manager.ts] (module [GraphicsManager])

    Part I holds the embedding (definitions only), Part II the properties.

    Modelling conventions.
    - A JavaScript string is the list of its UTF-16 code units, each a [Z].
    - String and array indices are [nat]; the value [-1] returned by
      [indexOf] is [None].
    - [while] and [for] loops whose termination is not structural take a
      fuel argument and answer [None] when it runs out; Part II shows that the
      fuel the callers pass is always enough.
    - JavaScript numbers that hold sizes, rows and dimensions are [Z]
      (exact integer arithmetic); a number that comes from [parseInt] is a
      [jsnum], which adds [NaN]. *)

From Stdlib Require Import Ascii String.
From Stdlib Require Import ZArith Bool Lia Arith List Permutation.
From Stdlib Require Import DecimalZ DecimalPos.
Import ListNotations.

(* ===================================================================== *)
(** * Part I. The embedding                                               *)
(* ===================================================================== *)

(** ** JavaScript strings *)

Module JS.

Definition jsstring := list Z.

(** A literal of printable ASCII characters. *)
Definition str (s : string) : jsstring :=
  map (fun a => Z.of_nat (nat_of_ascii a)) (list_ascii_of_string s).

Definition jsstring_eqb (a b : jsstring) : bool :=
  if list_eq_dec Z.eq_dec a b then true else false.

(** [pat] occurs at the head of [s]. *)
Fixpoint startsWith (pat s : jsstring) : bool :=
  match pat, s with
  | [], _ => true
  | p :: pat', c :: s' => (p =? c)%Z && startsWith pat' s'
  | _ :: _, [] => false
  end.

(** First occurrence of [pat] in [s], reported as an index offset by [i]. *)
Fixpoint find_from (pat s : jsstring) (i : nat) : option nat :=
  if startsWith pat s then Some i
  else match s with
       | [] => None
       | _ :: s' => find_from pat s' (S i)
       end.

(** [s.indexOf(pat, from)]; [None] stands for [-1]. *)
Definition indexOf (s pat : jsstring) (from : nat) : option nat :=
  let from' := Nat.min from (length s) in
  find_from pat (skipn from' s) from'.

(** [s.includes(pat)]. *)
Definition includes (s pat : jsstring) : bool :=
  match indexOf s pat 0 with Some _ => true | None => false end.

(** [s.substring(a, b)]: both ends are clamped to the length and swapped
    when they come in the wrong order. *)
Definition substring (s : jsstring) (a b : nat) : jsstring :=
  let a' := Nat.min a (length s) in
  let b' := Nat.min b (length s) in
  firstn (Nat.max a' b' - Nat.min a' b') (skipn (Nat.min a' b') s).

(** [s.substring(a)]. *)
Definition substringFrom (s : jsstring) (a : nat) : jsstring := skipn a s.

(** [s[i] === c]; an index past the end reads [undefined]. *)
Definition charIs (s : jsstring) (i : nat) (c : Z) : bool :=
  match nth_error s i with
  | Some d => (d =? c)%Z
  | None => false
  end.

(** White space as [\s] and [parseInt] see it (WhiteSpace and
    LineTerminator of ECMAScript). *)
Definition isSpace (c : Z) : bool :=
  ((9 <=? c) && (c <=? 13) || (c =? 32) || (c =? 160) || (c =? 5760)
   || (8192 <=? c) && (c <=? 8202) || (c =? 8232) || (c =? 8233)
   || (c =? 8239) || (c =? 8287) || (c =? 12288) || (c =? 65279))%Z.

Definition isDigit (c : Z) : bool := ((48 <=? c) && (c <=? 57))%Z.

(** A number produced by [Number.parseInt]. *)
Inductive jsnum : Type :=
| NaN
| Int (z : Z).

(** SameValueZero, the key equality of [Map] and [Set]. *)
Definition sameValueZero (a b : jsnum) : bool :=
  match a, b with
  | NaN, NaN => true
  | Int x, Int y => (x =? y)%Z
  | _, _ => false
  end.

(** [===], the equality [Array.prototype.indexOf] uses. *)
Definition strictEq (a b : jsnum) : bool :=
  match a, b with
  | Int x, Int y => (x =? y)%Z
  | _, _ => false
  end.

Fixpoint dropSpaces (s : jsstring) : jsstring :=
  match s with
  | c :: s' => if isSpace c then dropSpaces s' else s
  | [] => []
  end.

(** Value of the leading decimal digits of [s], with their count. *)
Fixpoint digitsValue (s : jsstring) (acc : Z) (n : nat) : Z * nat :=
  match s with
  | c :: s' => if isDigit c then digitsValue s' (acc * 10 + (c - 48))%Z (S n)
               else (acc, n)
  | [] => (acc, n)
  end.

(** [Number.parseInt(v, 10)], exact on [Z]: it is [Number.parseInt] on
    the digit strings of the safe integers (up to 2^53 - 1 in absolute
    value); above them JavaScript rounds to a double, which the model does
    not follow. *)
Definition parseInt (v : jsstring) : jsnum :=
  let s := dropSpaces v in
  let '(neg, s) :=
    match s with
    | c :: s' => if (c =? 45)%Z then (true, s')
                 else if (c =? 43)%Z then (false, s') else (false, s)
    | [] => (false, s)
    end in
  let '(v, n) := digitsValue s 0%Z 0 in
  match n with
  | O => NaN
  | S _ => Int (if neg then (- v)%Z else v)
  end.

(** How a call ends: with a value, with an exception, or not at all (a
    loop that exhausts its fuel). *)
Inductive jserror : Type :=
| RangeError                     (* thrown by the language *)
| Error (message : string)       (* [throw new Error(message)] *)
| HostError.                     (* thrown or rejected by a browser API *)

Inductive result (A : Type) : Type :=
| Ok (a : A)
| Throw (e : jserror)
| OutOfFuel.
Arguments Ok {A} a.
Arguments Throw {A} e.
Arguments OutOfFuel {A}.

Definition bind {A B} (x : result A) (f : A -> result B) : result B :=
  match x with
  | Ok a => f a
  | Throw e => Throw e
  | OutOfFuel => OutOfFuel
  end.

(** [ToInt32], the wrap-around of the bitwise operators. *)
Definition toInt32 (z : Z) : Z :=
  ((z + 2147483648) mod 4294967296 - 2147483648)%Z.

(** [a << n], [a >> n], [a | b] and [a & b] on numbers. *)
Definition shl32 (a n : Z) : Z := toInt32 (Z.shiftl (toInt32 a) n).
Definition sar32 (a n : Z) : Z := Z.shiftr (toInt32 a) n.
Definition or32 (a b : Z) : Z := Z.lor (toInt32 a) (toInt32 b).
Definition and32 (a b : Z) : Z := Z.land (toInt32 a) (toInt32 b).

End JS.

Declare Scope js_scope.
Notation "x <- c1 ;; c2" := (JS.bind c1 (fun x => c2))
  (at level 61, c1 at next level, right associativity) : js_scope.


(** ** Regular expressions

    The fragment of ECMAScript regular expressions the sources use, with the
    backtracking semantics of the language: alternatives are tried in order,
    quantifiers are greedy and give characters back when the rest of the
    pattern fails.  The matcher is written in continuation-passing style
    over any element type that carries a code unit, so that the same
    definition runs on plain strings and on strings whose characters are
    tagged. *)

Module Regex.
Import JS.

Inductive regex : Type :=
| Chr (c : Z)                    (* one literal character *)
| Seq (r1 r2 : regex)            (* r1 r2 *)
| Alt (r1 r2 : regex)            (* r1|r2 *)
| Opt (r : regex)                (* (?:r)? *)
| Star (cls : Z -> bool)         (* [cls]* *)
| Plus (cls : Z -> bool).        (* [cls]+ *)

(** A literal string; [lit] is only applied to non-empty strings. *)
Fixpoint lit (s : jsstring) : regex :=
  match s with
  | [] => Star (fun _ => false)
  | [c] => Chr c
  | c :: s' => Seq (Chr c) (lit s')
  end.

Section Matcher.
Context {A R : Type} (code : A -> Z).

(** Greedy repetition of a character class, longest first. *)
Fixpoint star (cls : Z -> bool) (s : list A) (k : list A -> option R)
  : option R :=
  match s with
  | x :: s' =>
      if cls (code x) then
        match star cls s' k with
        | Some v => Some v
        | None => k s
        end
      else k s
  | [] => k s
  end.

(** [bt r s k]: match [r] at the head of [s] and hand the rest to [k];
    when [k] refuses, try the next way to match [r]. *)
Fixpoint bt (r : regex) (s : list A) (k : list A -> option R) : option R :=
  match r with
  | Chr c =>
      match s with
      | x :: s' => if (code x =? c)%Z then k s' else None
      | [] => None
      end
  | Seq r1 r2 => bt r1 s (fun s1 => bt r2 s1 k)
  | Alt r1 r2 =>
      match bt r1 s k with
      | Some v => Some v
      | None => bt r2 s k
      end
  | Opt r1 =>
      match bt r1 s k with
      | Some v => Some v
      | None => k s
      end
  | Star cls => star cls s k
  | Plus cls =>
      match s with
      | x :: s' => if cls (code x) then star cls s' k else None
      | [] => None
      end
  end.

End Matcher.

(** What one match does to the text: the number of characters it spans and
    the characters that replace them. *)
Definition matcher (A : Type) := list A -> option (nat * list A).

(** A pattern replaced by the empty string. *)
Definition matchDelete {A} (code : A -> Z) (r : regex) : matcher A :=
  fun s => bt code r s (fun rest => Some (length s - length rest, [])).

(** A pattern [r1(r2)] replaced by the text of its last group. *)
Definition matchKeepLast {A} (code : A -> Z) (r1 r2 : regex) : matcher A :=
  fun s =>
    bt code r1 s (fun s1 =>
      bt code r2 s1 (fun s2 =>
        Some (length s - length s2, firstn (length s1 - length s2) s1))).

(** [s.replace(/.../g, ...)]: matches are looked for from left to right,
    each search starting where the previous match ended; after an empty
    match one character is copied. [skip] counts the characters of the
    current match that are still to be dropped. *)
Fixpoint replaceLoop {A} (m : matcher A) (skip : nat) (s : list A) : list A :=
  match s with
  | [] =>
      match skip with
      | O => match m [] with Some (_, rep) => rep | None => [] end
      | S _ => []
      end
  | x :: s' =>
      match skip with
      | S skip' => replaceLoop m skip' s'
      | O =>
          match m s with
          | Some (O, rep) => rep ++ x :: replaceLoop m 0 s'
          | Some (S n, rep) => rep ++ replaceLoop m n s'
          | None => x :: replaceLoop m 0 s'
          end
      end
  end.

Definition replaceAll {A} (m : matcher A) (s : list A) : list A :=
  replaceLoop m 0 s.

(** No literal of the pattern is [c0] and no class of it holds [c0]. *)
Fixpoint avoids (c0 : Z) (r : regex) : bool :=
  match r with
  | Chr c => negb (c =? c0)%Z
  | Seq r1 r2 | Alt r1 r2 => avoids c0 r1 && avoids c0 r2
  | Opt r1 => avoids c0 r1
  | Star cls | Plus cls => negb (cls c0)
  end.

(** A match with its replacement reduced to code units. *)
Definition eraseMatch {A} (code : A -> Z) (v : nat * list A)
  : nat * list Z :=
  (fst v, map code (snd v)).

(** *** Patterns that need a character *)

(** Every match of the pattern holds the character [c0]. *)
Fixpoint needs (c0 : Z) (r : regex) : bool :=
  match r with
  | Chr c => (c =? c0)%Z
  | Seq r1 r2 => needs c0 r1 || needs c0 r2
  | Alt r1 r2 => needs c0 r1 && needs c0 r2
  | Opt _ | Star _ | Plus _ => false
  end.

End Regex.

(** ** kitty-parser.ts *)

Module KittyParser.
Import JS Regex.

Definition ESC : Z := 27%Z.
Definition BACKSLASH : Z := 92%Z.

(** [APC_START = ESC + "_G"]. *)
Definition APC_START : jsstring := Eval cbv in ESC :: str "_G".
(** [ST = ESC + "\\"]. *)
Definition ST : jsstring := Eval cbv in [ESC; BACKSLASH].
(** [TMUX_PASSTHROUGH_START = ESC + "Ptmux;" + ESC]. *)
Definition TMUX_PASSTHROUGH_START : jsstring :=
  Eval cbv in ESC :: str "Ptmux;" ++ [ESC].

(** [inner.replace(/\x1b\x1b/g, ESC)]. *)
Fixpoint unescapeDoubledEsc (s : jsstring) : jsstring :=
  match s with
  | c :: s' =>
      match s' with
      | d :: s'' =>
          if ((c =? ESC) && (d =? ESC))%Z then ESC :: unescapeDoubledEsc s''
          else c :: unescapeDoubledEsc s'
      | [] => [c]
      end
  | [] => []
  end.

(** The [for] loop of [unwrapTmuxPassthrough] that looks for the outer
    terminator; [Some None] is [endIdx === -1]. *)
Fixpoint findOuterTerminator (fuel : nat) (data : jsstring)
    (innerStart i : nat) : option (option nat) :=
  match fuel with
  | O => None
  | S fuel' =>
      if i + 1 <? length data then
        if charIs data i ESC && charIs data (i + 1) BACKSLASH then
          if (innerStart <? i) && charIs data (i - 1) ESC then
            findOuterTerminator fuel' data innerStart (i + 2)
          else Some (Some i)
        else findOuterTerminator fuel' data innerStart (i + 1)
      else Some None
  end.

(** The [while] loop of [unwrapTmuxPassthrough]. *)
Fixpoint unwrapLoop (fuel : nat) (data : jsstring) (pos : nat)
    (result : jsstring) : option jsstring :=
  match fuel with
  | O => None
  | S fuel' =>
      if pos <? length data then
        match indexOf data TMUX_PASSTHROUGH_START pos with
        | None => Some (result ++ substringFrom data pos)
        | Some startIdx =>
            let result := result ++ substring data pos startIdx in
            let innerStart := startIdx + length TMUX_PASSTHROUGH_START in
            match findOuterTerminator (S (length data)) data
                    innerStart innerStart with
            | None => None
            | Some None => Some (result ++ substringFrom data startIdx)
            | Some (Some endIdx) =>
                let inner := substring data innerStart endIdx in
                unwrapLoop fuel' data (endIdx + 2)
                  (result ++ unescapeDoubledEsc inner)
            end
        end
      else Some result
  end.

Definition unwrapTmuxPassthrough (data : jsstring) : option jsstring :=
  unwrapLoop (S (length data)) data 0 [].

(** [Map<string, string>] in insertion order. *)
Definition Params := list (jsstring * jsstring).

Fixpoint paramsGet (params : Params) (key : jsstring) : option jsstring :=
  match params with
  | (k, v) :: rest => if jsstring_eqb k key then Some v else paramsGet rest key
  | [] => None
  end.

Fixpoint paramsSet (params : Params) (key value : jsstring) : Params :=
  match params with
  | (k, v) :: rest =>
      if jsstring_eqb k key then (k, value) :: rest
      else (k, v) :: paramsSet rest key value
  | [] => [(key, value)]
  end.

(** [s.split(sep)] for a one-character separator. *)
Fixpoint split (sep : Z) (s : jsstring) : list jsstring :=
  match s with
  | [] => [[]]
  | c :: s' =>
      if (c =? sep)%Z then [] :: split sep s'
      else match split sep s' with
           | h :: t => (c :: h) :: t
           | [] => [[c]]
           end
  end.

Definition parseControlData (controlStr : jsstring) : Params :=
  match controlStr with
  | [] => []
  | _ =>
      fold_left
        (fun params pair =>
           match indexOf pair (str "=") 0 with
           | Some (S eqIndex') =>
               let eqIndex := S eqIndex' in
               paramsSet params (substring pair 0 eqIndex)
                 (substringFrom pair (eqIndex + 1))
           | _ => params
           end)
        (split 44%Z controlStr) []
  end.

Record KittyCommand := {
  action : jsstring;
  payload : option jsstring;
  imageId : option jsnum;
  imageNumber : option jsnum;
  placementId : option jsnum;
  format : option jsnum;
  transmission : option jsstring;
  compression : option jsstring;
  more : option bool;
  width : option jsnum;
  height : option jsnum;
  displayWidth : option jsnum;
  displayHeight : option jsnum;
  srcX : option jsnum;
  srcY : option jsnum;
  srcWidth : option jsnum;
  srcHeight : option jsnum;
  cellX : option jsnum;
  cellY : option jsnum;
  offsetX : option jsnum;
  offsetY : option jsnum;
  zIndex : option jsnum;
  cursorMovement : option jsnum;
  quiet : option jsnum;
  deleteTarget : option jsstring
}.

(** [x || undefined] and [if (x) ...] on an optional string: the empty
    string is falsy. *)
Definition truthyStr (x : option jsstring) : option jsstring :=
  match x with
  | Some [] => None
  | _ => x
  end.

Definition paramsToCommand (params : Params) (payload : jsstring)
  : KittyCommand :=
  let getNum key := option_map parseInt (paramsGet params (str key)) in
  {| action := match truthyStr (paramsGet params (str "a")) with
               | Some a => a
               | None => str "T"
               end;
     payload := truthyStr (Some payload);
     imageId := getNum "i"%string;
     imageNumber := getNum "I"%string;
     placementId := getNum "p"%string;
     format := getNum "f"%string;
     transmission := truthyStr (paramsGet params (str "t"));
     compression := truthyStr (paramsGet params (str "o"));
     more := option_map (fun m => jsstring_eqb m (str "1"))
               (paramsGet params (str "m"));
     width := getNum "s"%string;
     height := getNum "v"%string;
     displayWidth := getNum "c"%string;
     displayHeight := getNum "r"%string;
     srcX := None;
     srcY := None;
     srcWidth := None;
     srcHeight := None;
     cellX := getNum "X"%string;
     cellY := getNum "Y"%string;
     offsetX := getNum "x"%string;
     offsetY := getNum "y"%string;
     zIndex := getNum "z"%string;
     cursorMovement := getNum "C"%string;
     quiet := getNum "q"%string;
     deleteTarget := truthyStr (paramsGet params (str "d")) |}.

Record KittyParseResult := {
  command : KittyCommand;
  startIndex : nat;
  endIndex : nat
}.

Record ExtractResult := {
  cleanedData : jsstring;
  commands : list KittyParseResult;
  hasGraphics : bool;
  fullData : jsstring
}.

(** The parser object: its only mutable field is [pendingData]. *)
Record Parser := {
  pendingData : jsstring
}.

Definition newParser : Parser := {| pendingData := [] |}.

(** [parseSequence]; the [catch] branch that answers [null] is never taken
    because [parseControlData] and [paramsToCommand] do not throw. *)
Definition parseSequence (content : jsstring) (startIndex endIndex : nat)
  : option KittyParseResult :=
  let '(controlStr, payload) :=
    match indexOf content (str ";") 0 with
    | None => (content, [])
    | Some semicolonIdx =>
        (substring content 0 semicolonIdx,
         substringFrom content (semicolonIdx + 1))
    end in
  let params := parseControlData controlStr in
  let command := paramsToCommand params payload in
  Some {| command := command; startIndex := startIndex;
          endIndex := endIndex |}.

(** The scanning loop of [extract].  It returns the cleaned text, the
    commands and the new [pendingData]. *)
Fixpoint extractLoop (fuel : nat) (fullData : jsstring) (pos : nat)
    (cleanedData : jsstring) (commands : list KittyParseResult)
  : option (jsstring * list KittyParseResult * jsstring) :=
  match fuel with
  | O => None
  | S fuel' =>
      if pos <? length fullData then
        match indexOf fullData APC_START pos with
        | None =>
            Some (cleanedData ++ substringFrom fullData pos, commands, [])
        | Some startIdx =>
            let cleanedData :=
              cleanedData ++ substring fullData pos startIdx in
            match indexOf fullData ST startIdx with
            | None =>
                Some (cleanedData, commands, substringFrom fullData startIdx)
            | Some endIdx =>
                let content :=
                  substring fullData (startIdx + length APC_START) endIdx in
                let commands :=
                  match parseSequence content startIdx
                          (endIdx + length ST) with
                  | Some parsed => commands ++ [parsed]
                  | None => commands
                  end in
                extractLoop fuel' fullData (endIdx + length ST)
                  cleanedData commands
            end
        end
      else Some (cleanedData, commands, [])
  end.

(** [KittyParser.extract]: the parser after the call and the result. *)
Definition extract (p : Parser) (data : jsstring)
  : option (Parser * ExtractResult) :=
  let fullData := pendingData p ++ data in
  match (if includes fullData TMUX_PASSTHROUGH_START
         then unwrapTmuxPassthrough fullData else Some fullData) with
  | None => None
  | Some fullData =>
      match extractLoop (S (length fullData)) fullData 0 [] [] with
      | None => None
      | Some (cleanedData, commands, pending) =>
          Some ({| pendingData := pending |},
                {| cleanedData := cleanedData;
                   commands := commands;
                   hasGraphics := 0 <? length commands;
                   fullData := fullData |})
      end
  end.

Definition hasGraphicsSequence (data : jsstring) : bool :=
  includes data APC_START || includes data TMUX_PASSTHROUGH_START.

Definition hasPendingData (p : Parser) : bool :=
  0 <? length (pendingData p).

(** *** Echo stripping and placeholder stripping *)

Definition notSpace (c : Z) : bool := negb (isSpace c).

(** [i=\d+]. *)
Definition reImageId : regex := Seq (lit (str "i=")) (Plus isDigit).
(** [,p=\d+]. *)
Definition rePlacementId : regex := Seq (lit (str ",p=")) (Plus isDigit).
(** The group [OK|ENOENT:[^\s]*]. *)
Definition reStatus : regex :=
  Alt (lit (str "OK")) (Seq (lit (str "ENOENT:")) (Star notSpace)).
(** The optional terminator, [\x1b\\] or [\\]. *)
Definition reTerminator : regex :=
  Opt (Alt (lit [ESC; BACKSLASH]) (Chr BACKSLASH)).

(** The pattern [withG]: an optional [\x1b_] or [_], then [G], the two
    optional identifiers, [;], the status and the optional terminator. *)
Definition withG : regex :=
  Seq (Opt (Alt (lit (ESC :: str "_")) (Chr 95%Z)))
  (Seq (Chr 71%Z)
  (Seq (Opt reImageId)
  (Seq (Opt rePlacementId)
  (Seq (Chr 59%Z)
  (Seq reStatus reTerminator))))).

(** [i=\d+], the optional [,p=\d+], [;] and the status: the body shared by
    [bareResponse] and group 1 of [framedResponse]. *)
Definition reResponse : regex :=
  Seq reImageId (Seq (Opt rePlacementId) (Seq (Chr 59%Z) reStatus)).

(** The pattern [bareResponse]: the body and the optional terminator. *)
Definition bareResponse : regex := Seq reResponse reTerminator.

(** The pattern [framedResponse], split before its second group:
    [\x1b\[\d+;\d+H] and the body as group 1, then [\x1b\[K] as group 2. *)
Definition framedHead : regex :=
  Seq (lit (ESC :: str "["))
  (Seq (Plus isDigit)
  (Seq (Chr 59%Z)
  (Seq (Plus isDigit)
  (Seq (Chr 72%Z) reResponse)))).
Definition framedErase : regex := lit (ESC :: str "[K").

Section Strip.
Context {A : Type} (code : A -> Z).

(** The three [replace] calls of [stripEchoedResponses], in order. *)
Definition stripEchoedResponsesOn (data : list A) : list A :=
  replaceAll (matchDelete code bareResponse)
    (replaceAll (matchKeepLast code framedHead framedErase)
       (replaceAll (matchDelete code withG) data)).

End Strip.

Definition stripEchoedResponses (data : jsstring) : jsstring :=
  stripEchoedResponsesOn (fun c => c) data.

(** The combining marks that follow the placeholder character. *)
Definition isPlaceholderMark (c : Z) : bool :=
  ((768 <=? c) && (c <=? 879) || (1155 <=? c) && (c <=? 1161)
   || (1425 <=? c) && (c <=? 1469) || (c =? 1471) || (c =? 1473)
   || (c =? 1474) || (c =? 1476) || (c =? 1477) || (c =? 1479))%Z.

(** The pattern U+DBFB U+DEEE followed by any number of marks. *)
Definition placeholderPattern : regex :=
  Seq (Chr 56315%Z) (Seq (Chr 57070%Z) (Star isPlaceholderMark)).

Definition stripUnicodePlaceholders (data : jsstring) : jsstring :=
  replaceAll (matchDelete (fun c => c) placeholderPattern) data.


(** *** Vocabulary for the properties of the parser *)

(** [pat] occurs in [s] at index [j]. *)
Definition occursAt (s pat : jsstring) (j : nat) : Prop :=
  startsWith pat (skipn j s) = true.

(** The slice of a command is a whole frame: start marker, body,
    terminator. *)
Definition wellFramed (full : jsstring) (c : KittyParseResult) : Prop :=
  exists body,
    substring full (startIndex c) (endIndex c) = APC_START ++ body ++ ST.

(** The ranges lie between [from] and [stop], in increasing order, none
    empty, none overlapping the next. *)
Fixpoint ordered (from : nat) (cs : list KittyParseResult) (stop : nat)
  : Prop :=
  match cs with
  | [] => from <= stop
  | c :: cs' =>
      from <= startIndex c /\ startIndex c < endIndex c /\
      ordered (endIndex c) cs' stop
  end.

(** The text of [full] between [from] and [stop] that lies outside the
    ranges of [cs], in order. *)
Fixpoint outside (full : jsstring) (from : nat) (cs : list KittyParseResult)
    (stop : nat) : jsstring :=
  match cs with
  | [] => substring full from stop
  | c :: cs' =>
      substring full from (startIndex c) ++ outside full (endIndex c) cs' stop
  end.

(** End of the last range, or [from] when there is none. *)
Fixpoint lastEnd (from : nat) (cs : list KittyParseResult) : nat :=
  match cs with
  | [] => from
  | c :: cs' => lastEnd (endIndex c) cs'
  end.

(** *** Vocabulary for the properties of echo stripping *)

Section Cut.
Context {A : Type} (o post u0 : list A).

(** [s] is a suffix of [u0 ++ o ++ post] that begins in [u0] or at the
    first character of [o]. *)
Definition before (s : list A) : Prop :=
  exists a u, u0 = a ++ u /\ s = u ++ o ++ post.

(** [s] is a suffix of [post]. *)
Definition after (s : list A) : Prop := exists q, post = q ++ s.

Definition safe (s : list A) : Prop := before s \/ after s.

(** [s] is a suffix of [o ++ post] that begins in [o] or at the first
    character of [post]. *)
Definition within (s : list A) : Prop :=
  exists o1 o2, o = o1 ++ o2 /\ s = o2 ++ post.

End Cut.

Definition digits (d : jsstring) : Prop :=
  d <> [] /\ forallb isDigit d = true.

Definition placementPart (p : jsstring) : Prop :=
  p = [] \/ exists d, digits d /\ p = str ",p=" ++ d.

(** [i=<digits>], the optional [,p=<digits>], [;] and [status]. *)
Definition responseHead (status c : jsstring) : Prop :=
  exists d p, digits d /\ placementPart p /\
              c = str "i=" ++ d ++ p ++ 59%Z :: status.

(** No whitespace and no escape character. *)
Definition plainChar (c : Z) : bool := notSpace c && negb (c =? ESC)%Z.

(** An echoed response without frame: the head with status [OK], or the
    head with status [ENOENT:] and a message without whitespace and
    without escape character. *)
Definition bareEchoedResponse (o : jsstring) : Prop :=
  responseHead (str "OK") o \/
  exists hd msg, o = hd ++ msg /\ responseHead (str "ENOENT:") hd /\
                 forallb plainChar msg = true.

(** Each character with a mark. *)
Definition tag (b : bool) (s : jsstring) : list (Z * bool) :=
  map (fun c => (c, b)) s.

(** [i=] followed by a digit, at the head of the text. *)
Definition numericIdHere (s : jsstring) : bool :=
  match s with
  | x :: y :: z :: _ => ((x =? 105) && (y =? 61))%Z && isDigit z
  | _ => false
  end.

(** [i=] followed by a digit, somewhere in the text. *)
Fixpoint hasNumericId (s : jsstring) : bool :=
  match s with
  | [] => false
  | _ :: s' => numericIdHere s || hasNumericId s'
  end.

(** The letter [G] occurs in the text. *)
Definition hasG (s : jsstring) : bool := existsb (Z.eqb 71) s.

(** *** Sample inputs *)

(** A tmux wrapper around one frame, cut inside the frame. *)
Definition tmuxChunk1 : jsstring :=
  TMUX_PASSTHROUGH_START ++ APC_START ++ str "a=T;da".
Definition tmuxChunk2 : jsstring := str "ta" ++ [ESC] ++ ST ++ ST.

(** The input of the repository's test "handles tmux passthrough at chunk
    boundary": a wrapper whose last two characters are a terminator. *)
Definition tmuxBoundaryChunk : jsstring :=
  TMUX_PASSTHROUGH_START ++ APC_START ++ str "a=T;data" ++ ST.

(** The payloads of the commands of a result. *)
Definition payloads (r : ExtractResult) : list (option jsstring) :=
  map (fun c => payload (command c)) (commands r).

(** Text, a whole delete command, text, and the first half of a frame. *)
Definition halfFrameChunk : jsstring :=
  str "ab" ++ APC_START ++ str "a=d" ++ ST ++ str "cd"
  ++ APC_START ++ str "a=T;xy".

(** Text and the first part of a transmit frame, with no whole frame
    before it; then the rest of the frame and text. *)
Definition partialFrameChunk : jsstring :=
  str "ab" ++ APC_START ++ str "a=t,i=7,s=1,v=1;AQID".
Definition restOfFrameChunk : jsstring := str "BA==" ++ ST ++ str "cd".

(** *** Framed texts, wrappers and control strings *)

(** No escape character. *)
Definition noEsc (s : jsstring) : bool :=
  forallb (fun c => negb (c =? ESC)%Z) s.

(** A whole frame around [body]. *)
Definition frame (body : jsstring) : jsstring := APC_START ++ body ++ ST.

(** Text and frames in turn: each segment is a text and the body of the
    frame that follows it; [tail] is the text after the last frame. *)
Fixpoint framedText (segs : list (jsstring * jsstring)) (tail : jsstring)
  : jsstring :=
  match segs with
  | [] => tail
  | (text, body) :: segs' => text ++ frame body ++ framedText segs' tail
  end.

(** [pat] does not occur in [s]. *)
Definition absent (pat s : jsstring) : Prop := forall k, ~ occursAt s pat k.

(** What the scanning loop of [extract] makes of a text: the text outside
    the frames, the bodies of the frames and the unfinished frame at the
    end. *)
Inductive Scans : jsstring -> jsstring -> list jsstring -> jsstring -> Prop :=
| scan_text s :
    absent APC_START s -> Scans s s [] []
| scan_pending t rest :
    absent APC_START (t ++ [ESC; 95%Z]) ->
    absent ST (APC_START ++ rest) ->
    Scans (t ++ APC_START ++ rest) t [] (APC_START ++ rest)
| scan_frame t body s' c bs p :
    absent APC_START (t ++ [ESC; 95%Z]) ->
    absent ST (APC_START ++ body ++ [ESC]) ->
    Scans s' c bs p ->
    Scans (t ++ APC_START ++ body ++ ST ++ s') (t ++ c) (body :: bs) p.

(** No escape character is followed by [P]. *)
Fixpoint escNotP (s : jsstring) : bool :=
  match s with
  | c :: s' =>
      match s' with
      | d :: _ => negb ((c =? ESC) && (d =? 80))%Z && escNotP s'
      | [] => true
      end
  | [] => true
  end.

(** The commands are the frames of the bodies, read by [parseSequence]. *)
Definition readFrom (cmds : list KittyParseResult) (bodies : list jsstring)
  : Prop :=
  Forall2 (fun c body => parseSequence body (startIndex c) (endIndex c)
                         = Some c) cmds bodies.

(** The last two characters of a text. *)
Definition lastTwo (s : jsstring) : jsstring := skipn (length s - 2) s.

(** The end of the first chunk and the beginning of the second do not make
    a start marker together. *)
Definition cutsNoMarker (s1 d2 : jsstring) : bool :=
  negb (includes (lastTwo s1 ++ firstn 2 d2) APC_START).

Definition secondHalfChunk : jsstring :=
  str "z" ++ ST ++ str "ef" ++ APC_START ++ str "a=q" ++ ST.

(** Every escape character doubled, as tmux asks for inside a wrapper. *)
Fixpoint doubleEsc (s : jsstring) : jsstring :=
  match s with
  | [] => []
  | c :: s' =>
      if (c =? ESC)%Z then ESC :: ESC :: doubleEsc s' else c :: doubleEsc s'
  end.

(** The tmux wrapper around [inner]: [ESC P tmux ;], the content with its
    escape characters doubled, and the terminator. *)
Definition tmuxWrap (inner : jsstring) : jsstring :=
  (ESC :: str "Ptmux;") ++ doubleEsc inner ++ ST.

(** The content begins with an escape character that is not the one of a
    terminator, and does not end with one. *)
Definition wrappable (inner : jsstring) : bool :=
  match inner with
  | c :: d :: _ => (c =? ESC)%Z && negb (d =? BACKSLASH)%Z
  | _ => false
  end
  && negb (last inner 0 =? ESC)%Z.

(** Two frames between three texts. *)
Definition sampleSegments : list (jsstring * jsstring) :=
  [ (str "ab", str "a=T,f=100;AAAA"); (str "c", str "a=d") ].

(** [key=value]. *)
Definition pairString (kv : jsstring * jsstring) : jsstring :=
  fst kv ++ [61%Z] ++ snd kv.

(** The pairs joined with commas. *)
Fixpoint controlString (pairs : list (jsstring * jsstring)) : jsstring :=
  match pairs with
  | [] => []
  | [kv] => pairString kv
  | kv :: rest => pairString kv ++ [44%Z] ++ controlString rest
  end.

(** A key is not empty and has no [,], [=] or [;]; a value has no [,] and
    no [;]. *)
Definition plainKey (k : jsstring) : bool :=
  negb (Nat.eqb (length k) 0)
  && forallb (fun c => negb (c =? 44)%Z && negb (c =? 61)%Z
                       && negb (c =? 59)%Z) k.
Definition plainValue (v : jsstring) : bool :=
  forallb (fun c => negb (c =? 44)%Z && negb (c =? 59)%Z) v.
Definition plainPairs (pairs : list (jsstring * jsstring)) : bool :=
  forallb (fun kv => plainKey (fst kv) && plainValue (snd kv)) pairs.

(** The value of the last pair with the key [k]. *)
Definition lastValue (pairs : list (jsstring * jsstring)) (k : jsstring)
  : option jsstring :=
  option_map snd (find (fun kv => jsstring_eqb (fst kv) k) (rev pairs)).

(** The text has no character [sep]. *)
Definition freeOf (sep : Z) (s : jsstring) : Prop :=
  forallb (fun c => negb (c =? sep)%Z) s = true.

(** One turn of the loop of [parseControlData]. *)
Definition readPair (params : Params) (pair : jsstring) : Params :=
  match indexOf pair (str "=") 0 with
  | Some (S eqIndex') =>
      let eqIndex := S eqIndex' in
      paramsSet params (substring pair 0 eqIndex)
        (substringFrom pair (eqIndex + 1))
  | _ => params
  end.

Definition samplePairs : list (jsstring * jsstring) :=
  [(str "a", str "T"); (str "i", str "7"); (str "f", str "100");
   (str "i", str "31")].

(** The two code units of the placeholder character U+10EEEE. *)
Definition PLACEHOLDER : jsstring := [56315%Z; 57070%Z].

(** Text and placeholders in turn: each segment is a text and the marks of
    the placeholder that follows it. *)
Fixpoint placeholderText (segs : list (jsstring * jsstring)) (tail : jsstring)
  : jsstring :=
  match segs with
  | [] => tail
  | (text, marks) :: segs' =>
      text ++ PLACEHOLDER ++ marks ++ placeholderText segs' tail
  end.

(** The texts have no first half of the placeholder; the marks are marks;
    no text after a placeholder begins with a mark. *)
Fixpoint placeholdersApart (segs : list (jsstring * jsstring))
    (tail : jsstring) : bool :=
  match segs with
  | [] => forallb (fun c => negb (c =? 56315)%Z) tail
  | (text, marks) :: segs' =>
      forallb (fun c => negb (c =? 56315)%Z) text
      && forallb isPlaceholderMark marks
      && match placeholderText segs' tail with
         | c :: _ => negb (isPlaceholderMark c)
         | [] => true
         end
      && placeholdersApart segs' tail
  end.

(** No escape character, no semicolon and no first half of the placeholder
    character. *)
Definition plainText (t : jsstring) : bool :=
  forallb (fun c => negb (c =? ESC)%Z && negb (c =? 59)%Z
                    && negb (c =? 56315)%Z) t.

(** No semicolon is followed by [O] or [E], the first letters of the
    status of a response. *)
Fixpoint noStatus (s : jsstring) : bool :=
  match s with
  | c :: s' =>
      match s' with
      | d :: _ => negb ((c =? 59) && ((d =? 79) || (d =? 69)))%Z && noStatus s'
      | [] => true
      end
  | [] => true
  end.

(** A text the two stripping passes of [processData] leave alone. *)
Definition unstripped (s : jsstring) : bool :=
  noStatus s && forallb (fun c => negb (c =? 56315)%Z) s.

(** A put and a delete command between texts. *)
Definition putAndDelete : list (jsstring * jsstring) :=
  [ (str "ab", str "a=p,i=7,p=2"); (str "c", str "a=d,d=a") ].

End KittyParser.

(** ** image-decoder.ts *)

Module ImageDecoder.
Import JS.
Local Open Scope Z_scope.
Local Open Scope js_scope.

(** The contents of a [Uint8Array]: every element is in [0, 255]. *)
Definition bytes := list Z.

Definition isByte (b : Z) : Prop := 0 <= b < 256.

Definition BASE64_CHARS : jsstring :=
  Eval cbv in
    str "ABCDEFGHIJKLMNOPQRSTUVWXYZabcdefghijklmnopqrstuvwxyz0123456789+/".

Fixpoint setNth (i : nat) (v : Z) (l : list Z) : list Z :=
  match l, i with
  | [], _ => []
  | _ :: l', O => v :: l'
  | x :: l', S i' => x :: setNth i' v l'
  end.

(** [BASE64_LOOKUP], filled by the loop at the top of the file. *)
Definition BASE64_LOOKUP : list Z :=
  Eval cbv in
    fold_left
      (fun tbl i => setNth (Z.to_nat (nth i BASE64_CHARS 0)) (Z.of_nat i) tbl)
      (seq 0 (length BASE64_CHARS)) (repeat 0 256).

Definition lookup (c : Z) : Z := nth (Z.to_nat c) BASE64_LOOKUP 0.

(** The characters of the standard alphabet. *)
Definition isBase64Code (c : Z) : bool :=
  (65 <=? c) && (c <=? 90) || (97 <=? c) && (c <=? 122)
  || (48 <=? c) && (c <=? 57) || (c =? 43) || (c =? 47).

(** First loop of [base64ToBytes]: the counts [validLen] and [padding]. *)
Fixpoint countChars (s : jsstring) (validLen padding : Z) : Z * Z :=
  match s with
  | [] => (validLen, padding)
  | c :: s' =>
      if isBase64Code c || (c =? 45) || (c =? 95)
      then countChars s' (validLen + 1) padding
      else if c =? 61 then countChars s' validLen (padding + 1)
      else countChars s' validLen padding
  end.

(** Second loop of [base64ToBytes].  [out] is the part of [output] written
    so far, so [outIdx] is its length. *)
Fixpoint decodeLoop (s : jsstring) (outputLen : Z) (out : bytes)
    (bits collected : Z) : bytes :=
  match s with
  | [] => out
  | c :: s' =>
      if Z.of_nat (length out) <? outputLen then
        let c := if c =? 45 then 43 else c in
        let c := if c =? 95 then 47 else c in
        if negb (isBase64Code c) then decodeLoop s' outputLen out bits collected
        else
          let bits := or32 (shl32 bits 6) (lookup c) in
          let collected := collected + 6 in
          if collected >=? 8 then
            let collected := collected - 8 in
            decodeLoop s' outputLen
              (out ++ [and32 (sar32 bits collected) 255]) bits collected
          else decodeLoop s' outputLen out bits collected
      else out
  end.

(** [base64ToBytes]; [new Uint8Array(outputLen)] throws a [RangeError] for
    a negative length, and the cells the loop does not reach stay zero. *)
Definition base64ToBytes (base64 : jsstring) : result bytes :=
  let '(validLen, padding) := countChars base64 0 0 in
  let outputLen := (validLen + padding) * 3 / 4 - padding in
  if outputLen <? 0 then Throw RangeError
  else
    let out := decodeLoop base64 outputLen [] 0 0 in
    Ok (out ++ repeat 0 (Z.to_nat outputLen - length out)).

Definition base64Char (i : Z) : Z := nth (Z.to_nat i) BASE64_CHARS 0.

(** [bytesToBase64]: one turn of the loop for each group of three bytes. *)
Fixpoint bytesToBase64 (bs : bytes) : jsstring :=
  match bs with
  | [] => []
  | [b1] =>
      [base64Char (sar32 b1 2);
       base64Char (or32 (shl32 (and32 b1 3) 4) (sar32 0 4));
       61; 61]
  | [b1; b2] =>
      [base64Char (sar32 b1 2);
       base64Char (or32 (shl32 (and32 b1 3) 4) (sar32 b2 4));
       base64Char (or32 (shl32 (and32 b2 15) 2) (sar32 0 6));
       61]
  | b1 :: b2 :: b3 :: rest =>
      base64Char (sar32 b1 2)
      :: base64Char (or32 (shl32 (and32 b1 3) 4) (sar32 b2 4))
      :: base64Char (or32 (shl32 (and32 b2 15) 2) (sar32 b3 6))
      :: base64Char (and32 b3 63)
      :: bytesToBase64 rest
  end.

(** The loop of [combineChunksToBytes]: empty chunks are skipped. *)
Fixpoint decodeChunks (chunks : list jsstring) : result bytes :=
  match chunks with
  | [] => Ok []
  | chunk :: rest =>
      match chunk with
      | [] => decodeChunks rest
      | _ =>
          bs <- base64ToBytes chunk ;;
          more <- decodeChunks rest ;;
          Ok (bs ++ more)
      end
  end.

Definition combineChunksToBytes (chunks : list jsstring) : result bytes :=
  match chunks with
  | [] => Ok []
  | [chunk] => base64ToBytes chunk
  | _ => decodeChunks chunks
  end.

(** An [ImageBitmap]; only its dimensions are read. *)
Record ImageBitmap := {
  bitmapWidth : Z;
  bitmapHeight : Z
}.

(** The browser interfaces the decoder calls. *)
Record Browser := {
  (** [DecompressionStream("deflate")], absent in some runtimes. *)
  inflate : option (bytes -> option bytes);
  (** [createImageBitmap(new Blob([png]))]. *)
  bitmapOfPng : bytes -> option ImageBitmap;
  (** [createImageBitmap(new ImageData(rgba, width, height))]. *)
  bitmapOfImageData : bytes -> Z -> Z -> option ImageBitmap
}.

Definition decompressZlib (browser : Browser) (data : bytes) : result bytes :=
  match inflate browser with
  | None =>
      Throw (Error "DecompressionStream not available - zlib not supported")
  | Some f =>
      match f data with
      | Some r => Ok r
      | None => Throw HostError
      end
  end.

(** [rgbToRgba]; a [NaN] dimension gives an empty array. *)
Definition rgbToRgba (rgb : bytes) (width height : jsnum) : result bytes :=
  match width, height with
  | Int w, Int h =>
      let pixelCount := w * h in
      if pixelCount * 4 <? 0 then Throw RangeError
      else
        Ok (flat_map
              (fun i => [nth (i * 3) rgb 0; nth (i * 3 + 1) rgb 0;
                         nth (i * 3 + 2) rgb 0; 255])
              (seq 0 (Z.to_nat pixelCount)))
  | _, _ => Ok []
  end.

(** [rawRgbaToImageBitmap]; [new ImageData] refuses a [NaN] dimension. *)
Definition rawRgbaToImageBitmap (browser : Browser) (rgba : bytes)
    (width height : jsnum) : result ImageBitmap :=
  match width, height with
  | Int w, Int h =>
      let expectedLen := w * h * 4 in
      if expectedLen <? 0 then Throw RangeError
      else
        let copied := firstn (Z.to_nat expectedLen) rgba in
        let rgbaCopy :=
          copied ++ repeat 0 (Z.to_nat expectedLen - length copied) in
        match bitmapOfImageData browser rgbaCopy w h with
        | Some b => Ok b
        | None => Throw HostError
        end
  | _, _ => Throw HostError
  end.

Definition pngToImageBitmap (browser : Browser) (pngData : bytes)
  : result ImageBitmap :=
  match bitmapOfPng browser pngData with
  | Some b => Ok b
  | None => Throw HostError
  end.

Record DecodeResult := {
  bitmap : ImageBitmap;
  data : bytes;
  width : Z;
  height : Z;
  byteSize : Z
}.

Definition isZlib (compression : option jsstring) : bool :=
  match compression with
  | Some c => jsstring_eqb c (str "z")
  | None => false
  end.

(** [decodeFromBytes]. *)
Definition decodeFromBytes (browser : Browser) (bs : bytes) (format : Z)
    (width height : option jsnum) (compression : option jsstring)
  : result DecodeResult :=
  bs <- (if isZlib compression then decompressZlib browser bs else Ok bs) ;;
  if format =? 100 then
    b <- pngToImageBitmap browser bs ;;
    Ok {| bitmap := b; data := bs; width := bitmapWidth b;
          height := bitmapHeight b; byteSize := Z.of_nat (length bs) |}
  else if (format =? 32) || (format =? 24) then
    match width, height with
    | Some w, Some h =>
        rgba <- (if format =? 24 then rgbToRgba bs w h else Ok bs) ;;
        b <- rawRgbaToImageBitmap browser rgba w h ;;
        match w, h with
        | Int wz, Int hz =>
            Ok {| bitmap := b; data := bs; width := wz; height := hz;
                  byteSize := Z.of_nat (length bs) |}
        | _, _ => Throw HostError
        end
    | _, _ => Throw (Error "Width and height required for raw pixel formats")
    end
  else Throw (Error "Unsupported format").

(** [decode]: Base64 first, then as [decodeFromBytes]. *)
Definition decode (browser : Browser) (payload : jsstring) (format : Z)
    (width height : option jsnum) (compression : option jsstring)
  : result DecodeResult :=
  bs <- base64ToBytes payload ;;
  decodeFromBytes browser bs format width height compression.

(** *** Vocabulary for the properties of the codec *)

(** The two replacements the decoding loop makes before its test. *)
Definition normalize (c : Z) : Z :=
  let c := if c =? 45 then 43 else c in
  if c =? 95 then 47 else c.

(** The six bits a character stands for. *)
Definition sextetOf (c : Z) : Z := lookup (normalize c).

(** The characters the decoder counts as valid. *)
Definition isSextetChar (c : Z) : bool :=
  isBase64Code c || (c =? 45) || (c =? 95).

(** Bytes of one group of four characters. *)
Definition byte1 (a b : Z) : Z := sextetOf a * 4 + sextetOf b / 16.
Definition byte2 (b c : Z) : Z := (sextetOf b mod 16) * 16 + sextetOf c / 4.
Definition byte3 (c d : Z) : Z := (sextetOf c mod 4) * 64 + sextetOf d.

(** Reference decoding of a well-formed payload, group by group. *)
Fixpoint decodeGroups (s : jsstring) : bytes :=
  match s with
  | a :: b :: c :: d :: rest =>
      if d =? 61 then
        if c =? 61 then [byte1 a b] else [byte1 a b; byte2 b c]
      else byte1 a b :: byte2 b c :: byte3 c d :: decodeGroups rest
  | _ => []
  end.

(** Groups of four alphabet characters; the last group may end in one or
    two [=]. *)
Fixpoint isBase64Payload (s : jsstring) : bool :=
  match s with
  | [] => true
  | a :: b :: c :: d :: rest =>
      isSextetChar a && isSextetChar b &&
      match rest with
      | [] =>
          isSextetChar c && (isSextetChar d || (d =? 61))
          || (c =? 61) && (d =? 61)
      | _ => isSextetChar c && isSextetChar d && isBase64Payload rest
      end
  | _ => false
  end.

(** A chunk that ends on a group boundary. *)
Definition aligned (chunk : jsstring) : Prop := (length chunk mod 4 = 0)%nat.

(** *** Sample inputs *)

Definition sampleBytes : bytes := [72; 105; 33; 0; 255].
Definition samplePayload : jsstring := str "SGVsbG8gd29ybGQ=".
Definition sampleChunks : list jsstring :=
  [str "SGVs"; str "bG8gd29y"; str "bGQ="].

(** *** Payloads with foreign characters *)

(** The characters [base64ToBytes] counts: the alphabets and [=]. *)
Definition isCounted (c : Z) : bool := isSextetChar c || (c =? 61).

(** A payload with a line break, a blank and a tab between its groups. *)
Definition spacedPayload : jsstring :=
  Eval cbv in str "SGkh" ++ [10; 32] ++ str "AP" ++ [9] ++ str "8=".

End ImageDecoder.

(** ** [Map] and [Set]

    A [Map] is the list of its entries in insertion order; a key occurs at
    most once.  Keys are compared with SameValueZero, given as [eqb]. *)

Module JSMap.
Section Ops.
Context {K V : Type} (eqb : K -> K -> bool).

Fixpoint get (m : list (K * V)) (k : K) : option V :=
  match m with
  | (k', v) :: m' => if eqb k' k then Some v else get m' k
  | [] => None
  end.

Definition has (m : list (K * V)) (k : K) : bool :=
  match get m k with Some _ => true | None => false end.

(** [m.set(k, v)]: an existing key keeps its place. *)
Fixpoint set (m : list (K * V)) (k : K) (v : V) : list (K * V) :=
  match m with
  | (k', v') :: m' =>
      if eqb k' k then (k', v) :: m' else (k', v') :: set m' k v
  | [] => [(k, v)]
  end.

Fixpoint delete (m : list (K * V)) (k : K) : list (K * V) :=
  match m with
  | (k', v') :: m' => if eqb k' k then m' else (k', v') :: delete m' k
  | [] => []
  end.

Definition keys (m : list (K * V)) : list K := map fst m.
Definition values (m : list (K * V)) : list V := map snd m.

(** A [Set] of keys, in insertion order. *)
Fixpoint setHas (s : list K) (k : K) : bool :=
  match s with
  | k' :: s' => eqb k' k || setHas s' k
  | [] => false
  end.

Definition setAdd (s : list K) (k : K) : list K :=
  if setHas s k then s else s ++ [k].

Fixpoint setDelete (s : list K) (k : K) : list K :=
  match s with
  | k' :: s' => if eqb k' k then s' else k' :: setDelete s' k
  | [] => []
  end.

End Ops.

(** The sum of a weight over the values of a map. *)
Definition total {K V : Type} (f : V -> Z) (m : list (K * V)) : Z :=
  fold_right (fun e acc => (f (snd e) + acc)%Z) 0%Z m.

End JSMap.

(** ** graphics-storage.ts *)

Module GraphicsStorage.
Import JS ImageDecoder.
Local Open Scope Z_scope.

Record StoredImage := {
  id : jsnum;
  format : Z;
  width : Z;
  height : Z;
  data : bytes;
  bitmap : option ImageBitmap;
  byteSize : Z;
  lastAccessed : Z
}.

Record ImagePlacement := {
  key : jsstring;               (* the field [id], "imageId:placementId" *)
  imageId : jsnum;
  placementId : jsnum;
  bufferRow : jsnum;
  bufferCol : jsnum;
  offsetX : jsnum;
  offsetY : jsnum;
  displayWidth : jsnum;
  displayHeight : jsnum;
  srcX : jsnum;
  srcY : jsnum;
  srcWidth : jsnum;
  srcHeight : jsnum;
  zIndex : jsnum;
  image : StoredImage
}.

Record ChunkBuffer := {
  chunkImageId : jsnum;
  chunkFormat : Z;
  chunkWidth : option jsnum;
  chunkHeight : option jsnum;
  chunkCompression : option jsstring;
  chunks : list jsstring
}.

Record GraphicsOptions := {
  optMaxCacheMemory : option Z;
  optMaxImages : option Z;
  optMaxPlacements : option Z
}.

Record Storage := {
  images : list (jsnum * StoredImage);
  accessOrder : list jsnum;
  placements : list (jsstring * ImagePlacement);
  placementsByRow : list (jsnum * list jsstring);
  chunkBuffers : list (jsnum * ChunkBuffer);
  memoryUsage : Z;
  maxMemory : Z;
  maxImages : Z;
  maxPlacements : Z
}.

Definition orDefault (x : option Z) (d : Z) : Z :=
  match x with Some v => v | None => d end.

(** The constructor. *)
Definition newStorage (options : GraphicsOptions) : Storage :=
  {| images := []; accessOrder := []; placements := [];
     placementsByRow := []; chunkBuffers := []; memoryUsage := 0;
     maxMemory := orDefault (optMaxCacheMemory options) (100 * 1024 * 1024);
     maxImages := orDefault (optMaxImages options) 1000;
     maxPlacements := orDefault (optMaxPlacements options) 10000 |}.

(** [arr.indexOf(x)] followed by [arr.splice(idx, 1)] when [idx !== -1]:
    the first element strictly equal to [x] is removed. *)
Fixpoint removeFirst (arr : list jsnum) (x : jsnum) : list jsnum :=
  match arr with
  | y :: arr' => if strictEq y x then arr' else y :: removeFirst arr' x
  | [] => []
  end.

Definition indexOfIsFound (arr : list jsnum) (x : jsnum) : bool :=
  existsb (fun y => strictEq y x) arr.

Definition setImages (s : Storage) v :=
  {| images := v; accessOrder := accessOrder s; placements := placements s;
     placementsByRow := placementsByRow s; chunkBuffers := chunkBuffers s;
     memoryUsage := memoryUsage s; maxMemory := maxMemory s;
     maxImages := maxImages s; maxPlacements := maxPlacements s |}.
Definition setAccessOrder (s : Storage) v :=
  {| images := images s; accessOrder := v; placements := placements s;
     placementsByRow := placementsByRow s; chunkBuffers := chunkBuffers s;
     memoryUsage := memoryUsage s; maxMemory := maxMemory s;
     maxImages := maxImages s; maxPlacements := maxPlacements s |}.
Definition setPlacements (s : Storage) v :=
  {| images := images s; accessOrder := accessOrder s; placements := v;
     placementsByRow := placementsByRow s; chunkBuffers := chunkBuffers s;
     memoryUsage := memoryUsage s; maxMemory := maxMemory s;
     maxImages := maxImages s; maxPlacements := maxPlacements s |}.
Definition setPlacementsByRow (s : Storage) v :=
  {| images := images s; accessOrder := accessOrder s;
     placements := placements s;
     placementsByRow := v; chunkBuffers := chunkBuffers s;
     memoryUsage := memoryUsage s; maxMemory := maxMemory s;
     maxImages := maxImages s; maxPlacements := maxPlacements s |}.
Definition setChunkBuffers (s : Storage) v :=
  {| images := images s; accessOrder := accessOrder s;
     placements := placements s;
     placementsByRow := placementsByRow s; chunkBuffers := v;
     memoryUsage := memoryUsage s; maxMemory := maxMemory s;
     maxImages := maxImages s; maxPlacements := maxPlacements s |}.
Definition setMemoryUsage (s : Storage) v :=
  {| images := images s; accessOrder := accessOrder s;
     placements := placements s;
     placementsByRow := placementsByRow s; chunkBuffers := chunkBuffers s;
     memoryUsage := v; maxMemory := maxMemory s;
     maxImages := maxImages s; maxPlacements := maxPlacements s |}.

(** *** Placements *)

Definition removePlacement (s : Storage) (k : jsstring) : Storage * bool :=
  match JSMap.get jsstring_eqb (placements s) k with
  | None => (s, false)
  | Some placement =>
      let row := bufferRow placement in
      let s :=
        match JSMap.get sameValueZero (placementsByRow s) row with
        | Some rowSet =>
            let rowSet := JSMap.setDelete jsstring_eqb rowSet k in
            match rowSet with
            | [] =>
                setPlacementsByRow s
                  (JSMap.delete sameValueZero (placementsByRow s) row)
            | _ =>
                setPlacementsByRow s
                  (JSMap.set sameValueZero (placementsByRow s) row rowSet)
            end
        | None => s
        end in
      (setPlacements s (JSMap.delete jsstring_eqb (placements s) k), true)
  end.

Definition setPlacement (s : Storage) (placement : ImagePlacement)
  : Storage :=
  let k := key placement in
  let s := if JSMap.has jsstring_eqb (placements s) k
           then fst (removePlacement s k) else s in
  let s :=
    if Z.of_nat (length (placements s)) >=? maxPlacements s then
      match JSMap.keys (placements s) with
      | oldest :: _ =>
          match oldest with
          | [] => s                     (* the empty key is falsy *)
          | _ => fst (removePlacement s oldest)
          end
      | [] => s
      end
    else s in
  let s := setPlacements s (JSMap.set jsstring_eqb (placements s) k placement) in
  let row := bufferRow placement in
  let rowSet :=
    match JSMap.get sameValueZero (placementsByRow s) row with
    | Some rowSet => rowSet
    | None => []
    end in
  setPlacementsByRow s
    (JSMap.set sameValueZero (placementsByRow s) row
       (JSMap.setAdd jsstring_eqb rowSet k)).

Definition getPlacement (s : Storage) (k : jsstring)
  : option ImagePlacement :=
  JSMap.get jsstring_eqb (placements s) k.

(** [a + b], [a - b], [a >= b] and [a <= b] on numbers that may be [NaN]. *)
Definition numAdd (a b : jsnum) : jsnum :=
  match a, b with Int x, Int y => Int (x + y) | _, _ => NaN end.
Definition numSub (a b : jsnum) : jsnum :=
  match a, b with Int x, Int y => Int (x - y) | _, _ => NaN end.
Definition numGe (a b : jsnum) : bool :=
  match a, b with Int x, Int y => x >=? y | _, _ => false end.
Definition numLe (a b : jsnum) : bool :=
  match a, b with Int x, Int y => x <=? y | _, _ => false end.

(** The loop of [getPlacementsInRange], with its set [seen]. *)
Fixpoint placementsInRangeLoop (entries : list (jsstring * ImagePlacement))
    (startRow endRow : jsnum) (seen : list jsstring)
  : list ImagePlacement :=
  match entries with
  | [] => []
  | (k, placement) :: rest =>
      let placementStart := bufferRow placement in
      let placementEnd :=
        numSub (numAdd (bufferRow placement) (displayHeight placement))
               (Int 1) in
      if numGe placementEnd startRow && numLe placementStart endRow then
        if negb (JSMap.setHas jsstring_eqb seen k) then
          placement
          :: placementsInRangeLoop rest startRow endRow
               (JSMap.setAdd jsstring_eqb seen k)
        else placementsInRangeLoop rest startRow endRow seen
      else placementsInRangeLoop rest startRow endRow seen
  end.

Definition getPlacementsInRange (s : Storage) (startRow endRow : jsnum)
  : list ImagePlacement :=
  placementsInRangeLoop (placements s) startRow endRow [].

Definition getAllPlacements (s : Storage) : list ImagePlacement :=
  JSMap.values (placements s).

(** *** Images *)

Definition hasImage (s : Storage) (i : jsnum) : bool :=
  JSMap.has sameValueZero (images s) i.

Definition removeImage (s : Storage) (i : jsnum) : Storage * bool :=
  match JSMap.get sameValueZero (images s) i with
  | None => (s, false)
  | Some img =>
      let s :=
        fold_left
          (fun s entry =>
             if strictEq (imageId (snd entry)) i
             then fst (removePlacement s (fst entry)) else s)
          (placements s) s in
      let s := setMemoryUsage s (memoryUsage s - byteSize img) in
      let s := setAccessOrder s (removeFirst (accessOrder s) i) in
      (setImages s (JSMap.delete sameValueZero (images s) i), true)
  end.

(** First loop of [evictIfNeeded]. *)
Fixpoint evictByCount (fuel : nat) (s : Storage) : option Storage :=
  match fuel with
  | O => None
  | S fuel' =>
      match accessOrder s with
      | lruId :: _ =>
          if Z.of_nat (length (images s)) >=? maxImages s
          then evictByCount fuel' (fst (removeImage s lruId))
          else Some s
      | [] => Some s
      end
  end.

(** Second loop of [evictIfNeeded]. *)
Fixpoint evictByMemory (fuel : nat) (s : Storage) (additionalBytes : Z)
  : option Storage :=
  match fuel with
  | O => None
  | S fuel' =>
      match accessOrder s with
      | lruId :: _ =>
          if memoryUsage s + additionalBytes >? maxMemory s
          then evictByMemory fuel' (fst (removeImage s lruId)) additionalBytes
          else Some s
      | [] => Some s
      end
  end.

(** [evictIfNeeded]; each loop may remove every entry of [accessOrder]
    once, which the fuel allows. *)
Definition evictIfNeeded (s : Storage) (additionalBytes : Z)
  : option Storage :=
  match evictByCount (S (length (accessOrder s))) s with
  | None => None
  | Some s => evictByMemory (S (length (accessOrder s))) s additionalBytes
  end.

(** [storeImage]; [now] is the value of [Date.now()]. *)
Definition storeImage (s : Storage) (i : jsnum) (fmt w h : Z) (d : bytes)
    (bm : option ImageBitmap) (now : Z) : option (Storage * StoredImage) :=
  match evictIfNeeded s (Z.of_nat (length d)) with
  | None => None
  | Some s =>
      let s := if hasImage s i then fst (removeImage s i) else s in
      let img :=
        {| id := i; format := fmt; width := w; height := h; data := d;
           bitmap := bm;
           byteSize := Z.of_nat (length d)
                       + (match bm with Some _ => w * h * 4 | None => 0 end);
           lastAccessed := now |} in
      let s := setImages s (JSMap.set sameValueZero (images s) i img) in
      let s := setAccessOrder s (accessOrder s ++ [i]) in
      let s := setMemoryUsage s (memoryUsage s + byteSize img) in
      Some (s, img)
  end.

Definition touch (img : StoredImage) (now : Z) : StoredImage :=
  {| id := id img; format := format img; width := width img;
     height := height img; data := data img; bitmap := bitmap img;
     byteSize := byteSize img; lastAccessed := now |}.

Definition getImage (s : Storage) (i : jsnum) (now : Z)
  : Storage * option StoredImage :=
  match JSMap.get sameValueZero (images s) i with
  | None => (s, None)
  | Some img =>
      let img := touch img now in
      let s := setImages s (JSMap.set sameValueZero (images s) i img) in
      let s :=
        if indexOfIsFound (accessOrder s) i
        then setAccessOrder s (removeFirst (accessOrder s) i ++ [i])
        else s in
      (s, Some img)
  end.

(** *** Chunk buffers *)

Definition addChunk (s : Storage) (i : jsnum) (chunk : jsstring) (fmt : Z)
    (w h : option jsnum) (compression : option jsstring)
  : Storage * ChunkBuffer :=
  let buffer :=
    match JSMap.get sameValueZero (chunkBuffers s) i with
    | Some buffer => buffer
    | None =>
        {| chunkImageId := i; chunkFormat := fmt; chunkWidth := w;
           chunkHeight := h; chunkCompression := compression; chunks := [] |}
    end in
  let buffer :=
    {| chunkImageId := chunkImageId buffer;
       chunkFormat := chunkFormat buffer;
       chunkWidth := match w with Some _ => w | None => chunkWidth buffer end;
       chunkHeight :=
         match h with Some _ => h | None => chunkHeight buffer end;
       chunkCompression :=
         match compression with
         | Some _ => compression
         | None => chunkCompression buffer
         end;
       chunks := chunks buffer ++ [chunk] |} in
  (setChunkBuffers s (JSMap.set sameValueZero (chunkBuffers s) i buffer),
   buffer).

Definition getAndClearChunks (s : Storage) (i : jsnum)
  : Storage * option ChunkBuffer :=
  match JSMap.get sameValueZero (chunkBuffers s) i with
  | Some buffer =>
      (setChunkBuffers s (JSMap.delete sameValueZero (chunkBuffers s) i),
       Some buffer)
  | None => (s, None)
  end.

Definition hasChunkBuffer (s : Storage) (i : jsnum) : bool :=
  JSMap.has sameValueZero (chunkBuffers s) i.

(** *** Delete operations *)

Definition deleteAll (s : Storage) : Storage :=
  {| images := []; accessOrder := []; placements := [];
     placementsByRow := []; chunkBuffers := []; memoryUsage := 0;
     maxMemory := maxMemory s; maxImages := maxImages s;
     maxPlacements := maxPlacements s |}.

(** The loops of the form [for (const key of [...keys]) ...removePlacement(key)]
    over a snapshot of keys, with a test on the placement found. *)
Definition removeMatching (s : Storage) (ks : list jsstring)
    (test : ImagePlacement -> bool) : Storage :=
  fold_left
    (fun s k =>
       match JSMap.get jsstring_eqb (placements s) k with
       | Some placement =>
           if test placement then fst (removePlacement s k) else s
       | None => s
       end)
    ks s.

Definition deleteAtCursor (s : Storage) (row col : jsnum) : Storage :=
  match JSMap.get sameValueZero (placementsByRow s) row with
  | None => s
  | Some rowSet =>
      removeMatching s rowSet (fun p => strictEq (bufferCol p) col)
  end.

Definition deleteRow (s : Storage) (row : jsnum) : Storage :=
  match JSMap.get sameValueZero (placementsByRow s) row with
  | None => s
  | Some rowSet => removeMatching s rowSet (fun _ => true)
  end.

(** [deleteColumn] and [deleteByZIndex] test the placements of the
    snapshot, not the ones looked up again. *)
Definition removeSnapshot (s : Storage)
    (test : ImagePlacement -> bool) : Storage :=
  fold_left
    (fun s entry =>
       if test (snd entry) then fst (removePlacement s (fst entry)) else s)
    (placements s) s.

Definition deleteColumn (s : Storage) (col : jsnum) : Storage :=
  removeSnapshot s (fun p => strictEq (bufferCol p) col).

Definition deleteByZIndex (s : Storage) (z : jsnum) : Storage :=
  removeSnapshot s (fun p => strictEq (zIndex p) z).

Definition dispose (s : Storage) : Storage := deleteAll s.

Record Stats := {
  imageCount : Z;
  placementCount : Z;
  statMemoryUsage : Z;
  statMaxMemory : Z;
  statChunkBuffers : Z
}.

Definition getStats (s : Storage) : Stats :=
  {| imageCount := Z.of_nat (length (images s));
     placementCount := Z.of_nat (length (placements s));
     statMemoryUsage := memoryUsage s;
     statMaxMemory := maxMemory s;
     statChunkBuffers := Z.of_nat (length (chunkBuffers s)) |}.

(** *** Vocabulary for the properties of the store *)

(** The sum of [byteSize] over the stored images. *)
Definition totalBytes (imgs : list (jsnum * StoredImage)) : Z :=
  JSMap.total byteSize imgs.

(** Operations on placements and chunk buffers leave the image side alone. *)
Definition sameImages (s s' : Storage) : Prop :=
  images s' = images s /\ accessOrder s' = accessOrder s /\
  memoryUsage s' = memoryUsage s /\ maxMemory s' = maxMemory s /\
  maxImages s' = maxImages s /\ maxPlacements s' = maxPlacements s.

(** The accounting invariant. *)
Definition accounted (s : Storage) : Prop :=
  NoDup (JSMap.keys (images s)) /\ memoryUsage s = totalBytes (images s).

(** The state of [storeImage] after the evictions and the removal of an
    entry with the same ID. *)
Definition madeRoom (s1 : Storage) (i : jsnum) : Storage :=
  if hasImage s1 i then fst (removeImage s1 i) else s1.

(** The public operations that change the store. *)
Inductive StorageOp : Type :=
| OpStoreImage (i : jsnum) (fmt w h : Z) (d : bytes)
    (bm : option ImageBitmap) (now : Z)
| OpGetImage (i : jsnum) (now : Z)
| OpRemoveImage (i : jsnum)
| OpSetPlacement (p : ImagePlacement)
| OpRemovePlacement (k : jsstring)
| OpAddChunk (i : jsnum) (chunk : jsstring) (fmt : Z) (w h : option jsnum)
    (compression : option jsstring)
| OpGetAndClearChunks (i : jsnum)
| OpDeleteAll
| OpDeleteAtCursor (row col : jsnum)
| OpDeleteRow (row : jsnum)
| OpDeleteColumn (col : jsnum)
| OpDeleteByZIndex (z : jsnum)
| OpDispose.

Definition applyOp (s : Storage) (op : StorageOp) : option Storage :=
  match op with
  | OpStoreImage i fmt w h d bm now =>
      option_map fst (storeImage s i fmt w h d bm now)
  | OpGetImage i now => Some (fst (getImage s i now))
  | OpRemoveImage i => Some (fst (removeImage s i))
  | OpSetPlacement p => Some (setPlacement s p)
  | OpRemovePlacement k => Some (fst (removePlacement s k))
  | OpAddChunk i chunk fmt w h compression =>
      Some (fst (addChunk s i chunk fmt w h compression))
  | OpGetAndClearChunks i => Some (fst (getAndClearChunks s i))
  | OpDeleteAll => Some (deleteAll s)
  | OpDeleteAtCursor row col => Some (deleteAtCursor s row col)
  | OpDeleteRow row => Some (deleteRow s row)
  | OpDeleteColumn col => Some (deleteColumn s col)
  | OpDeleteByZIndex z => Some (deleteByZIndex s z)
  | OpDispose => Some (dispose s)
  end.

Fixpoint runOps (s : Storage) (ops : list StorageOp) : option Storage :=
  match ops with
  | [] => Some s
  | op :: ops' =>
      match applyOp s op with
      | Some s' => runOps s' ops'
      | None => None
      end
  end.

Definition isInt (i : jsnum) : bool :=
  match i with Int _ => true | NaN => false end.

(** The operation does not store an image under the ID [NaN]. *)
Definition storesNumberedImage (op : StorageOp) : bool :=
  match op with
  | OpStoreImage i _ _ _ _ _ _ => isInt i
  | _ => true
  end.

(** The order list and the map hold the same IDs, none of them [NaN]. *)
Definition consistent (s : Storage) : Prop :=
  accounted s /\ NoDup (accessOrder s) /\
  (forall i, In i (accessOrder s) <-> In i (JSMap.keys (images s))) /\
  Forall (fun i => isInt i = true) (accessOrder s).

(** The test of [getPlacementsInRange]. *)
Definition inRangeTest (p : ImagePlacement) (startRow endRow : jsnum) : bool :=
  numGe (numSub (numAdd (bufferRow p) (displayHeight p)) (Int 1)) startRow
  && numLe (bufferRow p) endRow.

(** Some row lies both in the span of the placement and in [a, b]. *)
Definition spanIntersects (p : ImagePlacement) (a b : Z) : Prop :=
  exists R H r, bufferRow p = Int R /\ displayHeight p = Int H /\
                R <= r <= R + H - 1 /\ a <= r <= b.

(** The placement covers at least one row. *)
Definition coversARow (p : ImagePlacement) : Prop :=
  forall H, displayHeight p = Int H -> 1 <= H.

(** The arguments of one call of [storeImage] with an integer ID. *)
Record StoreRequest := {
  reqId : Z;
  reqFormat : Z;
  reqWidth : Z;
  reqHeight : Z;
  reqData : bytes;
  reqBitmap : option ImageBitmap;
  reqNow : Z
}.

Definition storeRequest (s : Storage) (r : StoreRequest) : option Storage :=
  option_map fst
    (storeImage s (Int (reqId r)) (reqFormat r) (reqWidth r) (reqHeight r)
       (reqData r) (reqBitmap r) (reqNow r)).

Fixpoint storeRequests (s : Storage) (rs : list StoreRequest)
  : option Storage :=
  match rs with
  | [] => Some s
  | r :: rs' =>
      match storeRequest s r with
      | Some s' => storeRequests s' rs'
      | None => None
      end
  end.

(** The [byteSize] the image of a request gets. *)
Definition requestBytes (r : StoreRequest) : Z :=
  Z.of_nat (length (reqData r))
  + match reqBitmap r with
    | Some _ => reqWidth r * reqHeight r * 4
    | None => 0
    end.

Definition requestsBytes (rs : list StoreRequest) : Z :=
  fold_right (fun r acc => requestBytes r + acc) 0 rs.

Definition requestKey (r : StoreRequest) : jsnum := Int (reqId r).

Definition nonNegativeArea (r : StoreRequest) : Prop :=
  0 <= reqWidth r * reqHeight r.

(** Every stored image has a non-negative size. *)
Definition sizesNonNegative (s : Storage) : Prop :=
  Forall (fun e => 0 <= byteSize (snd e)) (images s).

(** *** Sample inputs *)

Definition noOptions : GraphicsOptions :=
  {| optMaxCacheMemory := None; optMaxImages := None;
     optMaxPlacements := None |}.

Definition sampleImage (i : Z) : StoredImage :=
  {| id := Int i; format := 32; width := 1; height := 1;
     data := [1; 2; 3; 4]; bitmap := None; byteSize := 4;
     lastAccessed := 0 |}.

Definition samplePlacement (k : string) (row height : Z) : ImagePlacement :=
  {| key := str k; imageId := Int 1; placementId := Int 0;
     bufferRow := Int row; bufferCol := Int 0;
     offsetX := Int 0; offsetY := Int 0;
     displayWidth := Int 1; displayHeight := Int height;
     srcX := Int 0; srcY := Int 0; srcWidth := Int 1; srcHeight := Int 1;
     zIndex := Int 0; image := sampleImage 1 |}.

Definition sampleOps : list StorageOp :=
  [ OpStoreImage (Int 1) 32 1 1 [1; 2; 3; 4] None 10;
    OpStoreImage (Int 2) 24 2 1 [1; 2; 3; 4; 5; 6]
      (Some {| bitmapWidth := 2; bitmapHeight := 1 |}) 11;
    OpGetImage (Int 1) 12;
    OpSetPlacement (samplePlacement "1:0" 2 3);
    OpAddChunk (Int 7) (str "QUJD") 32 None None None;
    OpStoreImage (Int 1) 32 1 1 [9; 9; 9; 9] None 13;
    OpDeleteRow (Int 2);
    OpRemoveImage (Int 2);
    OpDeleteAll ].

(** Three placements: rows 1 to 4, an empty span at row 5, rows 7 to 8. *)
Definition rowsStorage : Storage :=
  setPlacement
    (setPlacement
       (setPlacement (newStorage noOptions) (samplePlacement "1:1" 1 4))
       (samplePlacement "1:2" 5 0))
    (samplePlacement "1:3" 7 2).

Definition sampleRequest (i : Z) : StoreRequest :=
  {| reqId := i; reqFormat := 32; reqWidth := 1; reqHeight := 1;
     reqData := [1; 2; 3; 4]; reqBitmap := None; reqNow := i |}.

Definition largeRequest (i : Z) : StoreRequest :=
  {| reqId := i; reqFormat := 32; reqWidth := 2; reqHeight := 1;
     reqData := [1; 2; 3; 4; 5; 6; 7; 8]; reqBitmap := None; reqNow := i |}.

(** A store for [k] images and [mem] bytes. *)
Definition cacheOf (k mem : Z) : Storage :=
  newStorage {| optMaxCacheMemory := Some mem; optMaxImages := Some k;
                optMaxPlacements := None |}.

(** *** Limits, the row index and chunk sequences *)

(** The operation does not set a placement under the empty key. *)
Definition namesPlacement (op : StorageOp) : bool :=
  match op with
  | OpSetPlacement p => negb (jsstring_eqb (key p) [])
  | _ => true
  end.

(** [s'] holds a part of the placements of [s], under the same limit. *)
Definition fewerPlacements (s s' : Storage) : Prop :=
  (length (placements s') <= length (placements s))%nat /\
  incl (JSMap.keys (placements s')) (JSMap.keys (placements s)) /\
  maxPlacements s' = maxPlacements s.

(** The row index and the placement map tell the same story: every
    placement is listed under its row, and every key listed under a row is
    a placement of that row. *)
Definition rowIndex (pl : list (jsstring * ImagePlacement))
    (br : list (jsnum * list jsstring)) : Prop :=
  NoDup (JSMap.keys pl) /\ NoDup (JSMap.keys br) /\
  (forall r rs, JSMap.get sameValueZero br r = Some rs -> NoDup rs) /\
  (forall k p, JSMap.get jsstring_eqb pl k = Some p ->
     exists rs, JSMap.get sameValueZero br (bufferRow p) = Some rs /\
                In k rs) /\
  (forall r rs k, JSMap.get sameValueZero br r = Some rs -> In k rs ->
     exists p, JSMap.get jsstring_eqb pl k = Some p /\ bufferRow p = r).

Definition rowIndexed (s : Storage) : Prop :=
  rowIndex (placements s) (placementsByRow s).

(** One call of [addChunk] for each chunk of a transfer; each call gives
    the chunk and the format of its command. *)
Definition addChunks (s : Storage) (i : jsnum) (calls : list (jsstring * Z))
    (w h : option jsnum) (compression : option jsstring) : Storage :=
  fold_left
    (fun s call => fst (addChunk s i (fst call) (snd call) w h compression))
    calls s.

Definition rowsOps : list StorageOp :=
  [ OpSetPlacement (samplePlacement "1:1" 1 4);
    OpSetPlacement (samplePlacement "1:2" 5 0);
    OpSetPlacement (samplePlacement "1:3" 7 2) ].

(** A store for at most [k] images and [p] placements. *)
Definition limitedOptions (k p : Z) : GraphicsOptions :=
  {| optMaxCacheMemory := None; optMaxImages := Some k;
     optMaxPlacements := Some p |}.

(** Three images stored one after the other. *)
Definition threeImages : list StorageOp :=
  [ OpStoreImage (Int 1) 32 1 1 [1; 2; 3; 4] None 10;
    OpStoreImage (Int 2) 32 1 1 [5; 6; 7; 8] None 11;
    OpStoreImage (Int 3) 32 1 1 [9; 9; 9; 9] None 12 ].

(** Image 1 with the three placements of [rowsOps]. *)
Definition placedOps : list StorageOp :=
  OpStoreImage (Int 1) 32 1 1 [1; 2; 3; 4] None 10 :: rowsOps.

End GraphicsStorage.

(** ** graphics-manager.ts *)

Module GraphicsManager.
Import JS ImageDecoder GraphicsStorage.
Local Open Scope Z_scope.
Local Open Scope js_scope.

(** The collaborators of the manager.  The text written to the WASM
    terminal is recorded in the manager; the cursor callback answers from
    the texts written so far. *)
Record Env := {
  browser : Browser;
  hasWriteToWasmCallback : bool;
  cursorCallback : option (list jsstring -> Z * Z);
  cellMetricsCallback : option (Z * Z);
  hasImageDisplayCallback : bool
}.

Record Manager := {
  parser : KittyParser.Parser;
  storage : Storage;
  enabled : bool;
  nextImageId : Z;
  needsRender : bool;
  pendingChunkImageId : option jsnum;
  wasmWrites : list jsstring;              (* calls of writeToWasmCallback *)
  displayed : list (ImageBitmap * jsnum)   (* calls of imageDisplayCallback *)
}.

Definition newManager (options : GraphicsOptions) (isEnabled : bool)
  : Manager :=
  {| parser := KittyParser.newParser; storage := newStorage options;
     enabled := isEnabled; nextImageId := 1; needsRender := false;
     pendingChunkImageId := None; wasmWrites := []; displayed := [] |}.

Definition withParser (m : Manager) v :=
  {| parser := v; storage := storage m; enabled := enabled m;
     nextImageId := nextImageId m; needsRender := needsRender m;
     pendingChunkImageId := pendingChunkImageId m;
     wasmWrites := wasmWrites m; displayed := displayed m |}.
Definition withStorage (m : Manager) v :=
  {| parser := parser m; storage := v; enabled := enabled m;
     nextImageId := nextImageId m; needsRender := needsRender m;
     pendingChunkImageId := pendingChunkImageId m;
     wasmWrites := wasmWrites m; displayed := displayed m |}.
Definition withNextImageId (m : Manager) v :=
  {| parser := parser m; storage := storage m; enabled := enabled m;
     nextImageId := v; needsRender := needsRender m;
     pendingChunkImageId := pendingChunkImageId m;
     wasmWrites := wasmWrites m; displayed := displayed m |}.
Definition withNeedsRender (m : Manager) v :=
  {| parser := parser m; storage := storage m; enabled := enabled m;
     nextImageId := nextImageId m; needsRender := v;
     pendingChunkImageId := pendingChunkImageId m;
     wasmWrites := wasmWrites m; displayed := displayed m |}.
Definition withPendingChunkImageId (m : Manager) v :=
  {| parser := parser m; storage := storage m; enabled := enabled m;
     nextImageId := nextImageId m; needsRender := needsRender m;
     pendingChunkImageId := v;
     wasmWrites := wasmWrites m; displayed := displayed m |}.
Definition withWasmWrites (m : Manager) v :=
  {| parser := parser m; storage := storage m; enabled := enabled m;
     nextImageId := nextImageId m; needsRender := needsRender m;
     pendingChunkImageId := pendingChunkImageId m;
     wasmWrites := v; displayed := displayed m |}.
Definition withDisplayed (m : Manager) v :=
  {| parser := parser m; storage := storage m; enabled := enabled m;
     nextImageId := nextImageId m; needsRender := needsRender m;
     pendingChunkImageId := pendingChunkImageId m;
     wasmWrites := wasmWrites m; displayed := v |}.

(** Decimal digits of a number, as template literals print it; exact on
    [Z]: it is the printing of JavaScript for the safe integers (up to
    2^53 - 1 in absolute value), above them JavaScript prints the shortest
    digits of a double. *)
Fixpoint uintCodes (u : Decimal.uint) : jsstring :=
  match u with
  | Decimal.Nil => []
  | Decimal.D0 u' => 48 :: uintCodes u'
  | Decimal.D1 u' => 49 :: uintCodes u'
  | Decimal.D2 u' => 50 :: uintCodes u'
  | Decimal.D3 u' => 51 :: uintCodes u'
  | Decimal.D4 u' => 52 :: uintCodes u'
  | Decimal.D5 u' => 53 :: uintCodes u'
  | Decimal.D6 u' => 54 :: uintCodes u'
  | Decimal.D7 u' => 55 :: uintCodes u'
  | Decimal.D8 u' => 56 :: uintCodes u'
  | Decimal.D9 u' => 57 :: uintCodes u'
  end.

Definition numToString (n : jsnum) : jsstring :=
  match n with
  | NaN => str "NaN"
  | Int z =>
      match Z.to_int z with
      | Decimal.Pos u => uintCodes u
      | Decimal.Neg u => 45 :: uintCodes u
      end
  end.

Definition placementKey (imageId placementId : jsnum) : jsstring :=
  numToString imageId ++ str ":" ++ numToString placementId.

(** [x ?? d]. *)
Definition orElse {A} (x : option A) (d : A) : A :=
  match x with Some v => v | None => d end.

(** [x || d] on a number: [0] and [NaN] are falsy. *)
Definition numOr (x : option jsnum) (d : Z) : Z :=
  match x with
  | Some (Int z) => if z =? 0 then d else z
  | _ => d
  end.

(** [Math.ceil(a / b)] on integers; a zero divisor gives an infinity or
    [NaN], which the model renders as [NaN]. *)
Definition ceilDiv (a b : Z) : jsnum :=
  if b =? 0 then NaN else Int (- ((- a) / b)).

Definition cursorNow (env : Env) (m : Manager) : Z * Z :=
  match cursorCallback env with
  | Some f => f (wasmWrites m)
  | None => (0, 0)
  end.

(** [sendResponse] returns at once: responses are disabled. *)
Definition sendResponse (m : Manager) : Manager := m.

Definition createPlacement (env : Env) (now : Z) (m : Manager)
    (cmd : KittyParser.KittyCommand) (imageId : jsnum) : Manager :=
  match getImage (storage m) imageId now with
  | (_, None) => m
  | (st, Some image) =>
      let m := withStorage m st in
      let cursor := cursorNow env m in
      let bufferRow := orElse (KittyParser.cellY cmd) (Int (fst cursor)) in
      let bufferCol := orElse (KittyParser.cellX cmd) (Int (snd cursor)) in
      let cellMetrics := orElse (cellMetricsCallback env) (8, 16) in
      let displayWidth :=
        orElse (KittyParser.displayWidth cmd)
               (ceilDiv (width image) (fst cellMetrics)) in
      let displayHeight :=
        orElse (KittyParser.displayHeight cmd)
               (ceilDiv (height image) (snd cellMetrics)) in
      let placementId :=
        orElse (KittyParser.placementId cmd) (Int (and32 now 16777215)) in
      let placement :=
        {| key := placementKey imageId placementId;
           imageId := imageId;
           placementId := placementId;
           bufferRow := bufferRow;
           bufferCol := bufferCol;
           offsetX := orElse (KittyParser.offsetX cmd) (Int 0);
           offsetY := orElse (KittyParser.offsetY cmd) (Int 0);
           displayWidth := displayWidth;
           displayHeight := displayHeight;
           srcX := orElse (KittyParser.srcX cmd) (Int 0);
           srcY := orElse (KittyParser.srcY cmd) (Int 0);
           srcWidth := orElse (KittyParser.srcWidth cmd) (Int (width image));
           srcHeight :=
             orElse (KittyParser.srcHeight cmd) (Int (height image));
           zIndex := orElse (KittyParser.zIndex cmd) (Int 0);
           image := image |} in
      withNeedsRender (withStorage m (setPlacement (storage m) placement))
        true
  end.

(** The body of the [try] block of [handleTransmit]. *)
Definition decodeAndStore (env : Env) (now : Z) (m : Manager)
    (cmd : KittyParser.KittyCommand) (display : bool) (imageId : jsnum)
    (rawBytes : option bytes) (payload : jsstring) (format : Z)
    (width height : option jsnum) (compression : option jsstring)
  : result Manager :=
  decoded <-
    match rawBytes with
    | Some bs =>
        decodeFromBytes (browser env) bs format width height compression
    | None => decode (browser env) payload format width height compression
    end ;;
  match storeImage (storage m) imageId format
          (ImageDecoder.width decoded) (ImageDecoder.height decoded)
          (ImageDecoder.data decoded) (Some (ImageDecoder.bitmap decoded))
          now with
  | None => OutOfFuel
  | Some (st, image) =>
      let m := withStorage m st in
      if display then
        if hasImageDisplayCallback env then
          Ok (withDisplayed m
                (displayed m ++ [(ImageDecoder.bitmap decoded, imageId)]))
        else Ok (createPlacement env now m cmd (id image))
      else Ok m
  end.

(** [handleTransmit]. *)
Definition handleTransmit (env : Env) (now : Z) (m : Manager)
    (cmd : KittyParser.KittyCommand) (display : bool) : result Manager :=
  let '(imageId, m) :=
    match KittyParser.imageId cmd with
    | Some i => (i, m)
    | None =>
        match pendingChunkImageId m with
        | Some i => (i, m)
        | None =>
            (Int (nextImageId m), withNextImageId m (nextImageId m + 1))
        end
    end in
  let payload := orElse (KittyParser.payload cmd) [] in
  if orElse (KittyParser.more cmd) false then
    let m := withPendingChunkImageId m (Some imageId) in
    Ok (withStorage m
          (fst (addChunk (storage m) imageId payload
                  (numOr (KittyParser.format cmd) 32)
                  (KittyParser.width cmd) (KittyParser.height cmd)
                  (KittyParser.compression cmd))))
  else
    let m := withPendingChunkImageId m None in
    let format := numOr (KittyParser.format cmd) 32 in
    let width := KittyParser.width cmd in
    let height := KittyParser.height cmd in
    let compression := KittyParser.compression cmd in
    buffered <-
      (if hasChunkBuffer (storage m) imageId then
         match getAndClearChunks (storage m) imageId with
         | (st, Some buffer) =>
             rawBytes <- combineChunksToBytes (chunks buffer ++ [payload]) ;;
             Ok (withStorage m st, Some rawBytes, chunkFormat buffer,
                 match width with Some _ => width
                                | None => chunkWidth buffer end,
                 match height with Some _ => height
                                 | None => chunkHeight buffer end,
                 match compression with Some _ => compression
                                      | None => chunkCompression buffer end)
         | (_, None) => Ok (m, None, format, width, height, compression)
         end
       else Ok (m, None, format, width, height, compression)) ;;
    let '(m, rawBytes, format, width, height, compression) := buffered in
    match rawBytes, payload with
    | None, [] => Ok (sendResponse m)
    | _, _ =>
        let m := sendResponse m in
        match decodeAndStore env now m cmd display imageId rawBytes payload
                format width height compression with
        | Throw _ => Ok m             (* [catch (e)]: logged and dropped *)
        | r => r
        end
    end.

(** [handlePut]. *)
Definition handlePut (env : Env) (now : Z) (m : Manager)
    (cmd : KittyParser.KittyCommand) : Manager :=
  match KittyParser.imageId cmd with
  | None => sendResponse m
  | Some imageId =>
      if negb (hasImage (storage m) imageId) then sendResponse m
      else sendResponse (createPlacement env now m cmd imageId)
  end.

Definition isStr (s : jsstring) (lit : string) : bool :=
  jsstring_eqb s (str lit).

(** [handleDelete]. *)
Definition handleDelete (env : Env) (m : Manager)
    (cmd : KittyParser.KittyCommand) : Manager :=
  let target :=
    orElse (KittyParser.truthyStr (KittyParser.deleteTarget cmd)) (str "a") in
  let st := storage m in
  let st :=
    if isStr target "a" || isStr target "A" then deleteAll st
    else if isStr target "i" || isStr target "I" then
      match KittyParser.imageId cmd with
      | Some i => fst (removeImage st i)
      | None => st
      end
    else if isStr target "p" || isStr target "P" then
      match KittyParser.imageId cmd, KittyParser.placementId cmd with
      | Some i, Some p => fst (removePlacement st (placementKey i p))
      | _, _ => st
      end
    else if isStr target "c" then
      let cursor := cursorNow env m in
      deleteAtCursor st (Int (fst cursor)) (Int (snd cursor))
    else if isStr target "r" then
      deleteRow st (Int (fst (cursorNow env m)))
    else if isStr target "C" then
      deleteColumn st (Int (snd (cursorNow env m)))
    else if isStr target "z" then
      match KittyParser.zIndex cmd with
      | Some z => deleteByZIndex st z
      | None => st
      end
    else st in
  withNeedsRender (withStorage m st) true.

(** [handleQuery] only sends a response. *)
Definition handleQuery (m : Manager) : Manager := sendResponse m.

(** [handleCommand]. *)
Definition handleCommand (env : Env) (now : Z) (m : Manager)
    (cmd : KittyParser.KittyCommand) : result Manager :=
  let a := KittyParser.action cmd in
  if isStr a "t" then handleTransmit env now m cmd false
  else if isStr a "T" then handleTransmit env now m cmd true
  else if isStr a "p" then Ok (handlePut env now m cmd)
  else if isStr a "d" then Ok (handleDelete env m cmd)
  else if isStr a "q" then Ok (handleQuery m)
  else Ok m.

(** The [for] loop of [processDataSequentially]. *)
Fixpoint sequentialLoop (env : Env) (now : Z) (m : Manager)
    (fullData : jsstring) (commands : list KittyParser.KittyParseResult)
    (lastEnd : nat) : result (Manager * nat) :=
  match commands with
  | [] => Ok (m, lastEnd)
  | parsed :: rest =>
      let textBefore :=
        substring fullData lastEnd (KittyParser.startIndex parsed) in
      let m :=
        match textBefore with
        | [] => m
        | _ =>
            if hasWriteToWasmCallback env
            then withWasmWrites m (wasmWrites m ++ [textBefore])
            else m
        end in
      m <- handleCommand env now m (KittyParser.command parsed) ;;
      sequentialLoop env now m fullData rest (KittyParser.endIndex parsed)
  end.

(** [processDataSequentially]. *)
Definition processDataSequentially (env : Env) (now : Z) (m : Manager)
    (r : KittyParser.ExtractResult) : result (Manager * jsstring) :=
  ml <- sequentialLoop env now m (KittyParser.fullData r)
          (KittyParser.commands r) 0 ;;
  let '(m, lastEnd) := ml in
  let remaining := substringFrom (KittyParser.fullData r) lastEnd in
  let remaining :=
    if KittyParser.hasPendingData (parser m) then
      match indexOf remaining KittyParser.APC_START 0 with
      | Some apcStart => substring remaining 0 apcStart
      | None => remaining
      end
    else remaining in
  Ok (m, remaining).

(** The fallback loop of [processData]. *)
Fixpoint handleAll (env : Env) (now : Z) (m : Manager)
    (commands : list KittyParser.KittyParseResult) : result Manager :=
  match commands with
  | [] => Ok m
  | parsed :: rest =>
      m <- handleCommand env now m (KittyParser.command parsed) ;;
      handleAll env now m rest
  end.

(** [processData]. *)
Definition processData (env : Env) (now : Z) (m : Manager) (data : jsstring)
  : result (Manager * jsstring) :=
  if negb (enabled m) then Ok (m, data)
  else
    let data := KittyParser.stripEchoedResponses data in
    let data := KittyParser.stripUnicodePlaceholders data in
    if negb (KittyParser.hasGraphicsSequence data)
       && negb (KittyParser.hasPendingData (parser m))
    then Ok (m, data)
    else
      match KittyParser.extract (parser m) data with
      | None => OutOfFuel
      | Some (p, r) =>
          let m := withParser m p in
          if negb (KittyParser.hasGraphics r) then Ok (m, data)
          else if hasWriteToWasmCallback env
                  && (0 <? Z.of_nat (length (KittyParser.commands r)))
          then processDataSequentially env now m r
          else
            m <- handleAll env now m (KittyParser.commands r) ;;
            Ok (m, KittyParser.cleanedData r)
      end.

(** *** Vocabulary and sample inputs *)

(** The ID [handleTransmit] works with: the one of the command, else the
    one of the chunked transfer under way, else the next free one. *)
Definition effectiveImageId (m : Manager) (cmd : KittyParser.KittyCommand)
  : jsnum :=
  match KittyParser.imageId cmd with
  | Some i => i
  | None =>
      match pendingChunkImageId m with
      | Some i => i
      | None => Int (nextImageId m)
      end
  end.

Definition noBrowser : Browser :=
  {| inflate := None; bitmapOfPng := fun _ => None;
     bitmapOfImageData := fun _ _ _ => None |}.

Definition wasmEnv : Env :=
  {| browser := noBrowser; hasWriteToWasmCallback := true;
     cursorCallback := None; cellMetricsCallback := None;
     hasImageDisplayCallback := false |}.

(** A transfer in two chunks whose first chunk is the single character
    [=], and the same payload sent in one piece. *)
Definition badChunkedTransfer : jsstring :=
  KittyParser.APC_START ++ str "a=t,i=1,m=1;=" ++ KittyParser.ST
  ++ KittyParser.APC_START ++ str "a=t,i=1;" ++ KittyParser.ST.
Definition badSingleTransfer : jsstring :=
  KittyParser.APC_START ++ str "a=t,i=1;=" ++ KittyParser.ST.

(** *** Transfers in chunks, responses and printed numbers *)

(** A browser that makes a bitmap of the size asked for. *)
Definition sampleBrowser : Browser :=
  {| inflate := None;
     bitmapOfPng := fun _ => None;
     bitmapOfImageData :=
       fun _ w h => Some {| bitmapWidth := w; bitmapHeight := h |} |}.

Definition sampleEnv : Env :=
  {| browser := sampleBrowser; hasWriteToWasmCallback := false;
     cursorCallback := Some (fun _ => (3, 5)); cellMetricsCallback := None;
     hasImageDisplayCallback := false |}.

(** The frame [a=t,i=7,s=1,v=1;AQIDBA==] as a command: one RGBA pixel. *)
Definition onePixelTransmit : KittyParser.KittyCommand :=
  {| KittyParser.action := str "t";
     KittyParser.payload := Some (str "AQIDBA==");
     KittyParser.imageId := Some (Int 7); KittyParser.imageNumber := None;
     KittyParser.placementId := None; KittyParser.format := None;
     KittyParser.transmission := None; KittyParser.compression := None;
     KittyParser.more := None; KittyParser.width := Some (Int 1);
     KittyParser.height := Some (Int 1); KittyParser.displayWidth := None;
     KittyParser.displayHeight := None; KittyParser.srcX := None;
     KittyParser.srcY := None; KittyParser.srcWidth := None;
     KittyParser.srcHeight := None; KittyParser.cellX := None;
     KittyParser.cellY := None; KittyParser.offsetX := None;
     KittyParser.offsetY := None; KittyParser.zIndex := None;
     KittyParser.cursorMovement := None; KittyParser.quiet := None;
     KittyParser.deleteTarget := None |}.

(** The frame [a=p,i=7,p=2] as a command. *)
Definition onePixelPut : KittyParser.KittyCommand :=
  {| KittyParser.action := str "p"; KittyParser.payload := None;
     KittyParser.imageId := Some (Int 7); KittyParser.imageNumber := None;
     KittyParser.placementId := Some (Int 2); KittyParser.format := None;
     KittyParser.transmission := None; KittyParser.compression := None;
     KittyParser.more := None; KittyParser.width := None;
     KittyParser.height := None; KittyParser.displayWidth := None;
     KittyParser.displayHeight := None; KittyParser.srcX := None;
     KittyParser.srcY := None; KittyParser.srcWidth := None;
     KittyParser.srcHeight := None; KittyParser.cellX := None;
     KittyParser.cellY := None; KittyParser.offsetX := None;
     KittyParser.offsetY := None; KittyParser.zIndex := None;
     KittyParser.cursorMovement := None; KittyParser.quiet := None;
     KittyParser.deleteTarget := None |}.

(** The command [cmd] with another payload and another [m] key. *)
Definition chunkOf (cmd : KittyParser.KittyCommand) (chunk : jsstring)
    (isMore : bool) : KittyParser.KittyCommand :=
  {| KittyParser.action := KittyParser.action cmd;
     KittyParser.payload := KittyParser.truthyStr (Some chunk);
     KittyParser.imageId := KittyParser.imageId cmd;
     KittyParser.imageNumber := KittyParser.imageNumber cmd;
     KittyParser.placementId := KittyParser.placementId cmd;
     KittyParser.format := KittyParser.format cmd;
     KittyParser.transmission := KittyParser.transmission cmd;
     KittyParser.compression := KittyParser.compression cmd;
     KittyParser.more := Some isMore;
     KittyParser.width := KittyParser.width cmd;
     KittyParser.height := KittyParser.height cmd;
     KittyParser.displayWidth := KittyParser.displayWidth cmd;
     KittyParser.displayHeight := KittyParser.displayHeight cmd;
     KittyParser.srcX := KittyParser.srcX cmd;
     KittyParser.srcY := KittyParser.srcY cmd;
     KittyParser.srcWidth := KittyParser.srcWidth cmd;
     KittyParser.srcHeight := KittyParser.srcHeight cmd;
     KittyParser.cellX := KittyParser.cellX cmd;
     KittyParser.cellY := KittyParser.cellY cmd;
     KittyParser.offsetX := KittyParser.offsetX cmd;
     KittyParser.offsetY := KittyParser.offsetY cmd;
     KittyParser.zIndex := KittyParser.zIndex cmd;
     KittyParser.cursorMovement := KittyParser.cursorMovement cmd;
     KittyParser.quiet := KittyParser.quiet cmd;
     KittyParser.deleteTarget := KittyParser.deleteTarget cmd |}.



(** [KittyResponse], the two markers and [buildKittyResponse] of
    graphics-storage.ts. *)
Record KittyResponse := {
  respImageId : option jsnum;
  respPlacementId : option jsnum;
  respMessage : option jsstring;
  respOk : bool
}.

Definition KITTY_GRAPHICS_START : jsstring :=
  Eval cbv in KittyParser.ESC :: str "_G".
Definition KITTY_GRAPHICS_END : jsstring :=
  Eval cbv in [KittyParser.ESC; KittyParser.BACKSLASH].

Definition buildKittyResponse (response : KittyResponse) : jsstring :=
  let data :=
    match respImageId response with
    | Some i => str "i=" ++ numToString i
    | None => []
    end in
  let data :=
    match respPlacementId response with
    | Some p =>
        (match data with [] => data | _ => data ++ str "," end)
        ++ str "p=" ++ numToString p
    | None => data
    end in
  let status :=
    if respOk response then str "OK"
    else str "ENOENT:"
         ++ match KittyParser.truthyStr (respMessage response) with
            | Some message => message
            | None => str "error"
            end in
  KITTY_GRAPHICS_START ++ data ++ str ";" ++ status ++ KITTY_GRAPHICS_END.

(** A number that prints as decimal digits only: not negative and below
    [10^21], where the exponent notation begins. *)
Definition isCount (n : jsnum) : bool :=
  match n with
  | Int z => ((0 <=? z) && (z <? 10 ^ 21))%Z
  | NaN => false
  end.

(** The response names an image by a count, its placement, if any, by a
    count too, and reports success or a message without whitespace. *)
Definition echoable (r : KittyResponse) : bool :=
  match respImageId r with Some i => isCount i | None => false end
  && match respPlacementId r with Some p => isCount p | None => true end
  && (respOk r
      || forallb KittyParser.notSpace
           match KittyParser.truthyStr (respMessage r) with
           | Some message => message
           | None => str "error"
           end).

(** The frame [a=d,d=p,i=7,p=2] as a command. *)
Definition deleteOnePlacement : KittyParser.KittyCommand :=
  {| KittyParser.action := str "d"; KittyParser.payload := None;
     KittyParser.imageId := Some (Int 7); KittyParser.imageNumber := None;
     KittyParser.placementId := Some (Int 2); KittyParser.format := None;
     KittyParser.transmission := None; KittyParser.compression := None;
     KittyParser.more := None; KittyParser.width := None;
     KittyParser.height := None; KittyParser.displayWidth := None;
     KittyParser.displayHeight := None; KittyParser.srcX := None;
     KittyParser.srcY := None; KittyParser.srcWidth := None;
     KittyParser.srcHeight := None; KittyParser.cellX := None;
     KittyParser.cellY := None; KittyParser.offsetX := None;
     KittyParser.offsetY := None; KittyParser.zIndex := None;
     KittyParser.cursorMovement := None; KittyParser.quiet := None;
     KittyParser.deleteTarget := Some (str "p") |}.

(** Image 7 stored and placed under the placement ID 2. *)
Definition onePlacementOps : list StorageOp :=
  [ OpStoreImage (Int 7) 32 1 1 [1; 2; 3; 4]
      (Some {| bitmapWidth := 1; bitmapHeight := 1 |}) 10;
    OpGetImage (Int 7) 11;
    OpSetPlacement
      {| key := str "7:2"; imageId := Int 7; placementId := Int 2;
         bufferRow := Int 3; bufferCol := Int 5;
         offsetX := Int 0; offsetY := Int 0;
         displayWidth := Int 1; displayHeight := Int 1;
         srcX := Int 0; srcY := Int 0; srcWidth := Int 1; srcHeight := Int 1;
         zIndex := Int 0;
         image := {| id := Int 7; GraphicsStorage.format := 32;
                     GraphicsStorage.width := 1; GraphicsStorage.height := 1;
                     GraphicsStorage.data := [1; 2; 3; 4];
                     GraphicsStorage.bitmap :=
                       Some {| bitmapWidth := 1; bitmapHeight := 1 |};
                     GraphicsStorage.byteSize := 8; lastAccessed := 11 |} |} ].

(** The keys [paramsToCommand] reads with [getNum], each with the field it
    fills. *)
Definition numericKeys
  : list (string * (KittyParser.KittyCommand -> option jsnum)) :=
  [ ("i", KittyParser.imageId); ("I", KittyParser.imageNumber);
    ("p", KittyParser.placementId); ("f", KittyParser.format);
    ("s", KittyParser.width); ("v", KittyParser.height);
    ("c", KittyParser.displayWidth); ("r", KittyParser.displayHeight);
    ("X", KittyParser.cellX); ("Y", KittyParser.cellY);
    ("x", KittyParser.offsetX); ("y", KittyParser.offsetY);
    ("z", KittyParser.zIndex); ("C", KittyParser.cursorMovement);
    ("q", KittyParser.quiet) ]%string.

(** [NaN] or a safe integer ([Number.isSafeInteger]): the numbers on
    which [parseInt] and [numToString] are those of JavaScript. *)
Definition isSafeNumber (n : jsnum) : bool :=
  match n with
  | Int z => (Z.abs z <=? 2 ^ 53 - 1)%Z
  | NaN => true
  end.

(** A put command with its numbers printed in decimal. *)
Definition printedPairs : list (jsstring * jsstring) :=
  [ (str "a", str "p"); (str "i", numToString (Int 31));
    (str "z", numToString (Int (-2))); (str "p", numToString (Int 0)) ].

End GraphicsManager.

(* ===================================================================== *)
(** * Part II. Properties                                                 *)
(* ===================================================================== *)

(** ** The sequence parser *)

Module KittyParserProps.
Import JS KittyParser.



Lemma startsWith_app pat s : startsWith pat s = true <-> exists r, s = pat ++ r.
Proof.
  revert s; induction pat as [|p pat IH]; intros s; simpl.
  - split; [intros _; now exists s | reflexivity].
  - destruct s as [|c s].
    + split; [discriminate | intros [r H]; discriminate].
    + rewrite andb_true_iff, Z.eqb_eq, IH. split.
      * intros [-> [r ->]]. now exists r.
      * intros [r H]. injection H as -> ->. split; [reflexivity | now exists r].
Qed.

Lemma startsWith_length pat s : startsWith pat s = true -> length pat <= length s.
Proof.
  intros H. apply startsWith_app in H as [r ->]. rewrite length_app. lia.
Qed.

Lemma occursAt_bound s pat j : pat <> [] -> occursAt s pat j -> j + length pat <= length s.
Proof.
  unfold occursAt. intros Hne H. apply startsWith_length in H.
  rewrite length_skipn in H. destruct pat; [congruence|]. simpl in *. lia.
Qed.

Lemma find_from_Some pat s i j :
  find_from pat s i = Some j ->
  i <= j /\ j - i <= length s /\ startsWith pat (skipn (j - i) s) = true /\
  forall k, k < j - i -> startsWith pat (skipn k s) = false.
Proof.
  revert i; induction s as [|c s IH]; intros i; simpl.
  - destruct (startsWith pat []) eqn:E; [|discriminate].
    intros [= <-]. rewrite Nat.sub_diag. simpl. repeat split; auto; lia.
  - destruct (startsWith pat (c :: s)) eqn:E.
    + intros [= <-]. rewrite Nat.sub_diag. simpl. repeat split; auto; lia.
    + intros H. apply IH in H as (H1 & H2 & H3 & H4).
      replace (j - i) with (S (j - S i)) by lia. simpl.
      repeat split; try lia; auto.
      intros [|k] Hk; simpl; auto. apply H4. lia.
Qed.

Lemma find_from_None pat s i :
  find_from pat s i = None -> forall k, startsWith pat (skipn k s) = false.
Proof.
  revert i; induction s as [|c s IH]; intros i; simpl.
  - destruct (startsWith pat []) eqn:E; [discriminate|].
    intros _ k. now rewrite skipn_nil.
  - destruct (startsWith pat (c :: s)) eqn:E; [discriminate|].
    intros H [|k]; simpl; auto. eapply IH; eauto.
Qed.

Lemma indexOf_Some s pat from j :
  from <= length s ->
  indexOf s pat from = Some j ->
  from <= j /\ j <= length s /\ occursAt s pat j /\
  forall k, from <= k -> k < j -> ~ occursAt s pat k.
Proof.
  unfold indexOf, occursAt. intros Hf. rewrite Nat.min_l by lia.
  intros H. apply find_from_Some in H as (H1 & H2 & H3 & H4).
  rewrite length_skipn in H2. rewrite skipn_skipn in H3.
  replace (j - from + from) with j in H3 by lia.
  repeat split; auto; try lia.
  intros k Hk1 Hk2 Hocc. specialize (H4 (k - from)).
  rewrite skipn_skipn in H4. replace (k - from + from) with k in H4 by lia.
  rewrite H4 in Hocc by lia. discriminate.
Qed.

Lemma indexOf_None s pat from :
  from <= length s ->
  indexOf s pat from = None -> forall k, from <= k -> ~ occursAt s pat k.
Proof.
  unfold indexOf, occursAt. intros Hf. rewrite Nat.min_l by lia.
  intros H k Hk Hocc. apply find_from_None with (k := k - from) in H.
  rewrite skipn_skipn in H. replace (k - from + from) with k in H by lia.
  congruence.
Qed.

Lemma substring_ok s a b :
  a <= b -> b <= length s -> substring s a b = firstn (b - a) (skipn a s).
Proof.
  intros. unfold substring.
  rewrite (Nat.min_l a), (Nat.min_l b), Nat.min_l, Nat.max_r by lia. reflexivity.
Qed.

Lemma substring_split s a b :
  a <= b -> b <= length s -> skipn a s = substring s a b ++ skipn b s.
Proof.
  intros. rewrite substring_ok by lia.
  rewrite <- (firstn_skipn (b - a) (skipn a s)) at 1.
  rewrite skipn_skipn. now replace (b - a + a) with b by lia.
Qed.





Lemma firstn_plus {A} (a b : nat) (l : list A) :
  firstn (a + b) l = firstn a l ++ firstn b (skipn a l).
Proof.
  revert l; induction a as [|a IH]; intros [|x l]; simpl; auto.
  - now rewrite firstn_nil.
  - now rewrite IH.
Qed.

Lemma substring_app s a b c :
  a <= b -> b <= c -> c <= length s ->
  substring s a c = substring s a b ++ substring s b c.
Proof.
  intros. rewrite !substring_ok by lia.
  replace (c - a) with ((b - a) + (c - b)) by lia.
  rewrite firstn_plus.
  rewrite skipn_skipn. now replace (b - a + a) with b by lia.
Qed.

Lemma substring_occurs s pat j :
  occursAt s pat j -> j <= length s ->
  substring s j (j + length pat) = pat.
Proof.
  unfold occursAt. intros H Hj. pose proof (startsWith_length _ _ H) as Hl.
  rewrite length_skipn in Hl.
  apply startsWith_app in H as [r Hr].
  rewrite substring_ok by lia. rewrite Hr.
  replace (j + length pat - j) with (length pat + 0) by lia.
  rewrite firstn_app_2. simpl. apply app_nil_r.
Qed.

Lemma skipn_shift (s : jsstring) j d : skipn (j + d) s = skipn d (skipn j s).
Proof. rewrite skipn_skipn. f_equal. lia. Qed.

Lemma apc_then_st s j k :
  occursAt s APC_START j -> occursAt s ST k -> j <= k -> j + 3 <= k.
Proof.
  unfold occursAt. intros Ha Hs Hle.
  apply startsWith_app in Ha as [r Hr].
  replace k with (j + (k - j)) in Hs by lia. rewrite skipn_shift, Hr in Hs.
  destruct (k - j) as [|[|[|d]]] eqn:E; simpl in Hs; try discriminate. lia.
Qed.

Lemma st_then_apc s e j :
  occursAt s ST e -> occursAt s APC_START j -> j <> e + 1.
Proof.
  unfold occursAt. intros Hs Ha ->.
  apply startsWith_app in Hs as [r Hr].
  rewrite skipn_shift, Hr in Ha. simpl in Ha. discriminate.
Qed.

Lemma apc_bound s j : occursAt s APC_START j -> j + 3 <= length s.
Proof. intros H. apply occursAt_bound in H; [exact H | discriminate]. Qed.

Lemma st_bound s j : occursAt s ST j -> j + 2 <= length s.
Proof. intros H. apply occursAt_bound in H; [exact H | discriminate]. Qed.

Lemma parseSequence_Some content a b :
  exists cmd, parseSequence content a b =
              Some {| command := cmd; startIndex := a; endIndex := b |}.
Proof.
  unfold parseSequence. destruct (indexOf content (str ";") 0); eexists; reflexivity.
Qed.

Lemma extractLoop_spec full : forall fuel pos cl cs,
  pos <= length full -> length full - pos < fuel ->
  exists cs' pend,
    extractLoop fuel full pos cl cs =
      Some (cl ++ outside full pos cs' (length full - length pend),
            cs ++ cs', pend)
    /\ Forall (wellFramed full) cs'
    /\ ordered pos cs' (length full - length pend)
    /\ length pend <= length full
    /\ pend = skipn (length full - length pend) full
    /\ (pend <> [] ->
        indexOf full APC_START (lastEnd pos cs')
          = Some (length full - length pend)
        /\ indexOf full ST (length full - length pend) = None)
    /\ (forall s, pos <= s -> s < length full - length pend ->
                  occursAt full APC_START s ->
                  exists e, s <= e /\ occursAt full ST e).
Proof.
  induction fuel as [|fuel IH]; intros pos cl cs Hpos Hfuel; [lia|].
  cbn [extractLoop]. destruct (pos <? length full) eqn:Hlt.
  - apply Nat.ltb_lt in Hlt.
    destruct (indexOf full APC_START pos) as [startIdx|] eqn:Hs.
    + apply indexOf_Some in Hs as Hs'; [|lia].
      destruct Hs' as (Hs1 & Hs2 & Hs3 & Hs4).
      pose proof (apc_bound _ _ Hs3) as Hsb.
      destruct (indexOf full ST startIdx) as [endIdx|] eqn:He.
      * apply indexOf_Some in He as He'; [|lia].
        destruct He' as (He1 & He2 & He3 & He4).
        pose proof (st_bound _ _ He3) as Heb.
        pose proof (apc_then_st _ _ _ Hs3 He3 He1) as Hgap.
        destruct (parseSequence_Some
                    (substring full (startIdx + length APC_START) endIdx)
                    startIdx (endIdx + length ST)) as [cmd ->].
        destruct (IH (endIdx + length ST)
                     (cl ++ substring full pos startIdx)
                     (cs ++ [{| command := cmd; startIndex := startIdx;
                                endIndex := endIdx + length ST |}]))
          as (cs' & pend & Hrun & Hfr & Hord & Hlen & Hsuf & Hpend & Hnone);
          [simpl; lia | simpl; lia |].
        exists ({| command := cmd; startIndex := startIdx;
                   endIndex := endIdx + length ST |} :: cs'), pend.
        split; [|split; [|split; [|split; [|split; [|split]]]]]; auto.
        -- rewrite Hrun. simpl. rewrite <- !app_assoc. reflexivity.
        -- constructor; auto. unfold wellFramed; simpl.
           exists (substring full (startIdx + 3) endIdx).
           rewrite (substring_app full startIdx (startIdx + 3) (endIdx + 2)) by lia.
           rewrite (substring_app full (startIdx + 3) endIdx (endIdx + 2)) by lia.
           pose proof (substring_occurs full APC_START startIdx Hs3) as Ea.
           pose proof (substring_occurs full ST endIdx He3) as Eb.
           change (length APC_START) with 3 in Ea.
           change (length ST) with 2 in Eb.
           rewrite Ea, Eb by lia. reflexivity.
        -- simpl. repeat split; auto; lia.
        -- intros s Hps Hstop Hocc.
           destruct (le_gt_dec s endIdx) as [Hse|Hse].
           ++ exists endIdx. split; auto.
           ++ apply Hnone; auto. simpl.
              pose proof (st_then_apc _ _ _ He3 Hocc). lia.
      * exists [], (substringFrom full startIdx).
        unfold substringFrom. rewrite length_skipn.
        replace (length full - (length full - startIdx)) with startIdx by lia.
        simpl. rewrite app_nil_r.
        split; [reflexivity|]. split; [constructor|].
        split; [lia|]. split; [lia|]. split; [reflexivity|].
        split; [intros _; split; assumption|].
        intros s Hps Hstop Hocc. exfalso.
        exact (Hs4 s Hps Hstop Hocc).
    + exists [], []. simpl. rewrite Nat.sub_0_r, app_nil_r.
      split.
      { unfold substringFrom. rewrite substring_ok by lia.
        rewrite firstn_all2; [reflexivity|]. rewrite length_skipn. lia. }
      split; [constructor|]. split; [lia|]. split; [lia|].
      split; [now rewrite skipn_all|].
      split; [congruence|].
      intros s Hps _ Hocc. exfalso.
      exact (indexOf_None _ _ _ (Nat.lt_le_incl _ _ Hlt) Hs s Hps Hocc).
  - apply Nat.ltb_ge in Hlt. assert (pos = length full) as -> by lia.
    exists [], []. simpl. rewrite Nat.sub_0_r, app_nil_r.
    split.
    { rewrite substring_ok by lia. rewrite Nat.sub_diag. simpl.
      now rewrite app_nil_r. }
    split; [constructor|]. split; [lia|]. split; [lia|].
    split; [now rewrite skipn_all|].
    split; [congruence|].
    intros s Hps _ Hocc.
    pose proof (apc_bound _ _ Hocc). lia.
Qed.

Lemma findOuterTerminator_total data innerStart : forall fuel i,
  length data - i < fuel ->
  exists r, findOuterTerminator fuel data innerStart i = Some r /\
            forall e, r = Some e -> i <= e /\ e + 2 <= length data.
Proof.
  induction fuel as [|fuel IH]; intros i Hfuel; [lia|].
  cbn [findOuterTerminator].
  destruct (i + 1 <? length data) eqn:Hlt.
  - apply Nat.ltb_lt in Hlt.
    destruct (charIs data i ESC && charIs data (i + 1) BACKSLASH).
    + destruct ((innerStart <? i) && charIs data (i - 1) ESC).
      * destruct (IH (i + 2)) as (r & -> & Hr); [lia|].
        exists r. split; auto. intros e He. specialize (Hr e He). lia.
      * exists (Some i). split; auto. intros e [= <-]. lia.
    + destruct (IH (i + 1)) as (r & -> & Hr); [lia|].
      exists r. split; auto. intros e He. specialize (Hr e He). lia.
  - exists None. split; auto. discriminate.
Qed.

Lemma unwrapLoop_total data : forall fuel pos result,
  pos <= length data -> length data - pos < fuel ->
  exists r, unwrapLoop fuel data pos result = Some r.
Proof.
  induction fuel as [|fuel IH]; intros pos result Hpos Hfuel; [lia|].
  cbn [unwrapLoop].
  destruct (pos <? length data) eqn:Hlt; [|eauto].
  apply Nat.ltb_lt in Hlt.
  destruct (indexOf data TMUX_PASSTHROUGH_START pos) as [startIdx|] eqn:Hs;
    [|eauto].
  apply indexOf_Some in Hs as (Hs1 & Hs2 & Hs3 & _); [|lia].
  destruct (findOuterTerminator_total data
              (startIdx + length TMUX_PASSTHROUGH_START)
              (S (length data))
              (startIdx + length TMUX_PASSTHROUGH_START))
    as (r & -> & Hr); [lia|].
  destruct r as [endIdx|]; [|eauto].
  destruct (Hr endIdx eq_refl) as [H1 H2].
  apply IH; simpl in *; lia.
Qed.

Lemma unwrapTmuxPassthrough_total data :
  exists r, unwrapTmuxPassthrough data = Some r.
Proof. apply unwrapLoop_total; lia. Qed.

Lemma ordered_stop stop : forall cs from, ordered from cs stop -> from <= stop.
Proof.
  induction cs as [|c cs IH]; simpl; intros from H; [exact H|].
  destruct H as (H1 & H2 & H3). apply IH in H3. lia.
Qed.

Lemma ordered_pairwise stop : forall cs from,
  ordered from cs stop ->
  (forall c, In c cs -> from <= startIndex c /\ startIndex c < endIndex c
                        /\ endIndex c <= stop) /\
  forall i j c d, i < j -> nth_error cs i = Some c -> nth_error cs j = Some d ->
                  endIndex c <= startIndex d.
Proof.
  induction cs as [|c0 cs IH]; intros from H; simpl in *.
  - split; [easy|]. intros i j c d _ Hc. destruct i; discriminate.
  - destruct H as (H1 & H2 & H3). specialize (IH _ H3) as [IHa IHb].
    pose proof (ordered_stop _ _ _ H3) as Hstop.
    split.
    + intros c [<-|Hin]; [lia|]. specialize (IHa c Hin). lia.
    + intros [|i] [|j] c d Hij Hc Hd; simpl in *; try lia.
      * injection Hc as <-. apply nth_error_In in Hd. specialize (IHa d Hd). lia.
      * apply (IHb i j c d); [lia | exact Hc | exact Hd].
Qed.

Lemma extract_spec (p : Parser) (data : jsstring) :
  exists p' r,
    extract p data = Some (p', r) /\
    let stop := length (fullData r) - length (pendingData p') in
    Forall (wellFramed (fullData r)) (commands r) /\
    ordered 0 (commands r) stop /\
    cleanedData r = outside (fullData r) 0 (commands r) stop /\
    pendingData p' = skipn stop (fullData r) /\
    hasGraphics r = (0 <? length (commands r)) /\
    (pendingData p' <> [] ->
       indexOf (fullData r) APC_START (lastEnd 0 (commands r)) = Some stop /\
       indexOf (fullData r) ST stop = None) /\
    (forall s, s < stop -> occursAt (fullData r) APC_START s ->
               exists e, s <= e /\ occursAt (fullData r) ST e).
Proof.
  unfold extract.
  assert (exists full, (if includes (pendingData p ++ data) TMUX_PASSTHROUGH_START
            then unwrapTmuxPassthrough (pendingData p ++ data)
            else Some (pendingData p ++ data)) = Some full) as [full ->].
  { destruct (includes _ _); [apply unwrapTmuxPassthrough_total | eauto]. }
  destruct (extractLoop_spec full (S (length full)) 0 [] [])
    as (cs & pend & -> & Hfr & Hord & Hlen & Hsuf & Hpend & Hnone); [lia|lia|].
  do 2 eexists. split; [reflexivity|]. simpl.
  repeat split; auto.
  - apply Hpend; auto.
  - apply Hpend; auto.
  - intros s Hstop Hocc. apply Hnone; auto. lia.
Qed.

Lemma find_from_shift pat : forall s i,
  find_from pat s i = option_map (Nat.add i) (find_from pat s 0).
Proof.
  induction s as [|c s IH]; intros i; simpl.
  - destruct (startsWith pat []); simpl; [f_equal; lia | reflexivity].
  - destruct (startsWith pat (c :: s)); simpl; [f_equal; lia|].
    rewrite (IH (S i)), (IH 1).
    destruct (find_from pat s 0); simpl; [f_equal; lia | reflexivity].
Qed.

Lemma indexOf_skipn s pat a j :
  a <= length s -> indexOf s pat a = Some j ->
  indexOf (skipn a s) pat 0 = Some (j - a).
Proof.
  unfold indexOf. intros Ha. rewrite Nat.min_l by lia. simpl.
  rewrite (find_from_shift pat (skipn a s) a).
  destruct (find_from pat (skipn a s) 0); simpl; [|discriminate].
  intros [= <-]. f_equal. lia.
Qed.

Lemma occursAt_substring s pat a b j :
  a <= b -> b <= length s -> pat <> [] ->
  occursAt (substring s a b) pat j -> occursAt s pat (a + j) /\ a + j < b.
Proof.
  unfold occursAt. intros Hab Hb Hne H.
  apply startsWith_app in H as [r Hr].
  rewrite substring_ok in Hr by lia.
  assert (Hl : j + length pat <= b - a).
  { apply (f_equal (@length Z)) in Hr.
    rewrite length_skipn, length_firstn, length_skipn, length_app in Hr.
    destruct pat; [congruence|]. simpl in *. lia. }
  split; [|destruct pat; [congruence|]; simpl in *; lia].
  apply startsWith_app.
  exists (r ++ skipn b s).
  rewrite app_assoc, <- Hr.
  rewrite skipn_shift.
  rewrite <- (firstn_skipn (b - a) (skipn a s)) at 1.
  rewrite skipn_app.
  replace (j - length (firstn (b - a) (skipn a s))) with 0.
  2:{ rewrite length_firstn, length_skipn. destruct pat; [congruence|]. simpl in *. lia. }
  simpl. rewrite skipn_skipn. f_equal. f_equal. lia.
Qed.

(** C10.  Every result of [extract] has valid offsets: the slice of each
    command is a whole frame (start marker, body, terminator), the ranges
    are non-empty, lie before the buffered tail and follow one another
    without overlap, the buffered tail is a suffix of [fullData], and
    [cleanedData] is the concatenation of the segments of [fullData]
    outside the ranges and before the buffered tail. *)
Theorem extract_offsets_valid (p : Parser) (data : jsstring) :
  exists p' r,
    extract p data = Some (p', r) /\
    let full := fullData r in
    let stop := length full - length (pendingData p') in
    Forall (wellFramed full) (commands r) /\
    (forall c, In c (commands r) ->
               startIndex c < endIndex c /\ endIndex c <= stop) /\
    (forall i j c d, i < j ->
        nth_error (commands r) i = Some c ->
        nth_error (commands r) j = Some d ->
        endIndex c <= startIndex d) /\
    pendingData p' = skipn stop full /\
    cleanedData r = outside full 0 (commands r) stop.
Proof.
  destruct (extract_spec p data)
    as (p' & r & He & Hfr & Hord & Hcl & Hsuf & _).
  exists p', r. split; [exact He|]. cbv zeta.
  destruct (ordered_pairwise _ _ _ Hord) as [Ha Hb].
  repeat split; auto; apply Ha; auto.
Qed.

(** The repository's test of a wrapper at a chunk boundary holds of the
    model: the terminator at the end of the chunk is taken for the end of
    the wrapper, the inner frame has none and is buffered. *)
Lemma tmux_chunk_boundary_test :
  exists p r,
    extract newParser tmuxBoundaryChunk = Some (p, r) /\
    cleanedData r = [] /\ hasGraphics r = false /\
    hasPendingData p = true /\
    pendingData p = APC_START ++ str "a=T;data".
Proof.
  do 2 eexists. split; [vm_compute; reflexivity|]. repeat split.
Qed.

(** C4.  A tmux wrapper whose terminator has not arrived is not retained:
    of the first chunk the wrapper start marker and the escape after it are
    emitted as cleaned text and only the inner partial frame is buffered;
    the second chunk is then not unwrapped, the payload of the command keeps
    the doubled escape's second half and the wrapper terminator is emitted
    as text.  The same text in one chunk gives no text and the payload
    [data]. *)
Theorem tmux_wrapper_split_across_chunks_leaks :
  (exists p1 r1 p2 r2,
     extract newParser tmuxChunk1 = Some (p1, r1) /\
     cleanedData r1 = TMUX_PASSTHROUGH_START /\
     pendingData p1 = APC_START ++ str "a=T;da" /\
     extract p1 tmuxChunk2 = Some (p2, r2) /\
     cleanedData r2 = ST /\
     payloads r2 = [Some (str "data" ++ [ESC])]) /\
  (exists p r,
     extract newParser (tmuxChunk1 ++ tmuxChunk2) = Some (p, r) /\
     cleanedData r = [] /\
     pendingData p = [] /\
     payloads r = [Some (str "data")]).
Proof.
  split.
  - do 4 eexists. split; [vm_compute; reflexivity|].
    split; [reflexivity|]. split; [reflexivity|].
    split; [vm_compute; reflexivity|]. split; reflexivity.
  - do 2 eexists. split; [vm_compute; reflexivity|].
    split; [reflexivity|]. split; reflexivity.
Qed.

End KittyParserProps.

(** ** Echo stripping

    Facts about the matcher, then about one occurrence of a response in a
    text, then about the three passes of [stripEchoedResponses]. *)

Module RegexFacts.
Import JS Regex KittyParser.

Section Facts.
Context {A : Type} (code : A -> Z).

Lemma star_some {R} cls (k : list A -> option R) : forall s v,
  star code cls s k = Some v ->
  exists d rest, s = d ++ rest /\
                 Forall (fun x => cls (code x) = true) d /\
                 k rest = Some v.
Proof.
  induction s as [|x s IH]; intros v; simpl.
  - intros H. exists [], []. auto.
  - destruct (cls (code x)) eqn:E.
    + destruct (star code cls s k) as [v'|] eqn:Es.
      * intros [= <-]. destruct (IH v' eq_refl) as (d & rest & -> & Hd & Hk).
        exists (x :: d), rest. auto.
      * intros H. exists [], (x :: s). auto.
    + intros H. exists [], (x :: s). auto.
Qed.

(** A continuation that refuses every text that begins with a member of
    the class sees the text after the longest run only. *)
Lemma star_greedy {R} cls (k : list A -> option R) rest :
  (forall x s, cls (code x) = true -> k (x :: s) = None) ->
  (forall x r, rest = x :: r -> cls (code x) = false) ->
  forall d, Forall (fun x => cls (code x) = true) d ->
  star code cls (d ++ rest) k = k rest.
Proof.
  intros Hk Hrest. induction d as [|x d IH]; intros Hd.
  - simpl. destruct rest as [|y r]; [reflexivity|].
    simpl. now rewrite (Hrest y r eq_refl).
  - inversion Hd as [|? ? Hx Hd']; subst. simpl. rewrite Hx, (IH Hd').
    destruct (k rest) eqn:E; [reflexivity|].
    apply Hk. exact Hx.
Qed.

Lemma plus_greedy {R} cls (k : list A -> option R) rest :
  (forall x s, cls (code x) = true -> k (x :: s) = None) ->
  (forall x r, rest = x :: r -> cls (code x) = false) ->
  forall d, d <> [] -> Forall (fun x => cls (code x) = true) d ->
  bt code (Plus cls) (d ++ rest) k = k rest.
Proof.
  intros Hk Hrest [|x d] Hne Hd; [congruence|].
  inversion Hd as [|? ? Hx Hd']; subst. simpl. rewrite Hx.
  now apply star_greedy.
Qed.

Lemma star_total {R} cls (k : list A -> option R) :
  (forall s, k s <> None) -> forall s, star code cls s k <> None.
Proof.
  intros Hk. induction s as [|x s IH]; simpl; [apply Hk|].
  destruct (cls (code x)); [|apply Hk].
  destruct (star code cls s k); [discriminate | contradiction].
Qed.

Lemma bt_lit {R} (k : list A -> option R) s : forall l t,
  l <> [] -> map code t = l -> bt code (lit l) (t ++ s) k = k s.
Proof.
  induction l as [|c l IH]; intros t Hne Ht; [congruence|].
  destruct t as [|x t]; [discriminate|]. injection Ht as Hx Ht.
  destruct l as [|c' l].
  - destruct t; [|discriminate]. simpl. now rewrite Hx, Z.eqb_refl.
  - change (lit (c :: c' :: l)) with (Seq (Chr c) (lit (c' :: l))).
    cbn [bt app]. rewrite Hx, Z.eqb_refl. apply IH; [discriminate | exact Ht].
Qed.

Lemma bt_lit_head {R} (k : list A -> option R) c l x s :
  code x <> c -> bt code (lit (c :: l)) (x :: s) k = None.
Proof.
  intros H. apply Z.eqb_neq in H.
  destruct l; [simpl | change (lit (c :: z :: l)) with (Seq (Chr c) (lit (z :: l)));
                cbn [bt]]; now rewrite H.
Qed.

Lemma bt_lit_nil {R} (k : list A -> option R) c l :
  bt code (lit (c :: l)) [] k = None.
Proof. destruct l; reflexivity. Qed.

(** What the continuation is given is a suffix of the text. *)
Lemma bt_suffix : forall r R (k : list A -> option R) s v,
  bt code r s k = Some v ->
  exists a s', s = a ++ s' /\ k s' = Some v.
Proof.
  induction r as [c|r1 IH1 r2 IH2|r1 IH1 r2 IH2|r1 IH1|cls|cls];
    cbn [bt]; intros R k s v H.
  - destruct s as [|x s]; [discriminate|].
    destruct (code x =? c)%Z; [|discriminate]. exists [x], s. auto.
  - destruct (IH1 _ _ _ _ H) as (a1 & s1 & -> & H1).
    destruct (IH2 _ _ _ _ H1) as (a2 & s2 & -> & H2).
    exists (a1 ++ a2), s2. now rewrite <- app_assoc.
  - destruct (bt code r1 s k) as [v'|] eqn:E.
    + injection H as <-. exact (IH1 _ _ _ _ E).
    + exact (IH2 _ _ _ _ H).
  - destruct (bt code r1 s k) as [v'|] eqn:E.
    + injection H as <-. exact (IH1 _ _ _ _ E).
    + exists [], s. auto.
  - apply star_some in H as (d & rest & -> & _ & H). eauto.
  - destruct s as [|x s]; [discriminate|].
    destruct (cls (code x)); [|discriminate].
    apply star_some in H as (d & rest & -> & _ & H).
    exists (x :: d), rest. auto.
Qed.

Lemma seq_suffix r1 r2 {R} (k : list A -> option R) s v :
  bt code (Seq r1 r2) s k = Some v ->
  exists a s1, s = a ++ s1 /\ bt code r2 s1 k = Some v.
Proof. cbn [bt]. apply bt_suffix. Qed.

Lemma matchDelete_rep r s n rep :
  matchDelete code r s = Some (n, rep) -> rep = [].
Proof.
  unfold matchDelete. intros H.
  apply bt_suffix in H as (a & s' & _ & [= _ <-]). reflexivity.
Qed.

Lemma matchKeepLast_incl r1 r2 s n rep :
  matchKeepLast code r1 r2 s = Some (n, rep) -> incl rep s.
Proof.
  unfold matchKeepLast. intros H.
  apply bt_suffix in H as (a & s1 & -> & H).
  apply bt_suffix in H as (a2 & s2 & _ & [= _ <-]).
  intros x Hx. apply in_or_app. right.
  rewrite <- (firstn_skipn (length s1 - length s2) s1).
  apply in_or_app. now left.
Qed.

(** The loop copies characters and pieces of matches: nothing new. *)
Lemma replaceLoop_incl (m : matcher A) :
  (forall s n rep, m s = Some (n, rep) -> incl rep s) ->
  forall s skip, incl (replaceLoop m skip s) s.
Proof.
  intros Hm. induction s as [|x s IH]; intros skip.
  - simpl. destruct skip; [|apply incl_refl].
    destruct (m []) as [[n rep]|] eqn:E; [exact (Hm _ _ _ E) | apply incl_refl].
  - cbn [replaceLoop]. destruct skip as [|skip].
    + destruct (m (x :: s)) as [[[|n] rep]|] eqn:E.
      * apply incl_app; [exact (Hm _ _ _ E)|].
        apply incl_cons; [now left | apply incl_tl, IH].
      * apply incl_app; [exact (Hm _ _ _ E) | apply incl_tl, IH].
      * apply incl_cons; [now left | apply incl_tl, IH].
    + apply incl_tl, IH.
Qed.

(** The matcher sees code units only. *)
Lemma star_map {R R'} (f : R -> R') cls
    (k : list A -> option R) (k' : list Z -> option R') :
  (forall s, option_map f (k s) = k' (map code s)) ->
  forall s, option_map f (star code cls s k)
            = star (fun c => c) cls (map code s) k'.
Proof.
  intros Hk. induction s as [|x s IH]; simpl; [apply (Hk [])|].
  destruct (cls (code x)); [|apply (Hk (x :: s))].
  rewrite <- IH. destruct (star code cls s k); [reflexivity|].
  apply (Hk (x :: s)).
Qed.

Lemma bt_map {R R'} (f : R -> R') : forall r
    (k : list A -> option R) (k' : list Z -> option R') s,
  (forall s, option_map f (k s) = k' (map code s)) ->
  option_map f (bt code r s k) = bt (fun c => c) r (map code s) k'.
Proof.
  induction r as [c|r1 IH1 r2 IH2|r1 IH1 r2 IH2|r1 IH1|cls|cls];
    intros k k' s Hk; cbn [bt].
  - destruct s as [|x s]; [reflexivity|]. simpl.
    destruct (code x =? c)%Z; [apply Hk | reflexivity].
  - apply IH1. intros s1. apply IH2. exact Hk.
  - rewrite <- (IH1 k k' s Hk). destruct (bt code r1 s k); [reflexivity|].
    apply IH2. exact Hk.
  - rewrite <- (IH1 k k' s Hk). destruct (bt code r1 s k); [reflexivity|].
    apply Hk.
  - now apply star_map.
  - destruct s as [|x s]; [reflexivity|]. simpl.
    destruct (cls (code x)); [now apply star_map | reflexivity].
Qed.

Lemma matchDelete_map r s :
  option_map (eraseMatch code) (matchDelete code r s)
  = matchDelete (fun c => c) r (map code s).
Proof.
  unfold matchDelete. apply bt_map. intros s1. simpl. unfold eraseMatch. simpl.
  now rewrite !length_map.
Qed.

Lemma matchKeepLast_map r1 r2 s :
  option_map (eraseMatch code) (matchKeepLast code r1 r2 s)
  = matchKeepLast (fun c => c) r1 r2 (map code s).
Proof.
  unfold matchKeepLast. apply bt_map. intros s1. apply bt_map. intros s2.
  simpl. unfold eraseMatch. simpl. now rewrite !length_map, firstn_map.
Qed.

Lemma replaceLoop_map (m : matcher A) (m' : matcher Z) :
  (forall s, option_map (eraseMatch code) (m s) = m' (map code s)) ->
  forall s skip,
    map code (replaceLoop m skip s) = replaceLoop m' skip (map code s).
Proof.
  intros Hm. induction s as [|x s IH]; intros skip.
  - simpl. destruct skip; [|reflexivity].
    pose proof (Hm []) as H0. simpl in H0. rewrite <- H0.
    destruct (m []) as [[n rep]|]; reflexivity.
  - cbn [replaceLoop map]. destruct skip as [|skip]; [|apply IH].
    change (code x :: map code s) with (map code (x :: s)).
    rewrite <- (Hm (x :: s)).
    destruct (m (x :: s)) as [[[|n] rep]|]; simpl;
      rewrite ?map_app; simpl; now rewrite IH.
Qed.

End Facts.
End RegexFacts.

Module CutFacts.
Import JS Regex KittyParser.
Import RegexFacts.

Section Cut.
Context {A : Type} (code : A -> Z) (o post u0 : list A).
Hypothesis o_head : exists y o', o = y :: o' /\ code y = 105%Z.

Local Abbreviation before := (before o post u0).
Local Abbreviation after := (after post).
Local Abbreviation safe := (safe o post u0).
Local Abbreviation within := (within o post).

Lemma before_tail x s : before (x :: s) -> x :: s <> o ++ post -> before s.
Proof.
  intros (a & u & Hu & Hs) Hne. destruct u as [|x' u].
  - simpl in Hs. congruence.
  - injection Hs as <- ->. exists (a ++ [x]), u.
    split; [now rewrite <- app_assoc | reflexivity].
Qed.

Lemma after_tail x s : after (x :: s) -> after s.
Proof.
  intros (q & Hq). exists (q ++ [x]). now rewrite <- app_assoc.
Qed.

Lemma after_app d s : after (d ++ s) -> after s.
Proof.
  intros (q & Hq). exists (q ++ d). now rewrite <- app_assoc.
Qed.

Lemma safe_tail x s : safe (x :: s) -> code x <> 105%Z -> safe s.
Proof.
  intros [Hb|Ha] Hx.
  - left. apply (before_tail x); [exact Hb|].
    destruct o_head as (y & o' & -> & Hy). simpl. congruence.
  - right. now apply (after_tail x).
Qed.

Lemma safe_run cls d : cls 105%Z = false ->
  Forall (fun x => cls (code x) = true) d ->
  forall s, safe (d ++ s) -> safe s.
Proof.
  intros Hc. induction 1 as [|x d Hx _ IH]; intros s Hs; [exact Hs|].
  apply IH. apply (safe_tail x); [exact Hs|]. congruence.
Qed.

(** A pattern without [i] that starts outside [o] ends outside [o]. *)
Lemma bt_avoids : forall r, avoids 105 r = true ->
  forall R (k : list A -> option R) s v,
    bt code r s k = Some v -> safe s ->
    exists s', safe s' /\ k s' = Some v.
Proof.
  induction r as [c|r1 IH1 r2 IH2|r1 IH1 r2 IH2|r1 IH1|cls|cls];
    cbn [avoids bt]; intros Hav R k s v H Hs.
  - destruct s as [|x s]; [discriminate|].
    destruct (code x =? c)%Z eqn:E; [|discriminate].
    apply Z.eqb_eq in E. apply negb_true_iff, Z.eqb_neq in Hav.
    exists s. split; [|exact H]. apply (safe_tail x); [exact Hs | congruence].
  - apply andb_true_iff in Hav as [H1 H2].
    destruct (IH1 H1 _ _ _ _ H Hs) as (s1 & Hs1 & H').
    exact (IH2 H2 _ _ _ _ H' Hs1).
  - apply andb_true_iff in Hav as [H1 H2].
    destruct (bt code r1 s k) as [v'|] eqn:E.
    + injection H as <-. exact (IH1 H1 _ _ _ _ E Hs).
    + exact (IH2 H2 _ _ _ _ H Hs).
  - destruct (bt code r1 s k) as [v'|] eqn:E.
    + injection H as <-. exact (IH1 Hav _ _ _ _ E Hs).
    + exists s. auto.
  - apply negb_true_iff in Hav.
    apply star_some in H as (d & rest & -> & Hd & Hk).
    exists rest. split; [|exact Hk]. exact (safe_run cls d Hav Hd rest Hs).
  - apply negb_true_iff in Hav.
    destruct s as [|x s]; [discriminate|].
    destruct (cls (code x)) eqn:Ex; [|discriminate].
    apply star_some in H as (d & rest & -> & Hd & Hk).
    exists rest. split; [|exact Hk].
    apply (safe_run cls (x :: d) Hav); [now constructor | exact Hs].
Qed.

(** The greedy run of a class that holds all of [o], before a
    continuation that accepts every text. *)
Lemma star_through {R} cls (k : list A -> option R) :
  (forall s, k s <> None) ->
  forall d rest v, Forall (fun x => cls (code x) = true) d ->
    star code cls (d ++ rest) k = Some v ->
    exists s', (exists q, rest = q ++ s') /\ k s' = Some v.
Proof.
  intros Hk. induction d as [|x d IH]; intros rest v Hd H.
  - simpl in H. apply star_some in H as (d0 & r0 & E & _ & H).
    exists r0. split; [exists d0; exact E | exact H].
  - inversion Hd as [|? ? Hx Hd']; subst. cbn [app star] in H.
    rewrite Hx in H.
    destruct (star code cls (d ++ rest) k) as [v'|] eqn:E.
    + injection H as <-. exact (IH rest v' Hd' E).
    + exfalso. exact (star_total code cls k Hk _ E).
Qed.

Lemma star_total_within {R} cls (k : list A -> option R) :
  (forall s, k s <> None) ->
  Forall (fun x => cls (code x) = true) o ->
  forall s v, within s -> star code cls s k = Some v ->
              exists s', after s' /\ k s' = Some v.
Proof.
  intros Hk Ho s v (o1 & o2 & Eo & ->) H.
  rewrite Eo in Ho. apply Forall_app in Ho as [_ Ho2].
  exact (star_through cls k Hk o2 post v Ho2 H).
Qed.

Lemma star_total_safe {R} cls (k : list A -> option R) :
  (forall s, k s <> None) ->
  Forall (fun x => cls (code x) = true) o ->
  forall s v, safe s -> star code cls s k = Some v ->
              exists s', safe s' /\ k s' = Some v.
Proof.
  intros Hk Ho s v [(a & u & Hu & ->)|Ha] H.
  - revert a Hu H. induction u as [|x u IH]; intros a Hu H.
    + destruct (star_total_within cls k Hk Ho (o ++ post) v) as (s' & Hs & H');
        [exists [], o; auto | exact H |].
      exists s'. split; [now right | exact H'].
    + cbn [app star] in H.
      assert (Hb : before ((x :: u) ++ o ++ post)) by (exists a, (x :: u); auto).
      destruct (cls (code x)); [|exists ((x :: u) ++ o ++ post); split; [now left | exact H]].
      destruct (star code cls (u ++ o ++ post) k) as [v'|] eqn:E.
      * injection H as <-. apply (IH (a ++ [x])); [|reflexivity].
        now rewrite <- app_assoc.
      * exists ((x :: u) ++ o ++ post). split; [now left | exact H].
  - apply star_some in H as (d & rest & -> & _ & H).
    exists rest. split; [right; exact (after_app d rest Ha) | exact H].
Qed.

(** Every tail of a text that begins in or around [o] does so too. *)
Lemma within_tail x s : within (x :: s) -> within s \/ after s.
Proof.
  intros (o1 & o2 & Eo & Hs). destruct o2 as [|y o2].
  - right. simpl in Hs. exists [x]. now rewrite <- Hs.
  - injection Hs as <- ->. left. exists (o1 ++ [x]), o2.
    split; [now rewrite <- app_assoc | reflexivity].
Qed.

Lemma reach_tail x s :
  safe (x :: s) \/ within (x :: s) -> safe s \/ within s.
Proof.
  intros [[Hb|Ha]|Hw].
  - destruct Hb as (a & u & Hu & Hs). destruct u as [|x' u].
    + simpl in Hs.
      destruct (within_tail x s) as [Hw|Haf]; [exists [], o; auto | auto |].
      left. now right.
    + injection Hs as <- ->. left. left. exists (a ++ [x]), u.
      split; [now rewrite <- app_assoc | reflexivity].
  - left. right. exact (after_tail x s Ha).
  - destruct (within_tail x s Hw) as [H|H]; [now right | left; now right].
Qed.

Lemma reach_app d : forall s,
  safe (d ++ s) \/ within (d ++ s) -> safe s \/ within s.
Proof.
  induction d as [|x d IH]; intros s H; [exact H|].
  apply IH. exact (reach_tail x (d ++ s) H).
Qed.

(** A continuation that asks for an escape character cannot stop the run
    inside [o]. *)
Lemma star_escape_safe {R} cls (k : list A -> option R) :
  (forall s v, k s = Some v -> exists y s1, s = y :: s1 /\ code y = 27%Z) ->
  Forall (fun x => code x <> 27%Z) o ->
  forall s v, safe s \/ within s -> star code cls s k = Some v ->
              exists s', safe s' /\ k s' = Some v.
Proof.
  intros Hk Ho s v Hs H.
  apply star_some in H as (d & rest & -> & _ & H).
  exists rest. split; [|exact H].
  destruct (reach_app d rest Hs) as [Hr|(o1 & o2 & Eo & Hr)]; [exact Hr|].
  destruct o2 as [|y o2]; [right; exists []; exact (eq_sym Hr)|].
  exfalso. destruct (Hk _ _ H) as (y' & s1 & E & Hy).
  rewrite Hr in E. injection E as <- _.
  rewrite Eo in Ho. apply Forall_app in Ho as [_ Ho].
  inversion Ho; subst. contradiction.
Qed.

End Cut.
End CutFacts.

Module StripFacts.
Import JS Regex KittyParser.
Import RegexFacts CutFacts.

Section Head.
Context {A : Type} (code : A -> Z).
Local Open Scope Z_scope.

Lemma digit_range c : isDigit c = true -> 48 <= c <= 57.
Proof. unfold isDigit. rewrite andb_true_iff, !Z.leb_le. tauto. Qed.

Lemma digits_range d :
  forallb isDigit d = true -> Forall (fun c => 48 <= c <= 57) d.
Proof.
  rewrite forallb_forall, Forall_forall. intros H c Hc.
  exact (digit_range c (H c Hc)).
Qed.

Lemma printable_notSpace c : 33 <= c <= 122 -> notSpace c = true.
Proof.
  intros H. unfold notSpace, isSpace.
  rewrite (proj2 (Z.leb_gt c 13)) by lia.
  rewrite (proj2 (Z.leb_gt 8192 c)) by lia.
  rewrite !(proj2 (Z.eqb_neq c _)) by lia.
  now rewrite andb_false_r.
Qed.

(** The characters of a response head are printable, none is [G], [_] or
    the escape character, and the first one is [i]. *)
Lemma responseHead_codes st c :
  responseHead st c -> st = str "OK" \/ st = str "ENOENT:" ->
  Forall (fun z => 33 <= z <= 122 /\ z <> 71 /\ z <> 95) c /\
  exists c', c = 105 :: c'.
Proof.
  intros (d & p & [_ Hd] & Hp & ->) Hst. split; [|eexists; reflexivity].
  change (str "i=") with [105; 61].
  assert (Hd' : forall d, forallb isDigit d = true ->
                Forall (fun z => 33 <= z <= 122 /\ z <> 71 /\ z <> 95) d).
  { intros d0 H0. apply digits_range in H0.
    eapply Forall_impl; [|exact H0]. simpl. intros; lia. }
  apply Forall_app. split; [repeat (constructor; [lia|]); constructor|].
  apply Forall_app. split; [now apply Hd'|].
  apply Forall_app. split.
  - destruct Hp as [->|(d' & [_ Hd2] & ->)]; [constructor|].
    apply Forall_app. split; [|now apply Hd'].
    change (str ",p=") with [44; 112; 61].
    repeat (constructor; [lia|]); constructor.
  - constructor; [lia|].
    destruct Hst as [->| ->]; vm_compute str;
      repeat (constructor; [lia|]); constructor.
Qed.

Lemma placement_refuses_digit {R} (k : list A -> option R) x s :
  isDigit (code x) = true ->
  bt code (Opt rePlacementId) (x :: s)
    (fun s1 => bt code (Chr 59) s1 k) = None.
Proof.
  intros H. apply digit_range in H.
  change (bt code (Opt rePlacementId) (x :: s) (fun s1 => bt code (Chr 59) s1 k))
    with (match bt code (lit (str ",p=")) (x :: s)
                  (fun s1 => bt code (Plus isDigit) s1
                     (fun s1 => bt code (Chr 59) s1 k)) with
          | Some v => Some v
          | None => bt code (Chr 59) (x :: s) k
          end).
  rewrite (bt_lit_head code _ 44 (str "p=")) by lia.
  simpl. now rewrite (proj2 (Z.eqb_neq (code x) 59)) by lia.
Qed.

Lemma semicolon_refuses_digit {R} (k : list A -> option R) x s :
  isDigit (code x) = true -> bt code (Chr 59) (x :: s) k = None.
Proof.
  intros H. apply digit_range in H.
  simpl. now rewrite (proj2 (Z.eqb_neq (code x) 59)) by lia.
Qed.

Lemma digits_Forall (t : list A) d :
  map code t = d -> forallb isDigit d = true ->
  Forall (fun x => isDigit (code x) = true) t.
Proof.
  intros <- H. rewrite forallb_forall in H. apply Forall_forall.
  intros x Hx. apply H. now apply in_map.
Qed.

(** Through [i=<digits>], the optional [,p=<digits>] and [;] of a response
    head there is one way. *)
Lemma response_through_head h st :
  responseHead st (map code h) ->
  exists h0 tS, h = h0 ++ tS /\ map code tS = st /\
    forall R (K : list A -> option R) rest,
      bt code reResponse (h ++ rest) K = bt code reStatus (tS ++ rest) K.
Proof.
  intros (d & p & [Hdn Hd] & Hp & E).
  apply map_eq_app in E as (t1 & r1 & -> & E1 & E).
  apply map_eq_app in E as (tD & r2 & -> & ED & E).
  apply map_eq_app in E as (tP & r3 & -> & EP & E).
  apply map_eq_cons in E as (semi & tS & -> & Esemi & ES).
  exists (t1 ++ tD ++ tP ++ [semi]), tS.
  split; [now rewrite <- !app_assoc|]. split; [exact ES|].
  intros R K rest.
  change (bt code reResponse ((t1 ++ tD ++ tP ++ semi :: tS) ++ rest) K)
    with (bt code (lit (str "i=")) ((t1 ++ tD ++ tP ++ semi :: tS) ++ rest)
            (fun s1 => bt code (Plus isDigit) s1
               (fun s2 => bt code (Opt rePlacementId) s2
                  (fun s3 => bt code (Chr 59) s3
                     (fun s4 => bt code reStatus s4 K))))).
  rewrite <- !app_assoc. rewrite bt_lit by (discriminate || exact E1).
  assert (HtD : tD <> []) by (intros ->; simpl in ED; congruence).
  assert (Hsemi : bt code (Chr 59) ((semi :: tS) ++ rest)
                    (fun s4 => bt code reStatus s4 K)
                  = bt code reStatus (tS ++ rest) K).
  { simpl. now rewrite Esemi. }
  rewrite plus_greedy.
  - (* the optional placement *)
    destruct Hp as [->|(d' & [Hdn' Hd'] & ->)].
    + destruct tP; [|discriminate]. simpl app.
      change (bt code (Opt rePlacementId) (semi :: tS ++ rest)
                (fun s3 => bt code (Chr 59) s3 (fun s4 => bt code reStatus s4 K)))
        with (match bt code (lit (str ",p=")) (semi :: tS ++ rest)
                      (fun s1 => bt code (Plus isDigit) s1
                         (fun s3 => bt code (Chr 59) s3
                            (fun s4 => bt code reStatus s4 K))) with
              | Some v => Some v
              | None => bt code (Chr 59) ((semi :: tS) ++ rest)
                          (fun s4 => bt code reStatus s4 K)
              end).
      rewrite (bt_lit_head code _ 44 (str "p=")) by (rewrite Esemi; lia).
      exact Hsemi.
    + apply map_eq_app in EP as (tc & tD' & -> & Ec & ED').
      assert (HtD' : tD' <> []) by (intros ->; simpl in ED'; congruence).
      change (bt code (Opt rePlacementId) ((tc ++ tD') ++ (semi :: tS) ++ rest)
                (fun s3 => bt code (Chr 59) s3 (fun s4 => bt code reStatus s4 K)))
        with (match bt code (lit (str ",p=")) ((tc ++ tD') ++ (semi :: tS) ++ rest)
                      (fun s1 => bt code (Plus isDigit) s1
                         (fun s3 => bt code (Chr 59) s3
                            (fun s4 => bt code reStatus s4 K))) with
              | Some v => Some v
              | None => bt code (Chr 59) ((tc ++ tD') ++ (semi :: tS) ++ rest)
                          (fun s4 => bt code reStatus s4 K)
              end).
      rewrite <- app_assoc. rewrite bt_lit by (discriminate || exact Ec).
      rewrite plus_greedy.
      * rewrite Hsemi. destruct (bt code reStatus (tS ++ rest) K); [reflexivity|].
        destruct tc as [|c0 tc]; [discriminate|]. injection Ec as Ec _.
        simpl. now rewrite Ec.
      * intros x s Hx. now apply semicolon_refuses_digit.
      * intros x r [= <- _]. rewrite Esemi. reflexivity.
      * exact HtD'.
      * exact (digits_Forall tD' d' ED' Hd').
  - intros x s Hx. now apply placement_refuses_digit.
  - intros x r Hx. destruct Hp as [->|(d' & _ & ->)].
    + destruct tP; [|discriminate]. injection Hx as <- _.
      rewrite Esemi. reflexivity.
    + destruct tP as [|c0 tP]; [discriminate|]. injection EP as Ec _.
      injection Hx as <- _. rewrite Ec. reflexivity.
  - exact HtD.
  - exact (digits_Forall tD d ED Hd).
Qed.

Lemma status_ok {R} (K : list A -> option R) tS rest :
  map code tS = str "OK" -> bt code reStatus (tS ++ rest) K = K rest.
Proof.
  intros E. unfold reStatus. cbn [bt].
  rewrite bt_lit by (discriminate || exact E).
  destruct (K rest); [reflexivity|].
  destruct tS as [|x tS]; [discriminate|]. injection E as Ex _.
  apply (bt_lit_head code _ 69 (str "NOENT:")). rewrite Ex. discriminate.
Qed.

Lemma status_enoent {R} (K : list A -> option R) tS rest :
  map code tS = str "ENOENT:" ->
  bt code reStatus (tS ++ rest) K = star code notSpace rest K.
Proof.
  intros E. unfold reStatus. cbn [bt].
  rewrite (bt_lit code (fun s1 => star code notSpace s1 K) rest
             (str "ENOENT:") tS) by (discriminate || exact E).
  destruct tS as [|x tS]; [discriminate|]. injection E as Ex _.
  cbn [app].
  rewrite (bt_lit_head code _ 79 (str "K")) by (rewrite Ex; discriminate).
  reflexivity.
Qed.

End Head.
End StripFacts.

Module OccFacts.
Import JS Regex KittyParser.
Import RegexFacts CutFacts StripFacts.

Section Occ.
Context {A : Type} (code : A -> Z) (h w post u0 : list A) (st : jsstring).
Hypothesis Hh : responseHead st (map code h).
Hypothesis Hst :
  (st = str "OK" /\ w = []) \/
  (st = str "ENOENT:" /\ Forall (fun x => plainChar (code x) = true) w).

Local Abbreviation safe := (safe (h ++ w) post u0).
Local Abbreviation within := (within (h ++ w) post).
Local Abbreviation after := (after post).

Lemma status_cases : st = str "OK" \/ st = str "ENOENT:".
Proof. destruct Hst as [[-> _]|[-> _]]; auto. Qed.

Lemma h_codes :
  Forall (fun x => (33 <= code x <= 122 /\ code x <> 71 /\ code x <> 95)%Z) h.
Proof.
  exact (proj1 (Forall_map code _ h)
           (proj1 (responseHead_codes st _ Hh status_cases))).
Qed.

Lemma o_head : exists y o', h ++ w = y :: o' /\ code y = 105%Z.
Proof.
  destruct (proj2 (responseHead_codes st _ Hh status_cases)) as (c' & E).
  apply map_eq_cons in E as (y & h' & -> & Hy & _).
  exists y, (h' ++ w). auto.
Qed.

Lemma w_plain : Forall (fun x => plainChar (code x) = true) w.
Proof. destruct Hst as [[_ ->]|[_ H]]; [constructor | exact H]. Qed.

Lemma o_notSpace : Forall (fun x => notSpace (code x) = true) (h ++ w).
Proof.
  apply Forall_app. split.
  - eapply Forall_impl; [|exact h_codes]. simpl. intros x Hx.
    apply printable_notSpace. tauto.
  - eapply Forall_impl; [|exact w_plain]. simpl. intros x Hx.
    unfold plainChar in Hx. now apply andb_true_iff in Hx.
Qed.

Lemma o_noEscape : Forall (fun x => code x <> 27%Z) (h ++ w).
Proof.
  apply Forall_app. split.
  - eapply Forall_impl; [|exact h_codes]. simpl. intros x Hx. lia.
  - eapply Forall_impl; [|exact w_plain]. simpl. intros x Hx.
    unfold plainChar in Hx. apply andb_true_iff in Hx as [_ Hx].
    apply negb_true_iff, Z.eqb_neq in Hx. exact Hx.
Qed.

Ltac avoided H Hs s' Hs' H' :=
  match type of H with
  | bt _ ?r ?s ?k = Some ?v =>
      destruct (bt_avoids code _ post u0 o_head r eq_refl _ k s v H Hs)
        as (s' & Hs' & H')
  end.

Lemma status_safe {R} (K : list A -> option R) :
  (forall s v, safe s -> star code notSpace s K = Some v ->
               exists s', safe s' /\ K s' = Some v) ->
  forall s v, bt code reStatus s K = Some v -> safe s ->
              exists s', safe s' /\ K s' = Some v.
Proof.
  intros HK s v H Hs. unfold reStatus in H. cbn [bt] in H.
  destruct (bt code (lit (str "OK")) s K) as [v'|] eqn:E.
  - injection H as <-.
    exact (bt_avoids code _ post u0 o_head (lit (str "OK")) eq_refl _ K s v' E Hs).
  - destruct (bt_avoids code _ post u0 o_head (lit (str "ENOENT:")) eq_refl
                _ _ s v H Hs) as (s1 & Hs1 & H1).
    exact (HK s1 v Hs1 H1).
Qed.

(** The body of a response, started outside the occurrence, ends outside
    it. *)
Lemma response_safe {R} (K : list A -> option R) :
  (forall s v, safe s -> star code notSpace s K = Some v ->
               exists s', safe s' /\ K s' = Some v) ->
  (forall s v, within s -> star code notSpace s K = Some v ->
               exists s', safe s' /\ K s' = Some v) ->
  forall s v, bt code reResponse s K = Some v -> safe s ->
              exists s', safe s' /\ K s' = Some v.
Proof.
  intros HK1 HK2 s v H Hs.
  assert (Haligned : s = (h ++ w) ++ post ->
                     exists s', safe s' /\ K s' = Some v).
  { intros ->. rewrite <- app_assoc in H.
    destruct (response_through_head code h st Hh) as (h0 & tS & _ & ES & Ev).
    rewrite Ev in H. destruct Hst as [[-> ->]|[-> Hw]].
    - rewrite status_ok in H by exact ES. simpl in H.
      exists post. split; [right; exists []; reflexivity | exact H].
    - rewrite status_enoent in H by exact ES.
      apply (HK2 (w ++ post) v); [|exact H]. exists h, w. auto. }
  assert (Hstep : forall x s1, s = x :: s1 -> safe s1 ->
                  exists s', safe s' /\ K s' = Some v).
  { intros x s1 -> Hs1.
    change (bt code reResponse (x :: s1) K)
      with (if (code x =? 105)%Z
            then bt code (Seq (Chr 61) (Seq (Plus isDigit)
                            (Seq (Opt rePlacementId) (Chr 59)))) s1
                   (fun s5 => bt code reStatus s5 K)
            else None) in H.
    destruct (code x =? 105)%Z; [|discriminate].
    avoided H Hs1 s5 Hs5 H5.
    exact (status_safe K HK1 s5 v H5 Hs5). }
  destruct Hs as [(a & u & Hu & Es)|Ha].
  - destruct u as [|x u]; [exact (Haligned Es)|].
    apply (Hstep x (u ++ (h ++ w) ++ post) Es). left.
    exists (a ++ [x]), u. split; [now rewrite <- app_assoc | reflexivity].
  - destruct s as [|x s1]; [cbv in H; discriminate|].
    apply (Hstep x s1 eq_refl). right. exact (after_tail post x s1 Ha).
Qed.

Lemma terminator_total {R} (k : list A -> option R) :
  (forall s, k s <> None) -> forall s, bt code reTerminator s k <> None.
Proof.
  intros Hk s.
  change (bt code reTerminator s k)
    with (match bt code (Alt (lit [ESC; BACKSLASH]) (Chr BACKSLASH)) s k with
          | Some v => Some v
          | None => k s
          end).
  destruct (bt code (Alt (lit [ESC; BACKSLASH]) (Chr BACKSLASH)) s k);
    [discriminate | apply Hk].
Qed.

Lemma terminator_safe {R} (k : list A -> option R) s v :
  bt code reTerminator s k = Some v -> safe s ->
  exists s', safe s' /\ k s' = Some v.
Proof. exact (bt_avoids code _ post u0 o_head reTerminator eq_refl _ k s v). Qed.

(** The body followed by the optional terminator, before a continuation
    that accepts every text. *)
Lemma response_terminator_safe {R} (k : list A -> option R) :
  (forall s, k s <> None) ->
  forall s v,
    bt code reResponse s (fun s4 => bt code reTerminator s4 k) = Some v ->
    safe s -> exists s', safe s' /\ k s' = Some v.
Proof.
  intros Hk s v H Hs.
  destruct (response_safe (fun s4 => bt code reTerminator s4 k)) with (s := s) (v := v)
    as (s4 & Hs4 & H4); [| |exact H|exact Hs|].
  - intros s1 v1 Hs1 H1.
    exact (star_total_safe code _ post u0 notSpace _ (terminator_total k Hk)
             o_notSpace s1 v1 Hs1 H1).
  - intros s1 v1 Hs1 H1.
    destruct (star_total_within code _ post notSpace _ (terminator_total k Hk)
                o_notSpace s1 v1 Hs1 H1) as (s' & Ha & H').
    exists s'. split; [now right | exact H'].
  - exact (terminator_safe k s4 v H4 Hs4).
Qed.

Lemma status_terminator_safe {R} (k : list A -> option R) :
  (forall s, k s <> None) ->
  forall s v,
    bt code reStatus s (fun s4 => bt code reTerminator s4 k) = Some v ->
    safe s -> exists s', safe s' /\ k s' = Some v.
Proof.
  intros Hk s v H Hs.
  destruct (status_safe (fun s4 => bt code reTerminator s4 k)) with (s := s) (v := v)
    as (s4 & Hs4 & H4); [|exact H|exact Hs|].
  - intros s1 v1 Hs1 H1.
    exact (star_total_safe code _ post u0 notSpace _ (terminator_total k Hk)
             o_notSpace s1 v1 Hs1 H1).
  - exact (terminator_safe k s4 v H4 Hs4).
Qed.

Lemma bare_safe {R} (k : list A -> option R) :
  (forall s, k s <> None) ->
  forall s v, bt code bareResponse s k = Some v -> safe s ->
              exists s', safe s' /\ k s' = Some v.
Proof. exact (response_terminator_safe k). Qed.

Lemma withG_safe {R} (k : list A -> option R) :
  (forall s, k s <> None) ->
  forall s v, bt code withG s k = Some v -> safe s ->
              exists s', safe s' /\ k s' = Some v.
Proof.
  intros Hk s v H Hs.
  change (bt code withG s k)
    with (bt code (Seq (Opt (Alt (lit (ESC :: str "_")) (Chr 95))) (Chr 71)) s
            (fun s1 =>
               match bt code reResponse s1
                       (fun s4 => bt code reTerminator s4 k) with
               | Some v => Some v
               | None =>
                   bt code (Seq (Opt rePlacementId) (Chr 59)) s1
                     (fun s3 => bt code reStatus s3
                                  (fun s4 => bt code reTerminator s4 k))
               end)) in H.
  avoided H Hs s1 Hs1 H1.
  destruct (bt code reResponse s1 (fun s4 => bt code reTerminator s4 k))
    as [v'|] eqn:E.
  - injection H1 as <-. exact (response_terminator_safe k Hk s1 v' E Hs1).
  - avoided H1 Hs1 s3 Hs3 H3.
    exact (status_terminator_safe k Hk s3 v H3 Hs3).
Qed.

Lemma erase_inv {R} (k : list A -> option R) s1 v :
  bt code framedErase s1 k = Some v ->
  exists e b c s2, s1 = e :: b :: c :: s2 /\
    code e = 27%Z /\ code b = 91%Z /\ code c = 75%Z /\ k s2 = Some v.
Proof.
  intros H. destruct s1 as [|e [|b [|c s2]]]; cbn in H;
    try discriminate;
    repeat match type of H with
           | (if (?a =? ?b)%Z then _ else _) = _ =>
               destruct (Z.eqb_spec a b); [|discriminate]
           end; try discriminate.
  exists e, b, c, s2. auto.
Qed.

Lemma withG_cut s0 n rep :
  matchDelete code withG s0 = Some (n, rep) -> safe s0 ->
  exists s', safe s' /\ n = length s0 - length s' /\ incl rep (u0 ++ post).
Proof.
  unfold matchDelete. intros H Hs.
  apply withG_safe in H as (s' & Hs' & [= <- <-]);
    [|discriminate | exact Hs].
  exists s'. split; [exact Hs'|]. split; [reflexivity | apply incl_nil_l].
Qed.

Lemma bare_cut s0 n rep :
  matchDelete code bareResponse s0 = Some (n, rep) -> safe s0 ->
  exists s', safe s' /\ n = length s0 - length s' /\ incl rep (u0 ++ post).
Proof.
  unfold matchDelete. intros H Hs.
  apply bare_safe in H as (s' & Hs' & [= <- <-]);
    [|discriminate | exact Hs].
  exists s'. split; [exact Hs'|]. split; [reflexivity | apply incl_nil_l].
Qed.

Lemma framed_cut s0 n rep :
  matchKeepLast code framedHead framedErase s0 = Some (n, rep) -> safe s0 ->
  exists s', safe s' /\ n = length s0 - length s' /\ incl rep (u0 ++ post).
Proof.
  unfold matchKeepLast. intros H Hs.
  set (K := fun s1 : list A =>
              bt code framedErase s1
                (fun s2 => Some (length s0 - length s2,
                                 firstn (length s1 - length s2) s1))) in H.
  change (bt code framedHead s0 K)
    with (bt code (Seq (lit (ESC :: str "["))
                    (Seq (Plus isDigit)
                      (Seq (Chr 59) (Seq (Plus isDigit) (Chr 72))))) s0
            (fun s => bt code reResponse s K)) in H.
  avoided H Hs s Hs1 H1.
  assert (HK : forall s v, K s = Some v ->
                           exists y s1, s = y :: s1 /\ code y = 27%Z).
  { intros t v Ht. apply erase_inv in Ht as (e & b & c & s2 & -> & He & _).
    eauto. }
  destruct (response_safe K) with (s := s) (v := (n, rep))
    as (s1 & Hs1' & HK1); [| |exact H1|exact Hs1|].
  - intros t v Ht Hv.
    exact (star_escape_safe code _ post u0 o_head notSpace K HK o_noEscape
             t v (or_introl Ht) Hv).
  - intros t v Ht Hv.
    exact (star_escape_safe code _ post u0 o_head notSpace K HK o_noEscape
             t v (or_intror Ht) Hv).
  - apply erase_inv in HK1 as (e & b & c & s2 & -> & He & Hb & Hc & Hv).
    cbv beta in Hv.
    replace (length (e :: b :: c :: s2) - length s2) with 3 in Hv
      by (cbn [length]; lia).
    cbn [firstn] in Hv. injection Hv as <- <-.
    assert (Hs2 : safe s2).
    { apply (safe_tail code _ post u0 o_head c); [|lia].
      apply (safe_tail code _ post u0 o_head b); [|lia].
      apply (safe_tail code _ post u0 o_head e); [exact Hs1' | lia]. }
    exists s2. split; [exact Hs2|]. split; [reflexivity|].
    destruct o_head as (y & o' & Eo & Hy).
    destruct Hs1' as [(a & u & Hu & Eu)|(q & Eq)].
    + rewrite Eo in Eu.
      destruct u as [|e' [|b' [|c' u]]]; simpl in Eu.
      * injection Eu as E1 _. rewrite E1 in He. lia.
      * injection Eu as _ E1 _. rewrite E1 in Hb. lia.
      * injection Eu as _ _ E1 _. rewrite E1 in Hc. lia.
      * injection Eu as E1 E2 E3 _. rewrite Hu, E1, E2, E3.
        intros x Hx. apply in_or_app. left. apply in_or_app. right.
        destruct Hx as [<-|[<-|[<-|[]]]]; simpl; auto.
    + rewrite Eq. intros x Hx. apply in_or_app. right. apply in_or_app. right.
      destruct Hx as [<-|[<-|[<-|[]]]]; simpl; auto.
Qed.

(** Inside the head no match of [withG] starts; inside the occurrence no
    match of [framedResponse] starts. *)
Lemma withG_none y s :
  code y <> 27%Z -> code y <> 95%Z -> code y <> 71%Z ->
  matchDelete code withG (y :: s) = None.
Proof.
  intros H1 H2 H3. unfold matchDelete. cbn.
  repeat match goal with
         | |- context [(code y =? ?c)%Z] =>
             destruct (Z.eqb_spec (code y) c) as [E|_];
             [exfalso; unfold ESC in *; lia|]
         end.
  reflexivity.
Qed.

Lemma framed_none y s :
  code y <> 27%Z ->
  matchKeepLast code framedHead framedErase (y :: s) = None.
Proof.
  intros H1. unfold matchKeepLast. cbn.
  destruct (Z.eqb_spec (code y) ESC) as [E|_];
    [exfalso; unfold ESC in *; lia | reflexivity].
Qed.

(** At the first character of the occurrence [bareResponse] matches, and
    the match holds the whole occurrence. *)
Lemma bare_at_response :
  exists n, matchDelete code bareResponse ((h ++ w) ++ post) = Some (n, [])
            /\ length (h ++ w) <= n.
Proof.
  unfold matchDelete.
  set (k := fun rest : list A =>
              Some (length ((h ++ w) ++ post) - length rest, @nil A)).
  assert (Hk : forall s, k s <> None) by discriminate.
  assert (Hend : forall s' v, (exists q, post = q ++ s') ->
             bt code reTerminator s' k = Some v ->
             exists n, v = (n, []) /\ length (h ++ w) <= n).
  { intros s' v (q & Eq) Hv.
    apply bt_suffix in Hv as (a & s2 & -> & [= <-]).
    eexists. split; [reflexivity|].
    rewrite Eq, !length_app. lia. }
  change (bt code bareResponse ((h ++ w) ++ post) k)
    with (bt code reResponse ((h ++ w) ++ post)
            (fun s4 => bt code reTerminator s4 k)).
  rewrite <- app_assoc.
  destruct (response_through_head code h st Hh) as (h0 & tS & _ & ES & Ev).
  rewrite Ev. destruct Hst as [[-> ->]|[-> Hw]].
  - rewrite status_ok by exact ES. cbn [app].
    destruct (bt code reTerminator post k) as [v|] eqn:E;
      [|exfalso; exact (terminator_total k Hk post E)].
    destruct (Hend post v) as (n & -> & Hn); [exists []; reflexivity | exact E|].
    exists n. split; [reflexivity | exact Hn].
  - rewrite status_enoent by exact ES.
    destruct (star code notSpace (w ++ post)
                (fun s4 => bt code reTerminator s4 k)) as [v|] eqn:E;
      [|exfalso; exact (star_total code notSpace _ (terminator_total k Hk) _ E)].
    assert (Hwn : Forall (fun x => notSpace (code x) = true) w).
    { eapply Forall_impl; [|exact Hw]. simpl. intros x Hx.
      unfold plainChar in Hx. now apply andb_true_iff in Hx. }
    destruct (star_through code notSpace _ (terminator_total k Hk) w post v Hwn E)
      as (s' & Hq & Hv).
    destruct (Hend s' v Hq Hv) as (n & -> & Hn).
    exists n. auto.
Qed.

End Occ.
End OccFacts.

Module ScanFacts.
Import JS Regex KittyParser.
Import RegexFacts CutFacts StripFacts OccFacts.

Section Scan.
Context {A : Type} (m : matcher A) (o post pre : list A).
Hypothesis Hcut : forall s0 n rep,
  m s0 = Some (n, rep) -> safe o post pre s0 ->
  exists s', safe o post pre s' /\ n = length s0 - length s' /\
             incl rep (pre ++ post).
Hypothesis Hincl : forall s n rep, m s = Some (n, rep) -> incl rep s.

Lemma replaceLoop_skipn : forall j s skip,
  j <= skip -> j <= length s ->
  replaceLoop m skip s = replaceLoop m (skip - j) (skipn j s).
Proof.
  induction j as [|j IH]; intros s skip H1 H2.
  - now rewrite Nat.sub_0_r.
  - destruct s as [|x s]; [simpl in H2; lia|].
    destruct skip as [|skip]; [lia|].
    cbn [replaceLoop skipn Nat.sub]. apply IH; simpl in H2; lia.
Qed.

(** The scan of the text before the occurrence: either it arrives at the
    first character of the occurrence with nothing to skip, or one match
    swallows the occurrence whole. *)
Lemma scan_pre : forall u a skip,
  pre = a ++ u -> skip <= length u ->
  exists X rest,
    replaceLoop m skip (u ++ o ++ post) = X ++ rest /\
    incl X (pre ++ post) /\
    (rest = replaceLoop m 0 (o ++ post) \/ incl rest (pre ++ post)).
Proof.
  induction u as [|x u IH]; intros a skip Hu Hskip.
  - simpl in Hskip. replace skip with 0 by lia.
    exists [], (replaceLoop m 0 (o ++ post)).
    split; [reflexivity|]. split; [apply incl_nil_l | now left].
  - assert (Hu' : pre = (a ++ [x]) ++ u) by now rewrite <- app_assoc.
    assert (Hx : In x (pre ++ post)).
    { rewrite Hu. apply in_or_app. left. apply in_or_app. right. now left. }
    assert (Hkeep : forall rep, incl rep (pre ++ post) ->
              forall k, k <= length u ->
              exists X rest,
                rep ++ replaceLoop m k (u ++ o ++ post) = X ++ rest /\
                incl X (pre ++ post) /\
                (rest = replaceLoop m 0 (o ++ post) \/ incl rest (pre ++ post))).
    { intros rep Hrep k Hk.
      destruct (IH (a ++ [x]) k Hu' Hk) as (X & rest & E & HX & Hr).
      exists (rep ++ X), rest. rewrite E, app_assoc.
      split; [reflexivity|]. split; [now apply incl_app | exact Hr]. }
    cbn [app replaceLoop]. destruct skip as [|skip].
    + destruct (m (x :: u ++ o ++ post)) as [[n rep]|] eqn:E.
      * destruct (Hcut _ _ _ E) as (s' & Hs' & Hn & Hrep).
        { left. exists a, (x :: u). auto. }
        destruct n as [|n].
        -- destruct (IH (a ++ [x]) 0 Hu' (Nat.le_0_l _))
             as (X & rest & E' & HX & Hr).
           exists (rep ++ x :: X), rest. rewrite E', <- app_assoc.
           split; [reflexivity|]. split; [|exact Hr].
           apply incl_app; [exact Hrep|]. now apply incl_cons.
        -- destruct Hs' as [(a' & u' & _ & ->)|(q & Eq)].
           ++ apply Hkeep; [exact Hrep|].
              cbn [length] in Hn. rewrite !length_app in Hn. lia.
           ++ exists rep, (replaceLoop m n (u ++ o ++ post)).
              split; [reflexivity|]. split; [exact Hrep|]. right.
              rewrite (replaceLoop_skipn (length u + length o)).
              ** rewrite app_assoc, skipn_app.
                 rewrite <- length_app.
                 rewrite skipn_all, Nat.sub_diag. simpl.
                 apply incl_appr. apply replaceLoop_incl. exact Hincl.
              ** cbn [length] in Hn. rewrite Eq, !length_app in Hn. lia.
              ** rewrite !length_app. lia.
      * destruct (IH (a ++ [x]) 0 Hu' (Nat.le_0_l _))
          as (X & rest & E' & HX & Hr).
        exists (x :: X), rest. rewrite E'.
        split; [reflexivity|]. split; [now apply incl_cons | exact Hr].
    + apply (Hkeep []); [apply incl_nil_l | simpl in Hskip; lia].
Qed.

(** A stretch in which no match starts is copied. *)
Lemma copied : forall t s,
  (forall t1 y t2, t = t1 ++ y :: t2 -> m (y :: t2 ++ s) = None) ->
  replaceLoop m 0 (t ++ s) = t ++ replaceLoop m 0 s.
Proof.
  induction t as [|y t IH]; intros s H; [reflexivity|].
  cbn [app replaceLoop]. rewrite (H [] y t eq_refl). f_equal.
  apply IH. intros t1 y' t2 E. apply (H (y :: t1)). now rewrite E.
Qed.

(** A loop that only deletes maps a text of two parts to two parts. *)
Lemma delete_split :
  (forall s n rep, m s = Some (n, rep) -> rep = []) ->
  forall t s skip, exists t' s',
    replaceLoop m skip (t ++ s) = t' ++ s' /\ incl t' t /\ incl s' s.
Proof.
  intros Hdel. induction t as [|y t IH]; intros s skip.
  - exists [], (replaceLoop m skip s). split; [reflexivity|].
    split; [apply incl_nil_l | apply replaceLoop_incl; exact Hincl].
  - cbn [app replaceLoop]. destruct skip as [|skip].
    + destruct (m (y :: t ++ s)) as [[[|n] rep]|] eqn:E.
      * rewrite (Hdel _ _ _ E). destruct (IH s 0) as (t' & s' & -> & Ht & Hs).
        exists (y :: t'), s'. split; [reflexivity|].
        split; [|exact Hs]. apply incl_cons; [now left | now apply incl_tl].
      * rewrite (Hdel _ _ _ E). destruct (IH s n) as (t' & s' & -> & Ht & Hs).
        exists t', s'. split; [reflexivity|].
        split; [now apply incl_tl | exact Hs].
      * destruct (IH s 0) as (t' & s' & -> & Ht & Hs).
        exists (y :: t'), s'. split; [reflexivity|].
        split; [|exact Hs]. apply incl_cons; [now left | now apply incl_tl].
    + destruct (IH s skip) as (t' & s' & -> & Ht & Hs).
      exists t', s'. split; [reflexivity|].
      split; [now apply incl_tl | exact Hs].
Qed.

End Scan.
End ScanFacts.

Module EchoStripProps.
Import JS Regex KittyParser.
Import RegexFacts CutFacts StripFacts OccFacts ScanFacts.

Section Passes.
Context {A : Type} (code : A -> Z) (h w : list A) (st : jsstring).
Hypothesis Hh : responseHead st (map code h).
Hypothesis Hst :
  (st = str "OK" /\ w = []) \/
  (st = str "ENOENT:" /\ Forall (fun x => plainChar (code x) = true) w).

Lemma delete_incl r s n rep :
  matchDelete code r s = Some (n, rep) -> incl rep s.
Proof. intros H. rewrite (matchDelete_rep code r s n rep H). apply incl_nil_l. Qed.

(** The first pass leaves the head of the occurrence in place, with what
    it keeps of the message behind it, or deletes the occurrence whole. *)
Lemma pass_withG pre post :
  incl (replaceAll (matchDelete code withG) (pre ++ (h ++ w) ++ post))
       (pre ++ post) \/
  exists X w' Y,
    replaceAll (matchDelete code withG) (pre ++ (h ++ w) ++ post)
      = X ++ (h ++ w') ++ Y /\
    incl (X ++ Y) (pre ++ post) /\ incl w' w.
Proof.
  unfold replaceAll.
  destruct (scan_pre (matchDelete code withG) (h ++ w) post pre
              (withG_cut code h w post pre st Hh Hst)
              (delete_incl withG) pre [] 0 eq_refl (Nat.le_0_l _))
    as (X & rest & -> & HX & [Hr|Hr]).
  - right. rewrite <- app_assoc in Hr.
    rewrite copied in Hr.
    + destruct (delete_split (matchDelete code withG) (delete_incl withG)
                  (matchDelete_rep code withG) w post 0)
        as (w' & Y & E & Hw & HY).
      rewrite E in Hr. exists X, w', Y. rewrite Hr, <- !app_assoc.
      split; [reflexivity|]. split; [|exact Hw].
      apply incl_app; [exact HX | now apply incl_appr].
    + intros t1 y t2 E.
      pose proof (h_codes code h w st Hh Hst) as Hc. rewrite E in Hc.
      apply Forall_app in Hc as [_ Hc]. inversion Hc as [|? ? Hy _]; subst.
      apply withG_none; lia.
  - left. now apply incl_app.
Qed.

Lemma pass_framed pre post :
  incl (replaceAll (matchKeepLast code framedHead framedErase)
          (pre ++ (h ++ w) ++ post)) (pre ++ post) \/
  exists X Y,
    replaceAll (matchKeepLast code framedHead framedErase)
      (pre ++ (h ++ w) ++ post) = X ++ (h ++ w) ++ Y /\
    incl (X ++ Y) (pre ++ post).
Proof.
  unfold replaceAll.
  destruct (scan_pre (matchKeepLast code framedHead framedErase) (h ++ w)
              post pre (framed_cut code h w post pre st Hh Hst)
              (matchKeepLast_incl code framedHead framedErase)
              pre [] 0 eq_refl (Nat.le_0_l _))
    as (X & rest & -> & HX & [Hr|Hr]).
  - right. rewrite copied in Hr.
    + exists X, (replaceLoop (matchKeepLast code framedHead framedErase) 0 post).
      rewrite Hr. split; [reflexivity|].
      apply incl_app; [exact HX|]. apply incl_appr.
      apply replaceLoop_incl. apply matchKeepLast_incl.
    + intros t1 y t2 E.
      pose proof (o_noEscape code h w st Hh Hst) as Hc. rewrite E in Hc.
      apply Forall_app in Hc as [_ Hc]. inversion Hc as [|? ? Hy _]; subst.
      now apply framed_none.
  - left. now apply incl_app.
Qed.

Lemma pass_bare pre post :
  incl (replaceAll (matchDelete code bareResponse) (pre ++ (h ++ w) ++ post))
       (pre ++ post).
Proof.
  unfold replaceAll.
  destruct (scan_pre (matchDelete code bareResponse) (h ++ w) post pre
              (bare_cut code h w post pre st Hh Hst)
              (delete_incl bareResponse) pre [] 0 eq_refl (Nat.le_0_l _))
    as (X & rest & -> & HX & [Hr|Hr]); [|now apply incl_app].
  apply incl_app; [exact HX|]. rewrite Hr. apply incl_appr.
  destruct (bare_at_response code h w post st Hh Hst) as (n & E & Hn).
  destruct (o_head code h w st Hh Hst) as (y & o' & Eo & _).
  rewrite Eo in *. cbn [app replaceLoop] in *. rewrite E.
  destruct n as [|n]; [simpl in Hn; lia|]. cbn [app].
  rewrite (replaceLoop_skipn _ (length o')).
  - rewrite skipn_app, skipn_all, Nat.sub_diag. simpl.
    apply replaceLoop_incl. apply delete_incl.
  - simpl in Hn. lia.
  - rewrite length_app. lia.
Qed.

End Passes.

(** No character of an echoed response survives the three passes. *)
Lemma strip_removes {A} (code : A -> Z) (h w pre post : list A) st :
  responseHead st (map code h) ->
  (st = str "OK" /\ w = []) \/
  (st = str "ENOENT:" /\ Forall (fun x => plainChar (code x) = true) w) ->
  incl (stripEchoedResponsesOn code (pre ++ (h ++ w) ++ post)) (pre ++ post).
Proof.
  intros Hh Hst. unfold stripEchoedResponsesOn.
  assert (Hlate : forall t,
            incl (replaceAll (matchDelete code bareResponse) t) t).
  { intros t. apply replaceLoop_incl. intros s n rep.
    apply (delete_incl code). }
  assert (Hmid : forall t,
            incl (replaceAll (matchKeepLast code framedHead framedErase) t) t).
  { intros t. apply replaceLoop_incl. apply matchKeepLast_incl. }
  destruct (pass_withG code h w st Hh Hst pre post)
    as [H1|(X & w' & Y & -> & HXY & Hw)].
  - eapply incl_tran; [apply Hlate|]. eapply incl_tran; [apply Hmid|]. exact H1.
  - assert (Hst' : (st = str "OK" /\ w' = []) \/
                   (st = str "ENOENT:" /\
                    Forall (fun x => plainChar (code x) = true) w')).
    { destruct Hst as [[-> ->]|[-> Hp]].
      - left. split; [reflexivity | now apply incl_l_nil].
      - right. split; [reflexivity | exact (incl_Forall Hw Hp)]. }
    destruct (pass_framed code h w' st Hh Hst' X Y)
      as [H2|(X2 & Y2 & -> & HXY2)].
    + eapply incl_tran; [apply Hlate|]. eapply incl_tran; [exact H2 | exact HXY].
    + eapply incl_tran; [apply (pass_bare code h w' st Hh Hst')|].
      eapply incl_tran; [exact HXY2 | exact HXY].
Qed.

Lemma strip_erases {A} (code : A -> Z) (t : list A) :
  map code (stripEchoedResponsesOn code t) = stripEchoedResponses (map code t).
Proof.
  unfold stripEchoedResponses, stripEchoedResponsesOn, replaceAll.
  rewrite (replaceLoop_map code _ (matchDelete (fun c => c) bareResponse))
    by apply matchDelete_map.
  rewrite (replaceLoop_map code _
             (matchKeepLast (fun c => c) framedHead framedErase))
    by apply matchKeepLast_map.
  rewrite (replaceLoop_map code _ (matchDelete (fun c => c) withG))
    by apply matchDelete_map.
  reflexivity.
Qed.

Lemma map_fst_tag b s : map fst (tag b s) = s.
Proof.
  unfold tag. rewrite map_map. simpl. apply map_id.
Qed.

Local Open Scope Z_scope.

Lemma hasNumericId_suffix a : forall s,
  hasNumericId (a ++ s) = false -> numericIdHere s = false.
Proof.
  induction a as [|x a IH]; intros s H.
  - destruct s as [|x s]; [reflexivity|]. simpl app in H.
    cbn [hasNumericId] in H. now apply orb_false_iff in H.
  - cbn [app hasNumericId] in H. apply orb_false_iff in H as [_ H]. now apply IH.
Qed.

Lemma hasNumericId_suffix' a : forall s,
  hasNumericId (a ++ s) = false -> hasNumericId s = false.
Proof.
  induction a as [|x a IH]; intros s H; [exact H|].
  cbn [app hasNumericId] in H. apply orb_false_iff in H as [_ H]. now apply IH.
Qed.

Lemma hasG_suffix a s : hasG (a ++ s) = false -> hasG s = false.
Proof.
  unfold hasG. rewrite existsb_app. intros H. now apply orb_false_iff in H.
Qed.

Lemma response_starts {R} (K : jsstring -> option R) s v :
  bt (fun c => c) reResponse s K = Some v -> numericIdHere s = true.
Proof.
  intros H. destruct s as [|x s]; [cbv in H; discriminate|].
  change (bt (fun c => c) reResponse (x :: s) K)
    with (if x =? 105
          then bt (fun c => c) (Chr 61) s
                 (fun s2 => bt (fun c => c) (Plus isDigit) s2
                    (fun s3 => bt (fun c => c)
                       (Seq (Opt rePlacementId) (Seq (Chr 59) reStatus)) s3 K))
          else None) in H.
  destruct (x =? 105) eqn:E1; [|discriminate].
  destruct s as [|y s]; [discriminate|]. cbn [bt] in H.
  destruct (y =? 61) eqn:E2; [|discriminate].
  destruct s as [|z s]; [discriminate|].
  destruct (isDigit z) eqn:E3; [|discriminate].
  cbn [numericIdHere]. now rewrite E1, E2, E3.
Qed.

Lemma withG_needs_G s : hasG s = false ->
  matchDelete (fun c => c) withG s = None.
Proof.
  intros HG. destruct (matchDelete (fun c => c) withG s) as [[n rep]|] eqn:E;
    [exfalso|reflexivity].
  unfold matchDelete, withG in E.
  apply seq_suffix in E as (a & s1 & -> & E).
  apply hasG_suffix in HG.
  destruct s1 as [|x s1]; [cbn [bt] in E; discriminate|].
  cbn [bt] in E. destruct (Z.eqb_spec x 71) as [->|]; [|discriminate].
  cbn in HG. discriminate.
Qed.

Lemma bare_needs_id s : numericIdHere s = false ->
  matchDelete (fun c => c) bareResponse s = None.
Proof.
  intros Hs. destruct (matchDelete (fun c => c) bareResponse s) as [[n rep]|] eqn:E;
    [exfalso|reflexivity].
  unfold matchDelete in E.
  set (k := fun rest : jsstring =>
              Some ((length s - length rest)%nat, @nil Z)) in E.
  change (bt (fun c => c) bareResponse s k)
    with (bt (fun c => c) reResponse s
            (fun s4 => bt (fun c => c) reTerminator s4 k)) in E.
  apply response_starts in E. congruence.
Qed.

Lemma framed_needs_id s : hasNumericId s = false ->
  matchKeepLast (fun c => c) framedHead framedErase s = None.
Proof.
  intros Hs.
  destruct (matchKeepLast (fun c => c) framedHead framedErase s)
    as [[n rep]|] eqn:E; [exfalso|reflexivity].
  unfold matchKeepLast, framedHead in E.
  do 5 (apply seq_suffix in E as (? & ? & -> & E);
        apply hasNumericId_suffix' in Hs).
  apply response_starts in E. apply (hasNumericId_suffix []) in Hs. congruence.
Qed.

Lemma untouched (m : matcher Z) t :
  (forall a s, t = a ++ s -> m s = None) -> replaceAll m t = t.
Proof.
  intros H. unfold replaceAll. rewrite <- (app_nil_r t) at 1.
  rewrite copied.
  - simpl. rewrite (H t []) by now rewrite app_nil_r. apply app_nil_r.
  - intros t1 y t2 E. rewrite app_nil_r. exact (H t1 (y :: t2) E).
Qed.

(** A text without [G] in which no [i=] is followed by a digit is left
    as it is. *)
Lemma strip_leaves_unrelated_text t :
  hasG t = false -> hasNumericId t = false -> stripEchoedResponses t = t.
Proof.
  intros HG Hid. unfold stripEchoedResponses, stripEchoedResponsesOn.
  rewrite (untouched (matchDelete (fun c => c) withG) t).
  2:{ intros a s ->. apply withG_needs_G. exact (hasG_suffix a s HG). }
  rewrite (untouched (matchKeepLast (fun c => c) framedHead framedErase) t).
  2:{ intros a s ->. apply framed_needs_id.
      exact (hasNumericId_suffix' a s Hid). }
  apply untouched. intros a s ->. apply bare_needs_id.
  exact (hasNumericId_suffix a s Hid).
Qed.

(** One pass only: what is left around a deleted response can form a
    response. *)
Lemma strip_is_one_pass :
  stripEchoedResponses (str "i=i=4;OK4;OK") = str "i=4;OK".
Proof. vm_compute. reflexivity. Qed.

(** Counterexamples: a message with a blank is deleted up to the blank; of
    a message with an erase command behind a cursor move, the erase command
    and what follows it stay. *)
Lemma message_with_blank_is_left_behind :
  stripEchoedResponses (str "i=4;ENOENT:no data") = str " data".
Proof. vm_compute. reflexivity. Qed.

Lemma message_with_erase_is_left_behind :
  stripEchoedResponses
    (ESC :: str "[1;1Hi=4;ENOENT:a" ++ ESC :: str "[Kb")
  = ESC :: str "[Kb".
Proof. vm_compute. reflexivity. Qed.

(** C9, as amended.  In any text, mark the characters of one occurrence of
    a response [i=<digits>], optional [,p=<digits>], [;OK], or of the same
    head with [;ENOENT:<msg>] where [<msg>] holds no whitespace and no
    escape character.  The three passes run on the marked text give the
    text [stripEchoedResponses] returns, and no marked character is left
    in it.  A text without the letter [G] in which no [i=] is followed by
    a digit, such as [i=four], is returned as it is. *)
Theorem echoed_responses_are_removed (pre o post : jsstring) :
  bareEchoedResponse o ->
  let marked := tag false pre ++ tag true o ++ tag false post in
  map fst (stripEchoedResponsesOn fst marked)
    = stripEchoedResponses (pre ++ o ++ post) /\
  Forall (fun x => snd x = false) (stripEchoedResponsesOn fst marked) /\
  (forall t, hasG t = false -> hasNumericId t = false ->
             stripEchoedResponses t = t) /\
  stripEchoedResponses (str "i=four") = str "i=four".
Proof.
  intros Ho marked. split; [|split; [|split; [exact strip_leaves_unrelated_text|]]].
  - rewrite strip_erases. subst marked.
    now rewrite !map_app, !map_fst_tag.
  - assert (Hin : incl (stripEchoedResponsesOn fst marked)
                       (tag false pre ++ tag false post)).
    { subst marked. destruct Ho as [Hh|(hd & msg & -> & Hh & Hm)].
      - rewrite <- (app_nil_r (tag true o)).
        apply (strip_removes fst (tag true o) [] _ _ (str "OK")).
        + now rewrite map_fst_tag.
        + left. auto.
      - unfold tag at 2. rewrite map_app. fold (tag true hd) (tag true msg).
        apply (strip_removes fst (tag true hd) (tag true msg) _ _ (str "ENOENT:")).
        + now rewrite map_fst_tag.
        + right. split; [reflexivity|]. unfold tag. apply Forall_map. simpl.
          apply Forall_forall. rewrite forallb_forall in Hm. exact Hm. }
    apply Forall_forall. intros x Hx. apply Hin in Hx.
    apply in_app_or in Hx as [Hx|Hx]; unfold tag in Hx;
      apply in_map_iff in Hx as (c & <- & _); reflexivity.
  - apply strip_leaves_unrelated_text; reflexivity.
Qed.

(** The response [i=4;OK] between two words, and the text [i=four]. *)
Lemma echoed_responses_are_removed_witness :
  map fst (stripEchoedResponsesOn fst
             (tag false (str "abc ") ++ tag true (str "i=4;OK")
              ++ tag false (str " def")))
    = str "abc  def" /\
  Forall (fun x => snd x = false)
    (stripEchoedResponsesOn fst
       (tag false (str "abc ") ++ tag true (str "i=4;OK")
        ++ tag false (str " def"))) /\
  stripEchoedResponses (str "i=four") = str "i=four".
Proof.
  assert (H : bareEchoedResponse (str "i=4;OK")).
  { left. exists (str "4"), []. split; [split; [discriminate | reflexivity]|].
    split; [now left | reflexivity]. }
  destruct (echoed_responses_are_removed (str "abc ") (str "i=4;OK")
              (str " def") H) as (E & F & U & _).
  split; [rewrite E; vm_compute; reflexivity|].
  split; [exact F | exact (U (str "i=four") eq_refl eq_refl)].
Defined.

End EchoStripProps.

(** ** The codec *)

Module ImageDecoderProps.
Import JS ImageDecoder.
Local Open Scope Z_scope.


Lemma toInt32_small z : -2147483648 <= z < 2147483648 -> toInt32 z = z.
Proof.
  intros H. unfold toInt32. rewrite Z.mod_small by lia. lia.
Qed.

Lemma toInt32_range z : -2147483648 <= toInt32 z < 2147483648.
Proof.
  unfold toInt32. pose proof (Z.mod_pos_bound (z + 2147483648) 4294967296 ltac:(lia)). lia.
Qed.

Lemma toInt32_mod z : toInt32 z mod 4294967296 = z mod 4294967296.
Proof.
  unfold toInt32.
  rewrite <- Zminus_mod_idemp_l. rewrite Z.mod_mod by lia.
  rewrite Zminus_mod_idemp_l. f_equal. lia.
Qed.

Lemma toInt32_idem z : toInt32 (toInt32 z) = toInt32 z.
Proof. apply toInt32_small, toInt32_range. Qed.

(** congruence modulo a divisor of 2^32 *)
Lemma toInt32_mod_pow z k :
  0 <= k <= 32 -> toInt32 z mod 2 ^ k = z mod 2 ^ k.
Proof.
  intros Hk.
  assert (E : 4294967296 = 2 ^ k * 2 ^ (32 - k)).
  { rewrite <- Z.pow_add_r by lia. replace (k + (32 - k)) with 32 by lia. reflexivity. }
  pose proof (toInt32_mod z) as H.
  assert (Hp : 0 < 2 ^ k) by (apply Z.pow_pos_nonneg; lia).
  assert (Hq : 0 < 2 ^ (32 - k)) by (apply Z.pow_pos_nonneg; lia).
  rewrite E in H.
  apply (f_equal (fun x => x mod 2 ^ k)) in H.
  rewrite !Z.rem_mul_r in H by lia.
  rewrite !(Z.mul_comm (2 ^ k)), !Z.mod_add in H by lia.
  rewrite !Z.mod_mod in H by lia. exact H.
Qed.

Lemma land_disjoint a v k :
  0 <= k -> 0 <= v < 2 ^ k -> Z.land (a * 2 ^ k) v = 0.
Proof.
  intros Hk Hv. apply Z.bits_inj'. intros n Hn.
  rewrite Z.land_spec, Z.bits_0.
  destruct (Z.lt_ge_cases n k) as [Hlt|Hge].
  - rewrite Z.mul_pow2_bits_low by lia. reflexivity.
  - destruct (Z.eq_dec v 0) as [->|Hv0].
    + rewrite Z.bits_0. apply andb_false_r.
    + rewrite (Z.bits_above_log2 v n); [apply andb_false_r | lia |].
      apply Z.lt_le_trans with k; [|lia].
      apply Z.log2_lt_pow2; lia.
Qed.

Lemma lor_disjoint a v k :
  0 <= k -> 0 <= v < 2 ^ k -> Z.lor (a * 2 ^ k) v = a * 2 ^ k + v.
Proof.
  intros Hk Hv. pose proof (land_disjoint a v k Hk Hv) as H.
  rewrite <- Z.lxor_lor by exact H. symmetry. apply Z.add_nocarry_lxor. exact H.
Qed.

Lemma lookup_range c : 0 <= lookup c < 64.
Proof.
  unfold lookup.
  assert (H : Forall (fun x => 0 <= x < 64) BASE64_LOOKUP).
  { apply Forall_forall. intros x Hx.
    assert (Hb : forallb (fun x => (0 <=? x) && (x <? 64)) BASE64_LOOKUP = true)
      by (vm_compute; reflexivity).
    rewrite forallb_forall in Hb. specialize (Hb x Hx).
    apply andb_true_iff in Hb as [H1 H2].
    apply Z.leb_le in H1. apply Z.ltb_lt in H2. lia. }
  destruct (Nat.lt_ge_cases (Z.to_nat c) (length BASE64_LOOKUP)) as [Hlt|Hge].
  - rewrite Forall_forall in H. apply H. apply nth_In. exact Hlt.
  - rewrite nth_overflow by exact Hge. lia.
Qed.

Lemma sextetOf_range c : 0 <= sextetOf c < 64.
Proof. apply lookup_range. Qed.

Lemma isSextetChar_code c :
  isSextetChar c = true -> isBase64Code (normalize c) = true.
Proof.
  unfold isSextetChar, normalize, isBase64Code.
  intros H.
  destruct (c =? 45) eqn:E1; [reflexivity|].
  destruct (c =? 95) eqn:E2; [reflexivity|].
  rewrite !orb_false_r in H. exact H.
Qed.

Lemma step_value bits v :
  0 <= v < 64 ->
  exists q, or32 (shl32 bits 6) v = q * 64 + v /\
            (q * 64) mod 4096 = (bits mod 64) * 64.
Proof.
  intros Hv. unfold or32, shl32.
  rewrite toInt32_idem, (toInt32_small v) by lia.
  rewrite Z.shiftl_mul_pow2 by lia.
  set (X := toInt32 (toInt32 bits * 2 ^ 6)).
  assert (HX6 : X mod 2 ^ 6 = 0).
  { subst X. rewrite toInt32_mod_pow by lia. apply Z.mod_mul. lia. }
  assert (HX12 : X mod 2 ^ 12 = (toInt32 bits * 2 ^ 6) mod 2 ^ 12).
  { subst X. apply toInt32_mod_pow; lia. }
  pose proof (toInt32_mod_pow bits 6 ltac:(lia)) as Hb.
  exists (X / 2 ^ 6).
  assert (EX : X = X / 2 ^ 6 * 2 ^ 6).
  { pose proof (Z.div_mod X (2 ^ 6) ltac:(lia)). lia. }
  split.
  - rewrite EX at 1. rewrite lor_disjoint by (simpl; lia). reflexivity.
  - change (2 ^ 6) with 64 in *. change (2 ^ 12) with 4096 in *.
    rewrite <- EX, HX12.
    rewrite <- Hb. clear. generalize (toInt32 bits). intros t.
    Z.div_mod_to_equations. lia.
Qed.

Lemma byte_value x k :
  0 <= k <= 4 ->
  and32 (sar32 x k) 255 = (x mod 4096 / 2 ^ k) mod 256.
Proof.
  intros Hk. unfold and32, sar32.
  rewrite (toInt32_small 255) by lia.
  change 255 with (Z.ones 8). rewrite Z.land_ones by lia.
  rewrite toInt32_mod_pow by lia.
  rewrite Z.shiftr_div_pow2 by lia.
  pose proof (toInt32_mod_pow x 12 ltac:(lia)) as H.
  change (2 ^ 12) with 4096 in H. rewrite <- H.
  generalize (toInt32 x). intros t. change (2 ^ 8) with 256.
  assert (k = 0 \/ k = 1 \/ k = 2 \/ k = 3 \/ k = 4) as [->|[->|[->|[->| ->]]]] by lia;
    simpl; Z.div_mod_to_equations; lia.
Qed.

Lemma decodeLoop_sextet c s L out bits col :
  isSextetChar c = true -> Z.of_nat (length out) < L ->
  decodeLoop (c :: s) L out bits col =
    let bits' := or32 (shl32 bits 6) (sextetOf c) in
    if col + 6 >=? 8 then
      decodeLoop s L (out ++ [and32 (sar32 bits' (col + 6 - 8)) 255])
        bits' (col + 6 - 8)
    else decodeLoop s L out bits' (col + 6).
Proof.
  intros Hc HL. cbn [decodeLoop].
  apply Z.ltb_lt in HL. rewrite HL.
  fold (normalize c). rewrite (isSextetChar_code c Hc). reflexivity.
Qed.

Lemma decodeLoop_full L out s bits col :
  L <= Z.of_nat (length out) -> decodeLoop s L out bits col = out.
Proof.
  intros HL. destruct s; cbn [decodeLoop]; [reflexivity|].
  apply Z.ltb_ge in HL. rewrite HL. reflexivity.
Qed.

(** The first two characters of a group give its first byte. *)
Lemma decodeLoop_two a b s L out bits :
  isSextetChar a = true -> isSextetChar b = true ->
  Z.of_nat (length out) < L ->
  exists bits',
    decodeLoop (a :: b :: s) L out bits 0 =
      decodeLoop s L (out ++ [byte1 a b]) bits' 4 /\
    bits' mod 64 = sextetOf b.
Proof.
  intros Ha Hb HL.
  rewrite decodeLoop_sextet by assumption. cbv zeta.
  change (0 + 6 >=? 8) with false. cbv iota.
  rewrite decodeLoop_sextet by assumption. cbv zeta.
  change (0 + 6 + 6 >=? 8) with true. cbv iota.
  change (0 + 6 + 6 - 8) with 4.
  pose proof (sextetOf_range a) as Ra. pose proof (sextetOf_range b) as Rb.
  destruct (step_value bits (sextetOf a) Ra) as (q1 & E1 & M1).
  rewrite E1.
  destruct (step_value (q1 * 64 + sextetOf a) (sextetOf b) Rb) as (q2 & E2 & M2).
  rewrite E2. exists (q2 * 64 + sextetOf b). split.
  - f_equal. f_equal. f_equal. rewrite byte_value by lia.
    unfold byte1. change (2 ^ 4) with 16.
    revert M2. generalize (sextetOf a) (sextetOf b) Ra Rb. clear.
    intros va vb Ra Rb M2. Z.div_mod_to_equations. lia.
  - clear -Rb. Z.div_mod_to_equations. lia.
Qed.

(** The third character gives the second byte. *)
Lemma decodeLoop_third b c s L out bits :
  isSextetChar c = true -> Z.of_nat (length out) < L ->
  bits mod 64 = sextetOf b ->
  exists bits',
    decodeLoop (c :: s) L out bits 4 =
      decodeLoop s L (out ++ [byte2 b c]) bits' 2 /\
    bits' mod 64 = sextetOf c.
Proof.
  intros Hc HL Hbits.
  rewrite decodeLoop_sextet by assumption. cbv zeta.
  change (4 + 6 >=? 8) with true. cbv iota. change (4 + 6 - 8) with 2.
  pose proof (sextetOf_range b) as Rb. pose proof (sextetOf_range c) as Rc.
  destruct (step_value bits (sextetOf c) Rc) as (q & E & M).
  rewrite E. exists (q * 64 + sextetOf c). split.
  - f_equal. f_equal. f_equal. rewrite byte_value by lia.
    unfold byte2. change (2 ^ 2) with 4. rewrite Hbits in M.
    revert M. generalize (sextetOf b) (sextetOf c) Rb Rc. clear.
    intros vb vc Rb Rc M. Z.div_mod_to_equations. lia.
  - clear -Rc. Z.div_mod_to_equations. lia.
Qed.

(** The fourth character gives the third byte. *)
Lemma decodeLoop_fourth c d s L out bits :
  isSextetChar d = true -> Z.of_nat (length out) < L ->
  bits mod 64 = sextetOf c ->
  exists bits',
    decodeLoop (d :: s) L out bits 2 =
      decodeLoop s L (out ++ [byte3 c d]) bits' 0.
Proof.
  intros Hd HL Hbits.
  rewrite decodeLoop_sextet by assumption. cbv zeta.
  change (2 + 6 >=? 8) with true. cbv iota. change (2 + 6 - 8) with 0.
  pose proof (sextetOf_range c) as Rc. pose proof (sextetOf_range d) as Rd.
  destruct (step_value bits (sextetOf d) Rd) as (q & E & M).
  rewrite E. exists (q * 64 + sextetOf d).
  f_equal. f_equal. f_equal. rewrite byte_value by lia.
  unfold byte3. change (2 ^ 0) with 1. rewrite Hbits in M.
  revert M. generalize (sextetOf c) (sextetOf d) Rc Rd. clear.
  intros vc vd Rc Rd M. Z.div_mod_to_equations. lia.
Qed.

Lemma isSextetChar_not_pad c : isSextetChar c = true -> (c =? 61) = false.
Proof.
  unfold isSextetChar, isBase64Code. intros H.
  destruct (c =? 61) eqn:E; [|reflexivity].
  apply Z.eqb_eq in E. subst c. discriminate.
Qed.

Lemma app_cons_assoc {A} (l : list A) x y : (l ++ [x]) ++ y = l ++ x :: y.
Proof. now rewrite <- app_assoc. Qed.

(** The decoding loop on a well-formed payload, started between groups
    with exactly the room the payload needs. *)
Lemma decodeLoop_payload : forall n s, (length s <= n)%nat ->
  isBase64Payload s = true ->
  forall L out bits,
    L = Z.of_nat (length out) + Z.of_nat (length (decodeGroups s)) ->
    decodeLoop s L out bits 0 = out ++ decodeGroups s.
Proof.
  induction n as [|n IH]; intros s Hn Hwf L out bits HL.
  { destruct s; [|simpl in Hn; lia]. simpl. now rewrite app_nil_r. }
  destruct s as [|a [|b [|c [|d rest]]]]; try discriminate.
  { simpl. now rewrite app_nil_r. }
  cbn [isBase64Payload] in Hwf.
  apply andb_true_iff in Hwf as [Hab Hrest].
  apply andb_true_iff in Hab as [Ha Hb].
  assert (Hcases :
    (isSextetChar c = true /\ isSextetChar d = true /\
     isBase64Payload rest = true) \/
    (rest = [] /\ isSextetChar c = true /\ d = 61) \/
    (rest = [] /\ c = 61 /\ d = 61)).
  { destruct rest as [|r0 rest'].
    - apply orb_true_iff in Hrest as [H|H].
      + apply andb_true_iff in H as [Hc Hd].
        apply orb_true_iff in Hd as [Hd|Hd].
        * left. auto.
        * right. left. apply Z.eqb_eq in Hd. auto.
      + apply andb_true_iff in H as [Hc Hd].
        apply Z.eqb_eq in Hc, Hd. right. right. auto.
    - apply andb_true_iff in Hrest as [Hcd Hr].
      apply andb_true_iff in Hcd as [Hc Hd]. left. auto. }
  destruct Hcases as [(Hc & Hd & Hr)|[(-> & Hc & ->)|(-> & -> & ->)]].
  - (* a full group *)
    cbn [decodeGroups] in *. rewrite (isSextetChar_not_pad d Hd) in *.
    cbn [length] in HL.
    destruct (decodeLoop_two a b (c :: d :: rest) L out bits Ha Hb ltac:(lia))
      as (b1 & -> & M1).
    destruct (decodeLoop_third b c (d :: rest) L (out ++ [byte1 a b]) b1 Hc
                ltac:(rewrite length_app; simpl; lia) M1) as (b2 & -> & M2).
    destruct (decodeLoop_fourth c d rest L ((out ++ [byte1 a b]) ++ [byte2 b c])
                b2 Hd ltac:(rewrite !length_app; simpl; lia) M2) as (b3 & ->).
    rewrite IH; auto.
    + rewrite !app_cons_assoc. reflexivity.
    + simpl in Hn. lia.
    + rewrite !length_app. simpl. lia.
  - (* one padding character *)
    cbn [decodeGroups] in *. rewrite Z.eqb_refl in *.
    rewrite (isSextetChar_not_pad c Hc) in *. cbn [length] in HL.
    destruct (decodeLoop_two a b [c; 61] L out bits Ha Hb ltac:(lia))
      as (b1 & -> & M1).
    destruct (decodeLoop_third b c [61] L (out ++ [byte1 a b]) b1 Hc
                ltac:(rewrite length_app; simpl; lia) M1) as (b2 & -> & M2).
    rewrite decodeLoop_full by (rewrite !length_app; simpl; lia).
    rewrite !app_cons_assoc. reflexivity.
  - (* two padding characters *)
    cbn [decodeGroups] in *. rewrite Z.eqb_refl in *. cbn [length] in HL.
    destruct (decodeLoop_two a b [61; 61] L out bits Ha Hb ltac:(lia))
      as (b1 & -> & M1).
    rewrite decodeLoop_full by (rewrite !length_app; simpl; lia).
    reflexivity.
Qed.

Lemma countChars_sextet c s v p :
  isSextetChar c = true -> countChars (c :: s) v p = countChars s (v + 1) p.
Proof. intros H. cbn [countChars]. unfold isSextetChar in H. now rewrite H. Qed.

Lemma countChars_pad s v p :
  countChars (61 :: s) v p = countChars s v (p + 1).
Proof. reflexivity. Qed.

Lemma countChars_payload : forall n s, (length s <= n)%nat ->
  isBase64Payload s = true ->
  forall v p, exists g pad,
    countChars s v p = (v + 4 * g - pad, p + pad) /\
    0 <= pad <= 2 /\
    Z.of_nat (length (decodeGroups s)) = 3 * g - pad.
Proof.
  induction n as [|n IH]; intros s Hn Hwf v p.
  { destruct s; [|simpl in Hn; lia]. exists 0, 0. simpl. split; [f_equal; lia|lia]. }
  destruct s as [|a [|b [|c [|d rest]]]]; try discriminate.
  { exists 0, 0. simpl. split; [f_equal; lia|lia]. }
  cbn [isBase64Payload] in Hwf.
  apply andb_true_iff in Hwf as [Hab Hrest].
  apply andb_true_iff in Hab as [Ha Hb].
  rewrite (countChars_sextet a), (countChars_sextet b) by assumption.
  assert (Hcases :
    (isSextetChar c = true /\ isSextetChar d = true /\
     isBase64Payload rest = true) \/
    (rest = [] /\ isSextetChar c = true /\ d = 61) \/
    (rest = [] /\ c = 61 /\ d = 61)).
  { destruct rest as [|r0 rest'].
    - apply orb_true_iff in Hrest as [H|H].
      + apply andb_true_iff in H as [Hc Hd].
        apply orb_true_iff in Hd as [Hd|Hd].
        * left. auto.
        * right. left. apply Z.eqb_eq in Hd. auto.
      + apply andb_true_iff in H as [Hc Hd].
        apply Z.eqb_eq in Hc, Hd. right. right. auto.
    - apply andb_true_iff in Hrest as [Hcd Hr].
      apply andb_true_iff in Hcd as [Hc Hd]. left. auto. }
  destruct Hcases as [(Hc & Hd & Hr)|[(-> & Hc & ->)|(-> & -> & ->)]].
  - rewrite (countChars_sextet c), (countChars_sextet d) by assumption.
    destruct (IH rest ltac:(simpl in Hn; lia) Hr (v + 1 + 1 + 1 + 1) p)
      as (g & pad & E & Hp & Hl).
    exists (g + 1), pad. rewrite E. cbn [decodeGroups].
    rewrite (isSextetChar_not_pad d Hd). cbn [length].
    split; [f_equal; lia|]. split; [lia|]. lia.
  - rewrite (countChars_sextet c) by assumption. rewrite countChars_pad.
    exists 1, 1. cbn [decodeGroups countChars]. rewrite Z.eqb_refl.
    rewrite (isSextetChar_not_pad c Hc). simpl.
    split; [f_equal; lia|lia].
  - rewrite !countChars_pad. exists 1, 2. cbn [decodeGroups countChars].
    rewrite Z.eqb_refl. simpl. split; [f_equal; lia|lia].
Qed.

(** On a well-formed payload the decoder agrees with the reference. *)
Lemma base64ToBytes_payload s :
  isBase64Payload s = true -> base64ToBytes s = Ok (decodeGroups s).
Proof.
  intros Hwf. unfold base64ToBytes.
  destruct (countChars_payload (length s) s (le_n _) Hwf 0 0)
    as (g & pad & -> & Hp & Hl).
  assert (E : (0 + 4 * g - pad + (0 + pad)) * 3 / 4 - (0 + pad)
              = Z.of_nat (length (decodeGroups s))).
  { rewrite Hl. replace ((0 + 4 * g - pad + (0 + pad)) * 3) with (3 * g * 4) by lia.
    rewrite Z.div_mul by lia. lia. }
  rewrite E.
  assert (Hnn : (Z.of_nat (length (decodeGroups s)) <? 0) = false)
    by (apply Z.ltb_ge; lia).
  rewrite Hnn.
  rewrite (decodeLoop_payload (length s) s (le_n _) Hwf) by (simpl; lia).
  simpl. rewrite Nat2Z.id, Nat.sub_diag. simpl. now rewrite app_nil_r.
Qed.

Lemma base64Char_spec i :
  0 <= i < 64 ->
  isSextetChar (base64Char i) = true /\ sextetOf (base64Char i) = i.
Proof.
  intros Hi.
  assert (Hall : forallb
            (fun i => isSextetChar (base64Char i)
                      && (sextetOf (base64Char i) =? i))
            (map Z.of_nat (seq 0 64)) = true) by (vm_compute; reflexivity).
  rewrite forallb_forall in Hall.
  specialize (Hall i). rewrite andb_true_iff, Z.eqb_eq in Hall.
  apply Hall. rewrite <- (Z2Nat.id i) by lia. apply in_map.
  apply in_seq. lia.
Qed.

Lemma sar32_small b k :
  0 <= b < 2147483648 -> 0 <= k -> sar32 b k = b / 2 ^ k.
Proof.
  intros Hb Hk. unfold sar32. rewrite toInt32_small by lia.
  apply Z.shiftr_div_pow2. exact Hk.
Qed.

Lemma and32_mask b k :
  0 <= b < 2147483648 -> 0 <= k < 31 -> and32 b (2 ^ k - 1) = b mod 2 ^ k.
Proof.
  intros Hb Hk. unfold and32.
  assert (0 < 2 ^ k < 2 ^ 31).
  { split; [apply Z.pow_pos_nonneg; lia | apply Z.pow_lt_mono_r; lia]. }
  change (2 ^ 31) with 2147483648 in *.
  rewrite !toInt32_small by lia.
  replace (2 ^ k - 1) with (Z.ones k) by (rewrite Z.ones_equiv; lia).
  apply Z.land_ones. lia.
Qed.

Lemma or32_shl32 x k v :
  0 <= k -> 0 <= x -> 0 <= v < 2 ^ k -> x * 2 ^ k + v < 2147483648 ->
  or32 (shl32 x k) v = x * 2 ^ k + v.
Proof.
  intros Hk Hx Hv Hb. unfold or32, shl32.
  assert (0 < 2 ^ k) by (apply Z.pow_pos_nonneg; lia).
  assert (x <= x * 2 ^ k) by nia.
  rewrite (toInt32_small x) by lia.
  rewrite Z.shiftl_mul_pow2 by lia.
  rewrite toInt32_idem, (toInt32_small (x * 2 ^ k)), (toInt32_small v) by nia.
  apply lor_disjoint; assumption.
Qed.

Lemma sextet1 b1 : isByte b1 -> sar32 b1 2 = b1 / 4.
Proof. unfold isByte. intros H1. apply sar32_small; lia. Qed.

Lemma sextet2 b1 b2 :
  isByte b1 -> isByte b2 ->
  or32 (shl32 (and32 b1 3) 4) (sar32 b2 4) = (b1 mod 4) * 16 + b2 / 16.
Proof.
  unfold isByte. intros H1 H2.
  replace (and32 b1 3) with (b1 mod 4)
    by (symmetry; apply (and32_mask b1 2); lia).
  rewrite (sar32_small b2 4) by lia. change (2 ^ 4) with 16.
  rewrite or32_shl32; change (2 ^ 4) with 16;
    try reflexivity; Z.div_mod_to_equations; lia.
Qed.

Lemma sextet3 b2 b3 :
  isByte b2 -> isByte b3 ->
  or32 (shl32 (and32 b2 15) 2) (sar32 b3 6) = (b2 mod 16) * 4 + b3 / 64.
Proof.
  unfold isByte. intros H2 H3.
  replace (and32 b2 15) with (b2 mod 16)
    by (symmetry; apply (and32_mask b2 4); lia).
  rewrite (sar32_small b3 6) by lia. change (2 ^ 6) with 64.
  rewrite or32_shl32; change (2 ^ 2) with 4;
    try reflexivity; Z.div_mod_to_equations; lia.
Qed.

Lemma sextet4 b3 : isByte b3 -> and32 b3 63 = b3 mod 64.
Proof. unfold isByte. intros H3. apply (and32_mask b3 6); lia. Qed.

Lemma isByte_0 : isByte 0.
Proof. unfold isByte; lia. Qed.

(** The encoder produces a well-formed payload whose reference decoding
    is the input. *)
Lemma bytesToBase64_spec : forall n bs, (length bs <= n)%nat ->
  Forall isByte bs ->
  isBase64Payload (bytesToBase64 bs) = true /\
  decodeGroups (bytesToBase64 bs) = bs.
Proof.
  induction n as [|n IH]; intros bs Hn Hb.
  { destruct bs; [auto | simpl in Hn; lia]. }
  destruct bs as [|b1 [|b2 [|b3 rest]]]; [auto| | |].
  - inversion Hb as [|? ? B1 _]; subst. cbn [bytesToBase64].
    rewrite (sextet1 b1 B1), (sextet2 b1 0 B1 isByte_0).
    set (s1 := b1 / 4). set (s2 := b1 mod 4 * 16 + 0 / 16).
    assert (R1 : 0 <= s1 < 64) by (subst s1; unfold isByte in *; Z.div_mod_to_equations; lia).
    assert (R2 : 0 <= s2 < 64) by (subst s2; unfold isByte in *; Z.div_mod_to_equations; lia).
    destruct (base64Char_spec s1 R1) as [C1 V1].
    destruct (base64Char_spec s2 R2) as [C2 V2].
    cbn [isBase64Payload decodeGroups]. rewrite C1, C2. simpl.
    split; [rewrite ?orb_true_r; reflexivity|].
    unfold byte1. rewrite V1, V2. f_equal.
    subst s1 s2. unfold isByte in *. Z.div_mod_to_equations. lia.
  - inversion Hb as [|? ? B1 Hb']; subst. inversion Hb' as [|? ? B2 _]; subst.
    cbn [bytesToBase64].
    rewrite (sextet1 b1 B1), (sextet2 b1 b2 B1 B2), (sextet3 b2 0 B2 isByte_0).
    set (s1 := b1 / 4). set (s2 := b1 mod 4 * 16 + b2 / 16).
    set (s3 := b2 mod 16 * 4 + 0 / 64).
    assert (R1 : 0 <= s1 < 64) by (subst s1; unfold isByte in *; Z.div_mod_to_equations; lia).
    assert (R2 : 0 <= s2 < 64) by (subst s2; unfold isByte in *; Z.div_mod_to_equations; lia).
    assert (R3 : 0 <= s3 < 64) by (subst s3; unfold isByte in *; Z.div_mod_to_equations; lia).
    destruct (base64Char_spec s1 R1) as [C1 V1].
    destruct (base64Char_spec s2 R2) as [C2 V2].
    destruct (base64Char_spec s3 R3) as [C3 V3].
    cbn [isBase64Payload decodeGroups]. rewrite C1, C2, C3.
    rewrite (isSextetChar_not_pad _ C3). simpl.
    split; [rewrite ?orb_true_r; reflexivity|].
    unfold byte1, byte2. rewrite V1, V2, V3.
    subst s1 s2 s3. unfold isByte in *.
    f_equal; [|f_equal]; Z.div_mod_to_equations; lia.
  - inversion Hb as [|? ? B1 Hb']; subst. inversion Hb' as [|? ? B2 Hb'']; subst.
    inversion Hb'' as [|? ? B3 Hr]; subst.
    cbn [bytesToBase64].
    rewrite (sextet1 b1 B1), (sextet2 b1 b2 B1 B2), (sextet3 b2 b3 B2 B3),
            (sextet4 b3 B3).
    set (s1 := b1 / 4). set (s2 := b1 mod 4 * 16 + b2 / 16).
    set (s3 := b2 mod 16 * 4 + b3 / 64). set (s4 := b3 mod 64).
    assert (R1 : 0 <= s1 < 64) by (subst s1; unfold isByte in *; Z.div_mod_to_equations; lia).
    assert (R2 : 0 <= s2 < 64) by (subst s2; unfold isByte in *; Z.div_mod_to_equations; lia).
    assert (R3 : 0 <= s3 < 64) by (subst s3; unfold isByte in *; Z.div_mod_to_equations; lia).
    assert (R4 : 0 <= s4 < 64) by (subst s4; unfold isByte in *; Z.div_mod_to_equations; lia).
    destruct (base64Char_spec s1 R1) as [C1 V1].
    destruct (base64Char_spec s2 R2) as [C2 V2].
    destruct (base64Char_spec s3 R3) as [C3 V3].
    destruct (base64Char_spec s4 R4) as [C4 V4].
    destruct (IH rest ltac:(simpl in Hn; lia) Hr) as [IHw IHd].
    cbn [isBase64Payload decodeGroups]. rewrite C1, C2, C3, C4, IHw, IHd.
    rewrite (isSextetChar_not_pad _ C4).
    split.
    + destruct (bytesToBase64 rest); reflexivity.
    + unfold byte1, byte2, byte3. rewrite V1, V2, V3, V4.
      subst s1 s2 s3 s4. unfold isByte in *.
      f_equal; [|f_equal; [|f_equal]]; Z.div_mod_to_equations; lia.
Qed.

(** C5.  Decoding the Base64 encoding of a byte sequence gives the
    sequence back, the empty one included. *)
Theorem base64_roundtrip (bs : bytes) :
  Forall isByte bs -> base64ToBytes (bytesToBase64 bs) = Ok bs.
Proof.
  intros Hb.
  destruct (bytesToBase64_spec (length bs) bs (le_n _) Hb) as [Hw Hd].
  rewrite (base64ToBytes_payload _ Hw), Hd. reflexivity.
Qed.

Lemma payload_split : forall n c1 c2, (length c1 <= n)%nat ->
  aligned c1 -> isBase64Payload (c1 ++ c2) = true ->
  isBase64Payload c1 = true /\ isBase64Payload c2 = true /\
  decodeGroups (c1 ++ c2) = decodeGroups c1 ++ decodeGroups c2.
Proof.
  unfold aligned.
  induction n as [|n IH]; intros c1 c2 Hn Hal Hwf.
  { destruct c1; [auto | simpl in Hn; lia]. }
  destruct c1 as [|a [|b [|c [|d c1']]]]; try (simpl in Hal; discriminate).
  { auto. }
  assert (Hal' : (length c1' mod 4 = 0)%nat).
  { cbn [length] in Hal.
    replace (S (S (S (S (length c1'))))) with (length c1' + 1 * 4)%nat in Hal by lia.
    rewrite Nat.Div0.mod_add in Hal. exact Hal. }
  change ((a :: b :: c :: d :: c1') ++ c2) with (a :: b :: c :: d :: (c1' ++ c2)) in *.
  cbn [isBase64Payload] in Hwf.
  apply andb_true_iff in Hwf as [Hab Hrest].
  set (t := c1' ++ c2) in Hrest.
  assert (Er : t = c1' ++ c2) by reflexivity. clearbody t.
  destruct t as [|r0 r].
  - symmetry in Er. apply app_eq_nil in Er as [-> ->].
    cbn [isBase64Payload]. rewrite Hab, Hrest. simpl.
    rewrite ?app_nil_r. auto.
  - apply andb_true_iff in Hrest as [Hcd Hr].
    apply andb_true_iff in Hcd as [Hc Hd].
    rewrite Er in Hr.
    destruct (IH c1' c2 ltac:(simpl in Hn; lia) Hal' Hr) as (W1 & W2 & D).
    split; [|split; [exact W2|]].
    + cbn [isBase64Payload]. rewrite Hab, Hc, Hd, W1.
      destruct c1'; reflexivity.
    + cbn [decodeGroups]. rewrite (isSextetChar_not_pad d Hd).
      rewrite D. reflexivity.
Qed.

Lemma decodeChunks_payload : forall chunks,
  Forall aligned chunks -> isBase64Payload (concat chunks) = true ->
  decodeChunks chunks = Ok (decodeGroups (concat chunks)).
Proof.
  induction chunks as [|chunk rest IH]; intros Hal Hwf; [reflexivity|].
  inversion Hal as [|? ? Hc Hr]; subst. cbn [concat] in *.
  destruct (payload_split (length chunk) chunk (concat rest) (le_n _) Hc Hwf)
    as (W1 & W2 & D).
  rewrite D. cbn [decodeChunks].
  destruct chunk as [|c0 chunk'].
  - simpl. apply IH; assumption.
  - rewrite (base64ToBytes_payload _ W1). cbn [bind].
    rewrite (IH Hr W2). reflexivity.
Qed.

(** C6.  When a Base64 payload (groups of four alphabet characters, the
    last one possibly padded) is cut into consecutive chunks at positions
    that are multiples of four, [combineChunksToBytes] on the chunks returns
    what [base64ToBytes] returns on the whole payload. *)
Theorem chunks_decode_as_whole (payload : jsstring) (chunks : list jsstring) :
  isBase64Payload payload = true ->
  concat chunks = payload ->
  Forall aligned chunks ->
  combineChunksToBytes chunks = base64ToBytes payload.
Proof.
  intros Hwf Hcat Hal. subst payload.
  rewrite (base64ToBytes_payload _ Hwf).
  destruct chunks as [|c1 [|c2 rest]].
  - reflexivity.
  - cbn [combineChunksToBytes concat] in *. rewrite app_nil_r in *.
    apply base64ToBytes_payload. exact Hwf.
  - change (combineChunksToBytes (c1 :: c2 :: rest))
      with (decodeChunks (c1 :: c2 :: rest)).
    apply decodeChunks_payload; assumption.
Qed.

(** The round trip on five sample bytes. *)
Lemma base64_roundtrip_witness :
  Forall isByte sampleBytes /\
  base64ToBytes (bytesToBase64 sampleBytes) = Ok sampleBytes.
Proof.
  assert (H : Forall isByte sampleBytes).
  { repeat constructor; unfold isByte; lia. }
  split; [exact H | exact (base64_roundtrip sampleBytes H)].
Defined.

(** A payload of sixteen characters cut after four and after twelve. *)
Lemma chunks_decode_as_whole_witness :
  combineChunksToBytes sampleChunks = base64ToBytes samplePayload.
Proof.
  apply (chunks_decode_as_whole samplePayload sampleChunks).
  - reflexivity.
  - reflexivity.
  - repeat constructor.
Defined.

End ImageDecoderProps.

(** ** The image store *)

Module JSMapFacts.
Local Open Scope Z_scope.
Section Facts.
Context {K V : Type} (eqb : K -> K -> bool).
Hypothesis eqb_spec : forall a b, eqb a b = true <-> a = b.

Lemma eqb_refl a : eqb a a = true.
Proof. now apply eqb_spec. Qed.

Lemma eqb_neq a b : a <> b -> eqb a b = false.
Proof.
  intros H. destruct (eqb a b) eqn:E; [|reflexivity].
  apply eqb_spec in E. contradiction.
Qed.

Lemma get_In (m : list (K * V)) k v : JSMap.get eqb m k = Some v -> In (k, v) m.
Proof.
  induction m as [|[k' v'] m IH]; simpl; [discriminate|].
  destruct (eqb k' k) eqn:E.
  - apply eqb_spec in E. intros [= ->]. subst. now left.
  - intros H. right. auto.
Qed.

Lemma get_None (m : list (K * V)) k :
  JSMap.get eqb m k = None <-> ~ In k (JSMap.keys m).
Proof.
  induction m as [|[k' v'] m IH]; simpl; [tauto|].
  destruct (eqb k' k) eqn:E.
  - apply eqb_spec in E. split; [discriminate | intros H; exfalso; auto].
  - rewrite IH. split; [|tauto].
    intros H [H1|H1]; [|auto]. subst. rewrite eqb_refl in E. discriminate.
Qed.

Lemma get_Some_key (m : list (K * V)) k v :
  JSMap.get eqb m k = Some v -> In k (JSMap.keys m).
Proof.
  intros H. apply get_In in H. unfold JSMap.keys.
  change k with (fst (k, v)). now apply in_map.
Qed.

Lemma has_true (m : list (K * V)) k :
  JSMap.has eqb m k = true <-> In k (JSMap.keys m).
Proof.
  unfold JSMap.has. destruct (JSMap.get eqb m k) eqn:E.
  - split; [intros _; eapply get_Some_key; eauto | reflexivity].
  - split; [discriminate|]. intros H. apply get_None in E. contradiction.
Qed.

Lemma set_absent (m : list (K * V)) k v :
  JSMap.get eqb m k = None -> JSMap.set eqb m k v = m ++ [(k, v)].
Proof.
  induction m as [|[k' v'] m IH]; simpl; [reflexivity|].
  destruct (eqb k' k); [discriminate|]. intros H. now rewrite IH.
Qed.

Lemma keys_set_present (m : list (K * V)) k v v0 :
  JSMap.get eqb m k = Some v0 ->
  JSMap.keys (JSMap.set eqb m k v) = JSMap.keys m.
Proof.
  induction m as [|[k' v'] m IH]; simpl; [discriminate|].
  destruct (eqb k' k); [reflexivity|]. intros H. simpl. now rewrite IH.
Qed.

Lemma keys_delete_incl (m : list (K * V)) k k' :
  In k' (JSMap.keys (JSMap.delete eqb m k)) -> In k' (JSMap.keys m).
Proof.
  induction m as [|[k0 v0] m IH]; simpl; [tauto|].
  destruct (eqb k0 k); simpl; [auto|]. intros [H|H]; auto.
Qed.

Lemma NoDup_keys_delete (m : list (K * V)) k :
  NoDup (JSMap.keys m) -> NoDup (JSMap.keys (JSMap.delete eqb m k)).
Proof.
  induction m as [|[k0 v0] m IH]; simpl; [auto|].
  intros H. inversion H as [|? ? Hn Hd]; subst.
  destruct (eqb k0 k); [exact Hd|]. simpl. constructor; [|auto].
  intros Hin. apply Hn. eapply keys_delete_incl; eauto.
Qed.

Lemma keys_delete (m : list (K * V)) k k' :
  NoDup (JSMap.keys m) ->
  (In k' (JSMap.keys (JSMap.delete eqb m k)) <->
   In k' (JSMap.keys m) /\ k' <> k).
Proof.
  induction m as [|[k0 v0] m IH]; simpl; [tauto|].
  intros H. inversion H as [|? ? Hn Hd]; subst.
  destruct (eqb k0 k) eqn:E.
  - apply eqb_spec in E. subst k0. split.
    + intros Hin. split; [auto|]. intros ->. contradiction.
    + intros [[H1|H1] H2]; [congruence | exact H1].
  - simpl. rewrite (IH Hd). split.
    + intros [H1|[H1 H2]]; [|tauto]. subst k'. split; [auto|].
      intros ->. rewrite eqb_refl in E. discriminate.
    + intros [[H1|H1] H2]; [auto|]. right. auto.
Qed.

Lemma length_delete (m : list (K * V)) k v :
  JSMap.get eqb m k = Some v ->
  S (length (JSMap.delete eqb m k)) = length m.
Proof.
  induction m as [|[k0 v0] m IH]; simpl; [discriminate|].
  destruct (eqb k0 k); [reflexivity|]. intros H. simpl. now rewrite IH.
Qed.

Lemma get_delete_same (m : list (K * V)) k :
  NoDup (JSMap.keys m) -> JSMap.get eqb (JSMap.delete eqb m k) k = None.
Proof.
  intros H. apply get_None. intros Hin. apply keys_delete in Hin; tauto.
Qed.

Lemma get_delete_other (m : list (K * V)) k k' :
  k' <> k -> JSMap.get eqb (JSMap.delete eqb m k) k' = JSMap.get eqb m k'.
Proof.
  intros Hne. induction m as [|[k0 v0] m IH]; simpl; [reflexivity|].
  destruct (eqb k0 k) eqn:E; simpl.
  - apply eqb_spec in E. subst k0. now rewrite (eqb_neq k k') by congruence.
  - now rewrite IH.
Qed.

Lemma get_set_same (m : list (K * V)) k v :
  JSMap.get eqb (JSMap.set eqb m k v) k = Some v.
Proof.
  induction m as [|[k0 v0] m IH]; simpl.
  - now rewrite eqb_refl.
  - destruct (eqb k0 k) eqn:E; simpl; now rewrite E.
Qed.

Lemma get_set_other (m : list (K * V)) k k' v :
  k' <> k -> JSMap.get eqb (JSMap.set eqb m k v) k' = JSMap.get eqb m k'.
Proof.
  intros Hne. induction m as [|[k0 v0] m IH]; simpl.
  - now rewrite (eqb_neq k k') by congruence.
  - destruct (eqb k0 k) eqn:E; simpl.
    + apply eqb_spec in E. subst k0. now rewrite (eqb_neq k k') by congruence.
    + now rewrite IH.
Qed.

Section Weights.
Variable f : V -> Z.

Lemma total_app (m1 m2 : list (K * V)) :
  JSMap.total f (m1 ++ m2) = JSMap.total f m1 + JSMap.total f m2.
Proof. induction m1 as [|e m1 IH]; simpl; [reflexivity|]. rewrite IH. lia. Qed.

Lemma total_delete (m : list (K * V)) k v :
  JSMap.get eqb m k = Some v ->
  JSMap.total f (JSMap.delete eqb m k) = JSMap.total f m - f v.
Proof.
  induction m as [|[k0 v0] m IH]; simpl; [discriminate|].
  destruct (eqb k0 k).
  - intros [= ->]. lia.
  - intros H. simpl. rewrite (IH H). lia.
Qed.

Lemma total_set_present (m : list (K * V)) k v v0 :
  JSMap.get eqb m k = Some v0 ->
  JSMap.total f (JSMap.set eqb m k v) = JSMap.total f m - f v0 + f v.
Proof.
  induction m as [|[k0 v1] m IH]; simpl; [discriminate|].
  destruct (eqb k0 k).
  - intros [= ->]. simpl. lia.
  - intros H. simpl. rewrite (IH H). lia.
Qed.

End Weights.
End Facts.
End JSMapFacts.

Module GraphicsStorageProps.
Import JS ImageDecoder GraphicsStorage JSMapFacts.
Local Open Scope Z_scope.

Lemma sameValueZero_spec a b : sameValueZero a b = true <-> a = b.
Proof.
  destruct a, b; simpl; split; try discriminate; try reflexivity.
  - intros H. apply Z.eqb_eq in H. now subst.
  - intros [= ->]. apply Z.eqb_refl.
Qed.

Lemma jsstring_eqb_spec a b : jsstring_eqb a b = true <-> a = b.
Proof.
  unfold jsstring_eqb. destruct (list_eq_dec Z.eq_dec a b); split; auto; discriminate.
Qed.

Lemma sameImages_refl s : sameImages s s.
Proof. repeat split. Qed.

Lemma sameImages_trans s1 s2 s3 :
  sameImages s1 s2 -> sameImages s2 s3 -> sameImages s1 s3.
Proof. unfold sameImages. intuition congruence. Qed.

Lemma removePlacement_same s k : sameImages s (fst (removePlacement s k)).
Proof.
  unfold removePlacement.
  destruct (JSMap.get jsstring_eqb (placements s) k); [|apply sameImages_refl].
  destruct (JSMap.get sameValueZero (placementsByRow s) _) as [rowSet|];
    [destruct (JSMap.setDelete jsstring_eqb rowSet k)|]; repeat split.
Qed.

Lemma fold_same {A} (f : Storage -> A -> Storage) :
  (forall s a, sameImages s (f s a)) ->
  forall l s, sameImages s (fold_left f l s).
Proof.
  intros Hf. induction l as [|a l IH]; intros s; simpl; [apply sameImages_refl|].
  eapply sameImages_trans; [apply Hf | apply IH].
Qed.

Lemma setPlacement_same s p : sameImages s (setPlacement s p).
Proof.
  unfold setPlacement.
  set (s1 := if JSMap.has jsstring_eqb (placements s) (key p)
             then fst (removePlacement s (key p)) else s).
  assert (H1 : sameImages s s1).
  { subst s1. destruct (JSMap.has _ _ _);
      [apply removePlacement_same | apply sameImages_refl]. }
  set (s2 := if Z.of_nat (length (placements s1)) >=? maxPlacements s1 then _ else s1).
  assert (H2 : sameImages s1 s2).
  { subst s2. destruct (_ >=? _); [|apply sameImages_refl].
    destruct (JSMap.keys (placements s1)) as [|[|c o] ?];
      try apply sameImages_refl. apply removePlacement_same. }
  eapply sameImages_trans; [exact H1|].
  eapply sameImages_trans; [exact H2|]. repeat split.
Qed.

Lemma removeMatching_same s ks test : sameImages s (removeMatching s ks test).
Proof.
  unfold removeMatching. apply fold_same. intros s0 k.
  destruct (JSMap.get jsstring_eqb (placements s0) k) as [p|];
    [destruct (test p); [apply removePlacement_same|]|]; apply sameImages_refl.
Qed.

Lemma removeSnapshot_same s test : sameImages s (removeSnapshot s test).
Proof.
  unfold removeSnapshot. apply fold_same. intros s0 e.
  destruct (test (snd e)); [apply removePlacement_same | apply sameImages_refl].
Qed.

Lemma deleteAtCursor_same s r c : sameImages s (deleteAtCursor s r c).
Proof.
  unfold deleteAtCursor. destruct (JSMap.get _ _ _);
    [apply removeMatching_same | apply sameImages_refl].
Qed.

Lemma deleteRow_same s r : sameImages s (deleteRow s r).
Proof.
  unfold deleteRow. destruct (JSMap.get _ _ _);
    [apply removeMatching_same | apply sameImages_refl].
Qed.

Lemma addChunk_same s i c f w h z : sameImages s (fst (addChunk s i c f w h z)).
Proof. repeat split. Qed.

Lemma getAndClearChunks_same s i : sameImages s (fst (getAndClearChunks s i)).
Proof.
  unfold getAndClearChunks. destruct (JSMap.get _ _ _); repeat split.
Qed.

Lemma cascade_same i l s :
  sameImages s
    (fold_left
       (fun s entry =>
          if strictEq (imageId (snd entry)) i
          then fst (removePlacement s (fst entry)) else s) l s).
Proof.
  apply fold_same. intros s0 e.
  destruct (strictEq (imageId (snd e)) i);
    [apply removePlacement_same | apply sameImages_refl].
Qed.

(** What [removeImage] does to the image side. *)
Lemma removeImage_absent s i :
  JSMap.get sameValueZero (images s) i = None -> removeImage s i = (s, false).
Proof. unfold removeImage. now intros ->. Qed.

Lemma removeImage_present s i img :
  JSMap.get sameValueZero (images s) i = Some img ->
  let s' := fst (removeImage s i) in
  images s' = JSMap.delete sameValueZero (images s) i /\
  accessOrder s' = removeFirst (accessOrder s) i /\
  memoryUsage s' = memoryUsage s - byteSize img /\
  maxMemory s' = maxMemory s /\ maxImages s' = maxImages s /\
  maxPlacements s' = maxPlacements s.
Proof.
  intros H. unfold removeImage. rewrite H. cbn [fst].
  match goal with |- context [fold_left ?f ?l ?s0] =>
    pose proof (cascade_same i l s0) as (H1 & H2 & H3 & H4 & H5 & H6);
    set (s1 := fold_left f l s0) in *
  end.
  cbn. rewrite H1, H2, H3, H4, H5, H6. repeat split.
Qed.

Lemma accounted_same s s' : sameImages s s' -> accounted s -> accounted s'.
Proof. intros (H1 & _ & H3 & _) [Ha Hb]. split; congruence. Qed.

Lemma removeImage_accounted s i :
  accounted s -> accounted (fst (removeImage s i)).
Proof.
  intros [Hn Hm].
  destruct (JSMap.get sameValueZero (images s) i) as [img|] eqn:E.
  - destruct (removeImage_present s i img E) as (H1 & _ & H3 & _).
    split.
    + rewrite H1. now apply NoDup_keys_delete.
    + rewrite H1, H3, Hm.
      unfold totalBytes.
      symmetry. eapply total_delete; eauto.
  - rewrite (removeImage_absent s i E). now split.
Qed.

Lemma removeImage_max s i :
  maxMemory (fst (removeImage s i)) = maxMemory s /\
  maxImages (fst (removeImage s i)) = maxImages s /\
  maxPlacements (fst (removeImage s i)) = maxPlacements s.
Proof.
  destruct (JSMap.get sameValueZero (images s) i) as [img|] eqn:E.
  - destruct (removeImage_present s i img E) as (_ & _ & _ & H4 & H5 & H6). auto.
  - rewrite (removeImage_absent s i E). auto.
Qed.

Lemma evictByCount_accounted : forall fuel s s',
  accounted s -> evictByCount fuel s = Some s' -> accounted s'.
Proof.
  induction fuel as [|fuel IH]; intros s s' Ha; simpl; [discriminate|].
  destruct (accessOrder s) as [|lruId rest]; [now intros [= <-]|].
  destruct (_ >=? _); [|now intros [= <-]].
  apply IH. now apply removeImage_accounted.
Qed.

Lemma evictByMemory_accounted : forall fuel s extra s',
  accounted s -> evictByMemory fuel s extra = Some s' -> accounted s'.
Proof.
  induction fuel as [|fuel IH]; intros s extra s' Ha; simpl; [discriminate|].
  destruct (accessOrder s) as [|lruId rest]; [now intros [= <-]|].
  destruct (_ >? _); [|now intros [= <-]].
  apply IH. now apply removeImage_accounted.
Qed.

Lemma evictIfNeeded_accounted s extra s' :
  accounted s -> evictIfNeeded s extra = Some s' -> accounted s'.
Proof.
  unfold evictIfNeeded. intros Ha.
  destruct (evictByCount _ s) as [s1|] eqn:E1; [|discriminate].
  intros E2. eapply evictByMemory_accounted; [|exact E2].
  eapply evictByCount_accounted; eauto.
Qed.

Lemma NoDup_snoc {A} (l : list A) x : NoDup l -> ~ In x l -> NoDup (l ++ [x]).
Proof.
  intros Hn Hx. induction l as [|y l IH]; simpl.
  - constructor; [easy | constructor].
  - inversion Hn as [|? ? Hy Hl]; subst. constructor.
    + rewrite in_app_iff. simpl. intros [H|[H|[]]]; [auto|]. subst.
      apply Hx. now left.
    + apply IH; [exact Hl|]. intros H. apply Hx. now right.
Qed.

Lemma madeRoom_accounted s1 i :
  accounted s1 ->
  accounted (madeRoom s1 i) /\
  JSMap.get sameValueZero (images (madeRoom s1 i)) i = None.
Proof.
  intros Ha. unfold madeRoom, hasImage, JSMap.has.
  destruct (JSMap.get sameValueZero (images s1) i) as [old|] eqn:Eg.
  - split; [now apply removeImage_accounted|].
    destruct (removeImage_present s1 i old Eg) as (H1 & _).
    rewrite H1. apply (get_delete_same sameValueZero sameValueZero_spec).
    apply Ha.
  - split; assumption.
Qed.

Lemma storeImage_accounted s i fmt w h d bm now s' img :
  accounted s -> storeImage s i fmt w h d bm now = Some (s', img) ->
  accounted s'.
Proof.
  unfold storeImage. intros Ha.
  destruct (evictIfNeeded s _) as [s1|] eqn:E1; [|discriminate].
  apply evictIfNeeded_accounted in E1; [|exact Ha].
  fold (madeRoom s1 i).
  destruct (madeRoom_accounted s1 i E1) as [[Hn Hm] Hg].
  intros [= <- <-]. unfold accounted, setMemoryUsage, setAccessOrder, setImages.
  cbn [images memoryUsage byteSize]. split.
  - rewrite (set_absent _ _ _ _ Hg). unfold JSMap.keys. rewrite map_app. simpl.
    apply NoDup_snoc; [exact Hn|].
    now apply (get_None sameValueZero sameValueZero_spec).
  - rewrite (set_absent _ _ _ _ Hg), Hm.
    unfold totalBytes.
    rewrite (total_app byteSize). simpl. lia.
Qed.

Lemma getImage_accounted s i now :
  accounted s -> accounted (fst (getImage s i now)).
Proof.
  intros [Hn Hm]. unfold getImage.
  destruct (JSMap.get sameValueZero (images s) i) as [img|] eqn:E; [|now split].
  assert (Hacc : accounted
            (setImages s (JSMap.set sameValueZero (images s) i (touch img now)))).
  { unfold accounted, setImages. cbn [images memoryUsage]. split.
    - now rewrite (keys_set_present _ _ _ _ _ E).
    - rewrite Hm. unfold totalBytes.
      rewrite (total_set_present sameValueZero byteSize _ _ _ _ E). simpl. lia. }
  cbn [fst]. destruct (indexOfIsFound _ _); exact Hacc.
Qed.

Lemma deleteAll_accounted s : accounted (deleteAll s).
Proof. split; [constructor | reflexivity]. Qed.

Lemma applyOp_accounted s op s' :
  accounted s -> applyOp s op = Some s' -> accounted s'.
Proof.
  intros Ha. destruct op; simpl.
  - destruct (storeImage s i fmt w h d bm now) as [[s1 img]|] eqn:E; [|discriminate].
    intros [= <-]. eapply storeImage_accounted; eauto.
  - intros [= <-]. now apply getImage_accounted.
  - intros [= <-]. now apply removeImage_accounted.
  - intros [= <-]. eapply accounted_same; [apply setPlacement_same | exact Ha].
  - intros [= <-]. eapply accounted_same; [apply removePlacement_same | exact Ha].
  - intros [= <-]. eapply accounted_same; [apply addChunk_same | exact Ha].
  - intros [= <-]. eapply accounted_same; [apply getAndClearChunks_same | exact Ha].
  - intros [= <-]. apply deleteAll_accounted.
  - intros [= <-]. eapply accounted_same; [apply deleteAtCursor_same | exact Ha].
  - intros [= <-]. eapply accounted_same; [apply deleteRow_same | exact Ha].
  - intros [= <-]. eapply accounted_same; [apply removeSnapshot_same | exact Ha].
  - intros [= <-]. eapply accounted_same; [apply removeSnapshot_same | exact Ha].
  - intros [= <-]. apply deleteAll_accounted.
Qed.

Lemma runOps_accounted : forall ops s s',
  accounted s -> runOps s ops = Some s' -> accounted s'.
Proof.
  induction ops as [|op ops IH]; intros s s' Ha; simpl.
  - now intros [= <-].
  - destruct (applyOp s op) as [s1|] eqn:E; [|discriminate].
    apply IH. eapply applyOp_accounted; eauto.
Qed.

Lemma newStorage_accounted options : accounted (newStorage options).
Proof. split; [constructor | reflexivity]. Qed.

Lemma strictEq_int a b : isInt a = true -> (strictEq a b = true <-> a = b).
Proof.
  destruct a, b; simpl; try discriminate; intros _; split;
    try discriminate.
  - intros H. apply Z.eqb_eq in H. now subst.
  - intros [= ->]. apply Z.eqb_refl.
Qed.

Lemma removeFirst_head x l : isInt x = true -> removeFirst (x :: l) x = l.
Proof.
  intros H. simpl. destruct (strictEq x x) eqn:E; [reflexivity|].
  assert (strictEq x x = true) by (now apply strictEq_int). congruence.
Qed.

Lemma removeFirst_spec l x :
  NoDup l -> Forall (fun i => isInt i = true) l ->
  NoDup (removeFirst l x) /\
  Forall (fun i => isInt i = true) (removeFirst l x) /\
  (forall y, In y (removeFirst l x) <-> In y l /\ y <> x) /\
  (In x l -> S (length (removeFirst l x)) = length l).
Proof.
  induction l as [|y l IH]; intros Hn Hi; simpl.
  - split; [constructor|]. split; [constructor|]. split; [tauto|tauto].
  - inversion Hn as [|? ? Hy Hl]; subst. inversion Hi as [|? ? Iy Il]; subst.
    destruct (IH Hl Il) as (I1 & I2 & I3 & I4).
    destruct (strictEq y x) eqn:E.
    + apply strictEq_int in E; [|exact Iy]. subst y.
      split; [exact Hl|]. split; [exact Il|]. split; [|reflexivity].
      intros z. split.
      * intros Hz. split; [now right|]. intros ->. contradiction.
      * intros [[Hz|Hz] Hz']; [congruence | exact Hz].
    + assert (Hne : y <> x).
      { intros ->.
        assert (strictEq x x = true) by (now apply strictEq_int). congruence. }
      split; [|split; [|split]].
      * constructor; [|exact I1]. intros Hz. apply I3 in Hz. tauto.
      * constructor; assumption.
      * intros z. simpl. rewrite I3. split.
        -- intros [Hz|Hz]; [subst; split; [now left | exact Hne] | tauto].
        -- intros [[Hz|Hz] Hz']; [now left | right; tauto].
      * intros [Hz|Hz]; [congruence|]. simpl. f_equal. auto.
Qed.

Lemma consistent_same s s' : sameImages s s' -> consistent s -> consistent s'.
Proof.
  intros Hs (Ha & Hn & Hk & Hi). pose proof Hs as (H1 & H2 & _).
  split; [eapply accounted_same; eauto|]. rewrite H1, H2. auto.
Qed.

Lemma removeImage_consistent s i :
  consistent s ->
  consistent (fst (removeImage s i)) /\
  (In i (accessOrder s) ->
   S (length (accessOrder (fst (removeImage s i)))) = length (accessOrder s)) /\
  (length (accessOrder (fst (removeImage s i))) <= length (accessOrder s))%nat.
Proof.
  intros (Ha & Hn & Hk & Hi).
  destruct (JSMap.get sameValueZero (images s) i) as [img|] eqn:E.
  - destruct (removeImage_present s i img E) as (H1 & H2 & _).
    destruct (removeFirst_spec (accessOrder s) i Hn Hi) as (R1 & R2 & R3 & R4).
    assert (Hin : In i (accessOrder s)).
    { apply Hk. eapply get_Some_key; [apply sameValueZero_spec | exact E]. }
    split; [|split].
    + split; [now apply removeImage_accounted|]. rewrite H1, H2.
      split; [exact R1|]. split; [|exact R2].
      intros j. rewrite R3, Hk.
      rewrite (keys_delete sameValueZero sameValueZero_spec) by apply Ha.
      reflexivity.
    + intros _. rewrite H2. auto.
    + rewrite H2. specialize (R4 Hin). lia.
  - rewrite (removeImage_absent s i E). cbn [fst].
    split; [split; [exact Ha|]; split; [exact Hn|]; split; [exact Hk | exact Hi]|].
    split; [|lia].
    intros Hin. apply Hk in Hin.
    apply (get_None sameValueZero sameValueZero_spec) in E. contradiction.
Qed.

Lemma evictByCount_total : forall fuel s,
  consistent s -> (length (accessOrder s) < fuel)%nat ->
  exists s', evictByCount fuel s = Some s' /\ consistent s'.
Proof.
  induction fuel as [|fuel IH]; intros s Hc Hf; [lia|]. simpl.
  destruct (accessOrder s) as [|lruId rest] eqn:Eo; [eauto|].
  destruct (_ >=? _); [|eauto].
  destruct (removeImage_consistent s lruId Hc) as (C1 & C2 & _).
  apply IH; [exact C1|].
  rewrite Eo in C2. specialize (C2 (or_introl eq_refl)).
  simpl in *. lia.
Qed.

Lemma evictByMemory_total : forall fuel s extra,
  consistent s -> (length (accessOrder s) < fuel)%nat ->
  exists s', evictByMemory fuel s extra = Some s' /\ consistent s'.
Proof.
  induction fuel as [|fuel IH]; intros s extra Hc Hf; [lia|]. simpl.
  destruct (accessOrder s) as [|lruId rest] eqn:Eo; [eauto|].
  destruct (_ >? _); [|eauto].
  destruct (removeImage_consistent s lruId Hc) as (C1 & C2 & _).
  apply IH; [exact C1|].
  rewrite Eo in C2. specialize (C2 (or_introl eq_refl)).
  simpl in *. lia.
Qed.

Lemma evictIfNeeded_total s extra :
  consistent s -> exists s', evictIfNeeded s extra = Some s' /\ consistent s'.
Proof.
  intros Hc. unfold evictIfNeeded.
  destruct (evictByCount_total (S (length (accessOrder s))) s Hc ltac:(lia))
    as (s1 & -> & C1).
  apply evictByMemory_total; [exact C1 | lia].
Qed.

Lemma storeImage_total s i fmt w h d bm now :
  consistent s -> isInt i = true ->
  exists s' img, storeImage s i fmt w h d bm now = Some (s', img) /\
                 consistent s'.
Proof.
  intros Hc Hi. unfold storeImage.
  destruct (evictIfNeeded_total s (Z.of_nat (length d)) Hc) as (s1 & E1 & C1).
  rewrite E1. fold (madeRoom s1 i).
  assert (C2 : consistent (madeRoom s1 i)).
  { unfold madeRoom. destruct (hasImage s1 i); [|exact C1].
    apply removeImage_consistent. exact C1. }
  destruct (madeRoom_accounted s1 i (proj1 C1)) as [_ Hg].
  do 2 eexists. split; [reflexivity|].
  split; [eapply storeImage_accounted; [apply Hc|]; unfold storeImage;
          rewrite E1; reflexivity|].
  destruct C2 as (Ha & Hn & Hk & Hint).
  unfold setMemoryUsage, setAccessOrder, setImages.
  cbn [accessOrder images].
  rewrite (set_absent _ _ _ _ Hg).
  assert (Hni : ~ In i (accessOrder (madeRoom s1 i))).
  { rewrite Hk. now apply (get_None sameValueZero sameValueZero_spec). }
  split; [now apply NoDup_snoc|]. split.
  - intros j. unfold JSMap.keys. rewrite map_app, !in_app_iff. simpl.
    fold (JSMap.keys (images (madeRoom s1 i))). rewrite Hk. tauto.
  - apply Forall_app. split; [exact Hint|]. now constructor.
Qed.

Lemma indexOfIsFound_true l x :
  In x l -> isInt x = true -> indexOfIsFound l x = true.
Proof.
  intros Hin Hi. unfold indexOfIsFound. apply existsb_exists.
  exists x. split; [exact Hin|]. now apply strictEq_int.
Qed.

Lemma getImage_present s i now img :
  JSMap.get sameValueZero (images s) i = Some img ->
  In i (accessOrder s) -> isInt i = true ->
  getImage s i now =
    (setAccessOrder
       (setImages s (JSMap.set sameValueZero (images s) i (touch img now)))
       (removeFirst (accessOrder s) i ++ [i]),
     Some (touch img now)).
Proof.
  intros E Hin Hi. unfold getImage. rewrite E.
  change (accessOrder (setImages s _)) with (accessOrder s).
  rewrite (indexOfIsFound_true _ _ Hin Hi). reflexivity.
Qed.

Lemma getImage_consistent s i now :
  consistent s -> consistent (fst (getImage s i now)).
Proof.
  intros Hc. pose proof (getImage_accounted s i now (proj1 Hc)) as Hacc.
  destruct Hc as (Ha & Hn & Hk & Hint).
  split; [exact Hacc|]. clear Hacc.
  destruct (JSMap.get sameValueZero (images s) i) as [img|] eqn:E.
  2:{ unfold getImage. rewrite E. cbn [fst]. auto. }
  assert (Hin : In i (accessOrder s)).
  { apply Hk. eapply get_Some_key; [apply sameValueZero_spec | exact E]. }
  assert (Hi : isInt i = true).
  { rewrite Forall_forall in Hint. now apply Hint. }
  rewrite (getImage_present s i now img E Hin Hi).
  unfold setAccessOrder, setImages. cbn [fst accessOrder images].
  rewrite (keys_set_present _ _ _ _ _ E).
  destruct (removeFirst_spec (accessOrder s) i Hn Hint) as (R1 & R2 & R3 & R4).
  split; [|split].
  - apply NoDup_snoc; [exact R1|]. rewrite R3. tauto.
  - intros j. rewrite in_app_iff, R3, <- Hk. simpl.
    destruct (sameValueZero j i) eqn:Ej.
    + apply sameValueZero_spec in Ej. subst. tauto.
    + assert (j <> i).
      { intros ->.
        rewrite (proj2 (sameValueZero_spec i i) eq_refl) in Ej. discriminate. }
      split; [intros [[H1 _]|[H1|[]]]; [exact H1 | congruence]
             | intros H1; left; tauto].
  - apply Forall_app. split; [exact R2|]. now constructor.
Qed.

Lemma deleteAll_consistent s : consistent (deleteAll s).
Proof.
  split; [apply deleteAll_accounted|]. cbn.
  split; [constructor|]. split; [tauto | constructor].
Qed.

Lemma applyOp_total s op :
  consistent s -> storesNumberedImage op = true ->
  exists s', applyOp s op = Some s' /\ consistent s'.
Proof.
  intros Hc Hop. destruct op; simpl in *;
    try (eexists; split; [reflexivity|]).
  - destruct (storeImage_total s i fmt w h d bm now Hc Hop)
      as (s' & img & -> & C). simpl. eauto.
  - now apply getImage_consistent.
  - now apply removeImage_consistent.
  - eapply consistent_same; [apply setPlacement_same | exact Hc].
  - eapply consistent_same; [apply removePlacement_same | exact Hc].
  - eapply consistent_same; [apply addChunk_same | exact Hc].
  - eapply consistent_same; [apply getAndClearChunks_same | exact Hc].
  - apply deleteAll_consistent.
  - eapply consistent_same; [apply deleteAtCursor_same | exact Hc].
  - eapply consistent_same; [apply deleteRow_same | exact Hc].
  - eapply consistent_same; [apply removeSnapshot_same | exact Hc].
  - eapply consistent_same; [apply removeSnapshot_same | exact Hc].
  - apply deleteAll_consistent.
Qed.

Lemma runOps_total : forall ops s,
  consistent s -> forallb storesNumberedImage ops = true ->
  exists s', runOps s ops = Some s' /\ consistent s'.
Proof.
  induction ops as [|op ops IH]; intros s Hc Hops; simpl in *; [eauto|].
  apply andb_true_iff in Hops as [Hop Hops].
  destruct (applyOp_total s op Hc Hop) as (s1 & -> & C1). now apply IH.
Qed.

Lemma newStorage_consistent options : consistent (newStorage options).
Proof.
  split; [apply newStorage_accounted|]. cbn.
  split; [constructor|]. split; [tauto | constructor].
Qed.

(** C3.  After any sequence of operations on a new store the tracked
    [memoryUsage] is the sum of [byteSize] over the stored images; and every
    operation of the sequence returns, provided no image is stored under the
    ID [NaN]. *)
Theorem memory_usage_is_sum_of_byteSize
    (options : GraphicsOptions) (ops : list StorageOp) :
  (forall s, runOps (newStorage options) ops = Some s ->
             memoryUsage s = totalBytes (images s)) /\
  (forallb storesNumberedImage ops = true ->
   exists s, runOps (newStorage options) ops = Some s).
Proof.
  split.
  - intros s H. eapply runOps_accounted; [apply newStorage_accounted | exact H].
  - intros H.
    destruct (runOps_total ops _ (newStorage_consistent options) H) as (s & E & _).
    eauto.
Qed.

Lemma setHas_setAdd seen k k' :
  JSMap.setHas jsstring_eqb (JSMap.setAdd jsstring_eqb seen k) k' =
  JSMap.setHas jsstring_eqb seen k' || jsstring_eqb k k'.
Proof.
  unfold JSMap.setAdd. destruct (JSMap.setHas jsstring_eqb seen k) eqn:E.
  - destruct (jsstring_eqb k k') eqn:E'; [|now rewrite orb_false_r].
    apply jsstring_eqb_spec in E'. subst. now rewrite E.
  - clear E. induction seen as [|x seen IH]; simpl.
    + now rewrite orb_false_r.
    + rewrite IH. now rewrite orb_assoc.
Qed.

Lemma placementsInRangeLoop_filter a b : forall entries seen,
  NoDup (JSMap.keys entries) ->
  (forall k, In k (JSMap.keys entries) ->
             JSMap.setHas jsstring_eqb seen k = false) ->
  placementsInRangeLoop entries a b seen =
    filter (fun p => inRangeTest p a b) (JSMap.values entries).
Proof.
  induction entries as [|[k p] entries IH]; intros seen Hn Hs; [reflexivity|].
  cbn [placementsInRangeLoop JSMap.values map snd filter].
  fold (JSMap.values entries). fold (inRangeTest p a b).
  simpl in Hn. inversion Hn as [|? ? Hk Hn']; subst.
  destruct (inRangeTest p a b).
  - rewrite (Hs k (or_introl eq_refl)). cbn [negb]. f_equal.
    apply IH; [exact Hn'|]. intros k' Hk'.
    rewrite setHas_setAdd, (Hs k' (or_intror Hk')). simpl.
    destruct (jsstring_eqb k k') eqn:E; [|reflexivity].
    apply jsstring_eqb_spec in E. subst. contradiction.
  - apply IH; [exact Hn'|]. intros k' Hk'. apply Hs. now right.
Qed.

Lemma inRangeTest_spec p a b :
  inRangeTest p (Int a) (Int b) = true <->
  exists R H, bufferRow p = Int R /\ displayHeight p = Int H /\
              a <= R + H - 1 /\ R <= b.
Proof.
  unfold inRangeTest.
  destruct (bufferRow p) as [|R], (displayHeight p) as [|H]; simpl;
    try (split; [discriminate | intros (R' & H' & E1 & E2 & _); discriminate]).
  rewrite andb_true_iff, Z.geb_le, Z.leb_le. split.
  - intros [H1 H2]. exists R, H. auto.
  - intros (R' & H' & [= <-] & [= <-] & H1 & H2). auto.
Qed.

(** The keys of the placement map stay distinct. *)

Lemma NoDup_keys_set {V} (m : list (jsstring * V)) k v :
  NoDup (JSMap.keys m) -> NoDup (JSMap.keys (JSMap.set jsstring_eqb m k v)).
Proof.
  intros H. destruct (JSMap.get jsstring_eqb m k) as [v0|] eqn:E.
  - now rewrite (keys_set_present jsstring_eqb m k v v0 E).
  - rewrite (set_absent jsstring_eqb m k v E).
    unfold JSMap.keys. rewrite map_app. simpl. apply NoDup_snoc; [exact H|].
    now apply (get_None jsstring_eqb jsstring_eqb_spec).
Qed.

Lemma removePlacement_distinct s k :
  NoDup (JSMap.keys (placements s)) ->
  NoDup (JSMap.keys (placements (fst (removePlacement s k)))).
Proof.
  intros H. unfold removePlacement.
  destruct (JSMap.get jsstring_eqb (placements s) k); [|exact H].
  cbn [fst].
  destruct (JSMap.get sameValueZero (placementsByRow s) _) as [rowSet|];
    [destruct (JSMap.setDelete jsstring_eqb rowSet k)|];
    cbn; now apply NoDup_keys_delete.
Qed.

Lemma fold_distinct {A} (f : Storage -> A -> Storage) :
  (forall s a, NoDup (JSMap.keys (placements s)) ->
               NoDup (JSMap.keys (placements (f s a)))) ->
  forall l s, NoDup (JSMap.keys (placements s)) ->
              NoDup (JSMap.keys (placements (fold_left f l s))).
Proof.
  intros Hf. induction l as [|a l IH]; intros s H; simpl; [exact H|].
  apply IH. now apply Hf.
Qed.

Lemma setPlacement_distinct s p :
  NoDup (JSMap.keys (placements s)) ->
  NoDup (JSMap.keys (placements (setPlacement s p))).
Proof.
  intros H. unfold setPlacement.
  set (s1 := if JSMap.has jsstring_eqb (placements s) (key p)
             then fst (removePlacement s (key p)) else s).
  assert (H1 : NoDup (JSMap.keys (placements s1))).
  { subst s1. destruct (JSMap.has _ _ _);
      [now apply removePlacement_distinct | exact H]. }
  set (s2 := if Z.of_nat (length (placements s1)) >=? maxPlacements s1 then _ else s1).
  assert (H2 : NoDup (JSMap.keys (placements s2))).
  { subst s2. destruct (_ >=? _); [|exact H1].
    pose proof (fun k => removePlacement_distinct s1 k H1) as HR.
    destruct (JSMap.keys (placements s1)) as [|[|c o] ?] eqn:E;
      try (rewrite E; exact H1). apply HR. }
  cbn. now apply NoDup_keys_set.
Qed.

Lemma removeMatching_distinct s ks test :
  NoDup (JSMap.keys (placements s)) ->
  NoDup (JSMap.keys (placements (removeMatching s ks test))).
Proof.
  unfold removeMatching. apply fold_distinct. intros s0 k H.
  destruct (JSMap.get jsstring_eqb (placements s0) k) as [p|];
    [destruct (test p); [now apply removePlacement_distinct|]|]; exact H.
Qed.

Lemma removeSnapshot_distinct s test :
  NoDup (JSMap.keys (placements s)) ->
  NoDup (JSMap.keys (placements (removeSnapshot s test))).
Proof.
  unfold removeSnapshot. apply fold_distinct. intros s0 e H.
  destruct (test (snd e)); [now apply removePlacement_distinct | exact H].
Qed.

Lemma removeImage_distinct s i :
  NoDup (JSMap.keys (placements s)) ->
  NoDup (JSMap.keys (placements (fst (removeImage s i)))).
Proof.
  intros H. unfold removeImage.
  destruct (JSMap.get sameValueZero (images s) i); [|exact H].
  cbn. apply fold_distinct; [|exact H]. intros t e H0.
  destruct (strictEq (imageId (snd e)) i);
    [now apply removePlacement_distinct | exact H0].
Qed.

Lemma evictByCount_distinct : forall fuel s s',
  evictByCount fuel s = Some s' ->
  NoDup (JSMap.keys (placements s)) -> NoDup (JSMap.keys (placements s')).
Proof.
  induction fuel as [|fuel IH]; intros s s'; simpl; [discriminate|].
  destruct (accessOrder s) as [|lru ?]; [now intros [= <-]|].
  destruct (_ >=? _); [|now intros [= <-]].
  intros E H. apply (IH _ _ E). now apply removeImage_distinct.
Qed.

Lemma evictByMemory_distinct : forall fuel s b s',
  evictByMemory fuel s b = Some s' ->
  NoDup (JSMap.keys (placements s)) -> NoDup (JSMap.keys (placements s')).
Proof.
  induction fuel as [|fuel IH]; intros s b s'; simpl; [discriminate|].
  destruct (accessOrder s) as [|lru ?]; [now intros [= <-]|].
  destruct (_ >? _); [|now intros [= <-]].
  intros E H. apply (IH _ _ _ E). now apply removeImage_distinct.
Qed.

Lemma storeImage_distinct s i fmt w h d bm now s' img :
  storeImage s i fmt w h d bm now = Some (s', img) ->
  NoDup (JSMap.keys (placements s)) -> NoDup (JSMap.keys (placements s')).
Proof.
  unfold storeImage, evictIfNeeded. intros E H.
  destruct (evictByCount _ s) as [s1|] eqn:E1; [|discriminate].
  destruct (evictByMemory _ s1 _) as [s2|] eqn:E2; [|discriminate].
  injection E as <- _. cbn.
  apply evictByCount_distinct in E1; [|exact H].
  apply evictByMemory_distinct in E2; [|exact E1].
  destruct (hasImage s2 i); [now apply removeImage_distinct | exact E2].
Qed.

Lemma getImage_distinct s i now :
  NoDup (JSMap.keys (placements s)) ->
  NoDup (JSMap.keys (placements (fst (getImage s i now)))).
Proof.
  intros H. unfold getImage.
  destruct (JSMap.get sameValueZero (images s) i); [|exact H].
  cbn [fst]. match goal with |- context [if ?b then _ else _] => destruct b end; exact H.
Qed.

Lemma applyOp_distinct s op s' :
  applyOp s op = Some s' ->
  NoDup (JSMap.keys (placements s)) -> NoDup (JSMap.keys (placements s')).
Proof.
  destruct op; simpl; intros E H; try (injection E as <-).
  - destruct (storeImage s i fmt w h d bm now) as [[s1 img]|] eqn:E1;
      [|discriminate]. injection E as <-.
    exact (storeImage_distinct _ _ _ _ _ _ _ _ _ _ E1 H).
  - now apply getImage_distinct.
  - now apply removeImage_distinct.
  - now apply setPlacement_distinct.
  - now apply removePlacement_distinct.
  - exact H.
  - unfold getAndClearChunks. destruct (JSMap.get _ _ _); exact H.
  - constructor.
  - unfold deleteAtCursor. destruct (JSMap.get _ _ _);
      [now apply removeMatching_distinct | exact H].
  - unfold deleteRow. destruct (JSMap.get _ _ _);
      [now apply removeMatching_distinct | exact H].
  - now apply removeSnapshot_distinct.
  - now apply removeSnapshot_distinct.
  - constructor.
Qed.

(** In every store reached from a new one the placement keys are
    distinct, as the keys of a [Map] are. *)
Lemma reachable_placements_distinct options : forall ops s,
  runOps (newStorage options) ops = Some s ->
  NoDup (JSMap.keys (placements s)).
Proof.
  intros ops.
  assert (H : forall s0 s, NoDup (JSMap.keys (placements s0)) ->
                runOps s0 ops = Some s -> NoDup (JSMap.keys (placements s))).
  { induction ops as [|op ops IH]; intros s0 s H0; simpl.
    - now intros [= <-].
    - destruct (applyOp s0 op) as [s1|] eqn:E; [|discriminate].
      apply IH. exact (applyOp_distinct _ _ _ E H0). }
  intros s. apply H. constructor.
Qed.

(** C7, as amended.  For [startRow <= endRow] the query returns, in
    insertion order, the placements with [bufferRow <= endRow] and
    [bufferRow + displayHeight - 1 >= startRow]; for a placement that covers
    at least one row this is exactly: its span of rows intersects
    [[startRow, endRow]]. *)
Theorem placements_in_range_exact (s : Storage) (a b : Z) :
  NoDup (JSMap.keys (placements s)) -> a <= b ->
  getPlacementsInRange s (Int a) (Int b) =
    filter (fun p => inRangeTest p (Int a) (Int b)) (getAllPlacements s) /\
  (forall p, In p (getPlacementsInRange s (Int a) (Int b)) <->
     In p (getAllPlacements s) /\
     exists R H, bufferRow p = Int R /\ displayHeight p = Int H /\
                 a <= R + H - 1 /\ R <= b) /\
  (forall p, coversARow p ->
     (In p (getPlacementsInRange s (Int a) (Int b)) <->
      In p (getAllPlacements s) /\ spanIntersects p a b)).
Proof.
  intros Hn Hab.
  assert (E : getPlacementsInRange s (Int a) (Int b) =
              filter (fun p => inRangeTest p (Int a) (Int b)) (getAllPlacements s)).
  { unfold getPlacementsInRange, getAllPlacements.
    apply placementsInRangeLoop_filter; [exact Hn | reflexivity]. }
  split; [exact E|]. split.
  - intros p. rewrite E, filter_In, inRangeTest_spec. reflexivity.
  - intros p Hp. rewrite E, filter_In, inRangeTest_spec.
    split; intros [Hin Hx]; (split; [exact Hin|]).
    + destruct Hx as (R & H & E1 & E2 & H1 & H2).
      specialize (Hp H E2).
      exists R, H, (Z.max a R). repeat split; auto; lia.
    + destruct Hx as (R & H & r & E1 & E2 & H1 & H2).
      exists R, H. repeat split; auto; lia.
Qed.

Lemma requestsBytes_app a b :
  requestsBytes (a ++ b) = requestsBytes a + requestsBytes b.
Proof. induction a as [|r a IH]; simpl; [reflexivity|]. rewrite IH. lia. Qed.

Lemma evictByCount_idle fuel s :
  Z.of_nat (length (images s)) < maxImages s ->
  evictByCount (S fuel) s = Some s.
Proof.
  intros H. simpl. destruct (accessOrder s); [reflexivity|].
  destruct (Z.of_nat (length (images s)) >=? maxImages s) eqn:E; [|reflexivity].
  rewrite Z.geb_le in E. lia.
Qed.

Lemma evictByCount_step fuel s lruId rest :
  accessOrder s = lruId :: rest ->
  (Z.of_nat (length (images s)) >=? maxImages s) = true ->
  evictByCount (S fuel) s = evictByCount fuel (fst (removeImage s lruId)).
Proof. intros Ho Hfull. simpl. now rewrite Ho, Hfull. Qed.

Lemma evictByMemory_idle fuel s extra :
  memoryUsage s + extra <= maxMemory s ->
  evictByMemory (S fuel) s extra = Some s.
Proof.
  intros H. simpl. destruct (accessOrder s); [reflexivity|].
  destruct (memoryUsage s + extra >? maxMemory s) eqn:E; [|reflexivity].
  rewrite Z.gtb_lt in E. lia.
Qed.

(** What [storeImage] does once the evictions are over, for a fresh ID. *)
Lemma storeRequest_after_eviction s r s1 :
  evictIfNeeded s (Z.of_nat (length (reqData r))) = Some s1 ->
  ~ In (requestKey r) (JSMap.keys (images s1)) ->
  exists s',
    storeRequest s r = Some s' /\
    JSMap.keys (images s') = JSMap.keys (images s1) ++ [requestKey r] /\
    accessOrder s' = accessOrder s1 ++ [requestKey r] /\
    memoryUsage s' = memoryUsage s1 + requestBytes r /\
    maxMemory s' = maxMemory s1 /\ maxImages s' = maxImages s1.
Proof.
  intros He Hf. unfold storeRequest, storeImage. rewrite He.
  fold (requestKey r).
  assert (Hg : JSMap.get sameValueZero (images s1) (requestKey r) = None).
  { now apply (get_None sameValueZero sameValueZero_spec). }
  unfold hasImage, JSMap.has. rewrite Hg.
  eexists. split; [reflexivity|].
  unfold setMemoryUsage, setAccessOrder, setImages.
  cbn [fst images accessOrder memoryUsage maxMemory maxImages byteSize].
  rewrite (set_absent _ _ _ _ Hg). unfold JSMap.keys. rewrite map_app.
  repeat split.
Qed.

(** A request that fits is appended without any eviction. *)
Lemma storeRequest_fits s r :
  Z.of_nat (length (images s)) < maxImages s ->
  memoryUsage s + Z.of_nat (length (reqData r)) <= maxMemory s ->
  ~ In (requestKey r) (JSMap.keys (images s)) ->
  exists s',
    storeRequest s r = Some s' /\
    JSMap.keys (images s') = JSMap.keys (images s) ++ [requestKey r] /\
    accessOrder s' = accessOrder s ++ [requestKey r] /\
    memoryUsage s' = memoryUsage s + requestBytes r /\
    maxMemory s' = maxMemory s /\ maxImages s' = maxImages s.
Proof.
  intros Hc Hm Hf. apply storeRequest_after_eviction; [|exact Hf].
  unfold evictIfNeeded.
  rewrite (evictByCount_idle _ s Hc). apply (evictByMemory_idle _ s _ Hm).
Qed.

Lemma requestBytes_data r :
  nonNegativeArea r -> Z.of_nat (length (reqData r)) <= requestBytes r.
Proof.
  unfold nonNegativeArea, requestBytes. intros H.
  destruct (reqBitmap r); lia.
Qed.

Lemma requestBytes_nonneg r : nonNegativeArea r -> 0 <= requestBytes r.
Proof. intros H. pose proof (requestBytes_data r H). lia. Qed.

Lemma requestsBytes_nonneg rs :
  Forall nonNegativeArea rs -> 0 <= requestsBytes rs.
Proof.
  induction 1 as [|r rs Hr _ IH]; simpl; [lia|].
  pose proof (requestBytes_nonneg r Hr). lia.
Qed.

(** Storing a run of requests while both budgets hold. *)
Lemma storeRequests_fit : forall rs s,
  Z.of_nat (length (images s)) + Z.of_nat (length rs) <= maxImages s ->
  memoryUsage s + requestsBytes rs <= maxMemory s ->
  Forall nonNegativeArea rs ->
  NoDup (JSMap.keys (images s) ++ map requestKey rs) ->
  exists s',
    storeRequests s rs = Some s' /\
    JSMap.keys (images s') = JSMap.keys (images s) ++ map requestKey rs /\
    accessOrder s' = accessOrder s ++ map requestKey rs /\
    memoryUsage s' = memoryUsage s + requestsBytes rs /\
    maxMemory s' = maxMemory s /\ maxImages s' = maxImages s.
Proof.
  induction rs as [|r rs IH]; intros s Hc Hm Hnn Hnd.
  - exists s. simpl. rewrite !app_nil_r. repeat split. lia.
  - inversion Hnn as [|? ? Hr Hrs]; subst.
    pose proof (requestBytes_data r Hr) as Hd.
    pose proof (requestsBytes_nonneg rs Hrs) as Hp.
    cbn [length requestsBytes fold_right map] in *.
    fold (requestsBytes rs) in *.
    destruct (storeRequest_fits s r) as (s1 & E1 & K1 & A1 & M1 & X1 & X2);
      [lia | lia | |].
    { apply NoDup_remove_2 in Hnd. intros H. apply Hnd.
      apply in_or_app. now left. }
    assert (L1 : length (images s1) = S (length (images s))).
    { apply (f_equal (@length jsnum)) in K1.
      unfold JSMap.keys in K1. rewrite length_app, !length_map in K1.
      simpl in K1. lia. }
    destruct (IH s1) as (s' & E' & K' & A' & M' & Y1 & Y2).
    + rewrite L1, X2. lia.
    + rewrite M1, X1. lia.
    + exact Hrs.
    + rewrite K1, <- app_assoc. exact Hnd.
    + exists s'. cbn [storeRequests]. rewrite E1.
      split; [exact E'|].
      rewrite K', A', M', K1, A1, M1, <- !app_assoc.
      repeat split; try congruence. lia.
Qed.

Lemma Forall_delete {V} (P : jsnum * V -> Prop) m k :
  Forall P m -> Forall P (JSMap.delete sameValueZero m k).
Proof.
  induction 1 as [|[k0 v0] m H0 Hm IH]; simpl; [constructor|].
  destruct (sameValueZero k0 k); [assumption | now constructor].
Qed.

Lemma Forall_set {V} (P : jsnum * V -> Prop) m k v :
  (forall k', P (k', v)) -> Forall P m ->
  Forall P (JSMap.set sameValueZero m k v).
Proof.
  intros Hv. induction 1 as [|[k0 v0] m H0 Hm IH]; simpl.
  - constructor; [apply Hv | constructor].
  - destruct (sameValueZero k0 k); constructor; auto.
Qed.

Lemma removeImage_sizes s i :
  sizesNonNegative s -> sizesNonNegative (fst (removeImage s i)).
Proof.
  unfold sizesNonNegative. intros H.
  destruct (JSMap.get sameValueZero (images s) i) as [img|] eqn:E.
  - destruct (removeImage_present s i img E) as (H1 & _). rewrite H1.
    now apply Forall_delete.
  - now rewrite (removeImage_absent s i E).
Qed.

Lemma evictByCount_sizes : forall fuel s s',
  sizesNonNegative s -> evictByCount fuel s = Some s' -> sizesNonNegative s'.
Proof.
  induction fuel as [|fuel IH]; intros s s' Ha; simpl; [discriminate|].
  destruct (accessOrder s) as [|lruId rest]; [now intros [= <-]|].
  destruct (_ >=? _); [|now intros [= <-]].
  apply IH. now apply removeImage_sizes.
Qed.

Lemma evictByMemory_sizes : forall fuel s extra s',
  sizesNonNegative s -> evictByMemory fuel s extra = Some s' ->
  sizesNonNegative s'.
Proof.
  induction fuel as [|fuel IH]; intros s extra s' Ha; simpl; [discriminate|].
  destruct (accessOrder s) as [|lruId rest]; [now intros [= <-]|].
  destruct (_ >? _); [|now intros [= <-]].
  apply IH. now apply removeImage_sizes.
Qed.

Lemma storeRequest_sizes s r s' :
  sizesNonNegative s -> nonNegativeArea r -> storeRequest s r = Some s' ->
  sizesNonNegative s'.
Proof.
  intros Hs Hr. unfold storeRequest, storeImage, evictIfNeeded.
  destruct (evictByCount _ s) as [s1|] eqn:E1; [|discriminate].
  apply evictByCount_sizes in E1; [|exact Hs].
  destruct (evictByMemory _ s1 _) as [s2|] eqn:E2; [|discriminate].
  apply evictByMemory_sizes in E2; [|exact E1].
  cbn [option_map fst]. intros [= <-].
  unfold sizesNonNegative, setMemoryUsage, setAccessOrder, setImages.
  cbn [images]. apply Forall_set.
  - intros k'. cbn [snd byteSize]. apply (requestBytes_nonneg r Hr).
  - destruct (hasImage s2 _); [now apply removeImage_sizes | exact E2].
Qed.

Lemma storeRequests_sizes : forall rs s s',
  sizesNonNegative s -> Forall nonNegativeArea rs ->
  storeRequests s rs = Some s' -> sizesNonNegative s'.
Proof.
  induction rs as [|r rs IH]; intros s s' Hs Hr; simpl.
  - now intros [= <-].
  - inversion Hr as [|? ? H1 H2]; subst.
    destruct (storeRequest s r) as [s1|] eqn:E; [|discriminate].
    apply IH; [|exact H2]. eapply storeRequest_sizes; eauto.
Qed.

Lemma getImage_sizes s i now :
  sizesNonNegative s -> sizesNonNegative (fst (getImage s i now)).
Proof.
  unfold sizesNonNegative, getImage. intros H.
  destruct (JSMap.get sameValueZero (images s) i) as [img|] eqn:E; [|exact H].
  assert (Hi : 0 <= byteSize img).
  { apply (get_In sameValueZero sameValueZero_spec) in E.
    rewrite Forall_forall in H. apply (H _ E). }
  cbn [fst]. destruct (indexOfIsFound _ _); cbn [setAccessOrder setImages images];
    apply Forall_set; auto.
Qed.

Lemma get_of_key (m : list (jsnum * StoredImage)) k :
  In k (JSMap.keys m) -> exists v, JSMap.get sameValueZero m k = Some v.
Proof.
  intros H. destruct (JSMap.get sameValueZero m k) eqn:E; [eauto|].
  apply (get_None sameValueZero sameValueZero_spec) in E. contradiction.
Qed.

Lemma requestKey_inj a b : requestKey a = requestKey b -> reqId a = reqId b.
Proof. unfold requestKey. now intros [= ->]. Qed.

Lemma NoDup_requestKeys rs :
  NoDup (map reqId rs) -> NoDup (map requestKey rs).
Proof.
  induction rs as [|r rs IH]; simpl; intros H; [constructor|].
  inversion H as [|? ? Hn Hd]; subst. constructor; [|auto].
  intros Hin. apply Hn. apply in_map_iff in Hin as (r' & E & Hr').
  apply requestKey_inj in E. rewrite <- E. now apply in_map.
Qed.

(** C2, as amended.  In a store with [maxImages = K], [K >= 2], whose
    byte budget holds all [K + 1] images: after [K] images with distinct
    integer IDs are stored, the first one is read with [getImage] and one
    more image with a fresh ID is stored, exactly [K] images remain, the
    image that was read is present, and the evicted image is the second one
    stored, which is at the front of the access order, the least recently
    accessed. *)
Theorem lru_eviction_keeps_touched_image
    (maxMem : Z) (maxPl : option Z)
    (first second : StoreRequest) (others : list StoreRequest)
    (extra : StoreRequest) (tget : Z) :
  let reqs := first :: second :: others in
  let K := Z.of_nat (length reqs) in
  let s0 := newStorage {| optMaxCacheMemory := Some maxMem;
                          optMaxImages := Some K;
                          optMaxPlacements := maxPl |} in
  NoDup (map reqId (reqs ++ [extra])) ->
  Forall nonNegativeArea (reqs ++ [extra]) ->
  requestsBytes (reqs ++ [extra]) <= maxMem ->
  exists s1 s3,
    storeRequests s0 reqs = Some s1 /\
    Z.of_nat (length (images s1)) = K /\
    accessOrder (fst (getImage s1 (requestKey first) tget)) =
      map requestKey (second :: others ++ [first]) /\
    storeRequest (fst (getImage s1 (requestKey first) tget)) extra = Some s3 /\
    Z.of_nat (length (images s3)) = K /\
    hasImage s3 (requestKey first) = true /\
    hasImage s3 (requestKey second) = false /\
    (forall r, In r (others ++ [extra]) -> hasImage s3 (requestKey r) = true).
Proof.
  intros reqs K s0 Hnd Hnn Hmem.
  apply NoDup_requestKeys in Hnd.
  apply Forall_app in Hnn as [Hnn Hne]. inversion Hne as [|? ? Hne' _]; subst.
  rewrite requestsBytes_app in Hmem.
  change (requestsBytes [extra]) with (requestBytes extra + 0) in Hmem.
  pose proof (requestBytes_nonneg extra Hne') as Hpe.
  pose proof (requestBytes_data extra Hne') as Hde.
  rewrite map_app in Hnd. cbn [map] in Hnd.
  (* the K insertions *)
  destruct (storeRequests_fit reqs s0) as (s1 & E1 & K1 & A1 & M1 & X1 & X2).
  { subst s0 K. cbn. lia. }
  { subst s0.
    cbn [newStorage memoryUsage maxMemory orDefault optMaxCacheMemory]. lia. }
  { exact Hnn. }
  { subst s0. cbn [newStorage images JSMap.keys map app].
    apply NoDup_app_remove_r in Hnd. exact Hnd. }
  subst s0. cbn [newStorage images accessOrder memoryUsage maxMemory maxImages
                 JSMap.keys map app orDefault optMaxCacheMemory optMaxImages]
    in K1, A1, M1, X1, X2.
  rewrite Z.add_0_l in M1.
  set (keys1 := map requestKey reqs) in *.
  assert (L1 : length (images s1) = length reqs).
  { apply (f_equal (@length jsnum)) in K1. unfold JSMap.keys, keys1 in K1.
    now rewrite !length_map in K1. }
  assert (Hnd1 : NoDup keys1) by (apply NoDup_app_remove_r in Hnd; exact Hnd).
  assert (Hfresh : ~ In (requestKey extra) keys1).
  { intros H. apply NoDup_remove_2 in Hnd. apply Hnd. rewrite app_nil_r. exact H. }
  (* the read of the first image *)
  destruct (get_of_key (images s1) (requestKey first)) as [img1 G1].
  { fold (JSMap.keys (images s1)). rewrite K1. left. reflexivity. }
  assert (Hget : getImage s1 (requestKey first) tget = _) by
    (apply (getImage_present s1 (requestKey first) tget img1 G1);
     [rewrite A1; left; reflexivity | reflexivity]).
  set (s2 := fst (getImage s1 (requestKey first) tget)).
  assert (Es2 : s2 = setAccessOrder
            (setImages s1
               (JSMap.set sameValueZero (images s1) (requestKey first)
                  (touch img1 tget)))
            (removeFirst (accessOrder s1) (requestKey first)
             ++ [requestKey first]))
    by (subst s2; rewrite Hget; reflexivity).
  assert (A2 : accessOrder s2 = map requestKey (second :: others ++ [first])).
  { rewrite Es2. cbn [setAccessOrder accessOrder]. rewrite A1.
    subst keys1 reqs.
    cbn [map]. rewrite removeFirst_head by reflexivity.
    rewrite map_app. reflexivity. }
  assert (K2 : JSMap.keys (images s2) = keys1).
  { rewrite Es2. cbn [setAccessOrder setImages images].
    rewrite (keys_set_present _ _ _ _ _ G1). exact K1. }
  assert (Hacc1 : accounted s1).
  { assert (Hs : accounted (newStorage {| optMaxCacheMemory := Some maxMem;
                 optMaxImages := Some K; optMaxPlacements := maxPl |}))
      by apply newStorage_accounted.
    revert Hs E1. generalize (newStorage {| optMaxCacheMemory := Some maxMem;
                 optMaxImages := Some K; optMaxPlacements := maxPl |}).
    clear. induction reqs as [|r rs IH]; intros s Hs; simpl.
    - now intros [= <-].
    - unfold storeRequest.
      destruct (storeImage s _ _ _ _ _ _ _) as [[s' img]|] eqn:E; [|discriminate].
      simpl. apply IH. eapply storeImage_accounted; eauto. }
  assert (Hacc2 : accounted s2)
    by (apply (getImage_accounted s1 (requestKey first) tget Hacc1)).
  assert (M2 : memoryUsage s2 = requestsBytes reqs)
    by (rewrite Es2; exact M1).
  assert (X3 : maxMemory s2 = maxMem /\ maxImages s2 = K)
    by (rewrite Es2; cbn; auto).
  destruct X3 as [X3 X4].
  (* the eviction of the second image *)
  destruct (get_of_key (images s2) (requestKey second)) as [img2 G2].
  { rewrite K2. subst keys1 reqs. right. left. reflexivity. }
  destruct (removeImage_present s2 (requestKey second) img2 G2)
    as (I3 & A3 & M3 & Y1 & Y2 & _).
  set (s3 := fst (removeImage s2 (requestKey second))) in *.
  assert (L3 : S (length (images s3)) = length reqs).
  { rewrite I3, (length_delete _ _ _ _ G2).
    apply (f_equal (@length jsnum)) in K2. unfold JSMap.keys, keys1 in K2.
    now rewrite !length_map in K2. }
  assert (Hb2 : 0 <= byteSize img2).
  { assert (Hs2 : sizesNonNegative s2).
    { apply getImage_sizes. eapply storeRequests_sizes; [|exact Hnn|exact E1].
      constructor. }
    apply (get_In sameValueZero sameValueZero_spec) in G2.
    unfold sizesNonNegative in Hs2. rewrite Forall_forall in Hs2.
    apply (Hs2 _ G2). }
  assert (Hev : evictIfNeeded s2 (Z.of_nat (length (reqData extra))) = Some s3).
  { unfold evictIfNeeded.
    assert (Hfull : (Z.of_nat (length (images s2)) >=? maxImages s2) = true).
    { apply Z.geb_le. rewrite X4. subst K.
      apply (f_equal (@length jsnum)) in K2. unfold JSMap.keys, keys1 in K2.
      rewrite !length_map in K2. rewrite K2. lia. }
    replace (S (length (accessOrder s2)))
      with (S (S (length (others ++ [first]))))
      by (rewrite A2; cbn [map length]; now rewrite length_map).
    cbn [map] in A2.
    rewrite (evictByCount_step _ s2 _ _ A2 Hfull). fold s3.
    rewrite evictByCount_idle by (rewrite Y2, X4; subst K; lia).
    apply evictByMemory_idle. rewrite M3, M2, Y1, X3. lia. }
  assert (K3 : forall k, In k (JSMap.keys (images s3)) <->
                         In k keys1 /\ k <> requestKey second).
  { intros k. rewrite I3, <- K2.
    apply (keys_delete sameValueZero sameValueZero_spec). apply Hacc2. }
  destruct (storeRequest_after_eviction s2 extra s3 Hev)
    as (s4 & E4 & K4 & A4 & M4 & Z1 & Z2).
  { rewrite K3. tauto. }
  exists s1, s4.
  split; [exact E1|]. split; [subst K; now rewrite L1|].
  split; [exact A2|]. split; [exact E4|].
  assert (Hsecond : requestKey first <> requestKey second /\
                    (forall r, In r others -> requestKey r <> requestKey second) /\
                    requestKey extra <> requestKey second).
  { subst keys1 reqs. cbn [map] in Hnd1, Hfresh.
    inversion Hnd1 as [|? ? N1 N2]; subst. inversion N2 as [|? ? N3 N4]; subst.
    split; [intros E; apply N1; rewrite E; now left|]. split.
    - intros r Hr E. apply N3. rewrite <- E. now apply in_map.
    - intros E. apply Hfresh. rewrite E. right. now left. }
  destruct Hsecond as (S1 & S2 & S3).
  split; [|split; [|split]].
  - apply (f_equal (@length jsnum)) in K4. unfold JSMap.keys in K4.
    rewrite length_app, !length_map in K4. simpl in K4. subst K. lia.
  - apply (has_true sameValueZero sameValueZero_spec). rewrite K4.
    apply in_or_app. left. apply K3. split; [|exact S1].
    subst keys1 reqs. now left.
  - destruct (hasImage s4 (requestKey second)) eqn:Eh; [|reflexivity].
    apply (has_true sameValueZero sameValueZero_spec) in Eh.
    rewrite K4 in Eh. apply in_app_or in Eh as [Eh|[Eh|[]]].
    + apply K3 in Eh. tauto.
    + congruence.
  - intros r Hr. apply (has_true sameValueZero sameValueZero_spec).
    rewrite K4. apply in_or_app. apply in_app_or in Hr as [Hr|[<-|[]]].
    + left. apply K3. split; [|now apply S2].
      subst keys1 reqs. cbn [map]. right. right. now apply in_map.
    + right. now left.
Qed.

(** The invariant after a run of nine operations. *)
Lemma memory_usage_is_sum_of_byteSize_witness :
  forallb storesNumberedImage sampleOps = true /\
  exists s, runOps (newStorage noOptions) sampleOps = Some s /\
            memoryUsage s = totalBytes (images s).
Proof.
  destruct (memory_usage_is_sum_of_byteSize noOptions sampleOps) as [H1 H2].
  split; [reflexivity|].
  destruct (H2 eq_refl) as [s E].
  exists s. split; [exact E | exact (H1 s E)].
Defined.

(** The query for rows 3 to 6 on the three sample placements. *)
Lemma placements_in_range_exact_witness :
  getPlacementsInRange rowsStorage (Int 3) (Int 6) =
    [samplePlacement "1:1" 1 4; samplePlacement "1:2" 5 0] /\
  (In (samplePlacement "1:1" 1 4)
      (getPlacementsInRange rowsStorage (Int 3) (Int 6)) <->
   In (samplePlacement "1:1" 1 4) (getAllPlacements rowsStorage) /\
   spanIntersects (samplePlacement "1:1" 1 4) 3 6).
Proof.
  assert (Hn : NoDup (JSMap.keys (placements rowsStorage))).
  { vm_compute. repeat constructor; simpl; intuition discriminate. }
  assert (Hab : 3 <= 6) by lia.
  destruct (placements_in_range_exact rowsStorage 3 6 Hn Hab) as (E & _ & H).
  split.
  - rewrite E. reflexivity.
  - apply H. intros h [= <-]. lia.
Defined.

(** C7, counterexample.  A placement at row 5 with [displayHeight = 0]
    occupies the empty span from 5 to 4, which meets no row of the range
    from 3 to 6; the query returns it. *)
Lemma empty_span_placement_is_returned :
  In (samplePlacement "1:2" 5 0)
     (getPlacementsInRange rowsStorage (Int 3) (Int 6)) /\
  ~ spanIntersects (samplePlacement "1:2" 5 0) 3 6.
Proof.
  split.
  - vm_compute. right. left. reflexivity.
  - intros (R & H & r & [= <-] & [= <-] & Hr & _). lia.
Qed.

(** Three slots, images 1 to 3, image 1 read, image 4 stored. *)
Lemma lru_eviction_keeps_touched_image_witness :
  exists s1 s3,
    storeRequests (cacheOf 3 100)
      [sampleRequest 1; sampleRequest 2; sampleRequest 3] = Some s1 /\
    storeRequest (fst (getImage s1 (Int 1) 9)) (sampleRequest 4) = Some s3 /\
    length (images s3) = 3%nat /\
    hasImage s3 (Int 1) = true /\
    hasImage s3 (Int 2) = false.
Proof.
  destruct (lru_eviction_keeps_touched_image 100 None
              (sampleRequest 1) (sampleRequest 2) [sampleRequest 3]
              (sampleRequest 4) 9)
    as (s1 & s3 & E1 & _ & _ & E3 & L3 & H1 & H2 & _).
  - cbn. repeat constructor; cbn; intuition discriminate.
  - repeat constructor; unfold nonNegativeArea; cbn; lia.
  - vm_compute. discriminate.
  - exists s1, s3. cbn in L3. repeat split; try assumption. lia.
Defined.

(** C2, counterexample.  With [maxImages = 1]: image 1 is stored and read,
    image 2 is stored; one image remains and it is image 2, the image that
    was read is the one evicted. *)
Lemma single_slot_evicts_touched_image :
  exists s1 s3,
    storeRequests (cacheOf 1 100) [sampleRequest 1] = Some s1 /\
    storeRequest (fst (getImage s1 (Int 1) 9)) (sampleRequest 2) = Some s3 /\
    length (images s3) = 1%nat /\
    hasImage s3 (Int 1) = false /\
    hasImage s3 (Int 2) = true.
Proof.
  eexists. eexists. split; [vm_compute; reflexivity|].
  split; [vm_compute; reflexivity|]. repeat split.
Qed.

(** With [maxImages = 2] and a budget of 10 bytes: images 1 and 2 of 4
    bytes are stored, image 1 is read, image 3 of 8 bytes is stored; the
    count pass evicts image 2 and the byte pass evicts image 1, one image
    remains. *)
Lemma byte_budget_evicts_touched_image :
  exists s1 s3,
    storeRequests (cacheOf 2 10) [sampleRequest 1; sampleRequest 2] = Some s1 /\
    length (images s1) = 2%nat /\
    storeRequest (fst (getImage s1 (Int 1) 9)) (largeRequest 3) = Some s3 /\
    length (images s3) = 1%nat /\
    hasImage s3 (Int 1) = false /\
    hasImage s3 (Int 2) = false.
Proof.
  eexists. eexists. split; [vm_compute; reflexivity|].
  split; [reflexivity|].
  split; [vm_compute; reflexivity|]. repeat split.
Qed.

End GraphicsStorageProps.

(** ** The orchestrator *)

Module GraphicsManagerProps.
Import JS KittyParser KittyParserProps ImageDecoder GraphicsStorage
       GraphicsManager.
Local Open Scope js_scope.


Lemma createPlacement_parser env now m cmd i :
  parser (createPlacement env now m cmd i) = parser m.
Proof.
  unfold createPlacement. destruct (getImage (storage m) i now) as [st [img|]]; reflexivity.
Qed.

Lemma decodeAndStore_parser env now m cmd display i raw payload fmt w h c m' :
  decodeAndStore env now m cmd display i raw payload fmt w h c = Ok m' ->
  parser m' = parser m.
Proof.
  unfold decodeAndStore.
  destruct (match raw with Some bs => _ | None => _ end) as [d| |]; simpl; try discriminate.
  destruct (storeImage _ _ _ _ _ _ _ _) as [[st img]|]; try discriminate.
  destruct display; [destruct (hasImageDisplayCallback env)|]; intros [= <-];
    rewrite ?createPlacement_parser; reflexivity.
Qed.

Lemma handleTransmit_parser env now m cmd display m' :
  handleTransmit env now m cmd display = Ok m' -> parser m' = parser m.
Proof.
  unfold handleTransmit.
  set (im := match KittyParser.imageId cmd with Some i => _ | None => _ end).
  assert (Him : parser (snd im) = parser m).
  { subst im. destruct (KittyParser.imageId cmd); [reflexivity|].
    destruct (pendingChunkImageId m); reflexivity. }
  destruct im as [i m1]. simpl in Him.
  destruct (orElse (more cmd) false).
  - intros [= <-]. exact Him.
  - destruct (hasChunkBuffer _ _).
    + destruct (getAndClearChunks _ _) as [st [buffer|]].
      * destruct (combineChunksToBytes _) as [raw| |]; simpl; try discriminate.
        destruct (decodeAndStore _ _ _ _ _ _ _ _ _ _ _ _) as [m2| |] eqn:E;
          try discriminate; intros [= <-].
        -- apply decodeAndStore_parser in E. rewrite E. exact Him.
        -- exact Him.
      * simpl. destruct (orElse (KittyParser.payload cmd) []) eqn:Ep.
        -- intros [= <-]. exact Him.
        -- destruct (decodeAndStore _ _ _ _ _ _ _ _ _ _ _ _) as [m2| |] eqn:E;
             try discriminate; intros [= <-].
           ++ apply decodeAndStore_parser in E. rewrite E. exact Him.
           ++ exact Him.
    + simpl. destruct (orElse (KittyParser.payload cmd) []) eqn:Ep.
      * intros [= <-]. exact Him.
      * destruct (decodeAndStore _ _ _ _ _ _ _ _ _ _ _ _) as [m2| |] eqn:E;
          try discriminate; intros [= <-].
        -- apply decodeAndStore_parser in E. rewrite E. exact Him.
        -- exact Him.
Qed.

Lemma handleCommand_parser env now m cmd m' :
  handleCommand env now m cmd = Ok m' -> parser m' = parser m.
Proof.
  unfold handleCommand.
  repeat match goal with |- context [if ?b then _ else _] => destruct b end;
    try (apply handleTransmit_parser); intros [= <-]; auto.
  - unfold handlePut. destruct (KittyParser.imageId cmd); auto.
    destruct (negb _); auto. apply createPlacement_parser.
Qed.

Lemma sequentialLoop_spec env now full : forall cmds m le m' le',
  sequentialLoop env now m full cmds le = Ok (m', le') ->
  parser m' = parser m /\ le' = lastEnd le cmds.
Proof.
  induction cmds as [|c cmds IH]; intros m le m' le'; simpl.
  - intros [= <- <-]. auto.
  - match goal with |- context [handleCommand env now ?x _] => set (m1 := x) end.
    assert (H1 : parser m1 = parser m).
    { subst m1. destruct (substring full le (startIndex c)); auto.
      destruct (hasWriteToWasmCallback env); auto. }
    destruct (handleCommand env now m1 (command c)) as [m2| |] eqn:E; simpl;
      try discriminate.
    intros H. apply IH in H as [H2 H3]. apply handleCommand_parser in E.
    split; congruence.
Qed.

(** What the parser and the sequential path do with a frame whose
    terminator has not arrived.  [extract] always returns; when the working
    text holds a start marker with no terminator after it, the pending
    buffer is the suffix of the working text that begins at the first such
    marker, and the cleaned text consists of segments that lie before it.
    On the sequential path the returned tail is, whenever the parser holds
    pending data, the text between the end of the last command and the
    start marker of the partial frame: it contains no start marker. *)
Lemma partial_frame_is_buffered
    (env : Env) (now : Z) (m0 : Manager) (data : jsstring) :
  (exists p' r, extract (parser m0) data = Some (p', r)) /\
  forall p' r, extract (parser m0) data = Some (p', r) ->
    let full := fullData r in
    let stop := length full - length (pendingData p') in
    let last := lastEnd 0 (commands r) in
    (forall s, occursAt full APC_START s -> indexOf full ST s = None ->
       stop <= s /\
       pendingData p' = skipn stop full /\
       occursAt full APC_START stop /\
       indexOf full ST stop = None /\
       cleanedData r = outside full 0 (commands r) stop /\
       forall c, In c (commands r) -> endIndex c <= stop) /\
    exists tail,
      processDataSequentially env now (withParser m0 p') r =
        (ml <- sequentialLoop env now (withParser m0 p') full (commands r) 0 ;;
         Ok (fst ml, tail)) /\
      (hasPendingData p' = true ->
         tail = substring full last stop /\
         tail ++ pendingData p' = skipn last full /\
         forall j, ~ occursAt tail APC_START j).
Proof.
  destruct (extract_spec (parser m0) data)
    as (p' & r & He & Hfr & Hord & Hcl & Hsuf & Hg & Hpend & Hterm).
  split; [eauto|].
  intros p'' r'' He'. rewrite He in He'. injection He' as <- <-.
  cbv zeta in *.
  set (full := fullData r) in *.
  set (stop := length full - length (pendingData p')) in *.
  set (last := lastEnd 0 (commands r)) in *.
  destruct (ordered_pairwise _ _ _ Hord) as [Hin _].
  assert (Hlast : last <= stop).
  { subst last. clear -Hord. revert Hord. generalize 0.
    induction (commands r) as [|c cs IH]; simpl; intros from H; [exact H|].
    destruct H as (_ & _ & H). apply IH; exact H. }
  assert (Hstop : stop <= length full) by (subst stop; lia).
  split.
  - intros s Hocc Hno.
    pose proof (apc_bound _ _ Hocc) as Hsb.
    assert (Hs : stop <= s).
    { destruct (le_gt_dec stop s) as [|Hlt]; [assumption|exfalso].
      destruct (Hterm s Hlt Hocc) as (e & Hse & Hoe).
      assert (Hsl : s <= length full) by lia.
      exact (indexOf_None full ST s Hsl Hno e Hse Hoe). }
    assert (Hne : pendingData p' <> []).
    { intros Hnil. subst stop. rewrite Hnil in *. simpl in *. lia. }
    destruct (Hpend Hne) as [Hp1 Hp2].
    apply indexOf_Some in Hp1 as (_ & _ & Hp1 & _); [|lia].
    repeat split; auto. intros c Hc. apply Hin; auto.
  - set (tail := if hasPendingData p'
                 then substring full last stop else skipn last full).
    exists tail. split.
    + unfold processDataSequentially. fold full.
      destruct (sequentialLoop env now (withParser m0 p') full (commands r) 0)
        as [[m' le]| |] eqn:El; simpl; auto.
      apply sequentialLoop_spec in El as [Hp ->]. fold last.
      rewrite Hp. simpl. subst tail. unfold substringFrom.
      destruct (hasPendingData p') eqn:Hpd; auto.
      assert (Hne : pendingData p' <> []).
      { unfold hasPendingData in Hpd. destruct (pendingData p'); [discriminate|congruence]. }
      destruct (Hpend Hne) as [Hp1 _]. fold last in Hp1. fold stop in Hp1.
      assert (Hll : last <= length full) by lia.
      rewrite (indexOf_skipn full APC_START last stop Hll Hp1).
      f_equal. f_equal.
      rewrite substring_ok; [|lia|rewrite length_skipn; lia].
      rewrite substring_ok by lia. simpl. now rewrite Nat.sub_0_r.
    + intros Hpd. subst tail. rewrite Hpd.
      split; [reflexivity|]. split.
      * rewrite Hsuf. fold stop. symmetry. apply substring_split; lia.
      * intros j Hocc.
        assert (Hne : pendingData p' <> []).
        { unfold hasPendingData in Hpd. destruct (pendingData p'); [discriminate|congruence]. }
        destruct (Hpend Hne) as [Hp1 _].
        apply indexOf_Some in Hp1 as (_ & _ & _ & Hfirst); [|fold last; lia].
        apply occursAt_substring in Hocc as [Hocc Hlt]; try lia; [|discriminate].
        apply (Hfirst (last + j)); auto. fold last. lia.
Qed.

(** A chunk that holds a whole command, text, and half a frame. *)
Lemma partial_frame_is_buffered_witness :
  exists p' r tail,
    extract newParser halfFrameChunk = Some (p', r) /\
    pendingData p' = APC_START ++ str "a=T;xy" /\
    cleanedData r = str "abcd" /\
    tail = str "cd" /\
    forall j, ~ occursAt tail APC_START j.
Proof.
  destruct (partial_frame_is_buffered wasmEnv 0
              (newManager noOptions true) halfFrameChunk) as [_ H].
  let t := eval vm_compute in (extract newParser halfFrameChunk) in
  match t with
  | Some (?p, ?r) =>
      assert (E : extract newParser halfFrameChunk = Some (p, r))
        by (vm_compute; reflexivity);
      specialize (H p r E); exists p, r
  end.
  cbv zeta in H. destruct H as [H1 (tail & _ & H3)].
  exists tail.
  specialize (H1 12%nat eq_refl eq_refl).
  specialize (H3 eq_refl).
  destruct H1 as (_ & Hp & _ & _ & Hc & _).
  destruct H3 as (Ht & _ & Hno).
  split; [exact E|]. split; [rewrite Hp; reflexivity|].
  split; [rewrite Hc; reflexivity|].
  split; [rewrite Ht; reflexivity | exact Hno].
Defined.

(** C1.  A frame whose terminator has not arrived is surfaced as literal
    text when the chunk holds no whole command.  [extract] buffers the
    partial frame and leaves it out of the cleaned text, but the branch of
    [processData] taken when no command was found returns the chunk as it
    came, with the partial frame in it.  The next chunk ends the frame and
    its command is made from the buffered part and the rest: the first part
    of the frame has been handed out as text and is executed too.  On a
    chunk that holds a whole command before the partial frame the
    sequential path cuts the partial frame off. *)
Theorem partial_frame_is_returned_as_text (env : Env) (now : Z) :
  (exists p r,
     extract newParser partialFrameChunk = Some (p, r) /\
     cleanedData r = str "ab" /\
     pendingData p = APC_START ++ str "a=t,i=7,s=1,v=1;AQID") /\
  (exists m1,
     processData env now (newManager noOptions true) partialFrameChunk
       = Ok (m1, partialFrameChunk) /\
     pendingData (parser m1) = APC_START ++ str "a=t,i=7,s=1,v=1;AQID" /\
     exists p2 r2,
       extract (parser m1) restOfFrameChunk = Some (p2, r2) /\
       payloads r2 = [Some (str "AQIDBA==")] /\
       cleanedData r2 = str "cd" /\
       pendingData p2 = []) /\
  (exists m,
     processData wasmEnv now (newManager noOptions true) halfFrameChunk
       = Ok (m, str "cd") /\
     pendingData (parser m) = APC_START ++ str "a=T;xy").
Proof.
  split; [|split].
  - do 2 eexists. split; [vm_compute; reflexivity|]. split; reflexivity.
  - destruct env as [b w cc cm d]. eexists.
    split; [vm_compute; reflexivity|]. split; [reflexivity|].
    do 2 eexists. split; [vm_compute; reflexivity|].
    split; [reflexivity|]. split; reflexivity.
  - eexists. split; [vm_compute; reflexivity | reflexivity].
Qed.

(** A decode error on the single-payload path is caught: the store is
    left as it was. *)
Lemma single_payload_decode_failure_caught env now m cmd display c p e :
  KittyParser.more cmd <> Some true ->
  KittyParser.payload cmd = Some (c :: p) ->
  hasChunkBuffer (storage m) (effectiveImageId m cmd) = false ->
  decode (browser env) (c :: p) (numOr (KittyParser.format cmd) 32)
    (KittyParser.width cmd) (KittyParser.height cmd)
    (KittyParser.compression cmd) = Throw e ->
  exists m', handleTransmit env now m cmd display = Ok m' /\
             storage m' = storage m.
Proof.
  intros Hmore Hp Hb Hd. unfold handleTransmit.
  assert (Hm : orElse (more cmd) false = false).
  { destruct (more cmd) as [[|]|]; try reflexivity. congruence. }
  unfold effectiveImageId in *.
  destruct (KittyParser.imageId cmd) as [i|];
    [|destruct (pendingChunkImageId m) as [i|]];
    rewrite Hm, Hp;
    unfold withPendingChunkImageId, withNextImageId, sendResponse;
    cbn [orElse storage]; rewrite Hb; cbn [bind]; unfold decodeAndStore;
    cbn [browser]; rewrite Hd; cbn [bind];
    eexists; split; reflexivity.
Qed.

(** A decode error after the chunks were combined is caught too: no image
    and no placement is added. *)
Lemma combined_decode_failure_caught env now m cmd display buffer raw e :
  KittyParser.more cmd <> Some true ->
  JSMap.get sameValueZero (chunkBuffers (storage m)) (effectiveImageId m cmd)
    = Some buffer ->
  combineChunksToBytes
    (chunks buffer ++ [orElse (KittyParser.payload cmd) []]) = Ok raw ->
  decodeFromBytes (browser env) raw (chunkFormat buffer)
    (match KittyParser.width cmd with
     | Some _ => KittyParser.width cmd | None => chunkWidth buffer end)
    (match KittyParser.height cmd with
     | Some _ => KittyParser.height cmd | None => chunkHeight buffer end)
    (match KittyParser.compression cmd with
     | Some _ => KittyParser.compression cmd
     | None => chunkCompression buffer end) = Throw e ->
  exists m', handleTransmit env now m cmd display = Ok m' /\
             images (storage m') = images (storage m) /\
             placements (storage m') = placements (storage m).
Proof.
  intros Hmore Hg Hc Hd. unfold handleTransmit.
  assert (Hm : orElse (more cmd) false = false).
  { destruct (more cmd) as [[|]|]; try reflexivity. congruence. }
  unfold effectiveImageId in *.
  destruct (KittyParser.imageId cmd) as [i|];
    [|destruct (pendingChunkImageId m) as [i|]];
    rewrite Hm;
    unfold withPendingChunkImageId, withNextImageId, sendResponse;
    cbn [storage];
    unfold hasChunkBuffer, JSMap.has, getAndClearChunks; rewrite Hg, Hc;
    cbn [bind]; unfold decodeAndStore; rewrite Hd; cbn [bind];
    (destruct (orElse (KittyParser.payload cmd) []);
     (eexists; split; [reflexivity | split; reflexivity])).
Qed.

(** C8.  The chunks of a transfer are combined before the [try] block of
    [handleTransmit] is entered: when a chunk is the single character [=],
    the error of the Base64 decoder leaves [processData].  The same payload
    sent in one piece is decoded inside the block, the error is caught and
    the store stays empty. *)
Theorem chunk_decode_error_escapes (env : Env) (now : Z) :
  processData env now (newManager noOptions true) badChunkedTransfer
    = Throw RangeError /\
  exists m,
    processData env now (newManager noOptions true) badSingleTransfer
      = Ok (m, []) /\
    images (storage m) = [] /\ placements (storage m) = [].
Proof.
  destruct env as [b w cc cm d]. destruct w.
  - split; [vm_compute; reflexivity|]. eexists.
    split; [vm_compute; reflexivity|]. split; reflexivity.
  - split; [vm_compute; reflexivity|]. eexists.
    split; [vm_compute; reflexivity|]. split; reflexivity.
Qed.

End GraphicsManagerProps.

(** ** Further properties of the code *)

(** *** The limit on the number of images. *)

Module ImageLimitProps.
Import JS ImageDecoder GraphicsStorage JSMapFacts GraphicsStorageProps.
Local Open Scope Z_scope.

Section MapLengths.
Context {K V : Type} (eqb : K -> K -> bool).
Hypothesis eqb_spec : forall a b, eqb a b = true <-> a = b.

Lemma length_delete_le (m : list (K * V)) k :
  (length (JSMap.delete eqb m k) <= length m)%nat.
Proof.
  induction m as [|[k0 v0] m IH]; simpl; [lia|].
  destruct (eqb k0 k); simpl; lia.
Qed.

Lemma length_set (m : list (K * V)) k v :
  length (JSMap.set eqb m k v)
  = if JSMap.has eqb m k then length m else S (length m).
Proof.
  unfold JSMap.has. induction m as [|[k0 v0] m IH]; simpl; [reflexivity|].
  destruct (eqb k0 k); simpl; [reflexivity|]. rewrite IH.
  destruct (JSMap.get eqb m k); reflexivity.
Qed.

Lemma delete_absent (m : list (K * V)) k :
  JSMap.get eqb m k = None -> JSMap.delete eqb m k = m.
Proof.
  induction m as [|[k0 v0] m IH]; simpl; [reflexivity|].
  destruct (eqb k0 k); [discriminate|]. intros H. now rewrite IH.
Qed.

End MapLengths.

(** [removeImage] on the image side, present or not. *)
Lemma removeImage_images s i :
  images (fst (removeImage s i)) = JSMap.delete sameValueZero (images s) i /\
  maxImages (fst (removeImage s i)) = maxImages s.
Proof.
  destruct (JSMap.get sameValueZero (images s) i) as [img|] eqn:E.
  - destruct (removeImage_present s i img E) as (H1 & _ & _ & _ & H5 & _). auto.
  - rewrite (removeImage_absent s i E). simpl.
    now rewrite (delete_absent sameValueZero _ _ E).
Qed.

Lemma consistent_empty s :
  consistent s -> accessOrder s = [] -> images s = [].
Proof.
  intros (_ & _ & Hk & _) E. destruct (images s) as [|[k v] m]; [reflexivity|].
  exfalso. rewrite E in Hk. apply (Hk k). simpl. now left.
Qed.

Lemma evictByCount_room : forall fuel s s',
  consistent s -> 1 <= maxImages s ->
  evictByCount fuel s = Some s' ->
  consistent s' /\ maxImages s' = maxImages s /\
  Z.of_nat (length (images s')) < maxImages s'.
Proof.
  induction fuel as [|fuel IH]; intros s s' Hc Hm; simpl; [discriminate|].
  destruct (accessOrder s) as [|lru rest] eqn:Eo.
  - intros [= <-]. rewrite (consistent_empty s Hc Eo). simpl. auto with zarith.
  - destruct (Z.of_nat (length (images s)) >=? maxImages s) eqn:Eg.
    + intros E.
      destruct (removeImage_consistent s lru Hc) as (C1 & _).
      destruct (removeImage_images s lru) as (_ & M1).
      destruct (IH _ _ C1 ltac:(lia) E) as (C' & M' & L').
      split; [exact C'|]. split; [congruence | exact L'].
    + intros [= <-]. split; [exact Hc|]. split; [reflexivity|].
      rewrite Z.geb_leb in Eg. apply Z.leb_gt in Eg. lia.
Qed.

Lemma evictByMemory_shrinks : forall fuel s b s',
  consistent s -> evictByMemory fuel s b = Some s' ->
  consistent s' /\ maxImages s' = maxImages s /\
  (length (images s') <= length (images s))%nat.
Proof.
  induction fuel as [|fuel IH]; intros s b s' Hc; simpl; [discriminate|].
  destruct (accessOrder s) as [|lru rest] eqn:Eo; [intros [= <-]; auto|].
  destruct (_ >? _); [|intros [= <-]; auto].
  intros E.
  destruct (removeImage_consistent s lru Hc) as (C1 & _).
  destruct (removeImage_images s lru) as (I1 & M1).
  destruct (IH _ _ _ C1 E) as (C' & M' & L').
  split; [exact C'|]. split; [congruence|].
  rewrite I1 in L'.
  pose proof (length_delete_le sameValueZero (images s) lru). lia.
Qed.

Lemma storeImage_bound s i fmt w h d bm now s' img :
  consistent s -> 1 <= maxImages s ->
  storeImage s i fmt w h d bm now = Some (s', img) ->
  maxImages s' = maxImages s /\
  Z.of_nat (length (images s')) <= maxImages s'.
Proof.
  intros Hc Hm. unfold storeImage, evictIfNeeded.
  destruct (evictByCount _ s) as [s1|] eqn:E1; [|discriminate].
  destruct (evictByMemory _ s1 _) as [s2|] eqn:E2; [|discriminate].
  intros [= <- _].
  destruct (evictByCount_room _ _ _ Hc Hm E1) as (C1 & M1 & L1).
  destruct (evictByMemory_shrinks _ _ _ _ C1 E2) as (C2 & M2 & L2).
  cbn [maxImages images setImages setAccessOrder setMemoryUsage].
  destruct (hasImage s2 i) eqn:Ei.
  - destruct (removeImage_images s2 i) as (I3 & M3).
    rewrite M3, I3. split; [congruence|].
    rewrite length_set.
    pose proof (length_delete_le sameValueZero (images s2) i).
    destruct (JSMap.has _ _ _) eqn:Eh.
    + lia.
    + unfold hasImage, JSMap.has in Ei.
      destruct (JSMap.get sameValueZero (images s2) i) as [v|] eqn:Eg;
        [|discriminate].
      pose proof (length_delete sameValueZero (images s2) i v Eg). lia.
  - split; [congruence|]. rewrite length_set. unfold hasImage in Ei.
    rewrite Ei. lia.
Qed.

Lemma applyOp_bound s op s' :
  consistent s -> storesNumberedImage op = true -> 1 <= maxImages s ->
  Z.of_nat (length (images s)) <= maxImages s ->
  applyOp s op = Some s' ->
  consistent s' /\ maxImages s' = maxImages s /\
  Z.of_nat (length (images s')) <= maxImages s'.
Proof.
  intros Hc Hop Hm Hl E.
  destruct (applyOp_total s op Hc Hop) as (s1 & E1 & C1).
  rewrite E in E1. injection E1 as <-. split; [exact C1|].
  assert (Hsame : forall t, sameImages s t ->
            maxImages t = maxImages s /\
            Z.of_nat (length (images t)) <= maxImages t).
  { intros t (H1 & _ & _ & _ & H5 & _). rewrite H1, H5. auto. }
  destruct op; simpl in E; try (injection E as <-).
  - destruct (storeImage s i fmt w h d bm now) as [[s1 img]|] eqn:Es;
      [|discriminate]. injection E as <-.
    exact (storeImage_bound _ _ _ _ _ _ _ _ _ _ Hc Hm Es).
  - unfold getImage.
    destruct (JSMap.get sameValueZero (images s) i) as [img|] eqn:Eg;
      [|auto].
    cbn [fst]. match goal with
    | |- context [if ?b then _ else _] => destruct b end;
      cbn; rewrite length_set; unfold JSMap.has; rewrite Eg; auto.
  - destruct (removeImage_images s i) as (I1 & M1). rewrite I1, M1.
    split; [reflexivity|].
    pose proof (length_delete_le sameValueZero (images s) i). lia.
  - apply Hsame, setPlacement_same.
  - apply Hsame, removePlacement_same.
  - apply Hsame, addChunk_same.
  - apply Hsame, getAndClearChunks_same.
  - cbn. split; [reflexivity | lia].
  - apply Hsame, deleteAtCursor_same.
  - apply Hsame, deleteRow_same.
  - apply Hsame, removeSnapshot_same.
  - apply Hsame, removeSnapshot_same.
  - cbn. split; [reflexivity | lia].
Qed.

(** Every store reached from a new one by operations with numbered IDs
    is consistent. *)
Lemma reachable_consistent options ops s :
  forallb storesNumberedImage ops = true ->
  runOps (newStorage options) ops = Some s -> consistent s.
Proof.
  intros Hops E.
  destruct (runOps_total ops _ (newStorage_consistent options) Hops)
    as (s' & E' & C).
  congruence.
Qed.

(** X1.  The number of stored images never exceeds [maxImages]. *)
Theorem image_count_never_exceeds_limit
    (options : GraphicsOptions) (ops : list StorageOp) (s : Storage) :
  1 <= maxImages (newStorage options) ->
  forallb storesNumberedImage ops = true ->
  runOps (newStorage options) ops = Some s ->
  maxImages s = maxImages (newStorage options) /\
  Z.of_nat (length (images s)) <= maxImages s.
Proof.
  intros Hm Hops.
  assert (H : forall s0, consistent s0 -> 1 <= maxImages s0 ->
              Z.of_nat (length (images s0)) <= maxImages s0 ->
              runOps s0 ops = Some s ->
              maxImages s = maxImages s0 /\
              Z.of_nat (length (images s)) <= maxImages s).
  { clear Hm. revert Hops. induction ops as [|op ops IH]; intros Hops s0 Hc Hm Hl; simpl.
    - intros [= <-]. auto.
    - simpl in Hops. apply andb_true_iff in Hops as [Hop Hops].
      destruct (applyOp s0 op) as [s1|] eqn:E; [|discriminate].
      destruct (applyOp_bound _ _ _ Hc Hop Hm Hl E) as (C1 & M1 & L1).
      intros Er. destruct (IH Hops s1 C1 ltac:(lia) L1 Er) as (M & L).
      split; [congruence | exact L]. }
  apply H; [apply newStorage_consistent | exact Hm | simpl in *; lia].
Qed.

(** What [storeImage] stores, [getImage] returns. *)
Lemma storeImage_get s i fmt w h d bm now s' img now' :
  storeImage s i fmt w h d bm now = Some (s', img) ->
  hasImage s' i = true /\
  snd (getImage s' i now') = Some (touch img now') /\
  data img = d /\ format img = fmt /\ width img = w /\ height img = h /\
  bitmap img = bm.
Proof.
  unfold storeImage. destruct (evictIfNeeded s _) as [s1|]; [|discriminate].
  intros [= <- <-].
  assert (Hg : forall (m : list (jsnum * StoredImage)) v, JSMap.get sameValueZero
                 (JSMap.set sameValueZero m i v) i = Some v).
  { intros m v. apply get_set_same. apply sameValueZero_spec. }
  split.
  - unfold hasImage, JSMap.has. cbn. now rewrite Hg.
  - split; [|cbn; auto 6].
    unfold getImage. cbn [images setImages setAccessOrder setMemoryUsage].
    rewrite Hg. reflexivity.
Qed.

End ImageLimitProps.

(** *** The limit on the number of placements. *)

Module PlacementLimitProps.
Import JS ImageDecoder GraphicsStorage JSMapFacts GraphicsStorageProps
  ImageLimitProps.
Local Open Scope Z_scope.

Lemma removePlacement_placements s k :
  placements (fst (removePlacement s k))
    = JSMap.delete jsstring_eqb (placements s) k /\
  maxPlacements (fst (removePlacement s k)) = maxPlacements s.
Proof.
  unfold removePlacement.
  destruct (JSMap.get jsstring_eqb (placements s) k) eqn:E.
  - cbn [fst].
    destruct (JSMap.get sameValueZero (placementsByRow s) _) as [rowSet|];
      [destruct (JSMap.setDelete jsstring_eqb rowSet k)|]; cbn; auto.
  - simpl. now rewrite (delete_absent jsstring_eqb _ _ E).
Qed.

Lemma fewer_refl s : fewerPlacements s s.
Proof. split; [lia|]. split; [apply incl_refl | reflexivity]. Qed.

Lemma fewer_trans s1 s2 s3 :
  fewerPlacements s1 s2 -> fewerPlacements s2 s3 -> fewerPlacements s1 s3.
Proof.
  intros (A1 & B1 & C1) (A2 & B2 & C2). split; [lia|].
  split; [eapply incl_tran; eauto | congruence].
Qed.

Lemma removePlacement_fewer s k : fewerPlacements s (fst (removePlacement s k)).
Proof.
  destruct (removePlacement_placements s k) as [E M]. unfold fewerPlacements.
  rewrite E, M. split; [apply length_delete_le|]. split; [|reflexivity].
  intros x. apply keys_delete_incl.
Qed.

Lemma fold_fewer {A} (f : Storage -> A -> Storage) :
  (forall s a, fewerPlacements s (f s a)) ->
  forall l s, fewerPlacements s (fold_left f l s).
Proof.
  intros Hf. induction l as [|a l IH]; intros s; simpl; [apply fewer_refl|].
  eapply fewer_trans; [apply Hf | apply IH].
Qed.

Lemma removeMatching_fewer s ks test :
  fewerPlacements s (removeMatching s ks test).
Proof.
  unfold removeMatching. apply fold_fewer. intros s0 k.
  destruct (JSMap.get jsstring_eqb (placements s0) k) as [p|];
    [destruct (test p); [apply removePlacement_fewer|]|]; apply fewer_refl.
Qed.

Lemma removeSnapshot_fewer s test : fewerPlacements s (removeSnapshot s test).
Proof.
  unfold removeSnapshot. apply fold_fewer. intros s0 e.
  destruct (test (snd e)); [apply removePlacement_fewer | apply fewer_refl].
Qed.

Lemma removeImage_fewer s i : fewerPlacements s (fst (removeImage s i)).
Proof.
  unfold removeImage.
  destruct (JSMap.get sameValueZero (images s) i); [|apply fewer_refl].
  cbn [fst].
  match goal with |- context [fold_left ?f ?l ?s0] =>
    assert (H : fewerPlacements s0 (fold_left f l s0))
  end.
  { apply fold_fewer. intros t e.
    destruct (strictEq (imageId (snd e)) i);
      [apply removePlacement_fewer | apply fewer_refl]. }
  exact H.
Qed.

Lemma evictByCount_fewer : forall fuel s s',
  evictByCount fuel s = Some s' -> fewerPlacements s s'.
Proof.
  induction fuel as [|fuel IH]; intros s s'; simpl; [discriminate|].
  destruct (accessOrder s) as [|lru ?]; [intros [= <-]; apply fewer_refl|].
  destruct (_ >=? _); [|intros [= <-]; apply fewer_refl].
  intros E. eapply fewer_trans; [apply removeImage_fewer | exact (IH _ _ E)].
Qed.

Lemma evictByMemory_fewer : forall fuel s b s',
  evictByMemory fuel s b = Some s' -> fewerPlacements s s'.
Proof.
  induction fuel as [|fuel IH]; intros s b s'; simpl; [discriminate|].
  destruct (accessOrder s) as [|lru ?]; [intros [= <-]; apply fewer_refl|].
  destruct (_ >? _); [|intros [= <-]; apply fewer_refl].
  intros E. eapply fewer_trans; [apply removeImage_fewer | exact (IH _ _ _ E)].
Qed.

Lemma storeImage_fewer s i fmt w h d bm now s' img :
  storeImage s i fmt w h d bm now = Some (s', img) -> fewerPlacements s s'.
Proof.
  unfold storeImage, evictIfNeeded.
  destruct (evictByCount _ s) as [s1|] eqn:E1; [|discriminate].
  destruct (evictByMemory _ s1 _) as [s2|] eqn:E2; [|discriminate].
  intros [= <- _].
  eapply fewer_trans; [exact (evictByCount_fewer _ _ _ E1)|].
  eapply fewer_trans; [exact (evictByMemory_fewer _ _ _ _ E2)|].
  assert (H : fewerPlacements s2
                (if hasImage s2 i then fst (removeImage s2 i) else s2)).
  { destruct (hasImage s2 i); [apply removeImage_fewer | apply fewer_refl]. }
  exact H.
Qed.

Lemma getImage_fewer s i now : fewerPlacements s (fst (getImage s i now)).
Proof.
  unfold getImage.
  destruct (JSMap.get sameValueZero (images s) i); [|apply fewer_refl].
  cbn [fst]. match goal with
  | |- context [if ?b then _ else _] => destruct b end;
    (split; [cbn; lia|]; split; [apply incl_refl | reflexivity]).
Qed.

(** The placement invariant: distinct keys, none empty, at most
    [maxPlacements] of them. *)
Lemma setPlacement_bound s p :
  key p <> [] -> 1 <= maxPlacements s ->
  NoDup (JSMap.keys (placements s)) ->
  Forall (fun k => k <> []) (JSMap.keys (placements s)) ->
  Z.of_nat (length (placements s)) <= maxPlacements s ->
  maxPlacements (setPlacement s p) = maxPlacements s /\
  Forall (fun k => k <> []) (JSMap.keys (placements (setPlacement s p))) /\
  Z.of_nat (length (placements (setPlacement s p))) <= maxPlacements s.
Proof.
  intros Hk Hm Hn Hne Hl. unfold setPlacement.
  set (s1 := if JSMap.has jsstring_eqb (placements s) (key p)
             then fst (removePlacement s (key p)) else s).
  assert (H1 : fewerPlacements s s1 /\
               NoDup (JSMap.keys (placements s1)) /\
               JSMap.get jsstring_eqb (placements s1) (key p) = None).
  { subst s1. destruct (JSMap.has _ _ _) eqn:Eh.
    - split; [apply removePlacement_fewer|].
      split; [now apply removePlacement_distinct|].
      rewrite (proj1 (removePlacement_placements s (key p))).
      apply get_delete_same; [apply jsstring_eqb_spec | exact Hn].
    - split; [apply fewer_refl|]. split; [exact Hn|].
      unfold JSMap.has in Eh.
      destruct (JSMap.get jsstring_eqb (placements s) (key p)); congruence. }
  destruct H1 as ((L1 & I1 & M1) & N1 & G1).
  assert (Hne1 : Forall (fun k => k <> []) (JSMap.keys (placements s1))).
  { apply Forall_forall. intros k Hin. rewrite Forall_forall in Hne.
    apply Hne, I1, Hin. }
  set (s2 := if Z.of_nat (length (placements s1)) >=? maxPlacements s1 then _ else s1).
  assert (H2 : maxPlacements s2 = maxPlacements s /\
               Forall (fun k => k <> []) (JSMap.keys (placements s2)) /\
               Z.of_nat (length (placements s2)) < maxPlacements s /\
               JSMap.get jsstring_eqb (placements s2) (key p) = None).
  { subst s2. destruct (_ >=? _) eqn:Eg.
    - rewrite Z.geb_leb in Eg. apply Z.leb_le in Eg.
      destruct (placements s1) as [|[k0 p0] m] eqn:Ep; [simpl in Eg; lia|].
      cbn [JSMap.keys map fst]. inversion Hne1 as [|? ? Hk0 Hm']; subst.
      destruct k0 as [|c k0]; [congruence|].
      destruct (removePlacement_placements s1 (c :: k0)) as [E M].
      rewrite M, E, Ep, M1. cbn [JSMap.delete].
      rewrite (proj2 (jsstring_eqb_spec _ _) eq_refl).
      split; [reflexivity|]. split; [exact Hm'|]. simpl in L1.
      split; [lia|]. simpl in G1.
      destruct (jsstring_eqb (c :: k0) (key p)); [discriminate | exact G1].
    - rewrite Z.geb_leb in Eg. apply Z.leb_gt in Eg.
      split; [exact M1|]. split; [exact Hne1|]. split; [lia | exact G1]. }
  destruct H2 as (M2 & Hne2 & L2 & G2).
  cbn [maxPlacements placements setPlacements setPlacementsByRow].
  split; [exact M2|].
  rewrite (set_absent jsstring_eqb _ _ p G2).
  split.
  - unfold JSMap.keys. rewrite map_app. apply Forall_app. split; [exact Hne2|].
    repeat constructor. exact Hk.
  - rewrite length_app. simpl. lia.
Qed.

Lemma fewer_bound s s' :
  fewerPlacements s s' ->
  Forall (fun k => k <> []) (JSMap.keys (placements s)) ->
  Z.of_nat (length (placements s)) <= maxPlacements s ->
  maxPlacements s' = maxPlacements s /\
  Forall (fun k => k <> []) (JSMap.keys (placements s')) /\
  Z.of_nat (length (placements s')) <= maxPlacements s.
Proof.
  intros (L & I & M) Hne Hl. split; [exact M|]. split; [|lia].
  apply Forall_forall. intros k Hin. rewrite Forall_forall in Hne. auto.
Qed.

Lemma applyOp_placement_bound s op s' :
  namesPlacement op = true -> 1 <= maxPlacements s ->
  NoDup (JSMap.keys (placements s)) ->
  Forall (fun k => k <> []) (JSMap.keys (placements s)) ->
  Z.of_nat (length (placements s)) <= maxPlacements s ->
  applyOp s op = Some s' ->
  maxPlacements s' = maxPlacements s /\
  Forall (fun k => k <> []) (JSMap.keys (placements s')) /\
  Z.of_nat (length (placements s')) <= maxPlacements s.
Proof.
  intros Hop Hm Hn Hne Hl E.
  assert (Hf : forall t, fewerPlacements s t ->
            maxPlacements t = maxPlacements s /\
            Forall (fun k => k <> []) (JSMap.keys (placements t)) /\
            Z.of_nat (length (placements t)) <= maxPlacements s).
  { intros t Ht. exact (fewer_bound s t Ht Hne Hl). }
  destruct op; simpl in E; try (injection E as <-).
  - destruct (storeImage s i fmt w h d bm now) as [[s1 img]|] eqn:Es;
      [|discriminate]. injection E as <-.
    exact (Hf _ (storeImage_fewer _ _ _ _ _ _ _ _ _ _ Es)).
  - apply Hf, getImage_fewer.
  - apply Hf, removeImage_fewer.
  - simpl in Hop. apply negb_true_iff in Hop.
    apply setPlacement_bound; auto. intros Ek. rewrite Ek in Hop.
    discriminate.
  - apply Hf, removePlacement_fewer.
  - apply Hf. split; [cbn; lia|]. split; [apply incl_refl | reflexivity].
  - apply Hf. unfold getAndClearChunks.
    destruct (JSMap.get _ _ _);
      (split; [cbn; lia|]; split; [apply incl_refl | reflexivity]).
  - cbn. split; [reflexivity|]. split; [constructor | lia].
  - apply Hf. unfold deleteAtCursor. destruct (JSMap.get _ _ _);
      [apply removeMatching_fewer | apply fewer_refl].
  - apply Hf. unfold deleteRow. destruct (JSMap.get _ _ _);
      [apply removeMatching_fewer | apply fewer_refl].
  - apply Hf, removeSnapshot_fewer.
  - apply Hf, removeSnapshot_fewer.
  - cbn. split; [reflexivity|]. split; [constructor | lia].
Qed.

(** X3.  The number of placements never exceeds [maxPlacements]. *)
Theorem placement_count_never_exceeds_limit
    (options : GraphicsOptions) (ops : list StorageOp) (s : Storage) :
  1 <= maxPlacements (newStorage options) ->
  forallb namesPlacement ops = true ->
  runOps (newStorage options) ops = Some s ->
  maxPlacements s = maxPlacements (newStorage options) /\
  Z.of_nat (length (placements s)) <= maxPlacements s.
Proof.
  intros Hm Hops.
  assert (H : forall s0, 1 <= maxPlacements s0 ->
              NoDup (JSMap.keys (placements s0)) ->
              Forall (fun k => k <> []) (JSMap.keys (placements s0)) ->
              Z.of_nat (length (placements s0)) <= maxPlacements s0 ->
              runOps s0 ops = Some s ->
              maxPlacements s = maxPlacements s0 /\
              Z.of_nat (length (placements s)) <= maxPlacements s).
  { clear Hm. revert Hops.
    induction ops as [|op ops IH]; intros Hops s0 Hm Hn Hne Hl; simpl.
    - intros [= <-]. auto.
    - simpl in Hops. apply andb_true_iff in Hops as [Hop Hops].
      destruct (applyOp s0 op) as [s1|] eqn:E; [|discriminate].
      destruct (applyOp_placement_bound _ _ _ Hop Hm Hn Hne Hl E)
        as (M1 & Hne1 & L1).
      pose proof (applyOp_distinct _ _ _ E Hn) as N1.
      intros Er.
      destruct (IH Hops s1 ltac:(lia) N1 Hne1 ltac:(lia) Er) as (M & L).
      split; [congruence | exact L]. }
  apply H; [exact Hm | constructor | constructor | simpl in *; lia].
Qed.

End PlacementLimitProps.

(** *** Placements set, looked up and removed by a test. *)

Module PlacementMapProps.
Import JS ImageDecoder GraphicsStorage JSMapFacts GraphicsStorageProps
  ImageLimitProps PlacementLimitProps.
Local Open Scope Z_scope.

Lemma setPlacement_get (s : Storage) (p : ImagePlacement) :
  getPlacement (setPlacement s p) (key p) = Some p.
Proof.
  unfold getPlacement, setPlacement.
  cbn [placements setPlacements setPlacementsByRow].
  apply get_set_same. apply jsstring_eqb_spec.
Qed.

Lemma setPlacement_others (s : Storage) (p : ImagePlacement) k :
  Z.of_nat (length (placements s)) < maxPlacements s -> k <> key p ->
  getPlacement (setPlacement s p) k = getPlacement s k.
Proof.
  unfold getPlacement, setPlacement.
  set (s1 := if JSMap.has jsstring_eqb (placements s) (key p)
             then fst (removePlacement s (key p)) else s).
  set (s2 := if Z.of_nat (length (placements s1)) >=? maxPlacements s1 then _ else s1).
  cbn [placements setPlacements setPlacementsByRow].
  intros Hl Hk.
  rewrite get_set_other by (apply jsstring_eqb_spec || exact Hk).
  assert (H1 : fewerPlacements s s1 /\
               JSMap.get jsstring_eqb (placements s1) k
               = JSMap.get jsstring_eqb (placements s) k).
  { subst s1. destruct (JSMap.has _ _ _).
    - split; [apply removePlacement_fewer|].
      rewrite (proj1 (removePlacement_placements s (key p))).
      apply get_delete_other; [apply jsstring_eqb_spec | exact Hk].
    - split; [apply fewer_refl | reflexivity]. }
  destruct H1 as ((L1 & _ & M1) & G1).
  assert (E2 : s2 = s1).
  { subst s2. destruct (_ >=? _) eqn:Eg; [|reflexivity].
    rewrite Z.geb_leb in Eg. apply Z.leb_le in Eg. lia. }
  now rewrite E2.
Qed.

(** X4.  What [setPlacement] sets, [getPlacement] returns; below the limit
    the other keys keep their placements. *)
Theorem placement_set_is_returned (s : Storage) (p : ImagePlacement) :
  getPlacement (setPlacement s p) (key p) = Some p /\
  (Z.of_nat (length (placements s)) < maxPlacements s ->
   forall k, k <> key p ->
     getPlacement (setPlacement s p) k = getPlacement s k).
Proof.
  split; [apply setPlacement_get|].
  intros Hl k Hk. now apply setPlacement_others.
Qed.

Section FilterFacts.
Context {V : Type}.

Lemma filter_all {A} (f : A -> bool) l :
  (forall x, In x l -> f x = true) -> filter f l = l.
Proof.
  induction l as [|x l IH]; intros H; simpl; [reflexivity|].
  rewrite (H x (or_introl eq_refl)). f_equal. apply IH. intros y Hy.
  apply H. now right.
Qed.

Lemma filter_twice {A} (f g : A -> bool) l :
  filter f (filter g l) = filter (fun x => g x && f x) l.
Proof.
  induction l as [|x l IH]; simpl; [reflexivity|].
  destruct (g x); simpl; [destruct (f x)|]; now rewrite IH.
Qed.

Lemma delete_filter (m : list (jsstring * V)) k :
  NoDup (JSMap.keys m) ->
  JSMap.delete jsstring_eqb m k
  = filter (fun e => negb (jsstring_eqb (fst e) k)) m.
Proof.
  induction m as [|[k0 v0] m IH]; intros H; simpl; [reflexivity|].
  inversion H as [|? ? Hn Hd]; subst.
  destruct (jsstring_eqb k0 k) eqn:E; simpl.
  - apply jsstring_eqb_spec in E. subst. symmetry. apply filter_all.
    intros [k' v'] Hin. simpl. apply negb_true_iff.
    destruct (jsstring_eqb k' k) eqn:E'; [|reflexivity].
    apply jsstring_eqb_spec in E'. subst. exfalso. apply Hn.
    unfold JSMap.keys. change k with (fst (k, v')). now apply in_map.
  - now rewrite IH.
Qed.

Lemma NoDup_keys_filter (m : list (jsstring * V)) f :
  NoDup (JSMap.keys m) -> NoDup (JSMap.keys (filter f m)).
Proof.
  induction m as [|[k0 v0] m IH]; intros H; simpl; [constructor|].
  inversion H as [|? ? Hn Hd]; subst.
  destruct (f (k0, v0)); simpl; [|now apply IH].
  constructor; [|now apply IH]. intros Hin. apply Hn.
  unfold JSMap.keys in *. apply in_map_iff in Hin as (e & <- & He).
  apply filter_In in He as [He _]. now apply in_map.
Qed.

(** Deleting, one after the other, the keys of the entries of [l] that
    pass [test]. *)
Lemma fold_delete_filter (test : V -> bool) : forall l (m : list (jsstring * V)),
  NoDup (JSMap.keys m) ->
  fold_left (fun m e => if test (snd e) then JSMap.delete jsstring_eqb m (fst e)
                        else m) l m
  = filter (fun e => negb (existsb (fun e' => test (snd e')
                                     && jsstring_eqb (fst e) (fst e')) l)) m.
Proof.
  induction l as [|e0 l IH]; intros m H; simpl.
  - symmetry. now apply filter_all.
  - destruct (test (snd e0)) eqn:Et.
    + rewrite delete_filter by exact H.
      rewrite IH by now apply NoDup_keys_filter.
      rewrite filter_twice. apply filter_ext. intros e. simpl.
      now rewrite negb_orb.
    + rewrite IH by exact H. apply filter_ext. intros e. reflexivity.
Qed.

Lemma In_keys_unique (m : list (jsstring * V)) k v v' :
  NoDup (JSMap.keys m) -> In (k, v) m -> In (k, v') m -> v = v'.
Proof.
  induction m as [|[k0 v0] m IH]; intros H Hin Hin'; [destruct Hin|].
  simpl in H. inversion H as [|? ? Hn Hd]; subst.
  assert (Hk : forall v1, In (k, v1) m -> In k (JSMap.keys m)).
  { intros v1 H1. unfold JSMap.keys. change k with (fst (k, v1)).
    now apply in_map. }
  destruct Hin as [Hin|Hin]; destruct Hin' as [Hin'|Hin'].
  - congruence.
  - exfalso. injection Hin as -> _. apply Hn. eauto.
  - exfalso. injection Hin' as -> _. apply Hn. eauto.
  - now apply IH.
Qed.

Lemma snapshot_filter (test : V -> bool) (m : list (jsstring * V)) :
  NoDup (JSMap.keys m) ->
  fold_left (fun m e => if test (snd e) then JSMap.delete jsstring_eqb m (fst e)
                        else m) m m
  = filter (fun e => negb (test (snd e))) m.
Proof.
  intros H. rewrite fold_delete_filter by exact H.
  apply filter_ext_in. intros [k v] Hin. simpl. f_equal.
  destruct (test v) eqn:Et.
  - apply existsb_exists. exists (k, v). split; [exact Hin|]. simpl.
    rewrite Et. now apply jsstring_eqb_spec.
  - destruct (existsb _ m) eqn:Ex; [|reflexivity].
    apply existsb_exists in Ex as ([k' v'] & Hin' & Ht). simpl in Ht.
    apply andb_true_iff in Ht as [Ht Ek]. apply jsstring_eqb_spec in Ek.
    subst k'. rewrite (In_keys_unique m k v v' H Hin Hin') in Et. congruence.
Qed.

End FilterFacts.

Lemma values_filter (f : ImagePlacement -> bool)
    (m : list (jsstring * ImagePlacement)) :
  JSMap.values (filter (fun e => f (snd e)) m) = filter f (JSMap.values m).
Proof.
  unfold JSMap.values. induction m as [|[k v] m IH]; simpl; [reflexivity|].
  destruct (f v); simpl; now rewrite IH.
Qed.

(** The placements after a loop that removes the entries of a snapshot. *)
Lemma fold_remove_placements (test : ImagePlacement -> bool) : forall l s,
  placements
    (fold_left (fun s e => if test (snd e)
                           then fst (removePlacement s (fst e)) else s) l s)
  = fold_left (fun m e => if test (snd e)
                          then JSMap.delete jsstring_eqb m (fst e) else m)
      l (placements s).
Proof.
  induction l as [|e l IH]; intros s; simpl; [reflexivity|].
  rewrite IH. destruct (test (snd e)); [|reflexivity].
  now rewrite (proj1 (removePlacement_placements s (fst e))).
Qed.

Lemma removeSnapshot_placements s test :
  NoDup (JSMap.keys (placements s)) ->
  getAllPlacements (removeSnapshot s test)
  = filter (fun p => negb (test p)) (getAllPlacements s).
Proof.
  intros H. unfold getAllPlacements, removeSnapshot.
  rewrite fold_remove_placements, snapshot_filter by exact H.
  apply (values_filter (fun p => negb (test p))).
Qed.

Lemma removeSnapshot_filter (s : Storage) (n : jsnum) :
  NoDup (JSMap.keys (placements s)) ->
  getAllPlacements (deleteColumn s n)
    = filter (fun p => negb (strictEq (bufferCol p) n)) (getAllPlacements s) /\
  getAllPlacements (deleteByZIndex s n)
    = filter (fun p => negb (strictEq (zIndex p) n)) (getAllPlacements s) /\
  sameImages s (deleteColumn s n) /\ sameImages s (deleteByZIndex s n).
Proof.
  intros H. unfold deleteColumn, deleteByZIndex.
  split; [now apply removeSnapshot_placements|].
  split; [now apply removeSnapshot_placements|].
  split; apply removeSnapshot_same.
Qed.

Lemma removeImage_cascade (s : Storage) (i : jsnum) :
  NoDup (JSMap.keys (placements s)) ->
  NoDup (JSMap.keys (images s)) ->
  hasImage s i = true ->
  snd (removeImage s i) = true /\
  hasImage (fst (removeImage s i)) i = false /\
  getAllPlacements (fst (removeImage s i))
    = filter (fun p => negb (strictEq (imageId p) i)) (getAllPlacements s) /\
  forall j, j <> i ->
    JSMap.get sameValueZero (images (fst (removeImage s i))) j
    = JSMap.get sameValueZero (images s) j.
Proof.
  intros Hp Hi Hh. unfold hasImage, JSMap.has in *.
  destruct (JSMap.get sameValueZero (images s) i) as [img|] eqn:E;
    [|discriminate].
  destruct (removeImage_present s i img E) as (H1 & _).
  split; [unfold removeImage; now rewrite E|].
  split; [|split].
  - rewrite H1.
    now rewrite (get_delete_same sameValueZero sameValueZero_spec).
  - unfold removeImage. rewrite E. cbn [fst].
    unfold getAllPlacements.
    cbn [placements setImages setAccessOrder setMemoryUsage].
    rewrite (fold_remove_placements (fun p => strictEq (imageId p) i)).
    rewrite (snapshot_filter (fun p => strictEq (imageId p) i)) by exact Hp.
    apply (values_filter (fun p => negb (strictEq (imageId p) i))).
  - intros j Hj. rewrite H1.
    apply get_delete_other; [apply sameValueZero_spec | exact Hj].
Qed.

End PlacementMapProps.

(** *** The row index [placementsByRow] agrees with the placement map. *)

Module RowIndexProps.
Import JS ImageDecoder GraphicsStorage JSMapFacts GraphicsStorageProps
  ImageLimitProps PlacementLimitProps PlacementMapProps.
Local Open Scope Z_scope.

Section SetFacts.
Context {K : Type} (eqb : K -> K -> bool).
Hypothesis eqb_spec : forall a b, eqb a b = true <-> a = b.

Lemma setHas_In s k : JSMap.setHas eqb s k = true <-> In k s.
Proof.
  induction s as [|k' s IH]; simpl; [split; [discriminate | tauto]|].
  rewrite orb_true_iff, IH, eqb_spec. tauto.
Qed.

Lemma setAdd_In s k k' : In k' (JSMap.setAdd eqb s k) <-> In k' s \/ k' = k.
Proof.
  unfold JSMap.setAdd. destruct (JSMap.setHas eqb s k) eqn:E.
  - apply setHas_In in E. split; [tauto|]. intros [H| ->]; assumption.
  - rewrite in_app_iff. simpl. intuition congruence.
Qed.

Lemma setAdd_NoDup s k : NoDup s -> NoDup (JSMap.setAdd eqb s k).
Proof.
  intros H. unfold JSMap.setAdd. destruct (JSMap.setHas eqb s k) eqn:E;
    [exact H|].
  apply NoDup_snoc; [exact H|]. intros Hin. apply setHas_In in Hin. congruence.
Qed.

Lemma setDelete_In s k k' :
  NoDup s -> (In k' (JSMap.setDelete eqb s k) <-> In k' s /\ k' <> k).
Proof.
  induction s as [|k0 s IH]; simpl; [tauto|].
  intros H. inversion H as [|? ? Hn Hd]; subst.
  destruct (eqb k0 k) eqn:E.
  - apply eqb_spec in E. subst k0. split.
    + intros Hin. split; [auto|]. intros ->. contradiction.
    + intros [[H1|H1] H2]; [congruence | exact H1].
  - simpl. rewrite (IH Hd). split.
    + intros [H1|[H1 H2]]; [|tauto]. subst k'. split; [auto|].
      intros ->. rewrite (proj2 (eqb_spec k k) eq_refl) in E. discriminate.
    + intros [[H1|H1] H2]; [auto|]. right. auto.
Qed.

Lemma setDelete_NoDup s k : NoDup s -> NoDup (JSMap.setDelete eqb s k).
Proof.
  induction s as [|k0 s IH]; simpl; [auto|].
  intros H. inversion H as [|? ? Hn Hd]; subst.
  destruct (eqb k0 k); [exact Hd|]. constructor; [|auto].
  intros Hin. apply Hn. apply (setDelete_In s k k0 Hd) in Hin. tauto.
Qed.

Lemma NoDup_keys_set_any {V} (m : list (K * V)) k v :
  NoDup (JSMap.keys m) -> NoDup (JSMap.keys (JSMap.set eqb m k v)).
Proof.
  intros H. destruct (JSMap.get eqb m k) as [v0|] eqn:E.
  - now rewrite (keys_set_present eqb m k v v0 E).
  - rewrite (set_absent eqb m k v E).
    unfold JSMap.keys. rewrite map_app. simpl. apply NoDup_snoc; [exact H|].
    now apply (get_None eqb eqb_spec).
Qed.

End SetFacts.

Ltac js := first [apply jsstring_eqb_spec | apply sameValueZero_spec].

(** Removing one key from the placement map and from the set of its row. *)
Lemma rowIndex_remove pl br k p0 rs :
  rowIndex pl br ->
  JSMap.get jsstring_eqb pl k = Some p0 ->
  JSMap.get sameValueZero br (bufferRow p0) = Some rs ->
  rowIndex (JSMap.delete jsstring_eqb pl k)
    (match JSMap.setDelete jsstring_eqb rs k with
     | [] => JSMap.delete sameValueZero br (bufferRow p0)
     | _ :: _ =>
         JSMap.set sameValueZero br (bufferRow p0)
           (JSMap.setDelete jsstring_eqb rs k)
     end).
Proof.
  intros (Hp & Hb & Hs & Hc & Hd) E0 Er.
  set (r0 := bufferRow p0) in *.
  set (rs' := JSMap.setDelete jsstring_eqb rs k).
  set (br' := match rs' with [] => _ | _ => _ end).
  pose proof (Hs _ _ Er) as Hrs.
  assert (Hin' : forall k', In k' rs' <-> In k' rs /\ k' <> k).
  { intros k'. apply setDelete_In; [js | exact Hrs]. }
  assert (G0 : JSMap.get sameValueZero br' r0
               = match rs' with [] => None | _ => Some rs' end).
  { subst br'. destruct rs'.
    - apply get_delete_same; [js | exact Hb].
    - apply get_set_same; js. }
  assert (G1 : forall r, r <> r0 ->
            JSMap.get sameValueZero br' r = JSMap.get sameValueZero br r).
  { intros r Hr. subst br'. destruct rs'.
    - apply get_delete_other; [js | exact Hr].
    - apply get_set_other; [js | exact Hr]. }
  assert (Hb' : NoDup (JSMap.keys br')).
  { subst br'. destruct rs'.
    - now apply NoDup_keys_delete.
    - apply NoDup_keys_set_any; [js | exact Hb]. }
  assert (D : forall r, r = r0 \/ r <> r0).
  { intros r. destruct (sameValueZero r r0) eqn:E.
    - left. now apply sameValueZero_spec.
    - right. intros ->. rewrite (proj2 (sameValueZero_spec r0 r0) eq_refl) in E.
      discriminate. }
  assert (Dk : forall k', k' = k \/ k' <> k).
  { intros k'. destruct (jsstring_eqb k' k) eqn:E.
    - left. now apply jsstring_eqb_spec.
    - right. intros ->. rewrite (proj2 (jsstring_eqb_spec k k) eq_refl) in E.
      discriminate. }
  split; [now apply NoDup_keys_delete|]. split; [exact Hb'|].
  split; [|split].
  - intros r x Hx. destruct (D r) as [->|Hr].
    + rewrite G0 in Hx. destruct rs' eqn:E'; [discriminate|].
      injection Hx as <-. rewrite <- E'. apply setDelete_NoDup; [js|exact Hrs].
    + rewrite (G1 r Hr) in Hx. eauto.
  - intros k' p Hg. destruct (Dk k') as [->|Hk].
    + rewrite get_delete_same in Hg by (js || exact Hp). discriminate.
    + rewrite get_delete_other in Hg by (js || exact Hk).
      destruct (Hc k' p Hg) as (x & Ex & Hx).
      destruct (D (bufferRow p)) as [Er'|Hr].
      * rewrite Er' in *. assert (x = rs) by congruence. subst x.
        assert (Hk' : In k' rs') by (apply Hin'; tauto).
        exists rs'. split; [|exact Hk']. rewrite G0.
        destruct rs'; [destruct Hk' | reflexivity].
      * exists x. split; [|exact Hx]. now rewrite G1.
  - intros r x k' Hx Hk'. destruct (D r) as [->|Hr].
    + rewrite G0 in Hx. destruct rs' eqn:E'; [discriminate|].
      injection Hx as <-. rewrite <- E' in *. apply Hin' in Hk' as [Hk1 Hk2].
      destruct (Hd r0 rs k' Er Hk1) as (p & Ep & Erow).
      exists p. split; [|exact Erow].
      rewrite get_delete_other by (js || exact Hk2). exact Ep.
    + rewrite (G1 r Hr) in Hx.
      destruct (Hd r x k' Hx Hk') as (p & Ep & Erow).
      exists p. split; [|exact Erow].
      destruct (Dk k') as [->|Hk].
      * exfalso. apply Hr. rewrite <- Erow.
        assert (p = p0) by congruence. now subst p.
      * rewrite get_delete_other by (js || exact Hk). exact Ep.
Qed.

Lemma removePlacement_indexed s k :
  rowIndexed s -> rowIndexed (fst (removePlacement s k)).
Proof.
  intros H. unfold removePlacement.
  destruct (JSMap.get jsstring_eqb (placements s) k) as [p0|] eqn:E0;
    [|exact H].
  destruct (proj1 (proj2 (proj2 (proj2 H))) k p0 E0) as (rs & Er & Hin).
  rewrite Er. cbn [fst]. unfold rowIndexed.
  pose proof (rowIndex_remove _ _ k p0 rs H E0 Er) as H'.
  destruct (JSMap.setDelete jsstring_eqb rs k); exact H'.
Qed.

(** Adding one key, absent from the map, to the map and to its row. *)
Lemma rowIndex_add pl br p :
  rowIndex pl br ->
  JSMap.get jsstring_eqb pl (key p) = None ->
  rowIndex (JSMap.set jsstring_eqb pl (key p) p)
    (JSMap.set sameValueZero br (bufferRow p)
       (JSMap.setAdd jsstring_eqb
          match JSMap.get sameValueZero br (bufferRow p) with
          | Some rowSet => rowSet
          | None => []
          end (key p))).
Proof.
  intros (Hp & Hb & Hs & Hc & Hd) E0.
  set (r0 := bufferRow p) in *. set (k := key p) in *.
  set (rs := match JSMap.get sameValueZero br r0 with
             | Some x => x | None => [] end).
  set (rs' := JSMap.setAdd jsstring_eqb rs k).
  assert (Hrs : NoDup rs).
  { subst rs. destruct (JSMap.get sameValueZero br r0) eqn:E;
      [eauto | constructor]. }
  assert (Hin' : forall k', In k' rs' <-> In k' rs \/ k' = k).
  { intros k'. apply setAdd_In. js. }
  assert (D : forall r, r = r0 \/ r <> r0).
  { intros r. destruct (sameValueZero r r0) eqn:E.
    - left. now apply sameValueZero_spec.
    - right. intros ->. rewrite (proj2 (sameValueZero_spec r0 r0) eq_refl) in E.
      discriminate. }
  assert (Dk : forall k', k' = k \/ k' <> k).
  { intros k'. destruct (jsstring_eqb k' k) eqn:E.
    - left. now apply jsstring_eqb_spec.
    - right. intros ->. rewrite (proj2 (jsstring_eqb_spec k k) eq_refl) in E.
      discriminate. }
  assert (Hold : forall k', In k' rs ->
            exists p', JSMap.get jsstring_eqb pl k' = Some p' /\
                       bufferRow p' = r0).
  { intros k' Hk'. subst rs.
    destruct (JSMap.get sameValueZero br r0) eqn:E; [eauto | destruct Hk']. }
  split; [now apply NoDup_keys_set|].
  split; [apply NoDup_keys_set_any; [js | exact Hb]|].
  split; [|split].
  - intros r x Hx. destruct (D r) as [->|Hr].
    + rewrite get_set_same in Hx by js. injection Hx as <-.
      apply setAdd_NoDup; [js | exact Hrs].
    + rewrite get_set_other in Hx by (js || exact Hr). eauto.
  - intros k' p' Hg. destruct (Dk k') as [->|Hk].
    + rewrite get_set_same in Hg by js. injection Hg as <-.
      exists rs'. split; [apply get_set_same; js | apply Hin'; now right].
    + rewrite get_set_other in Hg by (js || exact Hk).
      destruct (Hc k' p' Hg) as (x & Ex & Hx).
      destruct (D (bufferRow p')) as [Er'|Hr].
      * rewrite Er' in *. exists rs'. split; [apply get_set_same; js|].
        apply Hin'. left. subst rs. now rewrite Ex.
      * exists x. split; [|exact Hx].
        rewrite get_set_other by (js || exact Hr). exact Ex.
  - intros r x k' Hx Hk'. destruct (D r) as [->|Hr].
    + rewrite get_set_same in Hx by js. injection Hx as <-.
      apply Hin' in Hk' as [Hk'| ->].
      * destruct (Hold k' Hk') as (p' & Ep' & Erow). exists p'.
        split; [|exact Erow].
        destruct (Dk k') as [->|Hk]; [congruence|].
        rewrite get_set_other by (js || exact Hk). exact Ep'.
      * exists p. split; [apply get_set_same; js | reflexivity].
    + rewrite get_set_other in Hx by (js || exact Hr).
      destruct (Hd r x k' Hx Hk') as (p' & Ep' & Erow). exists p'.
      split; [|exact Erow].
      destruct (Dk k') as [->|Hk]; [congruence|].
      rewrite get_set_other by (js || exact Hk). exact Ep'.
Qed.

Lemma setPlacement_indexed s p :
  rowIndexed s -> rowIndexed (setPlacement s p).
Proof.
  intros H. unfold setPlacement.
  set (s1 := if JSMap.has jsstring_eqb (placements s) (key p)
             then fst (removePlacement s (key p)) else s).
  assert (H1 : rowIndexed s1 /\
               JSMap.get jsstring_eqb (placements s1) (key p) = None).
  { subst s1. unfold JSMap.has.
    destruct (JSMap.get jsstring_eqb (placements s) (key p)) eqn:E.
    - split; [now apply removePlacement_indexed|].
      rewrite (proj1 (removePlacement_placements s (key p))).
      apply get_delete_same; [js | apply H].
    - split; [exact H | exact E]. }
  destruct H1 as [H1 N1].
  set (s2 := if Z.of_nat (length (placements s1)) >=? maxPlacements s1
             then _ else s1).
  assert (H2 : rowIndexed s2 /\
               JSMap.get jsstring_eqb (placements s2) (key p) = None).
  { subst s2. destruct (_ >=? _); [|now split].
    destruct (JSMap.keys (placements s1)) as [|oldest ?]; [now split|].
    destruct oldest as [|c o]; [now split|].
    split; [now apply removePlacement_indexed|].
    rewrite (proj1 (removePlacement_placements s1 (c :: o))).
    destruct (jsstring_eqb (key p) (c :: o)) eqn:Ek.
    - apply jsstring_eqb_spec in Ek. rewrite <- Ek.
      apply get_delete_same; [js | apply H1].
    - rewrite get_delete_other; [exact N1 | js |].
      intros Heq. rewrite Heq in Ek.
      rewrite (proj2 (jsstring_eqb_spec _ _) eq_refl) in Ek. discriminate. }
  destruct H2 as [H2 N2]. unfold rowIndexed.
  cbn [placements placementsByRow setPlacements setPlacementsByRow].
  now apply rowIndex_add.
Qed.

(** Whatever placements keep through removals and additions holds in
    every state the operations reach. *)
Section Reach.
Variable I : Storage -> Prop.
Hypothesis I_ext : forall s s',
  placements s' = placements s -> placementsByRow s' = placementsByRow s ->
  I s -> I s'.
Hypothesis I_remove : forall s k, I s -> I (fst (removePlacement s k)).
Hypothesis I_set : forall s p, I s -> I (setPlacement s p).
Hypothesis I_empty : forall s,
  placements s = [] -> placementsByRow s = [] -> I s.

Lemma fold_inv {A} (f : Storage -> A -> Storage) :
  (forall s a, I s -> I (f s a)) -> forall l s, I s -> I (fold_left f l s).
Proof.
  intros Hf. induction l as [|a l IH]; intros s H; simpl; [exact H|].
  apply IH, Hf, H.
Qed.

Lemma removeMatching_inv s ks test : I s -> I (removeMatching s ks test).
Proof.
  unfold removeMatching. apply fold_inv. intros s0 k H.
  destruct (JSMap.get jsstring_eqb (placements s0) k) as [p|];
    [destruct (test p); [now apply I_remove|]|]; exact H.
Qed.

Lemma removeSnapshot_inv s test : I s -> I (removeSnapshot s test).
Proof.
  unfold removeSnapshot. apply fold_inv. intros s0 e H.
  destruct (test (snd e)); [now apply I_remove | exact H].
Qed.

Lemma removeImage_inv s i : I s -> I (fst (removeImage s i)).
Proof.
  intros H. unfold removeImage.
  destruct (JSMap.get sameValueZero (images s) i); [|exact H].
  cbn [fst].
  eapply I_ext; [| |apply (fold_inv
    (fun s entry => if strictEq (imageId (snd entry)) i
                    then fst (removePlacement s (fst entry)) else s));
    [|exact H]]; try reflexivity.
  intros t e H0. destruct (strictEq (imageId (snd e)) i);
    [now apply I_remove | exact H0].
Qed.

Lemma evictByCount_inv : forall fuel s s',
  evictByCount fuel s = Some s' -> I s -> I s'.
Proof.
  induction fuel as [|fuel IH]; intros s s'; simpl; [discriminate|].
  destruct (accessOrder s) as [|lru ?]; [now intros [= <-]|].
  destruct (_ >=? _); [|now intros [= <-]].
  intros E H. apply (IH _ _ E). now apply removeImage_inv.
Qed.

Lemma evictByMemory_inv : forall fuel s b s',
  evictByMemory fuel s b = Some s' -> I s -> I s'.
Proof.
  induction fuel as [|fuel IH]; intros s b s'; simpl; [discriminate|].
  destruct (accessOrder s) as [|lru ?]; [now intros [= <-]|].
  destruct (_ >? _); [|now intros [= <-]].
  intros E H. apply (IH _ _ _ E). now apply removeImage_inv.
Qed.

Lemma applyOp_inv s op s' : applyOp s op = Some s' -> I s -> I s'.
Proof.
  destruct op; simpl; intros E H; try (injection E as <-).
  - destruct (storeImage s i fmt w h d bm now) as [[s1 img]|] eqn:E1;
      [|discriminate]. injection E as <-.
    unfold storeImage, evictIfNeeded in E1.
    destruct (evictByCount _ _) as [sa|] eqn:Ea; [|discriminate].
    destruct (evictByMemory _ _ _) as [sb|] eqn:Eb; [|discriminate].
    injection E1 as <- _.
    assert (Hm : I (madeRoom sb i)).
    { unfold madeRoom. destruct (hasImage sb i).
      - apply removeImage_inv. eapply evictByMemory_inv; eauto.
        eapply evictByCount_inv; eauto.
      - eapply evictByMemory_inv; eauto. eapply evictByCount_inv; eauto. }
    eapply I_ext; [| |exact Hm]; reflexivity.
  - unfold getImage. destruct (JSMap.get sameValueZero (images s) i);
      [|exact H]. cbn [fst].
    match goal with |- context [if ?b then _ else _] => destruct b end;
      (eapply I_ext; [| |exact H]; reflexivity).
  - now apply removeImage_inv.
  - now apply I_set.
  - now apply I_remove.
  - eapply I_ext; [| |exact H]; reflexivity.
  - unfold getAndClearChunks.
    destruct (JSMap.get sameValueZero (chunkBuffers s) i); [|exact H].
    eapply I_ext; [| |exact H]; reflexivity.
  - now apply I_empty.
  - unfold deleteAtCursor.
    destruct (JSMap.get sameValueZero (placementsByRow s) row); [|exact H].
    now apply removeMatching_inv.
  - unfold deleteRow.
    destruct (JSMap.get sameValueZero (placementsByRow s) row); [|exact H].
    now apply removeMatching_inv.
  - now apply removeSnapshot_inv.
  - now apply removeSnapshot_inv.
  - now apply I_empty.
Qed.

Lemma reachable_inv options : forall ops s,
  runOps (newStorage options) ops = Some s -> I s.
Proof.
  intros ops.
  assert (H : forall s0 s, I s0 -> runOps s0 ops = Some s -> I s).
  { induction ops as [|op ops IH]; intros s0 s H0; simpl.
    - now intros [= <-].
    - destruct (applyOp s0 op) as [s1|] eqn:E; [|discriminate].
      apply IH. eapply applyOp_inv; eauto. }
  intros s. apply H. now apply I_empty.
Qed.

End Reach.

Lemma empty_indexed : rowIndex [] [].
Proof.
  split; [constructor|]. split; [constructor|].
  split; [|split]; simpl; intros; discriminate.
Qed.

Lemma reachable_indexed options ops s :
  runOps (newStorage options) ops = Some s -> rowIndexed s.
Proof.
  apply (reachable_inv rowIndexed).
  - unfold rowIndexed. intros s0 s' -> ->. auto.
  - apply removePlacement_indexed.
  - apply setPlacement_indexed.
  - unfold rowIndexed. intros s0 -> ->. apply empty_indexed.
Qed.

(** The placements after the loop over the keys of a row. *)
Lemma fold_matching_placements (test : ImagePlacement -> bool) : forall ks s,
  placements (removeMatching s ks test)
  = fold_left
      (fun m k => match JSMap.get jsstring_eqb m k with
                  | Some p => if test p then JSMap.delete jsstring_eqb m k
                              else m
                  | None => m
                  end) ks (placements s).
Proof.
  unfold removeMatching.
  induction ks as [|k ks IH]; intros s; simpl; [reflexivity|].
  rewrite IH. destruct (JSMap.get jsstring_eqb (placements s) k) as [p|];
    [|reflexivity].
  destruct (test p); [|reflexivity].
  now rewrite (proj1 (removePlacement_placements s k)).
Qed.

Lemma matching_filter (test : ImagePlacement -> bool) :
  forall ks (m : list (jsstring * ImagePlacement)),
  NoDup (JSMap.keys m) ->
  fold_left
    (fun m k => match JSMap.get jsstring_eqb m k with
                | Some p => if test p then JSMap.delete jsstring_eqb m k
                            else m
                | None => m
                end) ks m
  = filter (fun e => negb (JSMap.setHas jsstring_eqb ks (fst e)
                           && test (snd e))) m.
Proof.
  induction ks as [|k ks IH]; intros m H; simpl.
  - symmetry. now apply filter_all.
  - assert (E : match JSMap.get jsstring_eqb m k with
                | Some p => if test p then JSMap.delete jsstring_eqb m k
                            else m
                | None => m
                end
                = filter (fun e => negb (jsstring_eqb k (fst e)
                                         && test (snd e))) m).
    { destruct (JSMap.get jsstring_eqb m k) as [p|] eqn:Eg.
      - apply get_In in Eg; [|js].
        destruct (test p) eqn:Et.
        + rewrite delete_filter by exact H. apply filter_ext_in.
          intros [k' v'] Hin. simpl. f_equal.
          destruct (jsstring_eqb k' k) eqn:Ek.
          * apply jsstring_eqb_spec in Ek. subst k'.
            rewrite (proj2 (jsstring_eqb_spec k k) eq_refl). simpl.
            now rewrite (In_keys_unique m k v' p H Hin Eg).
          * destruct (jsstring_eqb k k') eqn:Ek'; [|reflexivity].
            apply jsstring_eqb_spec in Ek'. subst k'.
            rewrite (proj2 (jsstring_eqb_spec k k) eq_refl) in Ek.
            discriminate.
        + symmetry. apply filter_all. intros [k' v'] Hin. simpl.
          apply negb_true_iff, andb_false_iff.
          destruct (jsstring_eqb k k') eqn:Ek'; [|now left]. right.
          apply jsstring_eqb_spec in Ek'. subst k'.
          now rewrite (In_keys_unique m k v' p H Hin Eg).
      - symmetry. apply filter_all. intros [k' v'] Hin. simpl.
        apply negb_true_iff, andb_false_iff. left.
        destruct (jsstring_eqb k k') eqn:Ek'; [|reflexivity].
        apply jsstring_eqb_spec in Ek'. subst k'.
        apply (get_None jsstring_eqb jsstring_eqb_spec) in Eg.
        exfalso. apply Eg. unfold JSMap.keys.
        change k with (fst (k, v')). now apply in_map. }
    rewrite E, IH by now apply NoDup_keys_filter.
    rewrite filter_twice. apply filter_ext. intros e.
    destruct (jsstring_eqb k (fst e)), (JSMap.setHas jsstring_eqb ks (fst e)),
      (test (snd e)); reflexivity.
Qed.

(** In an indexed store the keys listed under a row are the keys of the
    placements of that row. *)
Lemma row_keys s r rs k p :
  rowIndexed s ->
  JSMap.get sameValueZero (placementsByRow s) r = Some rs ->
  In (k, p) (placements s) ->
  JSMap.setHas jsstring_eqb rs k = sameValueZero (bufferRow p) r.
Proof.
  intros (Hp & Hb & Hs & Hc & Hd) Er Hin.
  assert (Eg : JSMap.get jsstring_eqb (placements s) k = Some p).
  { destruct (JSMap.get jsstring_eqb (placements s) k) as [p'|] eqn:E.
    - apply get_In in E; [|js]. f_equal.
      exact (In_keys_unique _ k p' p Hp E Hin).
    - apply (get_None jsstring_eqb jsstring_eqb_spec) in E. exfalso. apply E.
      unfold JSMap.keys. change k with (fst (k, p)). now apply in_map. }
  destruct (sameValueZero (bufferRow p) r) eqn:E.
  - apply sameValueZero_spec in E. subst r.
    destruct (Hc k p Eg) as (x & Ex & Hx). rewrite Er in Ex.
    injection Ex as <-. apply setHas_In; [js | exact Hx].
  - destruct (JSMap.setHas jsstring_eqb rs k) eqn:Eh; [|reflexivity].
    apply setHas_In in Eh; [|js].
    destruct (Hd r rs k Er Eh) as (p' & Ep' & Erow).
    assert (p' = p) by congruence. subst p'. rewrite Erow in E.
    rewrite (proj2 (sameValueZero_spec r r) eq_refl) in E. discriminate.
Qed.

Lemma no_row_no_placement s r k p :
  rowIndexed s ->
  JSMap.get sameValueZero (placementsByRow s) r = None ->
  In (k, p) (placements s) ->
  sameValueZero (bufferRow p) r = false.
Proof.
  intros (Hp & Hb & Hs & Hc & Hd) Er Hin.
  assert (Eg : JSMap.get jsstring_eqb (placements s) k = Some p).
  { destruct (JSMap.get jsstring_eqb (placements s) k) as [p'|] eqn:E.
    - apply get_In in E; [|js]. f_equal.
      exact (In_keys_unique _ k p' p Hp E Hin).
    - apply (get_None jsstring_eqb jsstring_eqb_spec) in E. exfalso. apply E.
      unfold JSMap.keys. change k with (fst (k, p)). now apply in_map. }
  destruct (sameValueZero (bufferRow p) r) eqn:E; [|reflexivity].
  apply sameValueZero_spec in E. subst r.
  destruct (Hc k p Eg) as (x & Ex & _). congruence.
Qed.

Lemma deleteAtRow_placements s r (test : ImagePlacement -> bool) :
  rowIndexed s ->
  getAllPlacements
    match JSMap.get sameValueZero (placementsByRow s) r with
    | None => s
    | Some rowSet => removeMatching s rowSet test
    end
  = filter (fun p => negb (sameValueZero (bufferRow p) r && test p))
      (getAllPlacements s).
Proof.
  intros H. unfold getAllPlacements.
  rewrite <- (values_filter
    (fun p => negb (sameValueZero (bufferRow p) r && test p))).
  f_equal.
  destruct (JSMap.get sameValueZero (placementsByRow s) r) as [rs|] eqn:Er.
  - rewrite fold_matching_placements, matching_filter by apply H.
    apply filter_ext_in. intros [k p] Hin. simpl.
    now rewrite (row_keys s r rs k p H Er Hin).
  - symmetry. apply filter_all. intros [k p] Hin. simpl.
    now rewrite (no_row_no_placement s r k p H Er Hin).
Qed.

(** X7.  In every state the operations reach, [deleteRow] removes the
    placements anchored at the row and [deleteAtCursor] the ones anchored
    at the cell, and both keep the others in order. *)
Theorem delete_by_row_or_cell_is_a_filter
    (options : GraphicsOptions) (ops : list StorageOp) (s : Storage)
    (row col : jsnum) :
  runOps (newStorage options) ops = Some s ->
  getAllPlacements (deleteRow s row)
    = filter (fun p => negb (sameValueZero (bufferRow p) row))
        (getAllPlacements s) /\
  getAllPlacements (deleteAtCursor s row col)
    = filter (fun p => negb (sameValueZero (bufferRow p) row
                             && strictEq (bufferCol p) col))
        (getAllPlacements s).
Proof.
  intros Hr. pose proof (reachable_indexed options ops s Hr) as H.
  unfold deleteRow, deleteAtCursor. split.
  - rewrite (deleteAtRow_placements s row (fun _ => true) H).
    apply filter_ext. intros p. now rewrite andb_true_r.
  - apply (deleteAtRow_placements s row
             (fun p => strictEq (bufferCol p) col) H).
Qed.

End RowIndexProps.

(** *** Chunk buffers. *)

Module ChunkBufferProps.
Import JS ImageDecoder GraphicsStorage JSMapFacts GraphicsStorageProps
  ImageLimitProps PlacementLimitProps PlacementMapProps RowIndexProps.
Local Open Scope Z_scope.

Lemma setChunkBuffers_same s : setChunkBuffers s (chunkBuffers s) = s.
Proof. now destruct s. Qed.

Lemma addChunks_fields i w h comp : forall calls s,
  addChunks s i calls w h comp
  = setChunkBuffers s (chunkBuffers (addChunks s i calls w h comp)).
Proof.
  unfold addChunks.
  induction calls as [|[c f] calls IH]; intros s; cbn [fold_left fst snd].
  - symmetry. apply setChunkBuffers_same.
  - rewrite IH at 1. reflexivity.
Qed.

Lemma set_twice {K V} (eqb : K -> K -> bool) (m : list (K * V)) k v v' :
  (forall a, eqb a a = true) ->
  JSMap.set eqb (JSMap.set eqb m k v) k v' = JSMap.set eqb m k v'.
Proof.
  intros Hr. induction m as [|[k0 v0] m IH]; cbn [JSMap.set].
  - now rewrite Hr.
  - destruct (eqb k0 k) eqn:E; cbn [JSMap.set]; rewrite E;
      [reflexivity | now rewrite IH].
Qed.

Lemma delete_appended {K V} (eqb : K -> K -> bool) (m : list (K * V)) k v :
  (forall a, eqb a a = true) ->
  JSMap.get eqb m k = None -> JSMap.delete eqb (m ++ [(k, v)]) k = m.
Proof.
  intros Hr. induction m as [|[k0 v0] m IH]; cbn [app JSMap.delete JSMap.get].
  - now rewrite Hr.
  - destruct (eqb k0 k); [discriminate|]. intros H. now rewrite IH.
Qed.

Lemma set_appended {K V} (eqb : K -> K -> bool) (m : list (K * V)) k v v' :
  (forall a, eqb a a = true) ->
  JSMap.get eqb m k = None ->
  JSMap.set eqb (m ++ [(k, v)]) k v' = m ++ [(k, v')].
Proof.
  intros Hr. induction m as [|[k0 v0] m IH]; cbn [app JSMap.set JSMap.get].
  - now rewrite Hr.
  - destruct (eqb k0 k); [discriminate|]. intros H. now rewrite IH.
Qed.

Lemma sameValueZero_refl a : sameValueZero a a = true.
Proof. now apply sameValueZero_spec. Qed.

(** The buffer after a run of calls for an ID that had none. *)
Lemma addChunks_fresh s i c fmt calls w h comp :
  JSMap.get sameValueZero (chunkBuffers s) i = None ->
  chunkBuffers (addChunks s i ((c, fmt) :: calls) w h comp)
  = chunkBuffers s
    ++ [(i, {| chunkImageId := i; chunkFormat := fmt; chunkWidth := w;
               chunkHeight := h; chunkCompression := comp;
               chunks := c :: map fst calls |})].
Proof.
  intros E0.
  assert (H : forall calls b0 cb,
            JSMap.get sameValueZero cb i = None ->
            chunkWidth b0 = w -> chunkHeight b0 = h ->
            chunkCompression b0 = comp ->
            chunkBuffers
              (addChunks (setChunkBuffers s (cb ++ [(i, b0)])) i calls w h comp)
            = cb ++ [(i, {| chunkImageId := chunkImageId b0;
                            chunkFormat := chunkFormat b0;
                            chunkWidth := w; chunkHeight := h;
                            chunkCompression := comp;
                            chunks := chunks b0 ++ map fst calls |})]).
  { clear. unfold addChunks.
    induction calls as [|[c f] calls IH]; intros b0 cb Hn Hw Hh Hc;
      cbn [fold_left fst snd map].
    - rewrite app_nil_r. cbn [chunkBuffers setChunkBuffers].
      destruct b0; cbn in *. now subst.
    - unfold addChunk at 2. cbn [chunkBuffers setChunkBuffers fst].
      assert (Eg : JSMap.get sameValueZero (cb ++ [(i, b0)]) i = Some b0).
      { rewrite <- (set_absent sameValueZero cb i b0 Hn).
        apply get_set_same, sameValueZero_spec. }
      rewrite Eg.
      rewrite (set_appended sameValueZero cb i b0 _ sameValueZero_refl Hn).
      change (setChunkBuffers (setChunkBuffers s (cb ++ [(i, b0)])) ?x)
        with (setChunkBuffers s x).
      rewrite IH; cbn [chunkImageId chunkFormat chunkWidth chunkHeight
                        chunkCompression chunks]; try assumption.
      + now rewrite <- app_assoc.
      + destruct w; [reflexivity | exact Hw].
      + destruct h; [reflexivity | exact Hh].
      + destruct comp; [reflexivity | exact Hc]. }
  unfold addChunks at 1. cbn [fold_left fst snd].
  unfold addChunk at 2. rewrite E0. cbn [fst].
  cbn [chunkImageId chunkFormat chunkWidth chunkHeight chunkCompression chunks
       app].
  rewrite (set_absent sameValueZero _ i _ E0).
  fold (addChunks (setChunkBuffers s
          (chunkBuffers s
           ++ [(i, {| chunkImageId := i; chunkFormat := fmt;
                      chunkWidth := match w with Some _ => w | None => w end;
                      chunkHeight := match h with Some _ => h | None => h end;
                      chunkCompression :=
                        match comp with Some _ => comp | None => comp end;
                      chunks := [c] |})])) i calls w h comp).
  rewrite H; cbn [chunkImageId chunkFormat chunkWidth chunkHeight
                  chunkCompression chunks app]; try exact E0;
    try (now destruct w); try (now destruct h); try (now destruct comp).
Qed.

(** X9.  The chunks added for an ID without a buffer come back from
    [getAndClearChunks] in the order of the calls, with the format of the
    first call, and the store is then as it was before the first chunk. *)
Theorem chunks_come_back_in_order
    (s : Storage) (i : jsnum) (c : jsstring) (fmt : Z)
    (calls : list (jsstring * Z)) (w h : option jsnum)
    (compression : option jsstring) :
  hasChunkBuffer s i = false ->
  let s1 := addChunks s i ((c, fmt) :: calls) w h compression in
  hasChunkBuffer s1 i = true /\
  getAndClearChunks s1 i
  = (s, Some {| chunkImageId := i; chunkFormat := fmt; chunkWidth := w;
                chunkHeight := h; chunkCompression := compression;
                chunks := c :: map fst calls |}).
Proof.
  intros Hn s1. unfold hasChunkBuffer, JSMap.has in Hn.
  destruct (JSMap.get sameValueZero (chunkBuffers s) i) eqn:E0;
    [discriminate|].
  pose proof (addChunks_fresh s i c fmt calls w h compression E0) as Hcb.
  fold s1 in Hcb.
  set (B := {| chunkImageId := i; chunkFormat := fmt; chunkWidth := w;
               chunkHeight := h; chunkCompression := compression;
               chunks := c :: map fst calls |}) in *.
  assert (Hget : JSMap.get sameValueZero (chunkBuffers s1) i = Some B).
  { rewrite Hcb. rewrite <- (set_absent sameValueZero _ i B E0).
    apply get_set_same, sameValueZero_spec. }
  split; [unfold hasChunkBuffer, JSMap.has; now rewrite Hget|].
  unfold getAndClearChunks. rewrite Hget. f_equal.
  subst s1. rewrite addChunks_fields. rewrite Hcb.
  cbn [chunkBuffers setChunkBuffers].
  rewrite (delete_appended sameValueZero _ i B sameValueZero_refl E0).
  change (setChunkBuffers (setChunkBuffers s ?x) ?y)
    with (setChunkBuffers s y).
  apply setChunkBuffers_same.
Qed.

Lemma chunks_come_back_in_order_witness :
  hasChunkBuffer
    (addChunks (newStorage noOptions) (Int 7)
       [(str "SGVs", 100); (str "bG8g", 32)] None None None) (Int 7) = true /\
  getAndClearChunks
    (addChunks (newStorage noOptions) (Int 7)
       [(str "SGVs", 100); (str "bG8g", 32)] None None None) (Int 7)
  = (newStorage noOptions,
     Some {| chunkImageId := Int 7; chunkFormat := 100; chunkWidth := None;
             chunkHeight := None; chunkCompression := None;
             chunks := [str "SGVs"; str "bG8g"] |}).
Proof.
  apply (chunks_come_back_in_order (newStorage noOptions) (Int 7)
           (str "SGVs") 100 [(str "bG8g", 32)] None None None).
  reflexivity.
Defined.

End ChunkBufferProps.

(** *** The store as its callers use it. *)

Module StorageUseProps.
Import JS ImageDecoder GraphicsStorage JSMapFacts GraphicsStorageProps.
Import ImageLimitProps PlacementLimitProps PlacementMapProps RowIndexProps
  ChunkBufferProps.
Local Open Scope Z_scope.

Lemma image_count_never_exceeds_limit_witness :
  exists s, runOps (newStorage (limitedOptions 2 10)) threeImages = Some s /\
            Z.of_nat (length (images s)) <= 2.
Proof.
  let r := eval vm_compute in
    (runOps (newStorage (limitedOptions 2 10)) threeImages) in
  match r with
  | Some ?s =>
      exists s; split; [reflexivity|];
      apply (image_count_never_exceeds_limit (limitedOptions 2 10)
               threeImages s); [simpl; lia | reflexivity | reflexivity]
  end.
Defined.

(** X2.  In a store reached from a new one, [storeImage] with a numbered ID
    returns, and [getImage] then returns what was stored with the time of
    the access. *)
Theorem stored_image_is_returned
    (options : GraphicsOptions) (ops : list StorageOp) (s : Storage)
    (i : jsnum) (fmt w h : Z) (d : bytes) (bm : option ImageBitmap)
    (now now' : Z) :
  forallb storesNumberedImage ops = true ->
  runOps (newStorage options) ops = Some s ->
  isInt i = true ->
  exists s' img,
    storeImage s i fmt w h d bm now = Some (s', img) /\
    hasImage s' i = true /\
    snd (getImage s' i now') = Some (touch img now') /\
    id img = i /\ data img = d /\ format img = fmt /\ width img = w /\
    height img = h /\ bitmap img = bm /\ lastAccessed img = now.
Proof.
  intros Hops E Hi.
  pose proof (reachable_consistent _ _ _ Hops E) as Hc.
  destruct (storeImage_total s i fmt w h d bm now Hc Hi) as (s' & img & Es & _).
  exists s', img. split; [exact Es|].
  destruct (storeImage_get _ _ _ _ _ _ _ _ _ _ now' Es)
    as (H1 & H2 & H3 & H4 & H5 & H6 & H7).
  do 2 (split; [assumption|]).
  unfold storeImage in Es.
  destruct (evictIfNeeded s _) as [s1|]; [|discriminate].
  injection Es as _ <-. cbn. auto 10.
Qed.

Lemma stored_image_is_returned_witness :
  exists s' img,
    storeImage (newStorage noOptions) (Int 5) 32 1 1 [1; 2; 3; 4] None 10
      = Some (s', img) /\
    hasImage s' (Int 5) = true /\
    snd (getImage s' (Int 5) 20) = Some (touch img 20) /\
    id img = Int 5 /\ data img = [1; 2; 3; 4] /\ format img = 32 /\
    width img = 1 /\ height img = 1 /\ bitmap img = None /\
    lastAccessed img = 10.
Proof.
  apply (stored_image_is_returned noOptions [] (newStorage noOptions)
           (Int 5) 32 1 1 [1; 2; 3; 4] None 10 20);
    reflexivity.
Defined.

Lemma placement_count_never_exceeds_limit_witness :
  exists s, runOps (newStorage (limitedOptions 5 2)) rowsOps = Some s /\
            Z.of_nat (length (placements s)) <= 2.
Proof.
  let r := eval vm_compute in
    (runOps (newStorage (limitedOptions 5 2)) rowsOps) in
  match r with
  | Some ?s =>
      exists s; split; [reflexivity|];
      apply (placement_count_never_exceeds_limit (limitedOptions 5 2)
               rowsOps s); [simpl; lia | reflexivity | reflexivity]
  end.
Defined.

Lemma placement_set_is_returned_witness :
  getPlacement (setPlacement rowsStorage (samplePlacement "2:0" 3 1))
    (str "1:2") = getPlacement rowsStorage (str "1:2").
Proof.
  apply (proj2 (placement_set_is_returned rowsStorage
                  (samplePlacement "2:0" 3 1)));
    [vm_compute; reflexivity | discriminate].
Defined.

(** X6.  [deleteColumn] and [deleteByZIndex] remove exactly the placements
    of that column, or of that z-index, keep the others in their order and
    leave the images alone. *)
Theorem delete_by_column_or_z_is_a_filter
    (options : GraphicsOptions) (ops : list StorageOp) (s : Storage)
    (n : jsnum) :
  runOps (newStorage options) ops = Some s ->
  getAllPlacements (deleteColumn s n)
    = filter (fun p => negb (strictEq (bufferCol p) n)) (getAllPlacements s) /\
  getAllPlacements (deleteByZIndex s n)
    = filter (fun p => negb (strictEq (zIndex p) n)) (getAllPlacements s) /\
  sameImages s (deleteColumn s n) /\ sameImages s (deleteByZIndex s n).
Proof.
  intros E. apply removeSnapshot_filter.
  exact (reachable_placements_distinct options ops s E).
Qed.

Lemma delete_by_column_or_z_is_a_filter_witness :
  getAllPlacements (deleteColumn rowsStorage (Int 0)) = [] /\
  getAllPlacements (deleteByZIndex rowsStorage (Int 3))
    = getAllPlacements rowsStorage.
Proof.
  destruct (delete_by_column_or_z_is_a_filter noOptions rowsOps rowsStorage
              (Int 0) eq_refl) as (H1 & _).
  destruct (delete_by_column_or_z_is_a_filter noOptions rowsOps rowsStorage
              (Int 3) eq_refl) as (_ & H2 & _).
  split; [exact H1 | exact H2].
Defined.

(** X8.  [removeImage] of a stored image removes it and exactly the
    placements that show it; the other images and placements stay. *)
Theorem removing_an_image_removes_its_placements
    (options : GraphicsOptions) (ops : list StorageOp) (s : Storage)
    (i : jsnum) :
  forallb storesNumberedImage ops = true ->
  runOps (newStorage options) ops = Some s ->
  hasImage s i = true ->
  snd (removeImage s i) = true /\
  hasImage (fst (removeImage s i)) i = false /\
  getAllPlacements (fst (removeImage s i))
    = filter (fun p => negb (strictEq (imageId p) i)) (getAllPlacements s) /\
  forall j, j <> i ->
    JSMap.get sameValueZero (images (fst (removeImage s i))) j
    = JSMap.get sameValueZero (images s) j.
Proof.
  intros Hops E Hh.
  destruct (reachable_consistent _ _ _ Hops E) as ((Hn & _) & _).
  apply removeImage_cascade; [|exact Hn | exact Hh].
  exact (reachable_placements_distinct options ops s E).
Qed.

Lemma removing_an_image_removes_its_placements_witness :
  exists s, runOps (newStorage noOptions) placedOps = Some s /\
    hasImage (fst (removeImage s (Int 1))) (Int 1) = false /\
    getAllPlacements (fst (removeImage s (Int 1))) = [].
Proof.
  let r := eval vm_compute in (runOps (newStorage noOptions) placedOps) in
  match r with
  | Some ?s =>
      exists s; split; [reflexivity|];
      destruct (removing_an_image_removes_its_placements noOptions placedOps
                  s (Int 1) eq_refl eq_refl eq_refl) as (_ & H2 & H3 & _);
      split; [exact H2 | exact H3]
  end.
Defined.

Lemma delete_by_row_or_cell_is_a_filter_witness :
  getAllPlacements (deleteRow rowsStorage (Int 5))
    = [samplePlacement "1:1" 1 4; samplePlacement "1:3" 7 2] /\
  getAllPlacements (deleteAtCursor rowsStorage (Int 5) (Int 9))
    = getAllPlacements rowsStorage.
Proof.
  destruct (delete_by_row_or_cell_is_a_filter noOptions rowsOps rowsStorage
              (Int 5) (Int 9) eq_refl) as (H1 & H2).
  split; [exact H1 | exact H2].
Defined.

(** X5.  In a store reached from a new one, [removePlacement] reports
    whether the key had a placement; afterwards the key has none and every
    other key has the placement it had. *)
Theorem removed_placement_is_gone
    (options : GraphicsOptions) (ops : list StorageOp) (s : Storage)
    (k : jsstring) :
  runOps (newStorage options) ops = Some s ->
  snd (removePlacement s k) = JSMap.has jsstring_eqb (placements s) k /\
  getPlacement (fst (removePlacement s k)) k = None /\
  (forall k', k' <> k ->
     getPlacement (fst (removePlacement s k)) k' = getPlacement s k') /\
  sameImages s (fst (removePlacement s k)).
Proof.
  intros E.
  pose proof (reachable_placements_distinct options ops s E) as Hn.
  destruct (removePlacement_placements s k) as [Hp _].
  split; [|split; [|split]].
  - unfold removePlacement, JSMap.has.
    now destruct (JSMap.get jsstring_eqb (placements s) k).
  - unfold getPlacement. rewrite Hp.
    apply get_delete_same; [apply jsstring_eqb_spec | exact Hn].
  - intros k' Hk. unfold getPlacement. rewrite Hp.
    apply get_delete_other; [apply jsstring_eqb_spec | exact Hk].
  - apply removePlacement_same.
Qed.

Lemma removed_placement_is_gone_witness :
  snd (removePlacement rowsStorage (str "1:2")) = true /\
  getPlacement (fst (removePlacement rowsStorage (str "1:2"))) (str "1:2")
    = None.
Proof.
  destruct (removed_placement_is_gone noOptions rowsOps rowsStorage
              (str "1:2") eq_refl) as (H1 & H2 & _).
  split; [exact H1 | exact H2].
Defined.

End StorageUseProps.

(** *** More on the Base64 codec. *)

Module Base64Props.
Import JS ImageDecoder ImageDecoderProps.
Local Open Scope Z_scope.

Lemma isBase64Code_normalize c : isBase64Code (normalize c) = isSextetChar c.
Proof.
  unfold normalize, isSextetChar.
  destruct (Z.eqb_spec c 45) as [->|H45]; [reflexivity|].
  destruct (Z.eqb_spec c 95) as [->|H95]; [reflexivity|].
  now rewrite !orb_false_r.
Qed.

Lemma decodeLoop_step c s L out bits col :
  decodeLoop (c :: s) L out bits col
  = if Z.of_nat (length out) <? L then
      if negb (isSextetChar c) then decodeLoop s L out bits col
      else
        let bits := or32 (shl32 bits 6) (sextetOf c) in
        if col + 6 >=? 8 then
          decodeLoop s L (out ++ [and32 (sar32 bits (col + 6 - 8)) 255])
            bits (col + 6 - 8)
        else decodeLoop s L out bits (col + 6)
    else out.
Proof.
  cbn [decodeLoop]. fold (normalize c). rewrite isBase64Code_normalize.
  reflexivity.
Qed.

Lemma decodeLoop_stop s L out bits col :
  (Z.of_nat (length out) <? L) = false -> decodeLoop s L out bits col = out.
Proof.
  intros H. destruct s as [|c s]; [reflexivity|].
  now rewrite decodeLoop_step, H.
Qed.

Lemma countChars_step c s v p :
  countChars (c :: s) v p
  = if isSextetChar c then countChars s (v + 1) p
    else if c =? 61 then countChars s v (p + 1) else countChars s v p.
Proof. reflexivity. Qed.

Lemma countChars_counted : forall s v p,
  countChars (filter isCounted s) v p = countChars s v p.
Proof.
  induction s as [|c s IH]; intros v p; [reflexivity|].
  cbn [filter]. unfold isCounted at 1. rewrite (countChars_step c s).
  destruct (isSextetChar c) eqn:E1; cbn [orb].
  - now rewrite countChars_step, E1, IH.
  - destruct (c =? 61) eqn:E2; [|apply IH].
    now rewrite countChars_step, E1, E2, IH.
Qed.

Lemma decodeLoop_counted L : forall s out bits col,
  decodeLoop (filter isCounted s) L out bits col = decodeLoop s L out bits col.
Proof.
  induction s as [|c s IH]; intros out bits col; [reflexivity|].
  cbn [filter]. rewrite (decodeLoop_step c s).
  destruct (Z.of_nat (length out) <? L) eqn:EL.
  - unfold isCounted at 1. destruct (isSextetChar c) eqn:E1; cbn [orb negb].
    + rewrite decodeLoop_step, EL, E1. cbn [negb].
      cbv zeta. destruct (col + 6 >=? 8); apply IH.
    + destruct (c =? 61) eqn:E2; [|apply IH].
      rewrite decodeLoop_step, EL, E1. cbn [negb]. apply IH.
  - now apply decodeLoop_stop.
Qed.

Lemma base64ToBytes_counted s :
  base64ToBytes (filter isCounted s) = base64ToBytes s.
Proof.
  unfold base64ToBytes. rewrite countChars_counted.
  destruct (countChars s 0 0) as [v p].
  destruct (_ <? 0); [reflexivity|]. now rewrite decodeLoop_counted.
Qed.

(** X10.  [base64ToBytes] skips every character that is neither of an
    alphabet nor [=]: an encoding with line breaks or blanks in it decodes
    to the bytes that were encoded. *)
Theorem base64_skips_foreign_characters (s : jsstring) (bs : bytes) :
  Forall isByte bs ->
  filter isCounted s = bytesToBase64 bs ->
  base64ToBytes s = Ok bs.
Proof.
  intros Hb Hs. rewrite <- base64ToBytes_counted, Hs.
  destruct (bytesToBase64_spec (length bs) bs (le_n _) Hb) as [Hp Hd].
  now rewrite (base64ToBytes_payload _ Hp), Hd.
Qed.

Lemma base64_skips_foreign_characters_witness :
  base64ToBytes spacedPayload = Ok sampleBytes.
Proof.
  apply base64_skips_foreign_characters.
  - unfold sampleBytes. repeat (constructor; [unfold isByte; lia|]).
    constructor.
  - vm_compute. reflexivity.
Defined.

Lemma normalize_idem c : normalize (normalize c) = normalize c.
Proof.
  unfold normalize.
  destruct (Z.eqb_spec c 45) as [->|H45]; [reflexivity|].
  destruct (Z.eqb_spec c 95) as [->|H95]; [reflexivity|].
  destruct (Z.eqb_spec c 45); [contradiction|].
  now destruct (Z.eqb_spec c 95).
Qed.

Lemma isSextetChar_normalize c : isSextetChar (normalize c) = isSextetChar c.
Proof.
  unfold normalize.
  destruct (Z.eqb_spec c 45) as [->|H45]; [reflexivity|].
  destruct (Z.eqb_spec c 95) as [->|H95]; reflexivity.
Qed.

Lemma normalize_pad c : (normalize c =? 61) = (c =? 61).
Proof.
  unfold normalize.
  destruct (Z.eqb_spec c 45) as [->|H45]; [reflexivity|].
  destruct (Z.eqb_spec c 95) as [->|H95]; reflexivity.
Qed.

Lemma countChars_normalize : forall s v p,
  countChars (map normalize s) v p = countChars s v p.
Proof.
  induction s as [|c s IH]; intros v p; [reflexivity|].
  cbn [map]. rewrite !countChars_step, isSextetChar_normalize, normalize_pad.
  now rewrite !IH.
Qed.

Lemma decodeLoop_normalize L : forall s out bits col,
  decodeLoop (map normalize s) L out bits col = decodeLoop s L out bits col.
Proof.
  induction s as [|c s IH]; intros out bits col; [reflexivity|].
  cbn [map]. rewrite !decodeLoop_step, isSextetChar_normalize.
  unfold sextetOf. rewrite normalize_idem.
  destruct (_ <? L); [|reflexivity].
  destruct (negb (isSextetChar c)); [apply IH|].
  cbv zeta. destruct (col + 6 >=? 8); apply IH.
Qed.

(** X11.  [base64ToBytes] reads the URL-safe characters [-] and [_] as [+]
    and [/]: replacing them in a payload does not change the result. *)
Theorem base64_url_safe_alphabet (s : jsstring) :
  base64ToBytes (map normalize s) = base64ToBytes s.
Proof.
  unfold base64ToBytes. rewrite countChars_normalize.
  destruct (countChars s 0 0) as [v p].
  destruct (_ <? 0); [reflexivity|]. now rewrite decodeLoop_normalize.
Qed.

(** The counts of the first loop. *)
Lemma countChars_counts : forall s v p,
  countChars s v p
  = (v + Z.of_nat (length (filter isSextetChar s)),
     p + Z.of_nat (length (filter (Z.eqb 61) s))).
Proof.
  induction s as [|c s IH]; intros v p.
  - simpl. f_equal; lia.
  - rewrite countChars_step. cbn [filter].
    destruct (isSextetChar c) eqn:E1.
    + rewrite (Z.eqb_sym 61 c), (isSextetChar_not_pad c E1), IH.
      cbn [length]. f_equal; lia.
    + rewrite (Z.eqb_sym 61 c). destruct (c =? 61); rewrite IH;
        cbn [length]; f_equal; lia.
Qed.

Lemma and32_byte x : isByte (and32 x 255).
Proof.
  unfold and32, isByte. rewrite (toInt32_small 255) by lia.
  change 255 with (Z.ones 8). rewrite Z.land_ones by lia.
  apply Z.mod_pos_bound. lia.
Qed.

Lemma decodeLoop_bytes L : forall s out bits col,
  Forall isByte out -> Forall isByte (decodeLoop s L out bits col).
Proof.
  induction s as [|c s IH]; intros out bits col H; [exact H|].
  rewrite decodeLoop_step. destruct (_ <? L); [|exact H].
  destruct (negb (isSextetChar c)); [now apply IH|].
  cbv zeta. destruct (col + 6 >=? 8); [|now apply IH].
  apply IH. apply Forall_app. split; [exact H|].
  constructor; [apply and32_byte | constructor].
Qed.

Lemma decodeLoop_length L : forall s out bits col,
  Z.of_nat (length out) <= L ->
  Z.of_nat (length (decodeLoop s L out bits col)) <= L.
Proof.
  induction s as [|c s IH]; intros out bits col H; [exact H|].
  rewrite decodeLoop_step. destruct (Z.ltb_spec (Z.of_nat (length out)) L);
    [|exact H].
  destruct (negb (isSextetChar c)); [now apply IH|].
  cbv zeta. destruct (col + 6 >=? 8); [|now apply IH].
  apply IH. rewrite length_app. simpl. lia.
Qed.

(** X12.  [base64ToBytes] throws when the text has more than three times as
    many [=] as alphabet characters, and only then; otherwise it returns
    bytes, as many as the counts of the two kinds of characters say. *)
Theorem base64_decoding_outcome (s : jsstring) :
  let valid := Z.of_nat (length (filter isSextetChar s)) in
  let padding := Z.of_nat (length (filter (Z.eqb 61) s)) in
  (3 * valid < padding -> base64ToBytes s = Throw RangeError) /\
  (padding <= 3 * valid ->
   exists out, base64ToBytes s = Ok out /\ Forall isByte out /\
     Z.of_nat (length out) = (valid + padding) * 3 / 4 - padding).
Proof.
  intros valid padding. unfold base64ToBytes.
  rewrite countChars_counts. fold valid padding. rewrite !Z.add_0_l.
  set (L := (valid + padding) * 3 / 4 - padding).
  assert (HL : L < 0 <-> 3 * valid < padding).
  { subst L. pose proof (Z.div_mod ((valid + padding) * 3) 4 ltac:(lia)).
    pose proof (Z.mod_pos_bound ((valid + padding) * 3) 4 ltac:(lia)).
    lia. }
  split; intros H.
  - destruct (Z.ltb_spec L 0); [reflexivity | lia].
  - destruct (Z.ltb_spec L 0); [lia|].
    eexists. split; [reflexivity|].
    pose proof (decodeLoop_length L s [] 0 0 ltac:(simpl; lia)) as Hlen.
    split.
    + apply Forall_app. split; [apply decodeLoop_bytes; constructor|].
      apply Forall_forall. intros x Hx. apply repeat_spec in Hx. subst x.
      apply isByte_0.
    + rewrite length_app, repeat_length. lia.
Qed.

Lemma base64_decoding_outcome_witness :
  base64ToBytes (str "=") = Throw RangeError /\
  exists out, base64ToBytes (str "QQ==") = Ok out /\ Forall isByte out /\
              Z.of_nat (length out) = 1.
Proof.
  split.
  - apply (proj1 (base64_decoding_outcome (str "="))).
    vm_compute. reflexivity.
  - apply (proj2 (base64_decoding_outcome (str "QQ=="))).
    vm_compute. discriminate.
Defined.

(** The length of an encoding. *)
Lemma bytesToBase64_length : forall n bs, (length bs <= n)%nat ->
  length (bytesToBase64 bs) = (4 * ((length bs + 2) / 3))%nat.
Proof.
  induction n as [|n IH]; intros bs Hn.
  - destruct bs; [reflexivity | simpl in Hn; lia].
  - destruct bs as [|b1 [|b2 [|b3 rest]]]; try reflexivity.
    cbn [bytesToBase64 length]. rewrite IH by (simpl in Hn; lia).
    replace (S (S (S (length rest))) + 2)%nat
      with (length rest + 2 + 1 * 3)%nat by lia.
    rewrite Nat.div_add by lia. lia.
Qed.

(** X13.  [bytesToBase64] writes four characters for every three bytes,
    rounded up; the result is made of groups of four alphabet characters,
    the last group padded with [=]. *)
Theorem base64_encoding_shape (bs : bytes) :
  Forall isByte bs ->
  length (bytesToBase64 bs) = (4 * ((length bs + 2) / 3))%nat /\
  isBase64Payload (bytesToBase64 bs) = true.
Proof.
  intros H. split; [now apply (bytesToBase64_length (length bs))|].
  apply (bytesToBase64_spec (length bs) bs (le_n _) H).
Qed.

Lemma base64_encoding_shape_witness :
  length (bytesToBase64 sampleBytes) = 8%nat /\
  isBase64Payload (bytesToBase64 sampleBytes) = true.
Proof.
  apply (base64_encoding_shape sampleBytes).
  unfold sampleBytes. repeat (constructor; [unfold isByte; lia|]).
  constructor.
Defined.

End Base64Props.

(** *** [rgbToRgba]. *)

Module PixelProps.
Import JS ImageDecoder ImageDecoderProps.
Local Open Scope Z_scope.

Lemma flat_map_quads {A} (f : nat -> list A) (d : A) :
  (forall i, length (f i) = 4%nat) ->
  forall n a,
    length (flat_map f (seq a n)) = (4 * n)%nat /\
    forall i c, (i < n)%nat -> (c < 4)%nat ->
      nth (4 * i + c) (flat_map f (seq a n)) d = nth c (f (a + i)%nat) d.
Proof.
  intros Hf. induction n as [|n IH]; intros a.
  - split; [reflexivity|]. intros i c Hi. lia.
  - cbn [seq flat_map]. destruct (IH (S a)) as [Hl Hn]. split.
    + rewrite length_app, Hf, Hl. lia.
    + intros i c Hi Hc. destruct i as [|i].
      * rewrite Nat.mul_0_r, Nat.add_0_l, Nat.add_0_r.
        apply app_nth1. rewrite Hf. exact Hc.
      * rewrite app_nth2 by (rewrite Hf; lia). rewrite Hf.
        replace (4 * S i + c - 4)%nat with (4 * i + c)%nat by lia.
        rewrite Hn by lia. f_equal. f_equal. lia.
Qed.

(** X14.  [rgbToRgba] writes four bytes for each of the [width * height]
    pixels: the three colour bytes of the pixel, zero where the input is
    too short, and the alpha value 255. *)
Theorem rgb_pixels_become_opaque_rgba (rgb : bytes) (w h : Z) :
  0 <= w * h ->
  exists rgba,
    rgbToRgba rgb (Int w) (Int h) = Ok rgba /\
    Z.of_nat (length rgba) = w * h * 4 /\
    forall i, (Z.of_nat i < w * h) ->
      nth (4 * i) rgba 0 = nth (3 * i) rgb 0 /\
      nth (4 * i + 1) rgba 0 = nth (3 * i + 1) rgb 0 /\
      nth (4 * i + 2) rgba 0 = nth (3 * i + 2) rgb 0 /\
      nth (4 * i + 3) rgba 0 = 255.
Proof.
  intros H. unfold rgbToRgba.
  destruct (Z.ltb_spec (w * h * 4) 0); [lia|].
  eexists. split; [reflexivity|].
  set (f := fun i : nat => [nth (i * 3) rgb 0; nth (i * 3 + 1) rgb 0;
                            nth (i * 3 + 2) rgb 0; 255]).
  destruct (flat_map_quads f 0 (fun _ => eq_refl) (Z.to_nat (w * h)) 0%nat)
    as [Hl Hn].
  split; [rewrite Hl; lia|].
  intros i Hi. assert (Hi' : (i < Z.to_nat (w * h))%nat) by lia.
  pose proof (Hn i 0%nat Hi' ltac:(lia)) as P0.
  pose proof (Hn i 1%nat Hi' ltac:(lia)) as P1.
  pose proof (Hn i 2%nat Hi' ltac:(lia)) as P2.
  pose proof (Hn i 3%nat Hi' ltac:(lia)) as P3.
  rewrite Nat.add_0_r in P0. cbn [Nat.add] in P0, P1, P2, P3.
  subst f. cbn [nth] in P0, P1, P2, P3.
  rewrite (Nat.mul_comm i 3) in P0, P1, P2.
  repeat split; assumption.
Qed.

Lemma rgb_pixels_become_opaque_rgba_witness :
  exists rgba,
    rgbToRgba [10; 20; 30; 40; 50] (Int 2) (Int 1) = Ok rgba /\
    Z.of_nat (length rgba) = 2 * 1 * 4 /\
    forall i, (Z.of_nat i < 2 * 1) ->
      nth (4 * i) rgba 0 = nth (3 * i) [10; 20; 30; 40; 50] 0 /\
      nth (4 * i + 1) rgba 0 = nth (3 * i + 1) [10; 20; 30; 40; 50] 0 /\
      nth (4 * i + 2) rgba 0 = nth (3 * i + 2) [10; 20; 30; 40; 50] 0 /\
      nth (4 * i + 3) rgba 0 = 255.
Proof. apply (rgb_pixels_become_opaque_rgba [10; 20; 30; 40; 50] 2 1). lia. Defined.

End PixelProps.

(** *** What the scanning loop of [extract] makes of a text. *)

Module ExtractScanProps.
Import JS KittyParser KittyParserProps.

(** *** Occurrences *)

Lemma startsWith_nth : forall pat s,
  startsWith pat s = true <->
  forall i, i < length pat -> nth_error s i = nth_error pat i.
Proof.
  induction pat as [|p pat IH]; intros s; simpl.
  - split; [intros _ i Hi; lia | reflexivity].
  - destruct s as [|c s].
    + split; [discriminate|]. intros H. specialize (H 0 ltac:(lia)).
      discriminate.
    + rewrite andb_true_iff, Z.eqb_eq, IH. split.
      * intros [-> H] [|i] Hi; [reflexivity|]. simpl. apply H. lia.
      * intros H. split.
        -- specialize (H 0 ltac:(lia)). simpl in H. congruence.
        -- intros i Hi. apply (H (S i)). lia.
Qed.

Lemma occursAt_nth s pat j :
  occursAt s pat j <->
  forall i, i < length pat -> nth_error s (j + i) = nth_error pat i.
Proof.
  unfold occursAt. rewrite startsWith_nth. split; intros H i Hi.
  - rewrite <- nth_error_skipn. now apply H.
  - rewrite nth_error_skipn. now apply H.
Qed.

(** An occurrence depends on the characters it covers only. *)
Lemma occ_prefix m s s' pat k :
  firstn m s = firstn m s' -> k + length pat <= m ->
  occursAt s pat k -> occursAt s' pat k.
Proof.
  rewrite !occursAt_nth. intros E Hm H i Hi. rewrite <- (H i Hi).
  assert (Hn : forall t : jsstring,
             nth_error t (k + i) = nth_error (firstn m t) (k + i)).
  { intros t. rewrite nth_error_firstn.
    destruct (Nat.ltb_spec (k + i) m); [reflexivity | lia]. }
  now rewrite (Hn s), (Hn s'), E.
Qed.

Lemma occ_skipn s pat a k : occursAt (skipn a s) pat k <-> occursAt s pat (a + k).
Proof.
  unfold occursAt. rewrite skipn_skipn. now rewrite (Nat.add_comm k a).
Qed.

Lemma occ_app_r a b pat k : occursAt (a ++ b) pat (length a + k) <-> occursAt b pat k.
Proof.
  unfold occursAt. rewrite skipn_app.
  rewrite skipn_all2 by lia.
  now replace (length a + k - length a) with k by lia.
Qed.

Lemma occ_head pat r : occursAt (pat ++ r) pat 0.
Proof. unfold occursAt. simpl. apply startsWith_app. now exists r. Qed.

Lemma indexOf_first s pat from j :
  from <= length s -> from <= j -> occursAt s pat j ->
  (forall k, from <= k -> k < j -> ~ occursAt s pat k) ->
  indexOf s pat from = Some j.
Proof.
  intros Hf Hj Ho Hmin. destruct (indexOf s pat from) as [j'|] eqn:E.
  - apply indexOf_Some in E as (H1 & H2 & H3 & H4); [|exact Hf].
    f_equal. destruct (Nat.lt_trichotomy j' j) as [H|[H|H]]; [|exact H|].
    + exfalso. exact (Hmin j' H1 H H3).
    + exfalso. exact (H4 j Hj H Ho).
  - exfalso. exact (indexOf_None s pat from Hf E j Hj Ho).
Qed.

Lemma indexOf_absent s pat from :
  from <= length s -> (forall k, from <= k -> ~ occursAt s pat k) ->
  indexOf s pat from = None.
Proof.
  intros Hf H. destruct (indexOf s pat from) as [j|] eqn:E; [|reflexivity].
  apply indexOf_Some in E as (H1 & H2 & H3 & H4); [|exact Hf].
  exfalso. exact (H j H1 H3).
Qed.

Lemma includes_absent s pat : includes s pat = false <-> absent pat s.
Proof.
  unfold includes, absent. split.
  - destruct (indexOf s pat 0) eqn:E; [discriminate|]. intros _ k.
    apply (indexOf_None s pat 0 ltac:(lia) E k). lia.
  - intros H. rewrite indexOf_absent; [reflexivity | lia |]. intros k _. apply H.
Qed.

(** *** From a scan to the loop *)

Lemma first_apc t x k :
  absent APC_START (t ++ [ESC; 95%Z]) -> k < length t ->
  ~ occursAt (t ++ APC_START ++ x) APC_START k.
Proof.
  intros Ha Hk Ho. apply (Ha k).
  apply (occ_prefix (length t + 2) (t ++ APC_START ++ x)); [| |exact Ho].
  - now rewrite !firstn_app_2.
  - simpl. lia.
Qed.

Lemma first_st body x k :
  absent ST (APC_START ++ body ++ [ESC]) -> k < 3 + length body ->
  ~ occursAt (APC_START ++ body ++ ST ++ x) ST k.
Proof.
  intros Ha Hk Ho. apply (Ha k).
  apply (occ_prefix (length (APC_START ++ body) + 1)
           (APC_START ++ body ++ ST ++ x)); [| |exact Ho].
  - rewrite (app_assoc APC_START body (ST ++ x)).
    rewrite (app_assoc APC_START body [ESC]).
    now rewrite !firstn_app_2.
  - rewrite length_app. simpl. lia.
Qed.

Lemma skipn_at {A} (pos : nat) (full t x : list A) :
  skipn pos full = t ++ x -> skipn (pos + length t) full = x.
Proof.
  intros E. rewrite Nat.add_comm, <- skipn_skipn, E.
  rewrite skipn_app, skipn_all2 by lia.
  now rewrite Nat.sub_diag.
Qed.

Lemma substring_at pos full t x :
  pos <= length full -> skipn pos full = t ++ x ->
  substring full pos (pos + length t) = t.
Proof.
  intros Hp E.
  assert (Hl : length full - pos = length t + length x).
  { rewrite <- length_skipn, E, length_app. reflexivity. }
  rewrite substring_ok by lia. rewrite E.
  replace (pos + length t - pos) with (length t + 0) by lia.
  rewrite firstn_app_2. simpl. apply app_nil_r.
Qed.

Lemma scan_loop : forall s c bs p, Scans s c bs p ->
  forall fuel full pos cl cs,
    pos <= length full -> skipn pos full = s -> length s < fuel ->
    exists cmds,
      extractLoop fuel full pos cl cs = Some (cl ++ c, cs ++ cmds, p) /\
      readFrom cmds bs.
Proof.
  induction 1 as [s Ha | t rest Ha Hst | t body s' c bs p Ha Hst Hs IH];
    intros fuel full pos cl cs Hp E Hf;
    (destruct fuel as [|fuel]; [lia|]); cbn [extractLoop].
  - exists []. split; [|constructor]. rewrite app_nil_r.
    destruct (Nat.ltb_spec pos (length full)) as [Hlt|Hge].
    + rewrite indexOf_absent; [unfold substringFrom; now rewrite E | lia |].
      intros k Hk Ho. apply (Ha (k - pos)). rewrite <- E. apply occ_skipn.
      now replace (pos + (k - pos)) with k by lia.
    + rewrite <- E, skipn_all2 by lia. now rewrite app_nil_r.
  - assert (Hl : length full - pos = length (t ++ APC_START ++ rest)).
    { now rewrite <- length_skipn, E. }
    rewrite !length_app in Hl. simpl in Hl.
    destruct (Nat.ltb_spec pos (length full)) as [Hlt|Hge]; [|lia].
    assert (E' := skipn_at pos full t _ E).
    rewrite (indexOf_first full APC_START pos (pos + length t));
      [|lia|lia| |].
    2:{ apply occ_skipn. rewrite E. rewrite <- (Nat.add_0_r (length t)).
        apply occ_app_r. apply occ_head. }
    2:{ intros k Hk1 Hk2 Ho.
        apply (first_apc t rest (k - pos) Ha ltac:(lia)).
        rewrite <- E. apply occ_skipn.
        now replace (pos + (k - pos)) with k by lia. }
    rewrite indexOf_absent; [|lia|].
    2:{ intros k Hk Ho. apply (Hst (k - (pos + length t))).
        rewrite <- E'. apply occ_skipn.
        now replace (pos + length t + (k - (pos + length t))) with k by lia. }
    exists []. split; [|constructor]. rewrite app_nil_r.
    unfold substringFrom. rewrite E'.
    now rewrite (substring_at pos full t _ Hp E).
  - assert (Hl : length full - pos
                 = length (t ++ APC_START ++ body ++ ST ++ s')).
    { now rewrite <- length_skipn, E. }
    rewrite !length_app in Hl, Hf. simpl in Hl, Hf.
    destruct (Nat.ltb_spec pos (length full)) as [Hlt|Hge]; [|lia].
    assert (E1 := skipn_at pos full t _ E).
    assert (E2 : skipn (pos + length t + 3) full = body ++ ST ++ s').
    { apply (skipn_at (pos + length t) full APC_START). exact E1. }
    assert (E3 := skipn_at (pos + length t + 3) full body _ E2).
    assert (E4 : skipn (pos + length t + 3 + length body + 2) full = s').
    { apply (skipn_at (pos + length t + 3 + length body) full ST).
      exact E3. }
    rewrite (indexOf_first full APC_START pos (pos + length t));
      [|lia|lia| |].
    2:{ apply occ_skipn. rewrite E. rewrite <- (Nat.add_0_r (length t)).
        apply occ_app_r. apply occ_head. }
    2:{ intros k Hk1 Hk2 Ho.
        apply (first_apc t (body ++ ST ++ s') (k - pos) Ha ltac:(lia)).
        rewrite <- E. apply occ_skipn.
        now replace (pos + (k - pos)) with k by lia. }
    rewrite (indexOf_first full ST (pos + length t)
               (pos + length t + 3 + length body)); [|lia|lia| |].
    2:{ rewrite <- (Nat.add_0_r (pos + length t + 3 + length body)).
        apply (occ_skipn full ST (pos + length t + 3 + length body) 0).
        rewrite E3. apply occ_head. }
    2:{ intros k Hk1 Hk2 Ho.
        apply (first_st body s' (k - (pos + length t)) Hst ltac:(lia)).
        rewrite <- E1. apply occ_skipn.
        now replace (pos + length t + (k - (pos + length t))) with k by lia. }
    change (length APC_START) with 3. change (length ST) with 2.
    rewrite (substring_at pos full t _ Hp E).
    rewrite (substring_at (pos + length t + 3) full body _ ltac:(lia) E2).
    destruct (parseSequence_Some body (pos + length t)
                (pos + length t + 3 + length body + 2)) as [cmd Ec].
    rewrite Ec.
    destruct (IH fuel full (pos + length t + 3 + length body + 2)
                (cl ++ t) (cs ++ [ {| command := cmd;
                                      startIndex := pos + length t;
                                      endIndex := pos + length t + 3
                                                  + length body + 2 |} ]))
      as (cmds & Ex & Hr); [lia | exact E4 | lia |].
    eexists (_ :: cmds). split.
    + rewrite Ex. now rewrite <- !app_assoc.
    + constructor; [exact Ec | exact Hr].
Qed.

(** *** Every text has a scan *)

Lemma absent_dec pat s : absent pat s \/ exists j, indexOf s pat 0 = Some j.
Proof.
  destruct (indexOf s pat 0) as [j|] eqn:E; [right; eauto|].
  left. intros k. apply (indexOf_None s pat 0 ltac:(lia) E k). lia.
Qed.

Lemma absent_window m pat s s' :
  firstn m s = firstn m s' -> length s <= m ->
  absent pat s' -> pat <> [] -> absent pat s.
Proof.
  intros E Hm Ha Hne k Ho. apply (Ha k).
  apply (occ_prefix m s s' pat k E); [|exact Ho].
  apply occursAt_bound in Ho; [lia | exact Hne].
Qed.

Lemma split_first_apc s j :
  indexOf s APC_START 0 = Some j ->
  exists t rest, s = t ++ APC_START ++ rest /\ length t = j /\
                 absent APC_START (t ++ [ESC; 95%Z]).
Proof.
  intros E. apply indexOf_Some in E as (_ & Hj & Ho & Hmin); [|lia].
  pose proof (apc_bound s j Ho) as Hb.
  unfold occursAt in Ho. apply startsWith_app in Ho as [rest Hr].
  exists (firstn j s), rest.
  assert (Hs : s = firstn j s ++ APC_START ++ rest).
  { now rewrite <- Hr, firstn_skipn. }
  assert (Hl : length (firstn j s) = j) by (rewrite length_firstn; lia).
  split; [exact Hs|]. split; [exact Hl|].
  intros k Hk. pose proof (apc_bound _ k Hk) as Hkb.
  rewrite length_app, Hl in Hkb. simpl in Hkb.
  apply (Hmin k ltac:(lia) ltac:(lia)).
  apply (occ_prefix (j + 2) (firstn j s ++ [ESC; 95%Z])); [| simpl; lia | exact Hk].
  rewrite Hs at 2. rewrite <- Hl at 1 3. now rewrite !firstn_app_2.
Qed.

Lemma split_first_st rest e :
  indexOf (APC_START ++ rest) ST 0 = Some e ->
  exists body s', rest = body ++ ST ++ s' /\
                  absent ST (APC_START ++ body ++ [ESC]).
Proof.
  intros E. apply indexOf_Some in E as (_ & He & Ho & Hmin); [|lia].
  pose proof (st_bound _ e Ho) as Hb.
  assert (H3 : 3 <= e).
  { pose proof (apc_then_st (APC_START ++ rest) 0 e (occ_head _ _) Ho
                  ltac:(lia)). lia. }
  unfold occursAt in Ho. apply startsWith_app in Ho as [s' Hr].
  replace e with ((e - 3) + 3) in Hr by lia.
  rewrite <- skipn_skipn in Hr. change (skipn 3 (APC_START ++ rest)) with rest in Hr.
  remember (firstn (e - 3) rest) as body eqn:Eb.
  rewrite length_app in Hb. simpl in Hb, He.
  assert (Hs : rest = body ++ ST ++ s').
  { subst body. now rewrite <- Hr, firstn_skipn. }
  assert (Hl : length body = e - 3)
    by (subst body; rewrite length_firstn; lia).
  clear Eb Hr. subst rest. exists body, s'. split; [reflexivity|].
  intros k Hk. pose proof (st_bound _ k Hk) as Hkb.
  rewrite !length_app, Hl in Hkb. simpl in Hkb.
  apply (Hmin k ltac:(lia) ltac:(lia)).
  apply (occ_prefix (length (APC_START ++ body) + 1)
           (APC_START ++ body ++ [ESC]));
    [| rewrite length_app, Hl; simpl; lia | exact Hk].
  rewrite (app_assoc APC_START body (ST ++ s')).
  rewrite (app_assoc APC_START body [ESC]).
  now rewrite !firstn_app_2.
Qed.

Lemma Scans_total : forall n s, length s <= n ->
  exists c bs p, Scans s c bs p.
Proof.
  induction n as [|n IH]; intros s Hn.
  - destruct s; [|simpl in Hn; lia]. exists [], [], []. constructor.
    intros k Ho. apply apc_bound in Ho. simpl in Ho. lia.
  - destruct (absent_dec APC_START s) as [Ha|[j Ej]].
    + exists s, [], []. now constructor.
    + destruct (split_first_apc s j Ej) as (t & rest & -> & Hl & Ha).
      destruct (absent_dec ST (APC_START ++ rest)) as [Hst|[e Ee]].
      * exists t, [], (APC_START ++ rest). now constructor.
      * destruct (split_first_st rest e Ee) as (body & s' & -> & Hst).
        destruct (IH s') as (c & bs & p & Hs).
        { rewrite !length_app in Hn. simpl in Hn. lia. }
        exists (t ++ c), (body :: bs), p. now constructor.
Qed.

(** The result of [extract] on a text without tmux wrapper. *)
Lemma extract_scan p data c bs pend :
  includes (pendingData p ++ data) TMUX_PASSTHROUGH_START = false ->
  Scans (pendingData p ++ data) c bs pend ->
  exists r,
    extract p data = Some ({| pendingData := pend |}, r) /\
    cleanedData r = c /\ readFrom (commands r) bs /\
    hasGraphics r = negb (Nat.eqb (length bs) 0) /\
    fullData r = pendingData p ++ data.
Proof.
  intros Ht Hs. unfold extract. rewrite Ht.
  destruct (scan_loop _ _ _ _ Hs (S (length (pendingData p ++ data)))
              (pendingData p ++ data) 0 [] [])
    as (cmds & Ex & Hr); [lia | reflexivity | lia |].
  rewrite Ex. eexists. split; [reflexivity|]. cbn.
  split; [reflexivity|]. split; [exact Hr|]. split; [|reflexivity].
  apply Forall2_length in Hr. rewrite Hr. now destruct bs.
Qed.

(** *** Text and frames without stray escape characters *)

Lemma noEsc_nth s k : noEsc s = true -> nth_error s k <> Some ESC.
Proof.
  unfold noEsc. intros H E. apply nth_error_In in E.
  rewrite forallb_forall in H. specialize (H _ E).
  rewrite Z.eqb_refl in H. discriminate.
Qed.

Lemma noEsc_app a b : noEsc (a ++ b) = noEsc a && noEsc b.
Proof. apply forallb_app. Qed.

Lemma absent_apc_text t :
  noEsc t = true -> absent APC_START (t ++ [ESC; 95%Z]).
Proof.
  intros H k Ho. pose proof (apc_bound _ k Ho) as Hb.
  rewrite length_app in Hb. simpl in Hb.
  rewrite occursAt_nth in Ho. specialize (Ho 0 ltac:(simpl; lia)).
  rewrite Nat.add_0_r, nth_error_app1 in Ho by lia.
  exact (noEsc_nth t k H Ho).
Qed.

Lemma absent_apc_plain t : noEsc t = true -> absent APC_START t.
Proof.
  intros H k Ho. rewrite occursAt_nth in Ho.
  specialize (Ho 0 ltac:(simpl; lia)). rewrite Nat.add_0_r in Ho.
  exact (noEsc_nth t k H Ho).
Qed.

Lemma absent_st_body body :
  noEsc body = true -> absent ST (APC_START ++ body ++ [ESC]).
Proof.
  intros H k Ho. pose proof (st_bound _ k Ho) as Hb.
  rewrite !length_app in Hb. simpl in Hb.
  rewrite occursAt_nth in Ho.
  pose proof (Ho 0 ltac:(simpl; lia)) as H0.
  pose proof (Ho 1 ltac:(simpl; lia)) as H1.
  rewrite Nat.add_0_r in H0.
  change (nth_error ST 0) with (Some ESC) in H0.
  change (nth_error ST 1) with (Some 92%Z) in H1.
  destruct (Nat.lt_ge_cases k 3) as [Hk|Hk].
  - destruct k as [|[|[|k]]]; try discriminate; lia.
  - rewrite nth_error_app2 in H0 by (simpl; lia).
    rewrite nth_error_app1 in H0 by (simpl; lia).
    exact (noEsc_nth body _ H H0).
Qed.

Lemma framed_scans : forall segs tail,
  forallb (fun seg => noEsc (fst seg) && noEsc (snd seg)) segs = true ->
  noEsc tail = true ->
  Scans (framedText segs tail) (concat (map fst segs) ++ tail)
    (map snd segs) [].
Proof.
  induction segs as [|[t b] segs IH]; intros tail Hs Ht.
  - simpl. constructor. now apply absent_apc_plain.
  - cbn [forallb fst snd] in Hs.
    apply andb_true_iff in Hs as [Hs1 Hs]. apply andb_true_iff in Hs1 as [H1 H2].
    cbn [framedText map concat fst snd]. unfold frame.
    rewrite <- !app_assoc.
    apply scan_frame; [now apply absent_apc_text | now apply absent_st_body|].
    now apply IH.
Qed.

Lemma escNotP_noEsc t x : noEsc t = true -> escNotP (t ++ x) = escNotP x.
Proof.
  induction t as [|c t IH]; intros H; [reflexivity|].
  cbn [noEsc forallb] in H. apply andb_true_iff in H as [Hc H].
  apply negb_true_iff in Hc. cbn [app escNotP].
  destruct (t ++ x) as [|d r] eqn:E.
  - destruct t; [|discriminate]. simpl in E. now subst x.
  - rewrite Hc. cbn [andb negb]. now apply IH.
Qed.

Lemma escNotP_framed : forall segs tail,
  forallb (fun seg => noEsc (fst seg) && noEsc (snd seg)) segs = true ->
  noEsc tail = true ->
  escNotP (framedText segs tail) = true.
Proof.
  induction segs as [|[t b] segs IH]; intros tail Hs Ht.
  - simpl. rewrite <- (app_nil_r tail). now rewrite escNotP_noEsc.
  - cbn [forallb fst snd] in Hs.
    apply andb_true_iff in Hs as [Hs1 Hs]. apply andb_true_iff in Hs1 as [H1 H2].
    cbn [framedText]. rewrite escNotP_noEsc by exact H1.
    unfold frame, APC_START.
    change (escNotP ([95%Z; 71%Z] ++ (b ++ ST) ++ framedText segs tail) = true).
    rewrite escNotP_noEsc by reflexivity.
    rewrite <- app_assoc, escNotP_noEsc by exact H2.
    change (escNotP ([92%Z] ++ framedText segs tail) = true).
    rewrite escNotP_noEsc by reflexivity. now apply IH.
Qed.

Lemma escNotP_nth : forall s k,
  escNotP s = true -> nth_error s k = Some ESC ->
  nth_error s (S k) <> Some 80%Z.
Proof.
  induction s as [|c s IH]; intros k H Hk; [destruct k; discriminate|].
  cbn [escNotP] in H. destruct s as [|d r]; [destruct k; discriminate|].
  apply andb_true_iff in H as [H1 H2].
  destruct k as [|k].
  - simpl in *. injection Hk as ->. intros [= ->].
    unfold ESC in H1. discriminate.
  - simpl in Hk. change (nth_error (c :: d :: r) (S (S k)))
      with (nth_error (d :: r) (S k)). now apply IH.
Qed.

Lemma escNotP_no_tmux s :
  escNotP s = true -> includes s TMUX_PASSTHROUGH_START = false.
Proof.
  intros H. apply includes_absent. intros k Ho.
  rewrite occursAt_nth in Ho.
  pose proof (Ho 0 ltac:(simpl; lia)) as H0.
  pose proof (Ho 1 ltac:(simpl; lia)) as H1.
  rewrite Nat.add_0_r in H0. rewrite Nat.add_1_r in H1.
  exact (escNotP_nth s k H H0 H1).
Qed.

(** X15.  On text and whole frames in turn, with no escape character in the
    texts and in the bodies, [extract] returns the texts joined, one
    command for each frame in order, read from its body, and leaves
    nothing pending. *)
Theorem extract_reads_every_frame
    (p : Parser) (segs : list (jsstring * jsstring)) (tail : jsstring) :
  pendingData p = [] ->
  forallb (fun seg => noEsc (fst seg) && noEsc (snd seg)) segs = true ->
  noEsc tail = true ->
  exists r,
    extract p (framedText segs tail) = Some (newParser, r) /\
    cleanedData r = concat (map fst segs) ++ tail /\
    Forall2 (fun c seg => parseSequence (snd seg) (startIndex c) (endIndex c)
                          = Some c) (commands r) segs /\
    hasGraphics r = negb (Nat.eqb (length segs) 0).
Proof.
  intros Hp Hs Ht.
  destruct (extract_scan p (framedText segs tail)
              (concat (map fst segs) ++ tail) (map snd segs) [])
    as (r & Er & Hc & Hr & Hg & _).
  - rewrite Hp. apply escNotP_no_tmux. now apply escNotP_framed.
  - rewrite Hp. now apply framed_scans.
  - exists r. split; [exact Er|]. split; [exact Hc|].
    split; [|now rewrite Hg, length_map].
    unfold readFrom in Hr. clear -Hr. revert Hr.
    generalize (commands r). induction segs as [|seg segs IH];
      intros cs H; inversion H; subst; constructor; auto.
Qed.

End ExtractScanProps.

(** *** [extract] on a text that arrives in two chunks. *)

Module ExtractChunkProps.
Import JS KittyParser KittyParserProps ExtractScanProps.

Lemma firstn_app_firstn {A} n (a b : list A) :
  firstn n (a ++ b) = firstn n (a ++ firstn n b).
Proof.
  rewrite !firstn_app, firstn_firstn. f_equal. f_equal. lia.
Qed.

Lemma absent_suffix pat x y : absent pat (x ++ y) -> absent pat y.
Proof. intros H k Ho. apply (H (length x + k)). now apply occ_app_r. Qed.

Lemma absent_prefix pat x y : pat <> [] -> absent pat (x ++ y) -> absent pat x.
Proof.
  intros Hne H k Ho. apply (H k).
  apply (occ_prefix (length x) x); [| |exact Ho].
  - rewrite firstn_all. rewrite <- (Nat.add_0_r (length x)) at 1.
    rewrite firstn_app_2. simpl. now rewrite app_nil_r.
  - apply occursAt_bound in Ho; [lia | exact Hne].
Qed.

(** An occurrence in [t ++ s] lies in [s] or begins in [t]. *)
Lemma absent_prepend pat t s :
  pat <> [] ->
  absent pat (t ++ firstn (length pat - 1) s) -> absent pat s ->
  absent pat (t ++ s).
Proof.
  intros Hne Ht Hs k Ho.
  destruct (Nat.lt_ge_cases k (length t)) as [Hk|Hk].
  - apply (Ht k).
    apply (occ_prefix (length t + (length pat - 1)) (t ++ s));
      [|lia|exact Ho].
    rewrite !firstn_app_2. f_equal. rewrite firstn_firstn. f_equal. lia.
  - apply (Hs (k - length t)). apply (occ_app_r t).
    now replace (length t + (k - length t)) with k by lia.
Qed.

(** An occurrence in [a ++ b] lies in [a] or covers the end of [a]. *)
Lemma absent_append pat a b :
  pat <> [] ->
  absent pat a -> absent pat (skipn (length a - (length pat - 1)) a ++ b) ->
  absent pat (a ++ b).
Proof.
  intros Hne Ha Hb k Ho.
  destruct (Nat.le_gt_cases (k + length pat) (length a)) as [Hk|Hk].
  - apply (Ha k). apply (occ_prefix (length a) (a ++ b)); [|lia|exact Ho].
    rewrite firstn_all. rewrite <- (Nat.add_0_r (length a)) at 1.
    rewrite firstn_app_2. simpl. now rewrite app_nil_r.
  - set (d := length a - (length pat - 1)) in *.
    apply (Hb (k - d)).
    assert (E : skipn d a ++ b = skipn d (a ++ b)).
    { rewrite skipn_app. f_equal.
      replace (d - length a) with 0 by lia. reflexivity. }
    rewrite E. apply occ_skipn.
    now replace (d + (k - d)) with k by lia.
Qed.

Lemma apc_ne : APC_START <> [].
Proof. discriminate. Qed.

Lemma head_marker (t' x y : jsstring) :
  firstn 2 (t' ++ APC_START ++ x) = firstn 2 (t' ++ [ESC; 95%Z] ++ y).
Proof.
  rewrite (firstn_app_firstn 2 t' (APC_START ++ x)).
  now rewrite (firstn_app_firstn 2 t' ([ESC; 95%Z] ++ y)).
Qed.

Lemma absent_text_marker t t' x :
  absent APC_START (t ++ firstn 2 (t' ++ APC_START ++ x)) ->
  absent APC_START (t' ++ [ESC; 95%Z]) ->
  absent APC_START ((t ++ t') ++ [ESC; 95%Z]).
Proof.
  intros H1 H2. rewrite <- app_assoc.
  apply absent_prepend; [exact apc_ne | | exact H2].
  change (length APC_START - 1) with 2.
  rewrite (head_marker t' x []) in H1. now rewrite app_nil_r in H1.
Qed.

Lemma scan_prepend : forall s c bs p, Scans s c bs p ->
  forall t, absent APC_START (t ++ firstn 2 s) ->
            Scans (t ++ s) (t ++ c) bs p.
Proof.
  induction 1 as [s Ha | t' rest Ha Hst | t' body s' c bs p Ha Hst Hs IH];
    intros t Ht.
  - constructor. now apply absent_prepend; [exact apc_ne| |].
  - replace (t ++ t' ++ APC_START ++ rest)
      with ((t ++ t') ++ APC_START ++ rest)
      by now rewrite <- app_assoc.
    apply scan_pending; [|exact Hst].
    now apply (absent_text_marker t t' rest).
  - rewrite (app_assoc t t' c).
    replace (t ++ t' ++ APC_START ++ body ++ ST ++ s')
      with ((t ++ t') ++ APC_START ++ body ++ ST ++ s')
      by now rewrite <- app_assoc.
    apply scan_frame; [|exact Hst|exact Hs].
    now apply (absent_text_marker t t' (body ++ ST ++ s')).
Qed.

Lemma lastTwo_app a s : exists x, lastTwo (a ++ s) = x ++ lastTwo s.
Proof.
  unfold lastTwo. rewrite length_app, skipn_app.
  destruct (Nat.le_gt_cases 2 (length s)) as [H|H].
  - exists []. rewrite skipn_all2 by lia. simpl. f_equal. lia.
  - exists (skipn (length a + length s - 2) a). f_equal.
    replace (length a + length s - 2 - length a) with 0 by lia.
    replace (length s - 2) with 0 by lia. reflexivity.
Qed.

Lemma scan_append : forall s1 c1 bs1 p1, Scans s1 c1 bs1 p1 ->
  forall s2 c2 bs2 p2,
    Scans (p1 ++ s2) c2 bs2 p2 ->
    absent APC_START (lastTwo s1 ++ firstn 2 s2) ->
    Scans (s1 ++ s2) (c1 ++ c2) (bs1 ++ bs2) p2.
Proof.
  induction 1 as [s Ha | t rest Ha Hst | t body s' c bs p Ha Hst Hs IH];
    intros s2 c2 bs2 p2 H2 Hcut.
  - simpl in H2. apply scan_prepend; [exact H2|].
    apply absent_append; [exact apc_ne | exact Ha | exact Hcut].
  - rewrite <- !app_assoc. rewrite <- !app_assoc in H2.
    apply (scan_prepend _ _ _ _ H2 t).
    change (firstn 2 (APC_START ++ rest ++ s2)) with [ESC; 95%Z]. exact Ha.
  - rewrite <- !app_assoc. cbn [app].
    change (ESC :: 95%Z :: 71%Z :: body ++ ESC :: BACKSLASH :: s' ++ s2)
      with (APC_START ++ body ++ ST ++ (s' ++ s2)).
    apply scan_frame; [exact Ha | exact Hst|].
    apply IH; [exact H2|].
    destruct (lastTwo_app (t ++ APC_START ++ body ++ ST) s') as [x Ex].
    rewrite <- !app_assoc in Ex. rewrite Ex, <- app_assoc in Hcut.
    exact (absent_suffix _ _ _ Hcut).
Qed.

Lemma scan_pending_suffix : forall s c bs p, Scans s c bs p ->
  exists x, s = x ++ p.
Proof.
  induction 1 as [s Ha | t rest Ha Hst | t body s' c bs p Ha Hst Hs IH].
  - exists s. now rewrite app_nil_r.
  - now exists t.
  - destruct IH as [x ->].
    exists (t ++ APC_START ++ body ++ ST ++ x). now rewrite <- !app_assoc.
Qed.

Lemma parseSequence_command body a b a' b' :
  option_map command (parseSequence body a b)
  = option_map command (parseSequence body a' b').
Proof.
  unfold parseSequence. destruct (indexOf body (str ";") 0); reflexivity.
Qed.

Lemma readFrom_commands : forall cs bs cs',
  readFrom cs bs -> readFrom cs' bs -> map command cs = map command cs'.
Proof.
  unfold readFrom. induction cs as [|c cs IH]; intros bs cs' H H';
    inversion H; subst; inversion H'; subst; [reflexivity|].
  cbn [map]. f_equal; [|eauto].
  match goal with
  | H1 : parseSequence ?b _ _ = Some c, H2 : parseSequence ?b _ _ = Some ?c'
    |- _ => pose proof (parseSequence_command b (startIndex c) (endIndex c)
                          (startIndex c') (endIndex c')) as E;
            rewrite H1, H2 in E
  end.
  now injection E.
Qed.

Lemma readFrom_app cs1 bs1 cs2 bs2 :
  readFrom cs1 bs1 -> readFrom cs2 bs2 -> readFrom (cs1 ++ cs2) (bs1 ++ bs2).
Proof. apply Forall2_app. Qed.

(** X16.  Without tmux wrapper, and when the cut does not fall inside a start
    marker, a text that arrives in two chunks gives the same text and the
    same commands, and leaves the same data pending, as the text in one
    piece. *)
Theorem extract_in_two_chunks (p : Parser) (d1 d2 : jsstring) :
  includes (pendingData p ++ d1 ++ d2) TMUX_PASSTHROUGH_START = false ->
  cutsNoMarker (pendingData p ++ d1) d2 = true ->
  exists p1 r1 p2 r2 r,
    extract p d1 = Some (p1, r1) /\
    extract p1 d2 = Some (p2, r2) /\
    extract p (d1 ++ d2) = Some (p2, r) /\
    cleanedData r = cleanedData r1 ++ cleanedData r2 /\
    map command (commands r)
      = map command (commands r1) ++ map command (commands r2).
Proof.
  intros Ht Hcut. set (s1 := pendingData p ++ d1) in *.
  rewrite app_assoc in Ht. fold s1 in Ht.
  apply includes_absent in Ht.
  unfold cutsNoMarker in Hcut. apply negb_true_iff, includes_absent in Hcut.
  destruct (Scans_total (length s1) s1 (le_n _)) as (c1 & bs1 & q1 & S1).
  destruct (Scans_total (length (q1 ++ d2)) (q1 ++ d2) (le_n _))
    as (c2 & bs2 & q2 & S2).
  pose proof (scan_append _ _ _ _ S1 _ _ _ _ S2 Hcut) as S.
  destruct (extract_scan p d1 c1 bs1 q1) as (r1 & E1 & C1 & R1 & _).
  { apply includes_absent. fold s1.
    apply (absent_prefix _ s1 d2); [discriminate | exact Ht]. }
  { exact S1. }
  destruct (extract_scan {| pendingData := q1 |} d2 c2 bs2 q2)
    as (r2 & E2 & C2 & R2 & _).
  { apply includes_absent. cbn [pendingData].
    destruct (scan_pending_suffix _ _ _ _ S1) as [x Ex].
    rewrite Ex, <- app_assoc in Ht. exact (absent_suffix _ _ _ Ht). }
  { exact S2. }
  destruct (extract_scan p (d1 ++ d2) (c1 ++ c2) (bs1 ++ bs2) q2)
    as (r & E & C & R & _).
  { apply includes_absent. rewrite app_assoc. exact Ht. }
  { rewrite app_assoc. exact S. }
  exists {| pendingData := q1 |}, r1, {| pendingData := q2 |}, r2, r.
  split; [exact E1|]. split; [exact E2|]. split; [exact E|].
  split; [now rewrite C, C1, C2|].
  rewrite <- map_app.
  apply (readFrom_commands _ (bs1 ++ bs2)); [exact R|].
  now apply readFrom_app.
Qed.

Lemma extract_in_two_chunks_witness :
  exists p1 r1 p2 r2 r,
    extract newParser halfFrameChunk = Some (p1, r1) /\
    extract p1 secondHalfChunk = Some (p2, r2) /\
    extract newParser (halfFrameChunk ++ secondHalfChunk) = Some (p2, r) /\
    cleanedData r = cleanedData r1 ++ cleanedData r2 /\
    map command (commands r)
      = map command (commands r1) ++ map command (commands r2).
Proof.
  apply (extract_in_two_chunks newParser halfFrameChunk secondHalfChunk);
    vm_compute; reflexivity.
Defined.

End ExtractChunkProps.

(** *** Whole tmux wrappers. *)

Module TmuxProps.
Import JS KittyParser KittyParserProps ExtractScanProps ExtractChunkProps.

Lemma unescape_doubled : forall r,
  unescapeDoubledEsc (doubleEsc r) = r /\
  unescapeDoubledEsc (ESC :: doubleEsc r) = ESC :: r.
Proof.
  induction r as [|c r [IH1 IH2]]; [split; reflexivity|].
  cbn [doubleEsc]. destruct (Z.eqb_spec c ESC) as [->|Hc].
  - split.
    + change (unescapeDoubledEsc (ESC :: ESC :: doubleEsc r))
        with (ESC :: unescapeDoubledEsc (doubleEsc r)).
      now rewrite IH1.
    + change (unescapeDoubledEsc (ESC :: ESC :: ESC :: doubleEsc r))
        with (ESC :: unescapeDoubledEsc (ESC :: doubleEsc r)).
      now rewrite IH2.
  - assert (E1 : unescapeDoubledEsc (c :: doubleEsc r) = c :: r).
    { cbn [unescapeDoubledEsc]. destruct (doubleEsc r) as [|d s] eqn:E.
      - destruct r as [|x r]; [reflexivity|]. simpl in E.
        destruct (x =? ESC)%Z; discriminate.
      - rewrite (proj2 (Z.eqb_neq c ESC) Hc). cbn [andb].
        f_equal. exact IH1. }
    split; [exact E1|].
    change (unescapeDoubledEsc (ESC :: c :: doubleEsc r))
      with (if ((ESC =? ESC) && (c =? ESC))%Z
            then ESC :: unescapeDoubledEsc (doubleEsc r)
            else ESC :: unescapeDoubledEsc (c :: doubleEsc r)).
    rewrite (proj2 (Z.eqb_neq c ESC) Hc), andb_false_r.
    f_equal. exact E1.
Qed.

Lemma charIs_app_r a b i c :
  charIs (a ++ b) (length a + i) c = charIs b i c.
Proof.
  unfold charIs. rewrite nth_error_app2 by lia.
  now replace (length a + i - length a) with i by lia.
Qed.

Lemma charIs_at a x b c : charIs (a ++ x :: b) (length a) c = (x =? c)%Z.
Proof.
  rewrite <- (Nat.add_0_r (length a)). now rewrite charIs_app_r.
Qed.

Lemma charIs_next a x y b c :
  charIs (a ++ x :: y :: b) (length a + 1) c = (y =? c)%Z.
Proof. now rewrite charIs_app_r. Qed.

Lemma charIs_before a x b c :
  charIs ((a ++ [x]) ++ b) (length (a ++ [x]) - 1) c = (x =? c)%Z.
Proof.
  rewrite length_app. simpl.
  replace (length a + 1 - 1) with (length a) by lia.
  rewrite <- app_assoc. apply charIs_at.
Qed.

Ltac len :=
  repeat (rewrite !length_app || cbn [length]);
  change (length TMUX_PASSTHROUGH_START) with 8 in *;
  cbn [length ST Nat.add] in *;
  try lia.

Lemma snoc_assoc {A} (a : list A) x r : a ++ x :: r = (a ++ [x]) ++ r.
Proof. now rewrite <- app_assoc. Qed.

(** The search for the outer terminator runs through doubled content. *)
Lemma outer_terminator post innerStart : forall n r a fuel e data i,
  length r <= n ->
  data = a ++ doubleEsc r ++ ST ++ post -> i = length a ->
  e = length a + length (doubleEsc r) ->
  innerStart <= length a -> innerStart < e ->
  charIs data (e - 1) ESC = false ->
  length (doubleEsc r) < fuel ->
  findOuterTerminator fuel data innerStart i = Some (Some e).
Proof.
  induction n as [|n IH]; intros r a fuel e data i Hn Hd Hi0 He Hi Hie Hlast Hf.
  - destruct r; [|simpl in Hn; lia]. cbn [doubleEsc app length] in *.
    destruct fuel as [|fuel]; [lia|]. cbn [findOuterTerminator].
    rewrite Nat.add_0_r in He. subst e i.
    assert (Hlen : (length a + 1 <? length data) = true).
    { apply Nat.ltb_lt. subst data. len. }
    rewrite Hlen, Hlast, andb_false_r. subst data.
    change (a ++ ST ++ post) with (a ++ ESC :: BACKSLASH :: post) in *.
    rewrite charIs_at, charIs_next, !Z.eqb_refl. reflexivity.
  - destruct r as [|c r];
      [apply (IH [] a fuel e data i); simpl; auto; lia|].
    simpl in Hn. destruct fuel as [|fuel]; [lia|].
    cbn [doubleEsc] in *.
    destruct (Z.eqb_spec c ESC) as [->|Hc].
    + (* a doubled escape character *)
      cbn [length] in He, Hf. cbn [findOuterTerminator].
      assert (Hlen : (i + 1 <? length data) = true).
      { apply Nat.ltb_lt. subst data i. len. }
      rewrite Hlen.
      assert (C0 : charIs data (i + 1) BACKSLASH = false).
      { subst data i. cbn [app]. now rewrite charIs_next. }
      rewrite C0, andb_false_r.
      destruct fuel as [|fuel]; [lia|]. cbn [findOuterTerminator].
      assert (Hlen2 : (i + 1 + 1 <? length data) = true).
      { apply Nat.ltb_lt. subst data i. len. }
      rewrite Hlen2.
      assert (C1 : charIs data (i + 1) ESC = true).
      { subst data i. cbn [app]. now rewrite charIs_next. }
      assert (C1' : charIs data (i + 1 - 1) ESC = true).
      { replace (i + 1 - 1) with i by lia. subst data i. cbn [app].
        now rewrite charIs_at. }
      rewrite C1, C1'. cbn [andb].
      assert (Hb : (innerStart <? i + 1) = true) by (apply Nat.ltb_lt; lia).
      rewrite Hb. cbn [andb].
      destruct r as [|d r].
      * (* the content cannot end here *)
        exfalso. simpl in He. subst e data.
        replace (length a + 2 - 1) with (length a + 1) in Hlast by lia.
        cbn [doubleEsc app] in Hlast. rewrite charIs_next, Z.eqb_refl in Hlast.
        discriminate.
      * assert (C2 : charIs data (i + 1 + 1) BACKSLASH = (d =? BACKSLASH)%Z).
        { subst data i. cbn [app]. rewrite (snoc_assoc a ESC).
          replace (length a + 1 + 1) with (length (a ++ [ESC]) + 1) by len.
          cbn [doubleEsc].
          destruct (Z.eqb_spec d ESC) as [->|Hd]; cbn [app];
            rewrite charIs_next; reflexivity. }
        rewrite C2.
        destruct (Z.eqb_spec d BACKSLASH) as [->|Hd'].
        -- (* the escaped terminator of the content: skipped *)
           apply (IH r (a ++ [ESC; ESC; BACKSLASH]) fuel e data).
           ++ simpl in Hn. lia.
           ++ subst data. cbn [doubleEsc].
              change (BACKSLASH =? ESC)%Z with false. cbv iota.
              now rewrite <- !app_assoc.
           ++ subst i. len.
           ++ cbn [doubleEsc] in He.
              change (BACKSLASH =? ESC)%Z with false in He. cbv iota in He.
              len.
           ++ len.
           ++ exact Hie.
           ++ exact Hlast.
           ++ cbn [doubleEsc] in Hf.
              change (BACKSLASH =? ESC)%Z with false in Hf. cbv iota in Hf.
              len.
        -- apply (IH (d :: r) (a ++ [ESC; ESC]) fuel e data).
           ++ simpl in *. lia.
           ++ subst data. now rewrite <- !app_assoc.
           ++ subst i. len.
           ++ len.
           ++ len.
           ++ exact Hie.
           ++ exact Hlast.
           ++ lia.
    + cbn [length] in He, Hf. cbn [findOuterTerminator].
      assert (Hlen : (i + 1 <? length data) = true).
      { apply Nat.ltb_lt. subst data i. len. }
      rewrite Hlen.
      assert (C0 : charIs data i ESC = false).
      { subst data i. cbn [app]. rewrite charIs_at.
        now apply Z.eqb_neq. }
      rewrite C0. cbn [andb].
      apply (IH r (a ++ [c]) fuel e data).
      * lia.
      * subst data. now rewrite <- !app_assoc.
      * subst i. len.
      * len.
      * len.
      * exact Hie.
      * exact Hlast.
      * lia.
Qed.

Lemma last_cons {A} (c : A) s d : s <> [] -> last (c :: s) d = last s d.
Proof. destruct s; [congruence | reflexivity]. Qed.

Lemma doubleEsc_nil s : s <> [] -> doubleEsc s <> [].
Proof.
  destruct s as [|c s]; [congruence|]. intros _. simpl.
  destruct (c =? ESC)%Z; discriminate.
Qed.

Lemma last_doubleEsc : forall s, last (doubleEsc s) 0%Z = last s 0%Z.
Proof.
  induction s as [|c s IH]; [reflexivity|].
  destruct s as [|d s].
  - simpl. destruct (Z.eqb_spec c ESC) as [->|Hc]; reflexivity.
  - assert (Hne : doubleEsc (d :: s) <> []) by (apply doubleEsc_nil; discriminate).
    rewrite (last_cons c (d :: s)) by discriminate.
    rewrite <- IH. cbn [doubleEsc] in *.
    destruct (c =? ESC)%Z; rewrite ?last_cons; auto; discriminate.
Qed.

Lemma charIs_last a s b c :
  s <> [] ->
  charIs (a ++ s ++ b) (length a + length s - 1) c = (last s 0 =? c)%Z.
Proof.
  intros Hs. destruct (exists_last Hs) as (s' & x & ->).
  rewrite last_last, length_app. simpl.
  replace (length a + (length s' + 1) - 1) with (length a + length s') by lia.
  rewrite charIs_app_r. rewrite <- app_assoc.
  rewrite <- (Nat.add_0_r (length s')). now rewrite charIs_app_r.
Qed.

Lemma noEsc_absent_tmux s : noEsc s = true -> absent TMUX_PASSTHROUGH_START s.
Proof.
  intros H k Ho. rewrite occursAt_nth in Ho.
  specialize (Ho 0 ltac:(simpl; lia)). rewrite Nat.add_0_r in Ho.
  exact (noEsc_nth s k H Ho).
Qed.

(** X: [unwrapTmuxPassthrough] takes a tmux wrapper off and undoes the
    doubling of the escape characters. *)
Lemma unwrap_wrapped pre inner post :
  noEsc pre = true -> noEsc post = true -> wrappable inner = true ->
  unwrapTmuxPassthrough (pre ++ tmuxWrap inner ++ post)
  = Some (pre ++ inner ++ post).
Proof.
  intros Hpre Hpost Hw. unfold wrappable in Hw.
  destruct inner as [|c0 [|d0 rest]]; try discriminate.
  apply andb_true_iff in Hw as [Hw Hl]. apply andb_true_iff in Hw as [Hc Hd].
  apply Z.eqb_eq in Hc. subst c0. apply negb_true_iff in Hd, Hl.
  set (r0 := d0 :: rest) in *.
  set (data := pre ++ tmuxWrap (ESC :: r0) ++ post).
  assert (Ed : data = (pre ++ TMUX_PASSTHROUGH_START)
                      ++ (ESC :: doubleEsc r0) ++ ST ++ post).
  { subst data. unfold tmuxWrap. cbn [doubleEsc]. rewrite Z.eqb_refl.
    rewrite <- !app_assoc. reflexivity. }
  assert (Hlen : length data
                 = length pre + 8 + (1 + length (doubleEsc r0)) + 2
                   + length post).
  { rewrite Ed, !length_app. simpl. lia. }
  unfold unwrapTmuxPassthrough. fold data. cbn [unwrapLoop].
  destruct (Nat.ltb_spec 0 (length data)) as [_|]; [|lia].
  rewrite (indexOf_first data TMUX_PASSTHROUGH_START 0 (length pre));
    [|lia|lia| |].
  2:{ rewrite Ed, <- app_assoc. rewrite <- (Nat.add_0_r (length pre)).
      apply occ_app_r. apply occ_head. }
  2:{ intros k _ Hk Ho. rewrite occursAt_nth in Ho.
      specialize (Ho 0 ltac:(simpl; lia)). rewrite Nat.add_0_r in Ho.
      subst data. rewrite nth_error_app1 in Ho by lia.
      exact (noEsc_nth pre k Hpre Ho). }
  change (length TMUX_PASSTHROUGH_START) with 8.
  (* the terminator *)
  assert (Hfind :
    findOuterTerminator (S (length data)) data (length pre + 8)
      (length pre + 8)
    = Some (Some (length pre + 8 + 1 + length (doubleEsc r0)))).
  { cbn [findOuterTerminator].
    destruct (Nat.ltb_spec (length pre + 8 + 1) (length data)); [|lia].
    assert (Hn : charIs data (length pre + 8 + 1) BACKSLASH = false).
    { rewrite Ed.
      replace (length pre + 8) with (length (pre ++ TMUX_PASSTHROUGH_START))
        by len.
      subst r0. cbn [doubleEsc].
      destruct (Z.eqb_spec d0 ESC) as [->|Hne]; cbn [app];
        rewrite charIs_next; [reflexivity | exact Hd]. }
    rewrite Hn, andb_false_r.
    apply (outer_terminator post (length pre + 8)
             (length r0) r0 ((pre ++ TMUX_PASSTHROUGH_START) ++ [ESC])
             (length data)
             (length pre + 8 + 1 + length (doubleEsc r0)) _ _ (le_n _)).
    - rewrite Ed. now rewrite <- !app_assoc.
    - len.
    - len.
    - len.
    - len.
    - replace (length pre + 8 + 1 + length (doubleEsc r0) - 1)
        with (length ((pre ++ TMUX_PASSTHROUGH_START) ++ [ESC])
              + length (doubleEsc r0) - 1) by len.
      rewrite Ed. cbn [app].
      rewrite (snoc_assoc (pre ++ TMUX_PASSTHROUGH_START) ESC).
      rewrite charIs_last.
      + rewrite last_doubleEsc.
        change (last (ESC :: r0) 0%Z) with (last r0 0%Z) in Hl. exact Hl.
      + subst r0. simpl. destruct (d0 =? ESC)%Z; discriminate.
    - lia. }
  rewrite Hfind.
  assert (Ein : substring data (length pre + 8)
                  (length pre + 8 + 1 + length (doubleEsc r0))
                = ESC :: doubleEsc r0).
  { replace (length pre + 8 + 1 + length (doubleEsc r0))
      with (length pre + 8 + length (ESC :: doubleEsc r0))
      by (simpl; lia).
    apply (substring_at (length pre + 8) data _ (ST ++ post)); [lia|].
    replace (length pre + 8)
      with (0 + length (pre ++ TMUX_PASSTHROUGH_START)) by len.
    apply skipn_at. rewrite Ed. reflexivity. }
  rewrite Ein, (proj2 (unescape_doubled r0)).
  assert (Epre : substring data 0 (length pre) = pre).
  { apply (substring_at 0 data pre (tmuxWrap (ESC :: r0) ++ post)); [lia|].
    reflexivity. }
  rewrite Epre. cbn [app].
  assert (Epost : skipn (length pre + 8 + 1 + length (doubleEsc r0) + 2) data
                  = post).
  { replace (length pre + 8 + 1 + length (doubleEsc r0) + 2)
      with (0 + length ((pre ++ TMUX_PASSTHROUGH_START)
                        ++ (ESC :: doubleEsc r0) ++ ST)) by len.
    apply skipn_at. rewrite Ed. cbn [skipn]. now rewrite <- !app_assoc. }
  assert (El : length data = S (length data - 1)) by lia.
  rewrite El at 1. cbn [unwrapLoop].
  destruct (Nat.ltb_spec (length pre + 8 + 1 + length (doubleEsc r0) + 2)
              (length data)) as [Hlt|Hge].
  - rewrite indexOf_absent; [|lia|].
    + unfold substringFrom. rewrite Epost. now rewrite <- app_assoc.
    + intros k Hk Ho.
      apply (noEsc_absent_tmux post Hpost
               (k - (length pre + 8 + 1 + length (doubleEsc r0) + 2))).
      rewrite <- Epost. apply occ_skipn.
      now replace (length pre + 8 + 1 + length (doubleEsc r0) + 2
                   + (k - (length pre + 8 + 1 + length (doubleEsc r0) + 2)))
        with k by lia.
  - assert (Hp0 : post = []) by (apply length_zero_iff_nil; lia).
    rewrite Hp0. now rewrite app_nil_r.
Qed.

(** X17.  A whole tmux wrapper is transparent when its content begins with an
    escape character that does not begin a terminator, as a frame does,
    and does not end with one, when the texts around it hold no escape
    character and the unwrapped text no wrapper start: the wrapper is
    unwrapped to its content, and [extract] reads the wrapped text as it
    reads the content in its place.  (The start marker the code looks for
    ends with the first escape character of the content.) *)
Theorem tmux_wrapper_is_transparent
    (p : Parser) (pre inner post : jsstring) :
  pendingData p = [] ->
  noEsc pre = true -> noEsc post = true -> wrappable inner = true ->
  includes (pre ++ inner ++ post) TMUX_PASSTHROUGH_START = false ->
  unwrapTmuxPassthrough (pre ++ tmuxWrap inner ++ post)
    = Some (pre ++ inner ++ post) /\
  extract p (pre ++ tmuxWrap inner ++ post)
    = extract p (pre ++ inner ++ post).
Proof.
  intros Hp Hpre Hpost Hw Hn.
  pose proof (unwrap_wrapped pre inner post Hpre Hpost Hw) as Hu.
  split; [exact Hu|].
  assert (Hi : includes (pre ++ tmuxWrap inner ++ post)
                 TMUX_PASSTHROUGH_START = true).
  { destruct (includes (pre ++ tmuxWrap inner ++ post)
                TMUX_PASSTHROUGH_START) eqn:E; [reflexivity|].
    apply includes_absent in E. exfalso. apply (E (length pre)).
    rewrite <- (Nat.add_0_r (length pre)). apply occ_app_r.
    unfold wrappable in Hw. destruct inner as [|c0 [|d0 rest]];
      try discriminate.
    apply andb_true_iff in Hw as [Hw _]. apply andb_true_iff in Hw as [Hc _].
    apply Z.eqb_eq in Hc. subst c0. unfold tmuxWrap. cbn [doubleEsc].
    rewrite Z.eqb_refl. rewrite <- !app_assoc.
    change (occursAt (TMUX_PASSTHROUGH_START
                      ++ (ESC :: doubleEsc (d0 :: rest)) ++ ST ++ post)
              TMUX_PASSTHROUGH_START 0).
    apply occ_head. }
  unfold extract. rewrite Hp. cbn [app]. now rewrite Hi, Hu, Hn.
Qed.

End TmuxProps.

(** *** Sample frames. *)

Module FrameSamples.
Import JS KittyParser KittyParserProps ExtractScanProps ExtractChunkProps
  TmuxProps.

Lemma extract_reads_every_frame_witness :
  exists r,
    extract newParser (framedText sampleSegments (str "z"))
      = Some (newParser, r) /\
    cleanedData r = concat (map fst sampleSegments) ++ str "z" /\
    Forall2 (fun c seg => parseSequence (snd seg) (startIndex c) (endIndex c)
                          = Some c) (commands r) sampleSegments /\
    hasGraphics r = negb (Nat.eqb (length sampleSegments) 0).
Proof.
  apply (extract_reads_every_frame newParser sampleSegments (str "z"));
    reflexivity.
Defined.

Lemma tmux_wrapper_is_transparent_witness :
  unwrapTmuxPassthrough
    (str "ab" ++ tmuxWrap (frame (str "a=T,f=100;AAAA")) ++ str "cd")
    = Some (str "ab" ++ frame (str "a=T,f=100;AAAA") ++ str "cd") /\
  extract newParser
    (str "ab" ++ tmuxWrap (frame (str "a=T,f=100;AAAA")) ++ str "cd")
    = extract newParser
        (str "ab" ++ frame (str "a=T,f=100;AAAA") ++ str "cd").
Proof.
  apply (tmux_wrapper_is_transparent newParser (str "ab")
           (frame (str "a=T,f=100;AAAA")) (str "cd"));
    reflexivity.
Defined.

End FrameSamples.

(** *** [parseControlData] and [parseSequence]. *)

Module ControlDataProps.
Import JS KittyParser KittyParserProps ExtractScanProps.
Import GraphicsStorageProps.

Lemma split_single sep : forall a, freeOf sep a -> split sep a = [a].
Proof.
  unfold freeOf. induction a as [|c a IH]; intros H; [reflexivity|].
  cbn [forallb] in H. apply andb_true_iff in H as [Hc H].
  apply negb_true_iff in Hc. cbn [split]. rewrite Hc, (IH H). reflexivity.
Qed.

Lemma split_app sep b : forall a,
  freeOf sep a -> split sep (a ++ sep :: b) = a :: split sep b.
Proof.
  unfold freeOf. induction a as [|c a IH]; intros H.
  - cbn [app split]. now rewrite Z.eqb_refl.
  - cbn [forallb] in H. apply andb_true_iff in H as [Hc H].
    apply negb_true_iff in Hc. cbn [app split]. rewrite Hc, (IH H).
    reflexivity.
Qed.

Lemma freeOf_app sep a b : freeOf sep (a ++ b) <-> freeOf sep a /\ freeOf sep b.
Proof. unfold freeOf. rewrite forallb_app. apply andb_true_iff. Qed.

Lemma freeOf_weaken (f : Z -> bool) sep s :
  (forall c, f c = true -> (c =? sep)%Z = false) ->
  forallb f s = true -> freeOf sep s.
Proof.
  intros Hf H. unfold freeOf. rewrite forallb_forall in *. intros c Hc.
  apply negb_true_iff, Hf, H, Hc.
Qed.

Lemma plainKey_free k :
  plainKey k = true ->
  k <> [] /\ freeOf 44 k /\ freeOf 61 k /\ freeOf 59 k.
Proof.
  unfold plainKey. intros H. apply andb_true_iff in H as [Hn H].
  split; [destruct k; [discriminate | discriminate]|].
  repeat split; (eapply freeOf_weaken; [|exact H]);
    intros c Hc; apply andb_true_iff in Hc as [Hc H3];
    apply andb_true_iff in Hc as [H1 H2];
    apply negb_true_iff; assumption.
Qed.

Lemma plainValue_free v :
  plainValue v = true -> freeOf 44 v /\ freeOf 59 v.
Proof.
  unfold plainValue. intros H.
  split; (eapply freeOf_weaken; [|exact H]);
    intros c Hc; apply andb_true_iff in Hc as [H1 H2];
    apply negb_true_iff; assumption.
Qed.

Lemma pairString_free sep kv :
  freeOf sep (fst kv) -> freeOf sep (snd kv) -> sep <> 61%Z ->
  freeOf sep (pairString kv).
Proof.
  intros H1 H2 Hs. unfold pairString. apply freeOf_app. split; [exact H1|].
  apply freeOf_app. split; [|exact H2].
  unfold freeOf. cbn [forallb]. rewrite andb_true_r. apply negb_true_iff.
  apply Z.eqb_neq. congruence.
Qed.

Lemma split_control : forall pairs,
  plainPairs pairs = true -> pairs <> [] ->
  split 44 (controlString pairs) = map pairString pairs.
Proof.
  induction pairs as [|kv pairs IH]; intros H Hne; [congruence|].
  cbn [plainPairs forallb] in H. apply andb_true_iff in H as [Hkv H].
  apply andb_true_iff in Hkv as [Hk Hv].
  apply plainKey_free in Hk as (_ & Hk & _).
  apply plainValue_free in Hv as (Hv & _).
  assert (Hp : freeOf 44 (pairString kv))
    by (apply pairString_free; [assumption | assumption | discriminate]).
  destruct pairs as [|kv' pairs].
  - cbn [controlString map]. now apply split_single.
  - change (controlString (kv :: kv' :: pairs))
      with (pairString kv ++ 44%Z :: controlString (kv' :: pairs)).
    rewrite split_app by exact Hp. cbn [map]. f_equal.
    apply IH; [exact H | discriminate].
Qed.

Lemma freeOf_nth sep s j : freeOf sep s -> nth_error s j <> Some sep.
Proof.
  unfold freeOf. intros H E. apply nth_error_In in E.
  rewrite forallb_forall in H. specialize (H _ E).
  rewrite Z.eqb_refl in H. discriminate.
Qed.

(** The first occurrence of a separator after a text free of it. *)
Lemma indexOf_sep sep k v :
  freeOf sep k -> indexOf (k ++ sep :: v) [sep] 0 = Some (length k).
Proof.
  intros Hk. apply indexOf_first; [lia | lia | |].
  - rewrite <- (Nat.add_0_r (length k)). apply occ_app_r.
    apply (occ_head [sep] v).
  - intros j _ Hj Ho. rewrite occursAt_nth in Ho.
    specialize (Ho 0 ltac:(simpl; lia)). rewrite Nat.add_0_r in Ho.
    rewrite nth_error_app1 in Ho by lia.
    exact (freeOf_nth sep k j Hk Ho).
Qed.

Lemma indexOf_no_sep sep s : freeOf sep s -> indexOf s [sep] 0 = None.
Proof.
  intros H. apply indexOf_absent; [lia|]. intros j _ Ho.
  rewrite occursAt_nth in Ho.
  specialize (Ho 0 ltac:(simpl; lia)). rewrite Nat.add_0_r in Ho.
  exact (freeOf_nth sep s j H Ho).
Qed.

Lemma substring_head k x : substring (k ++ x) 0 (length k) = k.
Proof.
  rewrite <- (Nat.add_0_l (length k)).
  apply (substring_at 0 (k ++ x) k x); [lia | reflexivity].
Qed.

Lemma skipn_head (k : jsstring) c v : skipn (length k + 1) (k ++ c :: v) = v.
Proof.
  replace (length k + 1) with (0 + length (k ++ [c]))
    by (rewrite length_app; reflexivity).
  apply skipn_at. cbn [skipn]. now rewrite <- app_assoc.
Qed.

Lemma readPair_plain params kv :
  plainKey (fst kv) = true ->
  readPair params (pairString kv) = paramsSet params (fst kv) (snd kv).
Proof.
  intros Hk. apply plainKey_free in Hk as (Hne & _ & H61 & _).
  unfold readPair, pairString. change (str "=") with [61%Z].
  cbn [app]. rewrite (indexOf_sep 61 (fst kv) (snd kv) H61).
  destruct (fst kv) as [|c k] eqn:Ek; [congruence|].
  cbn [length]. cbv zeta.
  change (S (length k)) with (length (c :: k)).
  rewrite substring_head. unfold substringFrom. now rewrite skipn_head.
Qed.

Lemma fold_pairs : forall pairs params,
  plainPairs pairs = true ->
  fold_left readPair (map pairString pairs) params
  = fold_left (fun m kv => paramsSet m (fst kv) (snd kv)) pairs params.
Proof.
  induction pairs as [|kv pairs IH]; intros params H; [reflexivity|].
  cbn [plainPairs forallb] in H. apply andb_true_iff in H as [Hkv H].
  apply andb_true_iff in Hkv as [Hk Hv].
  cbn [map fold_left]. rewrite readPair_plain by exact Hk. now apply IH.
Qed.

Lemma controlString_cons kv pairs :
  plainKey (fst kv) = true -> controlString (kv :: pairs) <> [].
Proof.
  intros Hk. apply plainKey_free in Hk as (Hne & _).
  destruct kv as [k v]. cbn [fst] in Hne.
  destruct k; [congruence|]. destruct pairs; discriminate.
Qed.

Lemma parseControlData_pairs pairs :
  plainPairs pairs = true ->
  parseControlData (controlString pairs)
  = fold_left (fun m kv => paramsSet m (fst kv) (snd kv)) pairs [].
Proof.
  intros H. destruct pairs as [|kv pairs]; [reflexivity|].
  pose proof H as H'. cbn [plainPairs forallb] in H'.
  apply andb_true_iff in H' as [Hkv _].
  apply andb_true_iff in Hkv as [Hk _].
  pose proof (controlString_cons kv pairs Hk) as Hne.
  unfold parseControlData.
  destruct (controlString (kv :: pairs)) as [|c0 s0] eqn:E; [congruence|].
  rewrite <- E, split_control by (exact H || discriminate).
  now apply fold_pairs.
Qed.

Lemma paramsGet_set params k v k' :
  paramsGet (paramsSet params k v) k'
  = if jsstring_eqb k k' then Some v else paramsGet params k'.
Proof.
  induction params as [|[k0 v0] params IH]; cbn [paramsSet paramsGet].
  - reflexivity.
  - destruct (jsstring_eqb k0 k) eqn:E0; cbn [paramsGet].
    + apply jsstring_eqb_spec in E0. subst k0.
      destruct (jsstring_eqb k k'); reflexivity.
    + destruct (jsstring_eqb k0 k') eqn:E1; [|exact IH].
      apply jsstring_eqb_spec in E1. subst k0.
      destruct (jsstring_eqb k k') eqn:E2; [|reflexivity].
      apply jsstring_eqb_spec in E2. subst k'.
      rewrite (proj2 (jsstring_eqb_spec k k) eq_refl) in E0. discriminate.
Qed.

Lemma find_snoc {A} (f : A -> bool) l x :
  find f (l ++ [x])
  = match find f l with
    | Some y => Some y
    | None => if f x then Some x else None
    end.
Proof.
  induction l as [|y l IH]; simpl; [reflexivity|].
  destruct (f y); [reflexivity | exact IH].
Qed.

Lemma paramsGet_fold k : forall pairs params,
  paramsGet (fold_left (fun m kv => paramsSet m (fst kv) (snd kv)) pairs params)
    k
  = match lastValue pairs k with
    | Some v => Some v
    | None => paramsGet params k
    end.
Proof.
  induction pairs as [|kv pairs IH]; intros params; [reflexivity|].
  cbn [fold_left]. rewrite IH, paramsGet_set.
  unfold lastValue. cbn [rev]. rewrite find_snoc.
  destruct (find _ (rev pairs)); [reflexivity|].
  destruct (jsstring_eqb (fst kv) k); reflexivity.
Qed.

Lemma controlString_free pairs :
  plainPairs pairs = true -> freeOf 59 (controlString pairs).
Proof.
  intros H. induction pairs as [|kv pairs IH]; [reflexivity|].
  cbn [plainPairs forallb] in H. apply andb_true_iff in H as [Hkv H].
  apply andb_true_iff in Hkv as [Hk Hv].
  apply plainKey_free in Hk as (_ & _ & _ & Hk).
  apply plainValue_free in Hv as (_ & Hv).
  assert (Hp : freeOf 59 (pairString kv))
    by (apply pairString_free; [assumption | assumption | discriminate]).
  destruct pairs as [|kv' pairs]; [exact Hp|].
  change (controlString (kv :: kv' :: pairs))
    with (pairString kv ++ [44%Z] ++ controlString (kv' :: pairs)).
  apply freeOf_app. split; [exact Hp|]. apply freeOf_app.
  split; [reflexivity | now apply IH].
Qed.

(** A body is cut at its first semicolon. *)
Lemma parseSequence_control ctl payload a b :
  freeOf 59 ctl ->
  parseSequence (ctl ++ 59%Z :: payload) a b
  = Some {| command := paramsToCommand (parseControlData ctl) payload;
            startIndex := a; endIndex := b |}.
Proof.
  intros Hfree. unfold parseSequence. change (str ";") with [59%Z].
  rewrite (indexOf_sep 59 _ payload Hfree).
  rewrite substring_head. unfold substringFrom. now rewrite skipn_head.
Qed.

Lemma paramsGet_pairs pairs k :
  plainPairs pairs = true ->
  paramsGet (parseControlData (controlString pairs)) k = lastValue pairs k.
Proof.
  intros H. rewrite parseControlData_pairs by exact H.
  rewrite paramsGet_fold. now destruct (lastValue pairs k).
Qed.

(** X18.  The body [k1=v1,...,kn=vn;payload] of a frame is read as a command
    made from a map in which every key has the value of its last pair,
    and from the payload. *)
Theorem frame_body_is_read
    (pairs : list (jsstring * jsstring)) (payload : jsstring) (a b : nat) :
  plainPairs pairs = true ->
  exists params,
    parseSequence (controlString pairs ++ 59%Z :: payload) a b
      = Some {| command := paramsToCommand params payload;
                startIndex := a; endIndex := b |} /\
    parseControlData (controlString pairs) = params /\
    forall k, paramsGet params k = lastValue pairs k.
Proof.
  intros H. exists (parseControlData (controlString pairs)).
  split; [|split; [reflexivity|]].
  - apply parseSequence_control. now apply controlString_free.
  - intros k. now apply paramsGet_pairs.
Qed.

Lemma frame_body_is_read_witness :
  exists params,
    parseSequence (controlString samplePairs ++ 59%Z :: str "AAAA") 3 20
      = Some {| command := paramsToCommand params (str "AAAA");
                startIndex := 3; endIndex := 20 |} /\
    parseControlData (controlString samplePairs) = params /\
    forall k, paramsGet params k = lastValue samplePairs k.
Proof.
  apply (frame_body_is_read samplePairs (str "AAAA") 3 20).
  vm_compute. reflexivity.
Defined.

End ControlDataProps.

(** *** Text that holds nothing for the manager. *)

Module PlainTextProps.
Import JS Regex KittyParser KittyParserProps RegexFacts ScanFacts
  EchoStripProps ExtractScanProps ExtractChunkProps TmuxProps.
Import ImageDecoder GraphicsStorage GraphicsManager.

Lemma bt_fail {R} r (k : jsstring -> option R) s :
  (forall a s', s = a ++ s' -> k s' = None) ->
  bt (fun c => c) r s k = None.
Proof.
  intros H. destruct (bt (fun c => c) r s k) as [v|] eqn:E; [|reflexivity].
  apply bt_suffix in E as (a & s' & -> & E). now rewrite (H a s' eq_refl) in E.
Qed.

Lemma bt_needs {R} c0 : forall r (k : jsstring -> option R) s,
  needs c0 r = true -> ~ In c0 s -> bt (fun c => c) r s k = None.
Proof.
  induction r as [c|r1 IH1 r2 IH2|r1 IH1 r2 IH2|r IH|cls|cls];
    intros k s Hn Hs; cbn [needs] in Hn; try discriminate.
  - cbn [bt]. destruct s as [|x s]; [reflexivity|].
    destruct (Z.eqb_spec x c) as [->|]; [|reflexivity].
    apply Z.eqb_eq in Hn. subst c0. exfalso. apply Hs. now left.
  - cbn [bt]. apply orb_true_iff in Hn as [Hn|Hn].
    + now apply IH1.
    + apply bt_fail. intros a s' ->. apply IH2; [exact Hn|].
      intros Hin. apply Hs. apply in_or_app. now right.
  - apply andb_true_iff in Hn as [H1 H2]. cbn [bt].
    rewrite IH1 by assumption. now apply IH2.
Qed.

Lemma untouched_without c0 (m : matcher Z) t :
  (forall s, ~ In c0 s -> m s = None) -> ~ In c0 t -> replaceAll m t = t.
Proof.
  intros Hm Ht. apply untouched. intros a s ->. apply Hm.
  intros Hin. apply Ht. apply in_or_app. now right.
Qed.

Lemma strip_without_semicolon t :
  ~ In 59%Z t -> stripEchoedResponses t = t.
Proof.
  intros H. unfold stripEchoedResponses, stripEchoedResponsesOn.
  rewrite (untouched_without 59 (matchDelete (fun c => c) withG) t);
    [| |exact H].
  2:{ intros s Hs. unfold matchDelete. now apply (bt_needs 59). }
  rewrite (untouched_without 59
             (matchKeepLast (fun c => c) framedHead framedErase) t);
    [| |exact H].
  2:{ intros s Hs. unfold matchKeepLast. now apply (bt_needs 59). }
  apply (untouched_without 59); [|exact H].
  intros s Hs. unfold matchDelete. now apply (bt_needs 59).
Qed.

Lemma placeholders_without_lead t :
  ~ In 56315%Z t -> stripUnicodePlaceholders t = t.
Proof.
  intros H. unfold stripUnicodePlaceholders.
  apply (untouched_without 56315); [|exact H].
  intros s Hs. unfold matchDelete. now apply (bt_needs 56315).
Qed.

Lemma plainText_spec t :
  plainText t = true ->
  noEsc t = true /\ ~ In 59%Z t /\ ~ In 56315%Z t.
Proof.
  unfold plainText, noEsc. intros H. rewrite forallb_forall in H.
  split; [|split].
  - apply forallb_forall. intros c Hc. specialize (H c Hc).
    apply andb_true_iff in H as [H _]. now apply andb_true_iff in H as [H _].
  - intros Hin. specialize (H _ Hin). discriminate.
  - intros Hin. specialize (H _ Hin). discriminate.
Qed.

Lemma noEsc_no_graphics t : noEsc t = true -> hasGraphicsSequence t = false.
Proof.
  intros H. unfold hasGraphicsSequence. apply orb_false_iff. split.
  - apply includes_absent. now apply absent_apc_plain.
  - apply includes_absent. now apply noEsc_absent_tmux.
Qed.

(** X21.  Text without escape character, semicolon and placeholder character
    passes through [processData] as it is, and the manager is not changed,
    when no frame is pending. *)
Theorem plain_text_passes_through
    (env : Env) (now : Z) (m : Manager) (t : jsstring) :
  hasPendingData (parser m) = false ->
  plainText t = true ->
  processData env now m t = Ok (m, t).
Proof.
  intros Hp Ht. apply plainText_spec in Ht as (He & Hs & Hl).
  unfold processData. destruct (enabled m); [|reflexivity]. cbn [negb].
  rewrite (strip_without_semicolon t Hs), (placeholders_without_lead t Hl).
  now rewrite (noEsc_no_graphics t He), Hp.
Qed.

Lemma plain_text_passes_through_witness :
  processData wasmEnv 5 (newManager noOptions true) (str "Good = i=4 OK")
  = Ok (newManager noOptions true, str "Good = i=4 OK").
Proof.
  apply plain_text_passes_through; vm_compute; reflexivity.
Defined.

End PlainTextProps.

(** *** [stripUnicodePlaceholders] and [hasGraphicsSequence]. *)

Module PlaceholderProps.
Import JS Regex KittyParser KittyParserProps RegexFacts ScanFacts
  EchoStripProps ExtractScanProps ExtractChunkProps TmuxProps PlainTextProps.

Lemma star_longest {R} cls (k : jsstring -> option R) rest v :
  (forall x r, rest = x :: r -> cls x = false) ->
  k rest = Some v ->
  forall d, forallb cls d = true ->
            star (fun c => c) cls (d ++ rest) k = Some v.
Proof.
  intros Hr Hk. induction d as [|x d IH]; intros Hd.
  - cbn [app]. destruct rest as [|y r]; [exact Hk|].
    cbn [star]. now rewrite (Hr y r eq_refl).
  - cbn [forallb] in Hd. apply andb_true_iff in Hd as [Hx Hd].
    cbn [app star]. rewrite Hx. now rewrite (IH Hd).
Qed.

Lemma placeholder_match marks rest :
  forallb isPlaceholderMark marks = true ->
  (forall x r, rest = x :: r -> isPlaceholderMark x = false) ->
  matchDelete (fun c => c) placeholderPattern (PLACEHOLDER ++ marks ++ rest)
  = Some (S (S (length marks)), []).
Proof.
  intros Hm Hr. unfold matchDelete, placeholderPattern, PLACEHOLDER.
  cbn [app bt]. rewrite !Z.eqb_refl.
  rewrite (star_longest isPlaceholderMark _ rest
             (length (56315%Z :: 57070%Z :: marks ++ rest) - length rest, [])
             Hr eq_refl marks Hm).
  f_equal. f_equal. cbn [length]. rewrite length_app. lia.
Qed.

Lemma placeholder_no_match x s :
  x <> 56315%Z ->
  matchDelete (fun c => c) placeholderPattern (x :: s) = None.
Proof.
  intros H. unfold matchDelete, placeholderPattern. cbn [bt].
  now rewrite (proj2 (Z.eqb_neq x 56315) H).
Qed.

Lemma placeholder_text_copied t s :
  forallb (fun c => negb (c =? 56315)%Z) t = true ->
  replaceLoop (matchDelete (fun c => c) placeholderPattern) 0 (t ++ s)
  = t ++ replaceLoop (matchDelete (fun c => c) placeholderPattern) 0 s.
Proof.
  intros H. apply copied. intros t1 y t2 E. apply placeholder_no_match.
  rewrite forallb_forall in H. intros ->.
  assert (Hin : In 56315%Z t) by (rewrite E; apply in_elt).
  specialize (H _ Hin). discriminate.
Qed.

Lemma skip_to {A} (m : matcher A) (a s : list A) :
  replaceLoop m (length a) (a ++ s) = replaceLoop m 0 s.
Proof.
  induction a as [|x a IH]; [now destruct s|]. cbn [length app replaceLoop].
  exact IH.
Qed.

(** X19.  [stripUnicodePlaceholders] takes every placeholder with its marks
    out of the text and leaves the text between them. *)
Theorem placeholders_are_removed
    (segs : list (jsstring * jsstring)) (tail : jsstring) :
  placeholdersApart segs tail = true ->
  stripUnicodePlaceholders (placeholderText segs tail)
  = concat (map fst segs) ++ tail.
Proof.
  unfold stripUnicodePlaceholders, replaceAll.
  induction segs as [|[t ms] segs IH]; intros H; cbn [placeholdersApart] in H.
  - cbn [placeholderText map concat app].
    rewrite <- (app_nil_r tail) at 1.
    rewrite placeholder_text_copied by exact H. cbn. apply app_nil_r.
  - apply andb_true_iff in H as [H H4]. apply andb_true_iff in H as [H H3].
    apply andb_true_iff in H as [H1 H2].
    cbn [placeholderText map concat fst].
    rewrite placeholder_text_copied by exact H1. rewrite <- app_assoc.
    f_equal. rewrite <- (IH H4).
    set (rest := placeholderText segs tail) in *.
    assert (Hr : forall x r, rest = x :: r -> isPlaceholderMark x = false).
    { intros x r E. rewrite E in H3. now apply negb_true_iff in H3. }
    pose proof (placeholder_match ms rest H2 Hr) as Hm.
    unfold PLACEHOLDER in *. cbn [app] in *. cbn [replaceLoop].
    rewrite Hm. cbn [app].
    change (57070%Z :: ms ++ rest) with ((57070%Z :: ms) ++ rest).
    change (S (length ms)) with (length (57070%Z :: ms)).
    apply skip_to.
Qed.

Lemma placeholders_are_removed_witness :
  stripUnicodePlaceholders
    (placeholderText [(str "ab", [773%Z; 781%Z]); ([], [])] (str "cd"))
  = str "abcd".
Proof.
  apply (placeholders_are_removed
           [(str "ab", [773%Z; 781%Z]); ([], [])] (str "cd")).
  reflexivity.
Defined.

(** X20.  A text without start marker and without tmux wrapper holds nothing
    for [extract]: it comes back as it is, with no command and nothing
    pending.  The test [hasGraphicsSequence] of [processData] skips such
    texts. *)
Theorem text_without_marker_is_kept (p : Parser) (data : jsstring) :
  pendingData p = [] ->
  hasGraphicsSequence data = false ->
  exists r,
    extract p data = Some (newParser, r) /\
    cleanedData r = data /\ commands r = [] /\ hasGraphics r = false.
Proof.
  intros Hp Hg. unfold hasGraphicsSequence in Hg.
  apply orb_false_iff in Hg as [Ha Ht].
  destruct (extract_scan p data data [] []) as (r & E & Hc & Hr & Hh & _).
  - now rewrite Hp.
  - rewrite Hp. constructor. now apply includes_absent.
  - exists r. split; [exact E|]. split; [exact Hc|].
    split; [|exact Hh]. unfold readFrom in Hr. now inversion Hr.
Qed.

Lemma text_without_marker_is_kept_witness :
  exists r,
    extract newParser (str "i=4;OK G") = Some (newParser, r) /\
    cleanedData r = str "i=4;OK G" /\ commands r = [] /\
    hasGraphics r = false.
Proof.
  apply (text_without_marker_is_kept newParser (str "i=4;OK G"));
    reflexivity.
Defined.

End PlaceholderProps.

(** *** When [handleTransmit] throws. *)

Module TransmitErrorProps.
Import JS KittyParser ImageDecoder ImageDecoderProps.
Import GraphicsStorage JSMapFacts GraphicsStorageProps GraphicsManager
  GraphicsManagerProps ImageLimitProps.
Local Open Scope Z_scope.
Local Open Scope js_scope.

Lemma more_false (cmd : KittyCommand) :
  orElse (more cmd) false = false <-> more cmd <> Some true.
Proof.
  destruct (more cmd) as [[|]|]; cbn; split; congruence.
Qed.

(** The manager and the ID [handleTransmit] goes on with. *)
Lemma transmit_id m cmd :
  exists m0,
    (match KittyParser.imageId cmd with
     | Some i => (i, m)
     | None =>
         match pendingChunkImageId m with
         | Some i => (i, m)
         | None => (Int (nextImageId m), withNextImageId m (nextImageId m + 1))
         end
     end) = (effectiveImageId m cmd, m0) /\
    storage m0 = storage m /\ parser m0 = parser m /\
    wasmWrites m0 = wasmWrites m /\ displayed m0 = displayed m.
Proof.
  unfold effectiveImageId.
  destruct (KittyParser.imageId cmd) as [i|];
    [|destruct (pendingChunkImageId m) as [i|]];
    eexists; (split; [reflexivity|]); repeat split.
Qed.

Lemma decodeAndStore_caught env now m cmd display i raw payload fmt w h c e :
  match decodeAndStore env now m cmd display i raw payload fmt w h c with
  | Throw _ => Ok m
  | r => r
  end <> Throw e.
Proof.
  destruct (decodeAndStore env now m cmd display i raw payload fmt w h c);
    discriminate.
Qed.

(** X22.  [handleTransmit] throws in one case only: the command ends a chunked
    transfer and the Base64 decoding of the buffered chunks fails; the
    error is the one of the decoding.  (A statement about thrown errors:
    it does not say that every other call returns.) *)
Theorem transmit_throws_only_from_chunks
    (env : Env) (now : Z) (m : Manager) (cmd : KittyCommand) (display : bool)
    (e : jserror) :
  handleTransmit env now m cmd display = Throw e <->
  more cmd <> Some true /\
  exists buffer,
    JSMap.get sameValueZero (chunkBuffers (storage m))
      (effectiveImageId m cmd) = Some buffer /\
    combineChunksToBytes (chunks buffer ++ [orElse (payload cmd) []])
      = Throw e.
Proof.
  unfold handleTransmit.
  destruct (transmit_id m cmd) as (m0 & -> & Hs & _).
  rewrite <- more_false.
  destruct (orElse (more cmd) false); [split; [discriminate | intros [? _]; discriminate]|].
  unfold withPendingChunkImageId, hasChunkBuffer, JSMap.has, getAndClearChunks.
  cbn [storage]. rewrite Hs.
  destruct (JSMap.get sameValueZero (chunkBuffers (storage m))
              (effectiveImageId m cmd)) as [buffer|] eqn:Eg.
  - destruct (combineChunksToBytes
                (chunks buffer ++ [orElse (payload cmd) []])) as [raw|e'|] eqn:Ec;
      cbn [bind].
    + split.
      * intros H. exfalso. revert H.
        destruct (orElse (payload cmd) []); apply decodeAndStore_caught.
      * intros (_ & b & [= <-] & Hc). congruence.
    + split.
      * intros [= ->]. split; [reflexivity|]. now exists buffer.
      * intros (_ & b & [= <-] & Hc). congruence.
    + split; [discriminate|]. intros (_ & b & [= <-] & Hc). congruence.
  - cbn [bind]. split.
    + intros H. exfalso. revert H.
      destruct (orElse (payload cmd) []);
        [discriminate | apply decodeAndStore_caught].
    + intros (_ & b & Hb & _). discriminate.
Qed.

End TransmitErrorProps.

(** *** [handleTransmit] and [handlePut] on the store. *)

Module TransmitPutProps.
Import JS KittyParser ImageDecoder ImageDecoderProps.
Import GraphicsStorage JSMapFacts GraphicsStorageProps GraphicsManager
  GraphicsManagerProps ImageLimitProps PlacementLimitProps PlacementMapProps
  TransmitErrorProps.
Local Open Scope Z_scope.
Local Open Scope js_scope.

(** What [storeImage] leaves in the map of images. *)
Lemma storeImage_images s i fmt w h d bm now s' img :
  storeImage s i fmt w h d bm now = Some (s', img) ->
  JSMap.get sameValueZero (images s') i = Some img /\
  id img = i /\ data img = d /\ GraphicsStorage.format img = fmt /\
  GraphicsStorage.width img = w /\ GraphicsStorage.height img = h /\
  GraphicsStorage.bitmap img = bm.
Proof.
  unfold storeImage. destruct (evictIfNeeded s _) as [s1|]; [|discriminate].
  intros [= <- <-]. split; [|cbn; auto 6].
  cbn [images setImages setAccessOrder setMemoryUsage].
  apply get_set_same, sameValueZero_spec.
Qed.

Lemma getImage_found s i now x :
  JSMap.get sameValueZero (images s) i = Some x ->
  snd (getImage s i now) = Some (touch x now) /\
  JSMap.get sameValueZero (images (fst (getImage s i now))) i
  = Some (touch x now).
Proof.
  intros E. unfold getImage. rewrite E. cbn [fst snd].
  split; [reflexivity|].
  match goal with
  | |- context [if ?b then _ else _] => destruct b
  end; cbn [images setImages setAccessOrder];
    apply get_set_same, sameValueZero_spec.
Qed.

(** X23.  When the store was reached from a new one by operations with
    numbered IDs, a transmitted payload that decodes is stored under the
    ID of the command, of the transfer under way or the next free one,
    whether the command also displays the image or not, and [getImage]
    returns it with the decoded bytes and size. *)
Theorem transmitted_image_is_stored
    (options : GraphicsOptions) (ops : list StorageOp)
    (env : Env) (now now' : Z) (m : Manager) (cmd : KittyCommand)
    (display : bool) (c : Z) (p : jsstring) (d : DecodeResult) :
  forallb storesNumberedImage ops = true ->
  runOps (newStorage options) ops = Some (storage m) ->
  more cmd <> Some true ->
  payload cmd = Some (c :: p) ->
  hasChunkBuffer (storage m) (effectiveImageId m cmd) = false ->
  isInt (effectiveImageId m cmd) = true ->
  decode (browser env) (c :: p) (numOr (KittyParser.format cmd) 32)
    (KittyParser.width cmd) (KittyParser.height cmd)
    (KittyParser.compression cmd) = Ok d ->
  exists m' img,
    handleTransmit env now m cmd display = Ok m' /\
    snd (getImage (storage m') (effectiveImageId m cmd) now') = Some img /\
    id img = effectiveImageId m cmd /\
    data img = ImageDecoder.data d /\
    GraphicsStorage.width img = ImageDecoder.width d /\
    GraphicsStorage.height img = ImageDecoder.height d /\
    GraphicsStorage.format img = numOr (KittyParser.format cmd) 32 /\
    GraphicsStorage.bitmap img = Some (ImageDecoder.bitmap d) /\
    lastAccessed img = now' /\
    pendingChunkImageId m' = None.
Proof.
  intros Hops Er Hmore Hp Hb Hi Hd.
  pose proof (reachable_consistent _ _ _ Hops Er) as Hc.
  apply more_false in Hmore.
  unfold handleTransmit.
  destruct (transmit_id m cmd) as (m0 & -> & Hs & _).
  rewrite Hmore, Hp. cbn [orElse].
  unfold withPendingChunkImageId. cbn [storage]. rewrite Hs, Hb. cbn [bind].
  unfold sendResponse, decodeAndStore. rewrite Hd. cbn [bind storage].
  destruct (storeImage_total (storage m) (effectiveImageId m cmd)
              (numOr (KittyParser.format cmd) 32)
              (ImageDecoder.width d) (ImageDecoder.height d)
              (ImageDecoder.data d) (Some (ImageDecoder.bitmap d)) now Hc Hi)
    as (st & img & Est & _).
  rewrite Est.
  destruct (storeImage_images _ _ _ _ _ _ _ _ _ _ Est)
    as (Hg & H0 & H1 & H2 & H3 & H4 & H5).
  assert (Hfin : forall (m' : Manager) x,
            JSMap.get sameValueZero (images (storage m'))
              (effectiveImageId m cmd) = Some x ->
            id x = id img -> data x = data img ->
            GraphicsStorage.width x = GraphicsStorage.width img ->
            GraphicsStorage.height x = GraphicsStorage.height img ->
            GraphicsStorage.format x = GraphicsStorage.format img ->
            GraphicsStorage.bitmap x = GraphicsStorage.bitmap img ->
            pendingChunkImageId m' = None ->
            exists m1 img1,
              Ok m' = Ok m1 /\
              snd (getImage (storage m1) (effectiveImageId m cmd) now')
                = Some img1 /\
              id img1 = effectiveImageId m cmd /\
              data img1 = ImageDecoder.data d /\
              GraphicsStorage.width img1 = ImageDecoder.width d /\
              GraphicsStorage.height img1 = ImageDecoder.height d /\
              GraphicsStorage.format img1 = numOr (KittyParser.format cmd) 32 /\
              GraphicsStorage.bitmap img1 = Some (ImageDecoder.bitmap d) /\
              lastAccessed img1 = now' /\
              pendingChunkImageId m1 = None).
  { intros m' x Hx E0 E1 E2 E3 E4 E5 Ep. exists m', (touch x now').
    split; [reflexivity|].
    split; [exact (proj1 (getImage_found _ _ now' _ Hx))|].
    cbn [touch id data GraphicsStorage.width GraphicsStorage.height
         GraphicsStorage.format GraphicsStorage.bitmap lastAccessed].
    repeat split; congruence. }
  destruct display; [destruct (hasImageDisplayCallback env)|].
  - apply (Hfin _ img); [exact Hg | reflexivity ..].
  - unfold createPlacement. cbn [storage withStorage]. rewrite H0.
    destruct (getImage_found st (effectiveImageId m cmd) now img Hg)
      as [Hsnd Hget].
    destruct (getImage st (effectiveImageId m cmd) now) as [st1 o] eqn:Egi.
    cbn [fst snd] in Hsnd, Hget. subst o.
    apply (Hfin _ (touch img now)); try reflexivity.
    cbn [storage withStorage withNeedsRender].
    rewrite (proj1 (setPlacement_same st1 _)). exact Hget.
  - apply (Hfin _ img); [exact Hg | reflexivity ..].
Qed.

Lemma transmitted_image_is_stored_witness :
  exists m' img,
    handleTransmit sampleEnv 10 (newManager noOptions true) onePixelTransmit
      true = Ok m' /\
    snd (getImage (storage m') (Int 7) 20) = Some img /\
    id img = Int 7 /\ data img = [1; 2; 3; 4] /\
    GraphicsStorage.width img = 1 /\ GraphicsStorage.height img = 1 /\
    GraphicsStorage.format img = 32 /\
    GraphicsStorage.bitmap img
      = Some {| bitmapWidth := 1; bitmapHeight := 1 |} /\
    lastAccessed img = 20 /\
    pendingChunkImageId m' = None.
Proof.
  apply (transmitted_image_is_stored noOptions [] sampleEnv 10 20
           (newManager noOptions true) onePixelTransmit true 65
           (str "QIDBA==")
           {| ImageDecoder.bitmap := {| bitmapWidth := 1; bitmapHeight := 1 |};
              ImageDecoder.data := [1; 2; 3; 4];
              ImageDecoder.width := 1; ImageDecoder.height := 1;
              ImageDecoder.byteSize := 4 |}).
  - reflexivity.
  - reflexivity.
  - discriminate.
  - reflexivity.
  - reflexivity.
  - reflexivity.
  - vm_compute. reflexivity.
Defined.

(** X24.  [handlePut] on an image that is not stored changes nothing; on a
    stored image it sets a placement that [getPlacement] returns under the
    key made of the two IDs, at the cell of the command or else at the
    cursor. *)
Theorem put_places_a_stored_image
    (env : Env) (now : Z) (m : Manager) (cmd : KittyCommand) (i : jsnum) :
  KittyParser.imageId cmd = Some i ->
  let pid := orElse (KittyParser.placementId cmd)
                    (Int (and32 now 16777215)) in
  let m' := handlePut env now m cmd in
  (hasImage (storage m) i = false -> m' = m) /\
  (hasImage (storage m) i = true ->
   exists pl,
     getPlacement (storage m') (placementKey i pid) = Some pl /\
     GraphicsStorage.imageId pl = i /\
     GraphicsStorage.placementId pl = pid /\
     bufferRow pl = orElse (cellY cmd) (Int (fst (cursorNow env m))) /\
     bufferCol pl = orElse (cellX cmd) (Int (snd (cursorNow env m))) /\
     zIndex pl = orElse (KittyParser.zIndex cmd) (Int 0) /\
     JSMap.get sameValueZero (images (storage m')) i = Some (image pl) /\
     needsRender m' = true).
Proof.
  intros Hi pid m'. split.
  - intros H. subst m'. unfold handlePut. now rewrite Hi, H.
  - intros H. pose proof H as H'. unfold hasImage, JSMap.has in H'.
    destruct (JSMap.get sameValueZero (images (storage m)) i) as [img|] eqn:Eg;
      [|discriminate].
    assert (E : exists st, getImage (storage m) i now = (st, Some (touch img now))).
    { unfold getImage. rewrite Eg. eexists. reflexivity. }
    destruct E as [st E].
    subst m'. unfold handlePut, sendResponse, createPlacement.
    rewrite Hi, H. cbn [negb]. rewrite E.
    eexists. split; [|split; [|split; [|split; [|split; [|split; [|split]]]]]].
    + unfold getPlacement. cbn [storage withStorage withNeedsRender].
      apply setPlacement_get.
    + reflexivity.
    + reflexivity.
    + reflexivity.
    + reflexivity.
    + reflexivity.
    + cbn [storage withStorage withNeedsRender image].
      rewrite (proj1 (setPlacement_same st _)).
      unfold getImage in E. rewrite Eg in E.
      assert (Est : images st
                    = JSMap.set sameValueZero (images (storage m)) i
                        (touch img now)).
      { revert E.
        match goal with
        | |- context [if ?b then _ else _] => destruct b
        end; intros [= <-]; reflexivity. }
      rewrite Est. apply get_set_same, sameValueZero_spec.
    + reflexivity.
Qed.

Lemma put_places_a_stored_image_witness :
  exists m1 pl,
    handleTransmit sampleEnv 10 (newManager noOptions true) onePixelTransmit
      false = Ok m1 /\
    getPlacement (storage (handlePut sampleEnv 11 m1 onePixelPut))
      (str "7:2") = Some pl /\
    GraphicsStorage.imageId pl = Int 7 /\
    GraphicsStorage.placementId pl = Int 2 /\
    bufferRow pl = Int 3 /\ bufferCol pl = Int 5.
Proof.
  let r := eval vm_compute in
      (handleTransmit sampleEnv 10 (newManager noOptions true)
         onePixelTransmit false) in
  match r with
  | Ok ?x =>
      exists x;
      destruct (put_places_a_stored_image sampleEnv 11 x onePixelPut (Int 7)
                  eq_refl) as [_ H]
  end.
  destruct (H eq_refl) as (pl & H1 & H2 & H3 & H4 & H5 & _).
  exists pl. split; [vm_compute; reflexivity|].
  split; [exact H1|]. split; [exact H2|]. split; [exact H3|].
  split; [exact H4 | exact H5].
Defined.

End TransmitPutProps.

(** *** A transfer in chunks. *)

Module ChunkedTransferProps.
Import JS KittyParser ImageDecoder ImageDecoderProps.
Import GraphicsStorage JSMapFacts GraphicsStorageProps GraphicsManager
  GraphicsManagerProps ImageLimitProps PlacementLimitProps PlacementMapProps
  RowIndexProps ChunkBufferProps TransmitErrorProps TransmitPutProps.
Local Open Scope Z_scope.
Local Open Scope js_scope.








Lemma transmit_throws_only_from_chunks_witness :
  exists m1,
    handleTransmit sampleEnv 10 (newManager noOptions true)
      (chunkOf onePixelTransmit (str "=") true) false = Ok m1 /\
    handleTransmit sampleEnv 11 m1 (chunkOf onePixelTransmit [] false) false
      = Throw RangeError.
Proof.
  let r := eval vm_compute in
      (handleTransmit sampleEnv 10 (newManager noOptions true)
         (chunkOf onePixelTransmit (str "=") true) false) in
  match r with
  | Ok ?x =>
      exists x; split; [vm_compute; reflexivity|];
      apply (proj2 (transmit_throws_only_from_chunks sampleEnv 11 x
                      (chunkOf onePixelTransmit [] false) false RangeError))
  end.
  split; [discriminate|].
  eexists. split; [vm_compute; reflexivity | vm_compute; reflexivity].
Defined.

End ChunkedTransferProps.

(** *** Placement keys and responses. *)

Module ResponseProps.
Import JS Regex KittyParser KittyParserProps RegexFacts ScanFacts
  EchoStripProps.
Import ImageDecoder GraphicsStorage GraphicsManager PlainTextProps.

(** *** Numbers in decimal *)

Lemma uintCodes_digits u : forallb isDigit (uintCodes u) = true.
Proof. induction u; simpl; auto. Qed.

Lemma uintCodes_inj : forall u u', uintCodes u = uintCodes u' -> u = u'.
Proof.
  induction u; destruct u'; simpl; intros H; try discriminate;
    try reflexivity; injection H as H; f_equal; auto.
Qed.

Lemma numToString_chars n :
  forallb (fun c => isDigit c || (c =? 45)%Z || (c =? 78)%Z || (c =? 97)%Z)
    (numToString n) = true.
Proof.
  assert (H : forall u,
            forallb (fun c => isDigit c || (c =? 45)%Z || (c =? 78)%Z
                              || (c =? 97)%Z) (uintCodes u) = true).
  { induction u; simpl; auto. }
  destruct n as [|z]; [reflexivity|]. unfold numToString.
  destruct (Z.to_int z); [apply H|]. cbn [forallb]. now rewrite H.
Qed.

Lemma numToString_inj n n' : numToString n = numToString n' -> n = n'.
Proof.
  assert (Hd : forall u, uintCodes u <> 78%Z :: 97%Z :: [78%Z]).
  { intros u H. pose proof (uintCodes_digits u) as D. rewrite H in D.
    discriminate. }
  assert (Hm : forall u u', uintCodes u <> 45%Z :: uintCodes u').
  { intros u u' H. pose proof (uintCodes_digits u) as D. rewrite H in D.
    discriminate. }
  destruct n as [|z], n' as [|z']; unfold numToString; try reflexivity.
  - change (str "NaN") with [78%Z; 97%Z; 78%Z].
    destruct (Z.to_int z'); intros H; [symmetry in H; now apply Hd in H|].
    discriminate.
  - change (str "NaN") with [78%Z; 97%Z; 78%Z].
    destruct (Z.to_int z); intros H; [now apply Hd in H | discriminate].
  - intros H. f_equal. rewrite <- (DecimalZ.of_to z), <- (DecimalZ.of_to z').
    f_equal.
    destruct (Z.to_int z) as [u|u], (Z.to_int z') as [u'|u'].
    + f_equal. now apply uintCodes_inj.
    + now apply Hm in H.
    + symmetry in H. now apply Hm in H.
    + injection H as H. f_equal. now apply uintCodes_inj.
Qed.

Lemma split_at_colon : forall a a' b b' : jsstring,
  ~ In 58%Z a -> ~ In 58%Z a' ->
  a ++ 58%Z :: b = a' ++ 58%Z :: b' -> a = a' /\ b = b'.
Proof.
  induction a as [|x a IH]; intros [|x' a'] b b' Ha Ha' H; cbn [app] in H.
  - injection H as ->. now split.
  - injection H as <- _. exfalso. apply Ha'. now left.
  - injection H as -> _. exfalso. apply Ha. now left.
  - injection H as -> H. destruct (IH a' b b') as [-> ->]; auto.
    + intros Hin. apply Ha. now right.
    + intros Hin. apply Ha'. now right.
Qed.

Lemma numToString_no_colon n : ~ In 58%Z (numToString n).
Proof.
  intros Hin. pose proof (numToString_chars n) as H.
  rewrite forallb_forall in H. specialize (H _ Hin). discriminate.
Qed.

Lemma placementKey_inj (i p i' p' : jsnum) :
  placementKey i p = placementKey i' p' -> i = i' /\ p = p'.
Proof.
  unfold placementKey. change (str ":") with [58%Z]. cbn [app]. intros H.
  apply split_at_colon in H as [H1 H2]; try apply numToString_no_colon.
  split; now apply numToString_inj.
Qed.

(** X26.  The key of a placement tells the image and the placement: two pairs
    of IDs have the same key only when they are the same pair. *)
Theorem placement_keys_are_distinct (i p i' p' : jsnum) :
  placementKey i p = placementKey i' p' <-> i = i' /\ p = p'.
Proof.
  split; [apply placementKey_inj | now intros [-> ->]].
Qed.

Lemma placement_keys_are_distinct_witness :
  placementKey (Int 1) (Int 23) <> placementKey (Int 12) (Int 3).
Proof.
  intros H.
  apply (proj1 (placement_keys_are_distinct (Int 1) (Int 23) (Int 12)
                  (Int 3))) in H.
  destruct H as [H _]. discriminate H.
Defined.

Lemma count_digits n :
  isCount n = true ->
  numToString n <> [] /\ forallb isDigit (numToString n) = true.
Proof.
  destruct n as [|z]; [discriminate|]. cbn [isCount]. intros H.
  apply andb_true_iff in H as [H _]. apply Z.leb_le in H. unfold numToString.
  destruct z as [|q|q]; [split; [discriminate | reflexivity] | | lia].
  cbn [Z.to_int]. split; [|apply uintCodes_digits].
  intros E. apply (Unsigned.to_uint_nonnil q).
  destruct (Pos.to_uint q); try discriminate. reflexivity.
Qed.

(** *** The first pattern on a whole response *)

Section Steps.
Context {R : Type}.
Implicit Types (k : jsstring -> option R) (s : jsstring).

Lemma bt_seq r1 r2 s k :
  bt (fun c => c) (Seq r1 r2) s k
  = bt (fun c => c) r1 s (fun s1 => bt (fun c => c) r2 s1 k).
Proof. reflexivity. Qed.

Lemma bt_chr c s k : bt (fun c => c) (Chr c) (c :: s) k = k s.
Proof. cbn [bt]. now rewrite Z.eqb_refl. Qed.

Lemma bt_chr_other c x s k :
  x <> c -> bt (fun c => c) (Chr c) (x :: s) k = None.
Proof. intros H. cbn [bt]. now rewrite (proj2 (Z.eqb_neq x c) H). Qed.

Lemma bt_opt_some r s k v :
  bt (fun c => c) r s k = Some v -> bt (fun c => c) (Opt r) s k = Some v.
Proof. intros H. cbn [bt]. now rewrite H. Qed.

Lemma bt_opt_none r s k :
  bt (fun c => c) r s k = None -> bt (fun c => c) (Opt r) s k = k s.
Proof. intros H. cbn [bt]. now rewrite H. Qed.

Lemma bt_alt_l r1 r2 s k v :
  bt (fun c => c) r1 s k = Some v ->
  bt (fun c => c) (Alt r1 r2) s k = Some v.
Proof. intros H. cbn [bt]. now rewrite H. Qed.

Lemma bt_alt_r r1 r2 s k :
  bt (fun c => c) r1 s k = None ->
  bt (fun c => c) (Alt r1 r2) s k = bt (fun c => c) r2 s k.
Proof. intros H. cbn [bt]. now rewrite H. Qed.

Lemma bt_literal l s k :
  l <> [] -> bt (fun c => c) (lit l) (l ++ s) k = k s.
Proof. intros H. apply bt_lit; [exact H | apply map_id]. Qed.

Lemma star_all cls k : forall d v,
  forallb cls d = true -> k [] = Some v ->
  star (fun c => c) cls d k = Some v.
Proof.
  induction d as [|x d IH]; intros v Hd Hk; [exact Hk|].
  cbn [forallb] in Hd. apply andb_true_iff in Hd as [Hx Hd].
  cbn [star]. rewrite Hx. now rewrite (IH v Hd Hk).
Qed.

Lemma digits_then d rest k v :
  d <> [] -> forallb isDigit d = true ->
  (forall x r, rest = x :: r -> isDigit x = false) ->
  (forall x s, isDigit x = true -> k (x :: s) = None) ->
  k rest = Some v ->
  bt (fun c => c) (Plus isDigit) (d ++ rest) k = Some v.
Proof.
  intros Hne Hd Hr Hk Hv.
  rewrite (plus_greedy (fun c => c) isDigit k rest Hk Hr d Hne); [exact Hv|].
  apply Forall_forall. rewrite forallb_forall in Hd. exact Hd.
Qed.

Lemma terminator_whole k v :
  k [] = Some v ->
  bt (fun c => c) reTerminator KITTY_GRAPHICS_END k = Some v.
Proof.
  intros Hk. unfold reTerminator. apply bt_opt_some, bt_alt_l.
  change KITTY_GRAPHICS_END with ([ESC; BACKSLASH] ++ []).
  rewrite bt_literal by discriminate. exact Hk.
Qed.

Lemma terminator_empty k : bt (fun c => c) reTerminator [] k = k [].
Proof. reflexivity. Qed.

Lemma status_whole status k v :
  (status = str "OK" \/
   exists msg, status = str "ENOENT:" ++ msg /\
               forallb notSpace msg = true) ->
  k [] = Some v ->
  bt (fun c => c) reStatus (status ++ KITTY_GRAPHICS_END)
    (fun s => bt (fun c => c) reTerminator s k) = Some v.
Proof.
  intros [->|(msg & -> & Hm)] Hk; unfold reStatus.
  - apply bt_alt_l. rewrite bt_literal by discriminate.
    now apply terminator_whole.
  - rewrite bt_alt_r.
    2:{ change (str "ENOENT:") with (69%Z :: str "NOENT:").
        change (str "OK") with (79%Z :: str "K"). cbn [app].
        apply bt_lit_head. discriminate. }
    rewrite bt_seq, <- app_assoc, bt_literal by discriminate.
    change (bt (fun c => c) (Star notSpace) (msg ++ KITTY_GRAPHICS_END)
              (fun s => bt (fun c => c) reTerminator s k))
      with (star (fun c => c) notSpace (msg ++ KITTY_GRAPHICS_END)
              (fun s => bt (fun c => c) reTerminator s k)).
    apply star_all.
    + rewrite forallb_app, Hm. reflexivity.
    + rewrite terminator_empty. exact Hk.
Qed.

(** From the semicolon to the end. *)
Lemma tail_whole status k v :
  (status = str "OK" \/
   exists msg, status = str "ENOENT:" ++ msg /\
               forallb notSpace msg = true) ->
  k [] = Some v ->
  bt (fun c => c) (Seq (Chr 59) (Seq reStatus reTerminator))
    (59%Z :: status ++ KITTY_GRAPHICS_END) k = Some v.
Proof.
  intros Hs Hk. rewrite bt_seq, bt_chr, bt_seq. now apply status_whole.
Qed.

Lemma tail_digit x s k :
  isDigit x = true ->
  bt (fun c => c) (Seq (Chr 59) (Seq reStatus reTerminator)) (x :: s) k = None.
Proof.
  intros Hx. rewrite bt_seq. apply bt_chr_other. intros ->. discriminate.
Qed.

(** From the placement part to the end. *)
Lemma placement_whole ppart status k v :
  (ppart = [] \/
   exists d, d <> [] /\ forallb isDigit d = true /\ ppart = str ",p=" ++ d) ->
  (status = str "OK" \/
   exists msg, status = str "ENOENT:" ++ msg /\
               forallb notSpace msg = true) ->
  k [] = Some v ->
  bt (fun c => c)
    (Seq (Opt rePlacementId) (Seq (Chr 59) (Seq reStatus reTerminator)))
    (ppart ++ 59%Z :: status ++ KITTY_GRAPHICS_END) k = Some v.
Proof.
  intros [->|(d & Hne & Hd & ->)] Hs Hk; rewrite bt_seq.
  - cbn [app]. rewrite bt_opt_none; [now apply tail_whole|].
    unfold rePlacementId. rewrite bt_seq.
    change (str ",p=") with (44%Z :: str "p=").
    apply bt_lit_head. discriminate.
  - apply bt_opt_some. unfold rePlacementId.
    rewrite bt_seq, <- app_assoc, bt_literal by discriminate.
    apply digits_then; [exact Hne | exact Hd | | |now apply tail_whole].
    + intros x r [= <- _]. reflexivity.
    + intros x s Hx. now apply tail_digit.
Qed.

Lemma placement_digit x s k :
  isDigit x = true ->
  bt (fun c => c)
    (Seq (Opt rePlacementId) (Seq (Chr 59) (Seq reStatus reTerminator)))
    (x :: s) k = None.
Proof.
  intros Hx. rewrite bt_seq, bt_opt_none; [now apply tail_digit|].
  unfold rePlacementId. rewrite bt_seq.
  change (str ",p=") with (44%Z :: str "p=").
  apply bt_lit_head. intros ->. discriminate.
Qed.

Lemma withG_response d ppart status k v :
  d <> [] -> forallb isDigit d = true ->
  (ppart = [] \/
   exists d', d' <> [] /\ forallb isDigit d' = true /\
              ppart = str ",p=" ++ d') ->
  (status = str "OK" \/
   exists msg, status = str "ENOENT:" ++ msg /\
               forallb notSpace msg = true) ->
  k [] = Some v ->
  bt (fun c => c) withG
    (KITTY_GRAPHICS_START ++ (str "i=" ++ d) ++ ppart ++ 59%Z :: status
     ++ KITTY_GRAPHICS_END) k = Some v.
Proof.
  intros Hne Hd Hp Hs Hk. unfold withG.
  rewrite bt_seq. apply bt_opt_some, bt_alt_l.
  change KITTY_GRAPHICS_START with ((ESC :: str "_") ++ [71%Z]).
  rewrite <- (app_assoc (ESC :: str "_") [71%Z]).
  rewrite bt_literal by discriminate.
  change ([71%Z] ++ (str "i=" ++ d) ++ ppart ++ 59%Z :: status
          ++ KITTY_GRAPHICS_END)
    with (71%Z :: (str "i=" ++ d) ++ ppart ++ 59%Z :: status
          ++ KITTY_GRAPHICS_END).
  rewrite bt_seq, bt_chr, bt_seq. apply bt_opt_some.
  unfold reImageId. rewrite bt_seq.
  rewrite <- (app_assoc (str "i=") d).
  rewrite bt_literal by discriminate.
  apply digits_then; [exact Hne | exact Hd | | |now apply placement_whole].
  - intros x r E. destruct Hp as [->|(d' & _ & _ & ->)];
      injection E as <- _; reflexivity.
  - intros x s Hx. now apply placement_digit.
Qed.

End Steps.

Lemma build_shape (r : KittyResponse) :
  echoable r = true ->
  exists d ppart status,
    buildKittyResponse r
    = KITTY_GRAPHICS_START ++ (str "i=" ++ d) ++ ppart ++ 59%Z :: status
      ++ KITTY_GRAPHICS_END /\
    d <> [] /\ forallb isDigit d = true /\
    (ppart = [] \/
     exists d', d' <> [] /\ forallb isDigit d' = true /\
                ppart = str ",p=" ++ d') /\
    (status = str "OK" \/
     exists msg, status = str "ENOENT:" ++ msg /\
                 forallb notSpace msg = true).
Proof.
  unfold echoable. intros H. apply andb_true_iff in H as [H Hs].
  apply andb_true_iff in H as [Hi Hp].
  destruct (respImageId r) as [i|] eqn:Ei; [|discriminate].
  destruct (count_digits i Hi) as [Hin Hid].
  set (status := if respOk r then str "OK"
                 else str "ENOENT:"
                      ++ match truthyStr (respMessage r) with
                         | Some message => message
                         | None => str "error"
                         end).
  assert (Hst : status = str "OK" \/
                exists msg, status = str "ENOENT:" ++ msg /\
                            forallb notSpace msg = true).
  { subst status. destruct (respOk r); [now left|]. right.
    eexists. split; [reflexivity | exact Hs]. }
  unfold buildKittyResponse. rewrite Ei. fold status.
  destruct (respPlacementId r) as [p|] eqn:Ep.
  - destruct (count_digits p Hp) as [Hpn Hpd].
    exists (numToString i), (str ",p=" ++ numToString p), status.
    split; [|split; [exact Hin|split; [exact Hid|split; [|exact Hst]]]].
    + change (str "i=" ++ numToString i)
        with (105%Z :: 61%Z :: numToString i).
      cbv iota. change (str ";") with [59%Z].
      now rewrite <- !app_assoc.
    + right. exists (numToString p). auto.
  - exists (numToString i), [], status.
    split; [|split; [exact Hin|split; [exact Hid|split; [now left|exact Hst]]]].
    change (str ";") with [59%Z]. reflexivity.
Qed.

Lemma skip_whole {A} (m : matcher A) : forall s,
  replaceLoop m (length s) s = replaceLoop m 0 [].
Proof.
  induction s as [|x s IH]; [reflexivity|]. cbn [length replaceLoop]. exact IH.
Qed.

(** X27.  A response [buildKittyResponse] makes for an image, with a success
    status or a message without whitespace, is removed as a whole by
    [stripEchoedResponses]. *)
Theorem built_response_is_stripped (r : KittyResponse) :
  echoable r = true -> stripEchoedResponses (buildKittyResponse r) = [].
Proof.
  intros H. destruct (build_shape r H) as (d & pp & st & E & Hne & Hd & Hp & Hs).
  assert (Hm : matchDelete (fun c => c) withG (buildKittyResponse r)
               = Some (length (buildKittyResponse r), [])).
  { unfold matchDelete. rewrite E at 1.
    apply withG_response; try assumption.
    cbn [length]. now rewrite Nat.sub_0_r. }
  unfold stripEchoedResponses, stripEchoedResponsesOn.
  assert (E1 : replaceAll (matchDelete (fun c => c) withG)
                 (buildKittyResponse r) = []).
  { unfold replaceAll. destruct (buildKittyResponse r) as [|x s] eqn:Eb.
    - rewrite E in Eb. discriminate.
    - cbn [replaceLoop]. rewrite Hm. cbn [length app].
      rewrite skip_whole. reflexivity. }
  rewrite E1. reflexivity.
Qed.

Lemma built_response_is_stripped_witness :
  stripEchoedResponses
    (buildKittyResponse {| respImageId := Some (Int 31);
                           respPlacementId := Some (Int 2);
                           respMessage := None; respOk := true |}) = [].
Proof. apply built_response_is_stripped. reflexivity. Defined.

End ResponseProps.

(** *** [processData] on texts and whole frames. *)

Module FrameHandlingProps.
Import JS Regex KittyParser KittyParserProps RegexFacts ScanFacts
  EchoStripProps ExtractScanProps ExtractChunkProps TmuxProps PlainTextProps.
Import ImageDecoder GraphicsStorage GraphicsManager.
Local Open Scope js_scope.

Lemma noStatus_suffix : forall a s, noStatus (a ++ s) = true -> noStatus s = true.
Proof.
  induction a as [|c a IH]; intros s H; [exact H|].
  cbn [app noStatus] in H. destruct (a ++ s) as [|d r] eqn:E.
  - destruct a; [|discriminate]. simpl in E. now subst s.
  - apply andb_true_iff in H as [_ H]. apply IH. now rewrite E.
Qed.

(** The semicolon and the status of a response do not match. *)
Lemma semicolon_status {R} s (k : jsstring -> option R) :
  noStatus s = true ->
  bt (fun c => c) (Chr 59%Z) s (fun s1 => bt (fun c => c) reStatus s1 k)
  = None.
Proof.
  intros H. destruct s as [|x [|d s]]; cbn [bt]; [reflexivity| |].
  - destruct (x =? 59)%Z; reflexivity.
  - cbn [noStatus] in H. apply andb_true_iff in H as [H _].
    destruct (x =? 59)%Z; [|reflexivity]. cbn [andb] in H.
    apply negb_true_iff, orb_false_iff in H as [H1 H2].
    unfold reStatus. change (str "OK") with [79%Z; 75%Z].
    change (str "ENOENT:") with [69%Z; 78%Z; 79%Z; 69%Z; 78%Z; 84%Z; 58%Z].
    cbn [lit fold_right map bt]. now rewrite H1, H2.
Qed.

Ltac skip_part :=
  apply bt_fail; let a := fresh "a" in let s' := fresh "s" in
  let H := fresh "H" in
  intros a s' ->;
  match goal with
  | Hn : noStatus (_ ++ _) = true |- _ => apply noStatus_suffix in Hn
  end.

Lemma response_no_status {R} s (k : jsstring -> option R) :
  noStatus s = true -> bt (fun c => c) reResponse s k = None.
Proof.
  intros H. unfold reResponse.
  change (bt (fun c => c) reImageId s
            (fun s1 => bt (fun c => c) (Opt rePlacementId) s1
               (fun s2 => bt (fun c => c) (Chr 59%Z) s2
                  (fun s3 => bt (fun c => c) reStatus s3 k))) = None).
  skip_part. skip_part. now apply semicolon_status.
Qed.

Lemma strip_no_status t : noStatus t = true -> stripEchoedResponses t = t.
Proof.
  intros H. unfold stripEchoedResponses, stripEchoedResponsesOn.
  assert (H1 : replaceAll (matchDelete (fun z => z) withG) t = t).
  { apply untouched. intros a s ->. apply noStatus_suffix in H.
    unfold matchDelete, withG.
    match goal with
    | |- bt _ (Seq ?o (Seq ?g (Seq ?i (Seq ?p (Seq ?sc (Seq ?st ?tm)))))) s ?k
         = None =>
        change (bt (fun z => z) o s
                  (fun s1 => bt (fun z => z) g s1
                     (fun s2 => bt (fun z => z) i s2
                        (fun s3 => bt (fun z => z) p s3
                           (fun s4 => bt (fun z => z) sc s4
                              (fun s5 => bt (fun z => z) st s5
                                 (fun s6 => bt (fun z => z) tm s6 k))))))
                = None)
    end.
    skip_part. skip_part. skip_part. skip_part.
    now apply semicolon_status. }
  rewrite H1.
  assert (H2 : replaceAll (matchKeepLast (fun z => z) framedHead framedErase) t
               = t).
  { apply untouched. intros a s ->. apply noStatus_suffix in H.
    unfold matchKeepLast, framedHead.
    match goal with
    | |- bt _ (Seq ?l (Seq ?d1 (Seq ?sc (Seq ?d2 (Seq ?h ?r))))) s ?k = None =>
        change (bt (fun z => z) l s
                  (fun s1 => bt (fun z => z) d1 s1
                     (fun s2 => bt (fun z => z) sc s2
                        (fun s3 => bt (fun z => z) d2 s3
                           (fun s4 => bt (fun z => z) h s4
                              (fun s5 => bt (fun z => z) r s5 k)))))
                = None)
    end.
    skip_part. skip_part. skip_part. skip_part. skip_part.
    now apply response_no_status. }
  rewrite H2.
  apply untouched. intros a s ->. apply noStatus_suffix in H.
  unfold matchDelete, bareResponse.
  match goal with
  | |- bt _ (Seq ?r ?tm) s ?k = None =>
      change (bt (fun z => z) r s (fun s1 => bt (fun z => z) tm s1 k) = None)
  end.
  now apply response_no_status.
Qed.

Lemma unstripped_spec t :
  unstripped t = true ->
  stripUnicodePlaceholders (stripEchoedResponses t) = t.
Proof.
  unfold unstripped. intros H. apply andb_true_iff in H as [H1 H2].
  rewrite (strip_no_status t H1). apply placeholders_without_lead.
  intros Hin. rewrite forallb_forall in H2. specialize (H2 _ Hin).
  discriminate.
Qed.

Lemma framed_has_marker t b segs tail :
  noEsc t = true ->
  hasGraphicsSequence (framedText ((t, b) :: segs) tail) = true.
Proof.
  intros Ht. unfold hasGraphicsSequence. apply orb_true_iff. left.
  destruct (includes _ APC_START) eqn:E; [reflexivity|]. exfalso.
  apply includes_absent in E. apply (E (length t)). cbn [framedText].
  unfold frame. rewrite <- (Nat.add_0_r (length t)). apply occ_app_r.
  rewrite <- app_assoc. apply occ_head.
Qed.

(** X28.  Without the callback that writes to the WASM terminal, [processData]
    on texts and whole frames in turn handles the command of every frame
    in order and returns the texts joined. *)
Theorem frames_are_handled_in_order
    (env : Env) (now : Z) (m : Manager)
    (segs : list (jsstring * jsstring)) (tail : jsstring) :
  enabled m = true ->
  pendingData (parser m) = [] ->
  hasWriteToWasmCallback env = false ->
  segs <> [] ->
  forallb (fun seg => noEsc (fst seg) && noEsc (snd seg)) segs = true ->
  noEsc tail = true ->
  unstripped (framedText segs tail) = true ->
  exists cmds,
    Forall2 (fun c seg => parseSequence (snd seg) (startIndex c) (endIndex c)
                          = Some c) cmds segs /\
    processData env now m (framedText segs tail)
    = (m' <- handleAll env now (withParser m newParser) cmds ;;
       Ok (m', concat (map fst segs) ++ tail)).
Proof.
  intros He Hp Hw Hne Hs Ht Hu.
  destruct (extract_scan (parser m) (framedText segs tail)
              (concat (map fst segs) ++ tail) (map snd segs) [])
    as (r & Er & Hc & Hr & Hg & _).
  - rewrite Hp. apply escNotP_no_tmux. now apply escNotP_framed.
  - rewrite Hp. now apply framed_scans.
  - exists (commands r). split.
    + unfold readFrom in Hr. clear -Hr. revert Hr.
      generalize (commands r). induction segs as [|seg segs IH];
        intros cs H; inversion H; subst; constructor; auto.
    + unfold processData. rewrite He. cbn [negb].
      rewrite (unstripped_spec _ Hu).
      destruct segs as [|[t b] segs]; [congruence|].
      rewrite framed_has_marker.
      2:{ cbn [forallb fst] in Hs. apply andb_true_iff in Hs as [Hs _].
          now apply andb_true_iff in Hs as [Hs _]. }
      cbn [negb andb]. rewrite Er, Hg, Hw. cbn [length map Nat.eqb negb andb].
      now rewrite Hc.
Qed.

Lemma frames_are_handled_in_order_witness :
  exists cmds,
    Forall2 (fun c seg => parseSequence (snd seg) (startIndex c) (endIndex c)
                          = Some c) cmds putAndDelete /\
    processData sampleEnv 10 (newManager noOptions true)
      (framedText putAndDelete (str "z"))
    = (m' <- handleAll sampleEnv 10
               (withParser (newManager noOptions true) newParser) cmds ;;
       Ok (m', concat (map fst putAndDelete) ++ str "z")).
Proof.
  apply (frames_are_handled_in_order sampleEnv 10 (newManager noOptions true)
           putAndDelete (str "z")); try reflexivity.
  discriminate.
Defined.

End FrameHandlingProps.

(** *** [handleDelete]. *)

Module DeleteCommandProps.
Import JS KittyParser ImageDecoder ImageDecoderProps.
Import GraphicsStorage JSMapFacts GraphicsStorageProps GraphicsManager
  GraphicsManagerProps ImageLimitProps PlacementLimitProps PlacementMapProps
  TransmitErrorProps TransmitPutProps ResponseProps.
Local Open Scope Z_scope.
Local Open Scope js_scope.

(** X29.  The delete command for one placement ([d=p] or [d=P] with both IDs)
    removes the placement of these IDs and no other, and leaves the images
    alone. *)
Theorem delete_by_ids_removes_that_placement
    (options : GraphicsOptions) (ops : list StorageOp)
    (env : Env) (m : Manager) (cmd : KittyCommand) (i p : jsnum) :
  runOps (newStorage options) ops = Some (storage m) ->
  deleteTarget cmd = Some (str "p") \/ deleteTarget cmd = Some (str "P") ->
  KittyParser.imageId cmd = Some i ->
  KittyParser.placementId cmd = Some p ->
  let m' := handleDelete env m cmd in
  getPlacement (storage m') (placementKey i p) = None /\
  (forall i' p', (i', p') <> (i, p) ->
     getPlacement (storage m') (placementKey i' p')
     = getPlacement (storage m) (placementKey i' p')) /\
  sameImages (storage m) (storage m') /\
  needsRender m' = true.
Proof.
  intros Er Ht Hi Hp m'.
  pose proof (reachable_placements_distinct options ops _ Er) as Hn.
  assert (Es : storage m'
               = fst (removePlacement (storage m) (placementKey i p))).
  { subst m'. unfold handleDelete. rewrite Hi, Hp.
    destruct Ht as [-> | ->]; reflexivity. }
  destruct (removePlacement_placements (storage m) (placementKey i p))
    as [Hpl _].
  split; [|split; [|split]].
  - unfold getPlacement. rewrite Es, Hpl.
    apply get_delete_same; [apply jsstring_eqb_spec | exact Hn].
  - intros i' p' Hne. unfold getPlacement. rewrite Es, Hpl.
    apply get_delete_other; [apply jsstring_eqb_spec|].
    intros E. apply placementKey_inj in E as [-> ->]. now apply Hne.
  - rewrite Es. apply removePlacement_same.
  - reflexivity.
Qed.

Lemma delete_by_ids_removes_that_placement_witness :
  exists m1,
    handleTransmit sampleEnv 10 (newManager noOptions true) onePixelTransmit
      false = Ok m1 /\
    getPlacement (storage (handlePut sampleEnv 11 m1 onePixelPut))
      (str "7:2") <> None /\
    getPlacement
      (storage (handleDelete sampleEnv (handlePut sampleEnv 11 m1 onePixelPut)
                  deleteOnePlacement))
      (placementKey (Int 7) (Int 2)) = None.
Proof.
  let r := eval vm_compute in
      (handleTransmit sampleEnv 10 (newManager noOptions true)
         onePixelTransmit false) in
  match r with
  | Ok ?x =>
      exists x; split; [vm_compute; reflexivity|];
      split; [vm_compute; discriminate|];
      apply (delete_by_ids_removes_that_placement noOptions onePlacementOps
               sampleEnv (handlePut sampleEnv 11 x onePixelPut)
               deleteOnePlacement (Int 7) (Int 2))
  end.
  - vm_compute. reflexivity.
  - left. reflexivity.
  - reflexivity.
  - reflexivity.
Defined.

End DeleteCommandProps.

(** *** Numbers printed and read back. *)

Module NumericKeyProps.
Import JS KittyParser KittyParserProps ExtractScanProps ControlDataProps.
Import ImageDecoder GraphicsStorage GraphicsManager ResponseProps.

Ltac digit_step IH :=
  match goal with
  | |- digitsValue (?c :: _) _ _ = _ =>
      cbn [digitsValue]; change (isDigit c) with true; cbn iota
  end;
  match goal with
  | |- digitsValue _ ?a _ = (Z.pos ?p, _) =>
      replace a with (Z.pos p) by lia
  | |- digitsValue _ ?a _ = (Z.pos (Pos.of_uint_acc _ ?p), _) =>
      replace a with (Z.pos p) by lia
  end;
  rewrite IH; f_equal; lia.

Lemma digits_acc : forall u acc n,
  digitsValue (uintCodes u) (Z.pos acc) n
  = (Z.pos (Pos.of_uint_acc u acc), n + length (uintCodes u)).
Proof.
  induction u as [|u IH|u IH|u IH|u IH|u IH|u IH|u IH|u IH|u IH|u IH];
    intros acc n; cbn [uintCodes Pos.of_uint_acc length].
  - cbn [digitsValue]. f_equal. lia.
  - digit_step IH.
  - digit_step IH.
  - digit_step IH.
  - digit_step IH.
  - digit_step IH.
  - digit_step IH.
  - digit_step IH.
  - digit_step IH.
  - digit_step IH.
  - digit_step IH.
Qed.

Ltac first_digit :=
  match goal with
  | |- digitsValue (?c :: _) _ _ = _ =>
      cbn [digitsValue]; change (isDigit c) with true; cbn iota
  end;
  match goal with
  | |- digitsValue _ ?a _ = (Z.of_N (N.pos (Pos.of_uint_acc _ ?p)), _) =>
      replace a with (Z.pos p) by lia
  end;
  rewrite digits_acc; cbn [Z.of_N]; f_equal; lia.

Lemma digits_value : forall u n,
  digitsValue (uintCodes u) 0 n
  = (Z.of_N (Pos.of_uint u), n + length (uintCodes u)).
Proof.
  induction u as [|u IH|u IH|u IH|u IH|u IH|u IH|u IH|u IH|u IH|u IH];
    intros n; cbn [uintCodes Pos.of_uint length].
  - cbn [digitsValue]. f_equal. lia.
  - cbn [digitsValue]. change (isDigit 48) with true. cbn iota.
    replace (0 * 10 + (48 - 48))%Z with 0%Z by lia. rewrite IH. f_equal. lia.
  - first_digit.
  - first_digit.
  - first_digit.
  - first_digit.
  - first_digit.
  - first_digit.
  - first_digit.
  - first_digit.
  - first_digit.
Qed.

Lemma uintCodes_head u :
  match uintCodes u with
  | c :: _ => isDigit c = true
  | [] => u = Decimal.Nil
  end.
Proof. destruct u; reflexivity. Qed.

(** The digits of a positive number are read as the number. *)
Lemma parse_digits p :
  dropSpaces (uintCodes (Pos.to_uint p)) = uintCodes (Pos.to_uint p) /\
  exists k, digitsValue (uintCodes (Pos.to_uint p)) 0 0 = (Z.pos p, S k).
Proof.
  pose proof (uintCodes_head (Pos.to_uint p)) as Hh.
  pose proof (Unsigned.to_uint_nonnil p) as Hn.
  rewrite digits_value, DecimalPos.Unsigned.of_to. cbn [Z.of_N].
  destruct (uintCodes (Pos.to_uint p)) as [|c r]; [contradiction|].
  split; [|exists (length r); reflexivity].
  cbn [dropSpaces]. unfold isDigit in Hh. unfold isSpace.
  apply andb_true_iff in Hh as [H1 H2].
  apply Z.leb_le in H1. apply Z.leb_le in H2.
  repeat match goal with
  | |- context [(?a <=? ?b)%Z] => destruct (Z.leb_spec a b); try lia
  | |- context [(?a =? ?b)%Z] => destruct (Z.eqb_spec a b); try lia
  end; reflexivity.
Qed.

(** [parseInt] reads back what the template string prints. *)
Lemma parseInt_numToString n : parseInt (numToString n) = n.
Proof.
  destruct n as [|z]; [reflexivity|]. destruct z as [|p|p].
  - reflexivity.
  - unfold numToString. cbn [Z.to_int].
    destruct (parse_digits p) as (Hd & k & Hv). unfold parseInt.
    rewrite Hd. pose proof (uintCodes_head (Pos.to_uint p)) as Hh.
    destruct (uintCodes (Pos.to_uint p)) as [|c r] eqn:E.
    + now rewrite Hv.
    + unfold isDigit in Hh. apply andb_true_iff in Hh as [H1 H2].
      apply Z.leb_le in H1. apply Z.leb_le in H2.
      destruct (Z.eqb_spec c 45); [lia|].
      destruct (Z.eqb_spec c 43); [lia|].
      now rewrite Hv.
  - unfold numToString. cbn [Z.to_int].
    destruct (parse_digits p) as (_ & k & Hv). unfold parseInt.
    cbn [dropSpaces]. change (isSpace 45) with false. cbn iota.
    change (45 =? 45)%Z with true. cbn iota. now rewrite Hv.
Qed.

(** X30.  A numeric key of a frame whose last value is a safe integer
    printed in decimal, or [NaN], is read as that number, and a key that is
    absent leaves its field undefined. *)
Theorem decimal_keys_are_read
    (pairs : list (jsstring * jsstring)) (payload : jsstring) (a b : nat) :
  plainPairs pairs = true ->
  exists c,
    parseSequence (controlString pairs ++ 59%Z :: payload) a b = Some c /\
    Forall (fun kf =>
              (forall n, isSafeNumber n = true ->
                         lastValue pairs (str (fst kf))
                         = Some (numToString n) ->
                         snd kf (command c) = Some n) /\
              (lastValue pairs (str (fst kf)) = None ->
               snd kf (command c) = None))
      numericKeys.
Proof.
  intros H. eexists. split.
  - apply parseSequence_control. now apply controlString_free.
  - cbn [command]. unfold numericKeys.
    repeat constructor; cbn [fst snd]; unfold paramsToCommand;
      cbn [KittyParser.imageId KittyParser.imageNumber
           KittyParser.placementId KittyParser.format KittyParser.width
           KittyParser.height KittyParser.displayWidth
           KittyParser.displayHeight KittyParser.cellX KittyParser.cellY
           KittyParser.offsetX KittyParser.offsetY KittyParser.zIndex
           KittyParser.cursorMovement KittyParser.quiet];
      rewrite (paramsGet_pairs pairs _ H);
      try (intros n _ ->; cbn [option_map]; now rewrite parseInt_numToString);
      try (intros ->; reflexivity).
Qed.

Lemma decimal_keys_are_read_witness :
  exists c,
    parseSequence (controlString printedPairs ++ 59%Z :: []) 0 30 = Some c /\
    KittyParser.imageId (command c) = Some (Int 31) /\
    KittyParser.zIndex (command c) = Some (Int (-2)) /\
    KittyParser.placementId (command c) = Some (Int 0) /\
    KittyParser.format (command c) = None.
Proof.
  destruct (decimal_keys_are_read printedPairs [] 0 30 eq_refl)
    as (c & Hc & Hk).
  exists c. split; [exact Hc|].
  unfold numericKeys in Hk.
  repeat match goal with
  | H : Forall _ (_ :: _) |- _ => inversion H; clear H; subst
  end.
  cbn [fst snd] in *.
  repeat match goal with
  | H : _ /\ _ |- _ => destruct H
  end.
  repeat split; auto.
Defined.

End NumericKeyProps.
